(** * gx402: the tag-delimited codec, the streaming field extractor,
      the output-shape check, the selection fallbacks, the response
      reconciliation and the payment retry loop, embedded from the
      TypeScript sources (src/xml.ts, src/inference.ts, src/agent.ts,
      src/payments.ts). *)

From Stdlib Require Import String Ascii.
From Stdlib Require Import List NArith Arith Lia Bool.
From Stdlib Require Import Permutation Sorted.
Import ListNotations.

Set Implicit Arguments.
Set Warnings "-register-all".

(* ===================================================================== *)
(** * JavaScript strings *)
(* ===================================================================== *)

Module Js.

(** A JavaScript string is a sequence of UTF-16 code units.  The regular
    expressions of xml.ts carry no [u] flag, so they work on code units;
    [for (const char of chunk)] of inference.ts walks code points, but it
    only ever compares a character with ASCII characters and appends it
    to a buffer, which gives the same strings as walking code units. *)
Definition char := N.
Definition jsstring := list char.

(** String literals of the sources, written as Rocq strings. *)
Definition str (s : string) : jsstring :=
  List.map N_of_ascii (list_ascii_of_string s).
Arguments str s%_string : simpl never.

Definition ch_lt : char := 60%N.      (* '<' *)
Definition ch_gt : char := 62%N.      (* '>' *)
Definition ch_slash : char := 47%N.   (* '/' *)
Definition ch_dot : char := 46%N.     (* '.' *)
Definition ch_us : char := 95%N.      (* '_' *)
Definition ch_space : char := 32%N.   (* ' ' *)
Definition ch_nl : char := 10%N.      (* '\n' *)

Definition in_range (lo hi c : N) : bool := (lo <=? c)%N && (c <=? hi)%N.

(** [\s] of a JavaScript regular expression, which is also the set that
    [String.prototype.trim] strips: WhiteSpace and LineTerminator. *)
Definition is_space (c : char) : bool :=
  in_range 9 13 c || (c =? 32)%N || (c =? 160)%N || (c =? 5760)%N
  || in_range 8192 8202 c || (c =? 8232)%N || (c =? 8233)%N
  || (c =? 8239)%N || (c =? 8287)%N || (c =? 12288)%N || (c =? 65279)%N.

Definition is_digit (c : char) : bool := in_range 48 57 c.         (* \d *)
Definition is_alpha (c : char) : bool := in_range 97 122 c || in_range 65 90 c.
Definition is_word (c : char) : bool := is_alpha c || is_digit c || (c =? ch_us)%N.

Fixpoint eqb (a b : jsstring) : bool :=
  match a, b with
  | [], [] => true
  | x :: a', y :: b' => (x =? y)%N && eqb a' b'
  | _, _ => false
  end.

Fixpoint dropWhile (p : char -> bool) (s : jsstring) : jsstring :=
  match s with
  | [] => []
  | c :: s' => if p c then dropWhile p s' else s
  end.

Fixpoint takeWhile (p : char -> bool) (s : jsstring) : jsstring :=
  match s with
  | [] => []
  | c :: s' => if p c then c :: takeWhile p s' else []
  end.

Definition trimStart (s : jsstring) : jsstring := dropWhile is_space s.
Definition trimEnd (s : jsstring) : jsstring := rev (dropWhile is_space (rev s)).
(** [s.trim()] *)
Definition trim (s : jsstring) : jsstring := trimEnd (trimStart s).

(** [s.includes(c)] for a one-character needle. *)
Definition includes (c : char) (s : jsstring) : bool := existsb (N.eqb c) s.

(** [s.startsWith(p)] *)
Fixpoint startsWith (p s : jsstring) : bool :=
  match p, s with
  | [], _ => true
  | x :: p', y :: s' => (x =? y)%N && startsWith p' s'
  | _ :: _, [] => false
  end.

(** The first occurrence of the literal [pat] in [s]: the text before it
    and the text after it. *)
Fixpoint splitAt (pat s : jsstring) : option (jsstring * jsstring) :=
  if startsWith pat s then Some ([], skipn (length pat) s)
  else match s with
       | [] => None
       | c :: s' =>
           match splitAt pat s' with
           | Some (before, after) => Some (c :: before, after)
           | None => None
           end
       end.

(** A string or an array is non-empty. *)
Definition nonEmpty {A} (l : list A) : bool :=
  match l with [] => false | _ :: _ => true end.

(** [parts.join(sep)] *)
Fixpoint join (sep : jsstring) (parts : list jsstring) : jsstring :=
  match parts with
  | [] => []
  | [p] => p
  | p :: rest => p ++ sep ++ join sep rest
  end.

(** [String(n)] for a natural number below 10^21. *)
Fixpoint digitsOf (u : Decimal.uint) : jsstring :=
  match u with
  | Decimal.Nil => []
  | Decimal.D0 u' => 48%N :: digitsOf u'
  | Decimal.D1 u' => 49%N :: digitsOf u'
  | Decimal.D2 u' => 50%N :: digitsOf u'
  | Decimal.D3 u' => 51%N :: digitsOf u'
  | Decimal.D4 u' => 52%N :: digitsOf u'
  | Decimal.D5 u' => 53%N :: digitsOf u'
  | Decimal.D6 u' => 54%N :: digitsOf u'
  | Decimal.D7 u' => 55%N :: digitsOf u'
  | Decimal.D8 u' => 56%N :: digitsOf u'
  | Decimal.D9 u' => 57%N :: digitsOf u'
  end.

Definition decimal (n : nat) : jsstring := digitsOf (Nat.to_uint n).

(** A property key that is an array index: the decimal numeral of a
    number, without a superfluous leading zero. *)
Definition arrayIndex (key : jsstring) : option nat :=
  match key with
  | [] => None
  | c :: rest =>
      if forallb is_digit key && ((c =? 48)%N && negb (nonEmpty rest) || negb (c =? 48)%N)
      then Some (fold_left (fun acc d => 10 * acc + (N.to_nat d - 48)) key 0)
      else None
  end.

(** The names of the members every object inherits from
    [Object.prototype] (ECMAScript, with its Annex B): reading one of
    them on an object that has no such own property yields the inherited
    function, or the prototype itself for [__proto__], and not
    [undefined]. *)
Definition inheritedNames : list jsstring :=
  [str "constructor"; str "hasOwnProperty"; str "isPrototypeOf";
   str "propertyIsEnumerable"; str "toLocaleString"; str "toString";
   str "valueOf"; str "__proto__"; str "__defineGetter__";
   str "__defineSetter__"; str "__lookupGetter__"; str "__lookupSetter__"].

Definition inherited (key : jsstring) : bool := existsb (eqb key) inheritedNames.

End Js.

Import Js.

(* ===================================================================== *)
(** * Values *)
(* ===================================================================== *)

(** The values the codec handles ([any] in the sources).  A number is kept
    as the decimal numeral that denotes it: the codec only prints numbers
    with [String] and reads them with [Number], and the rounding of
    [Number] to a double is not modelled, so that [VNum n] stands for the
    number [Number(n)] and prints as [n] when [n] is the print form of
    that number.  An object is its list of own entries in the order
    [Object.entries] lists them: insertion order, but for the keys that
    are array indices, which JavaScript lists first and in ascending
    order.  The code reads the order of a decoded object nowhere (it
    counts its keys, and takes the first of one).  The members an
    object inherits from [Object.prototype] are
    functions and have no counterpart here: the definitions below stand
    for the code on keys that are not [Js.inherited], and the statements
    that read or write a key of the caller's choosing assume as much. *)
Inductive value : Type :=
| VUndefined
| VNull
| VBool (b : bool)
| VNum (numeral : jsstring)
| VStr (s : jsstring)
| VArr (items : list value)
| VObj (entries : list (jsstring * value)).

(** [typeof v === "object"] *)
Definition typeof_object (v : value) : bool :=
  match v with
  | VNull | VArr _ | VObj _ => true
  | _ => false
  end.

(** [v !== undefined && v !== null] *)
Definition notNullish (v : value) : bool :=
  match v with
  | VUndefined | VNull => false
  | _ => true
  end.

(** [String(v)] on the values [objToXml] applies it to (those whose
    [typeof] is not "object", and [null]). *)
Definition String_ (v : value) : jsstring :=
  match v with
  | VUndefined => str "undefined"
  | VNull => str "null"
  | VBool true => str "true"
  | VBool false => str "false"
  | VNum n => n
  | VStr s => s
  | VArr _ | VObj _ => []   (* not reached: callers test typeof first *)
  end.

(** [obj[key]] on an object built by assignments, for a key that is not
    [Js.inherited]: the own entry. *)
Fixpoint lookup (key : jsstring) (entries : list (jsstring * value)) : option value :=
  match entries with
  | [] => None
  | (k, v) :: rest => if Js.eqb k key then Some v else lookup key rest
  end.

(** [obj[key] = v]: overwrite in place, or append a new entry. *)
Fixpoint assign (key : jsstring) (v : value) (entries : list (jsstring * value))
  : list (jsstring * value) :=
  match entries with
  | [] => [(key, v)]
  | (k, old) :: rest =>
      if Js.eqb k key then (k, v) :: rest else (k, old) :: assign key v rest
  end.

(* ===================================================================== *)
(** * Errors *)
(* ===================================================================== *)

(** What the modelled code throws.  [RangeError] is the engine's
    "Maximum call stack size exceeded". *)
Inductive exn : Type :=
| Error (message : jsstring)
| RequestFailed (status : N) (errorText : jsstring)
    (* new Error(`Request failed: ${status} - ${errorText}`) *)
| TypeError
| RangeError
| ZodError.

(* ===================================================================== *)
(** * The codec (src/xml.ts) *)
(* ===================================================================== *)

Module Xml.

(** [name.replace(/[^a-zA-Z0-9_]/g, "_").replace(/^[^a-zA-Z]/, "tag_$&")] *)
Definition sanitizeTagName (name : jsstring) : jsstring :=
  let cleaned := List.map (fun c => if is_word c then c else ch_us) name in
  match cleaned with
  | [] => []
  | c :: rest => if is_alpha c then cleaned else str "tag_" ++ cleaned
  end.

Definition openTag (tag : jsstring) : jsstring := [ch_lt] ++ tag ++ [ch_gt].
Definition closeTag (tag : jsstring) : jsstring := [ch_lt; ch_slash] ++ tag ++ [ch_gt].

Definition wrapTag (tag content : jsstring) : jsstring :=
  let safeTag := sanitizeTagName tag in
  openTag safeTag ++ content ++ closeTag safeTag.

(** [parentKey || dflt]: [undefined] and the empty string are falsy. *)
Definition keyOr (parentKey : option jsstring) (dflt : jsstring) : jsstring :=
  match parentKey with
  | Some (c :: k) => c :: k
  | _ => dflt
  end.

Definition keyTruthy (parentKey : option jsstring) : bool :=
  match parentKey with
  | Some (_ :: _) => true
  | _ => false
  end.

(** [objToXml(obj, parentKey)].  The two inner loops are the [map]s of the
    source over the array and over the filtered entries; [objToXml_array]
    and [objToXml_object] below restate them with [map] and [filter]. *)
Fixpoint objToXml (obj : value) (parentKey : option jsstring) {struct obj} : jsstring :=
  match obj with
  | VArr items =>
      wrapTag (keyOr parentKey (str "array"))
        ((fix each (l : list value) : jsstring :=
            match l with
            | [] => []
            | item :: rest =>
                wrapTag (str "item")
                  (if typeof_object item then objToXml item None else String_ item)
                ++ each rest
            end) items)
  | VObj entries =>
      if forallb (fun kv => negb (notNullish (snd kv))) entries
      then wrapTag (keyOr parentKey (str "empty")) []
      else
        let content :=
          (fix each (l : list (jsstring * value)) : jsstring :=
             match l with
             | [] => []
             | (key, v) :: rest =>
                 (if notNullish v
                  then if typeof_object v then objToXml v (Some key)
                       else openTag key ++ String_ v ++ closeTag key
                  else [])
                 ++ each rest
             end) entries in
        match parentKey with
        | Some (c :: k) => wrapTag (c :: k) content
        | _ => content
        end
  | _ => wrapTag (keyOr parentKey (str "value")) (String_ obj)
  end.

(** The rendering of one array element and of one kept entry. *)
Definition itemXml (item : value) : jsstring :=
  wrapTag (str "item") (if typeof_object item then objToXml item None else String_ item).

Definition entryXml (kv : jsstring * value) : jsstring :=
  if typeof_object (snd kv) then objToXml (snd kv) (Some (fst kv))
  else openTag (fst kv) ++ String_ (snd kv) ++ closeTag (fst kv).

(** ** The tag scanner

    [tagRegex] of xml.ts, flags [g] and [s], reads: a ['<']; group 1, one
    or more characters other than ['>'], white space and ['/'], greedy;
    any run of characters other than ['>'], greedy, not captured; a ['>'];
    group 2, any run of characters, lazy; then ['<'], ['/'], the text of
    group 1 again and ['>']. *)

(** [[^>\s/]] *)
Definition nameChar (c : char) : bool :=
  negb (c =? ch_gt)%N && negb (is_space c) && negb (c =? ch_slash)%N.

(** Group 1 is greedy and backtracks: it is tried at its longest length
    first, then shorter ones down to one character.  For each length the
    lazy group 2 stops at the first following [</name>]. *)
Fixpoint tryNames (k : nat) (afterLt body : jsstring)
  : option (jsstring * jsstring * jsstring) :=
  match k with
  | O => None
  | S k' =>
      let name := firstn k afterLt in
      match splitAt (closeTag name) body with
      | Some (content, rest) => Some (name, content, rest)
      | None => tryNames k' afterLt body
      end
  end.

(** One attempt of the expression at the start of [s]: the captured tag
    name, the captured content and the text after the match.  The uncaptured run
    ends at the first ['>'], wherever group 1 stopped. *)
Definition matchAt (s : jsstring) : option (jsstring * jsstring * jsstring) :=
  match s with
  | c :: afterLt =>
      if (c =? ch_lt)%N then
        match splitAt [ch_gt] afterLt with
        | Some (_, body) =>
            tryNames (length (takeWhile nameChar afterLt)) afterLt body
        | None => None
        end
      else None
  | [] => None
  end.

(** [tagRegex.exec(content)] from [lastIndex]: the leftmost start at which
    the expression matches; [s] is the text from [lastIndex] on. *)
Fixpoint exec (s : jsstring) : option (jsstring * jsstring * jsstring) :=
  match matchAt s with
  | Some m => Some m
  | None => match s with
            | [] => None
            | _ :: s' => exec s'
            end
  end.

(** The [while ((match = tagRegex.exec(content)) !== null)] loop: all the
    matches in order.  Every match consumes input, so [length s] rounds
    are enough ([allMatches_unfold]). *)
Fixpoint allMatchesFuel (fuel : nat) (s : jsstring) : list (jsstring * jsstring) :=
  match fuel with
  | O => []
  | S fuel' =>
      match exec s with
      | Some (name, content, rest) => (name, content) :: allMatchesFuel fuel' rest
      | None => []
      end
  end.

Definition allMatches (s : jsstring) : list (jsstring * jsstring) :=
  allMatchesFuel (length s) s.

(** [/^\d+(\.\d+)?$/.test(s)] *)
Definition isNumeric (s : jsstring) : bool :=
  let ip := takeWhile is_digit s in
  let rest := dropWhile is_digit s in
  match ip, rest with
  | [], _ => false
  | _ :: _, [] => true
  | _ :: _, c :: fp =>
      (c =? ch_dot)%N && negb (Nat.eqb (length fp) 0) && forallb is_digit fp
  end.

(** The leaf classification of [parseElement].  A numeral is kept as it
    was read and stands for the number [Number] makes of it. *)
Definition classify (trimmedContent : jsstring) : value :=
  if Js.eqb trimmedContent (str "true") || Js.eqb trimmedContent (str "false")
  then VBool (Js.eqb trimmedContent (str "true"))
  else if isNumeric trimmedContent then VNum trimmedContent
  else VStr trimmedContent.

(** The accumulation of a child under its tag name, for a tag name that
    is not [Js.inherited]: [result[tagName]] is then [undefined] until a
    child is stored under it. *)
Definition accumulate (result : list (jsstring * value)) (tagName : jsstring) (child : value)
  : list (jsstring * value) :=
  match lookup tagName result with
  | None => assign tagName child result
  | Some (VArr items) => assign tagName (VArr (items ++ [child])) result
  | Some old => assign tagName (VArr [old; child]) result
  end.

(** The final unwrapping of a lone [item] key. *)
Definition unwrapItem (result : list (jsstring * value)) : value :=
  match result with
  | [(key, val)] =>
      if Js.eqb key (str "item")
      then match val with
           | VArr items => VArr items
           | _ => VArr [val]
           end
      else VObj result
  | _ => VObj result
  end.

(** [parseElement(content)].  The function calls itself on a captured
    tag content that holds a ['<'], once per nesting level, and nothing
    in xml.ts catches what a call throws.  [fuel] is the number of nested
    calls there is room for, and [None] means that it ran out; a captured
    content is shorter than the text it was captured from, so the length
    of the text bounds the nesting. *)
Fixpoint parseElement (fuel : nat) (content : jsstring) : option value :=
  match fuel with
  | O => None
  | S fuel' =>
      let content := trim content in
      if negb (includes ch_lt content) then Some (VStr content)
      else
        let step (acc : option (list (jsstring * value))) (m : jsstring * jsstring) :=
          match acc with
          | None => None
          | Some result =>
              let (tagName, tagContent) := m in
              let child :=
                if includes ch_lt (trim tagContent)
                then parseElement fuel' tagContent
                else Some (classify (trim tagContent)) in
              match child with
              | Some c => Some (accumulate result tagName c)
              | None => None
              end
          end in
        match allMatches content with
        | [] => Some (VStr content)
        | ms =>
            match fold_left step ms (Some []) with
            | Some result => Some (unwrapItem result)
            | None => None
            end
        end
  end.

(** [xmlToObj(xmlContent)] where the call stack has room for [stack]
    nested calls of [parseElement]: a text nested deeper makes the engine
    throw its RangeError. *)
Definition xmlToObjWithin (stack : nat) (xmlContent : jsstring) : exn + value :=
  match parseElement stack xmlContent with
  | Some v => inr v
  | None => inl RangeError
  end.

(** [xmlToObj(xmlContent)] where the call stack is deep enough for the
    text: the nesting depth is below the length of the text, so this fuel
    never runs out ([xmlToObj_parseElement]). *)
Definition xmlToObj (xmlContent : jsstring) : value :=
  match parseElement (S (length xmlContent)) xmlContent with
  | Some v => v
  | None => VUndefined
  end.

End Xml.

Import Xml.

(* ===================================================================== *)
(** * The streaming extractor (src/inference.ts, [callLLM]) *)
(* ===================================================================== *)

Module Stream.

(** A [StreamingUpdate]; its [stage] is always "streaming". *)
Record StreamingUpdate : Type := mkUpdate { field : jsstring; value_ : jsstring }.

(** The variables the stream loop of [callLLM] closes over. *)
Record state : Type := mkState {
  fullResponse : jsstring;
  tagStack : list jsstring;
  currentTagName : jsstring;
  wordBuffer : jsstring;
  insideTag : bool
}.

Definition initial : state := mkState [] [] [] [] false.

(** [tagStack.join("_")] *)
Definition fieldOf (stack : list jsstring) : jsstring := join [ch_us] stack.

(** The body of [for (const char of chunk)]: the new state and the updates
    handed to [streamingCallback], in order. *)
Definition step (st : state) (c : char) : state * list StreamingUpdate :=
  if (c =? ch_lt)%N then
    (mkState (fullResponse st) (tagStack st) [] [] true,
     if nonEmpty (wordBuffer st) && nonEmpty (tagStack st)
     then [mkUpdate (fieldOf (tagStack st)) (wordBuffer st)] else [])
  else if (c =? ch_gt)%N && insideTag st then
    let stack :=
      if startsWith [ch_slash] (currentTagName st) then removelast (tagStack st)
      else if nonEmpty (trim (currentTagName st))
           then tagStack st ++ [trim (currentTagName st)]
           else tagStack st in
    (mkState (fullResponse st) stack [] [] false, [])
  else if insideTag st then
    (mkState (fullResponse st) (tagStack st) (currentTagName st ++ [c])
       (wordBuffer st) true, [])
  else if nonEmpty (tagStack st) then
    let currentField := fieldOf (tagStack st) in
    if (c =? ch_space)%N || (c =? ch_nl)%N then
      (mkState (fullResponse st) (tagStack st) (currentTagName st) [] (insideTag st),
       (if nonEmpty (wordBuffer st) then [mkUpdate currentField (wordBuffer st)] else [])
       ++ [mkUpdate currentField [c]])
    else
      (mkState (fullResponse st) (tagStack st) (currentTagName st)
         (wordBuffer st ++ [c]) (insideTag st), [])
  else (st, []).

Fixpoint steps (st : state) (chars : jsstring) : state * list StreamingUpdate :=
  match chars with
  | [] => (st, [])
  | c :: rest =>
      let (st1, out1) := step st c in
      let (st2, out2) := steps st1 rest in
      (st2, out1 ++ out2)
  end.

(** [processChunk(chunk)] *)
Definition processChunk (st : state) (chunk : jsstring) : state * list StreamingUpdate :=
  steps (mkState (fullResponse st ++ chunk) (tagStack st) (currentTagName st)
           (wordBuffer st) (insideTag st)) chunk.

Fixpoint processChunks (st : state) (chunks : list jsstring)
  : state * list StreamingUpdate :=
  match chunks with
  | [] => (st, [])
  | chunk :: rest =>
      let (st1, out1) := processChunk st chunk in
      let (st2, out2) := processChunks st1 rest in
      (st2, out1 ++ out2)
  end.

(** The flush of the [finally] block. *)
Definition flush (st : state) : list StreamingUpdate :=
  if nonEmpty (wordBuffer st) && nonEmpty (tagStack st)
  then [mkUpdate (fieldOf (tagStack st)) (wordBuffer st)] else [].

(** The streaming branch of [callLLM] on the text chunks the service
    sent: the returned [fullResponse] and all the updates. *)
Definition stream (chunks : list jsstring) : jsstring * list StreamingUpdate :=
  let (st, out) := processChunks initial chunks in
  (fullResponse st, out ++ flush st).

(** A text fed one character per chunk. *)
Definition charByChar (text : jsstring) : list jsstring := List.map (fun c => [c]) text.

(** The concatenation, in emission order, of the update values of one path. *)
Definition valuesFor (path : jsstring) (ups : list StreamingUpdate) : jsstring :=
  concat (List.map value_ (filter (fun u => Js.eqb (field u) path) ups)).

Definition streamed (path : jsstring) (text : jsstring) : jsstring :=
  valuesFor path (snd (stream (charByChar text))).

End Stream.

(* ===================================================================== *)
(** * Output shapes (zod) *)
(* ===================================================================== *)

Module Zod.

(** A zod schema.  The first eight constructors are the kinds the sources
    test for by name ([_def.typeName]).  [ZodOther] is a schema of any
    other kind (ZodDefault, ZodUnion, ZodEffects, ZodRecord, ZodTuple and
    the rest), which the sources pass over: its [typeName], the schemas it
    is built from, and what its [parse] does, which is zod's business and
    is carried as it is. *)
Inductive ZodType : Type :=
| ZodString
| ZodNumber
| ZodBoolean
| ZodEnum (values : list jsstring)
| ZodArray (element : ZodType)
| ZodObject (shape : list (jsstring * ZodType))
| ZodOptional (inner : ZodType)
| ZodNullable (inner : ZodType)
| ZodOther (name : jsstring) (holds : list ZodType) (parseWith : value -> exn + value).

Definition Shape := list (jsstring * ZodType).

Inductive TypeName := TString | TNumber | TBoolean | TEnum | TArray | TObject
                    | TOptional | TNullable | TOther (name : jsstring).

Definition typeName (t : ZodType) : TypeName :=
  match t with
  | ZodString => TString | ZodNumber => TNumber | ZodBoolean => TBoolean
  | ZodEnum _ => TEnum | ZodArray _ => TArray | ZodObject _ => TObject
  | ZodOptional _ => TOptional | ZodNullable _ => TNullable
  | ZodOther name _ _ => TOther name
  end.

(** The [while (... 'ZodOptional' || ... 'ZodNullable') unwrap()] loop. *)
Fixpoint unwrapAll (t : ZodType) : ZodType :=
  match t with
  | ZodOptional t' | ZodNullable t' => unwrapAll t'
  | _ => t
  end.

(** [getSchemaTypeName(schema)] *)
Fixpoint getSchemaTypeName (t : ZodType) : TypeName :=
  match t with
  | ZodOptional t' | ZodNullable t' => getSchemaTypeName t'
  | _ => typeName t
  end.

End Zod.

Import Zod.

(* ===================================================================== *)
(** * Errors and effects *)
(* ===================================================================== *)

Inductive MeasurePolicy := Swallow | Propagate.

Module Eff.
Section WithState.
Variable S : Type.

(** A computation that reads and writes the run's mutable variables and
    either returns or throws; what it wrote before throwing stays. *)
Definition M (A : Type) : Type := S -> S * (exn + A).

Definition ret {A} (a : A) : M A := fun s => (s, inr a).
Definition throw {A} (e : exn) : M A := fun s => (s, inl e).
Definition bind {A B} (m : M A) (f : A -> M B) : M B :=
  fun s => match m s with
           | (s', inr a) => f a s'
           | (s', inl e) => (s', inl e)
           end.
Definition lift {A} (r : exn + A) : M A := fun s => (s, r).
Definition modify (f : S -> S) : M unit := fun s => (f s, inr tt).
Definition gets {A} (f : S -> A) : M A := fun s => (s, inr (f s)).

(** Modelled from the spec: [measure] of the @ments/utils package, which
    every step is wrapped in, is not among the sources.  Section 4.4 has
    the errors of a measured step swallowed, and the sources test the
    results of [measure] for null ([if (!validatedInput)],
    [validatedResponse || {}]): under [Swallow] a throwing step yields
    null.  The stand-in the tests pass, [async (fn) => await fn(..)], lets
    the error through: [Propagate]. *)
Definition measured {A} (pol : MeasurePolicy) (m : M A) : M (option A) :=
  fun s => match m s with
           | (s', inr a) => (s', inr (Some a))
           | (s', inl e) =>
               match pol with
               | Swallow => (s', inr None)
               | Propagate => (s', inl e)
               end
           end.

(** Using a possibly-null value as an object: a TypeError on null. *)
Definition deref {A} (o : option A) : M A :=
  match o with
  | Some a => ret a
  | None => throw TypeError
  end.

End WithState.
End Eff.

Arguments Eff.ret {S A} a.
Arguments Eff.throw {S A} e.
Arguments Eff.lift {S A} r.
Arguments Eff.deref {S A} o.

Notation "x <- m ;; k" := (Eff.bind m (fun x => k))
  (at level 61, m at next level, right associativity).

(* ===================================================================== *)
(** * The orchestrator (src/agent.ts) *)
(* ===================================================================== *)

Module Agent.

Record MCPServer : Type := mkServer {
  server_name : jsstring; server_description : jsstring; server_url : jsstring }.

Record MCPTool : Type := mkTool {
  tool_name : jsstring; tool_description : jsstring; inputSchema : value }.

(** The fields of [AgentConfig] the modelled steps read. *)
Record AgentConfig : Type := mkConfig {
  llm : jsstring;
  inputFormat : Shape;
  outputFormat : Shape;
  servers : option (list MCPServer)
}.

Record Agent : Type := mkAgent { config : AgentConfig }.

(** ** Construction *)

Definition arrayMessage (currentPath key : jsstring) : jsstring :=
  str "Arrays are not supported in output schema. Found array at path: "
  ++ currentPath ++ str ". Use individual fields like "
  ++ key ++ str "_1, " ++ key ++ str "_2 instead.".

(** [path ? `${path}.${key}` : key] *)
Definition currentPathOf (path key : jsstring) : jsstring :=
  match path with
  | [] => key
  | _ => path ++ str "." ++ key
  end.

(** [validateNoArrays(schema, path)]: [None] when it returns, [Some e]
    when it throws [e].  [checkField] is the body of its loop for one
    field, with the unwrapping loop folded into the recursion
    ([checkField_unwrapAll]) and the recursive call on a nested record
    written as a local loop ([checkField_object]). *)
Fixpoint checkField (path key : jsstring) (t : ZodType) {struct t} : option exn :=
  let currentPath := currentPathOf path key in
  match t with
  | ZodOptional t' | ZodNullable t' => checkField path key t'
  | ZodArray _ => Some (Error (arrayMessage currentPath key))
  | ZodObject shape =>
      (fix fields (l : Shape) : option exn :=
         match l with
         | [] => None
         | (k, ft) :: rest =>
             match checkField currentPath k ft with
             | Some e => Some e
             | None => fields rest
             end
         end) shape
  | _ => None
  end.

Fixpoint validateNoArrays (shape : Shape) (path : jsstring) : option exn :=
  match shape with
  | [] => None
  | (key, fieldSchema) :: rest =>
      match checkField path key fieldSchema with
      | Some e => Some e
      | None => validateNoArrays rest path
      end
  end.

(** [new Agent(config)] *)
Definition newAgent (cfg : AgentConfig) : exn + Agent :=
  match validateNoArrays (outputFormat cfg) [] with
  | Some e => inl e
  | None => inr (mkAgent cfg)
  end.

(** ** Validation by zod

    [schema.parse(v)] for the constructors above, as zod 3 does it: an
    object schema reads each declared key, keeps a key when it was present
    or parsed to something defined, and drops undeclared keys. *)
Fixpoint parse (t : ZodType) (v : value) {struct t} : exn + value :=
  match t with
  | ZodString => match v with VStr _ => inr v | _ => inl ZodError end
  | ZodNumber => match v with VNum _ => inr v | _ => inl ZodError end
  | ZodBoolean => match v with VBool _ => inr v | _ => inl ZodError end
  | ZodEnum values =>
      match v with
      | VStr s => if existsb (Js.eqb s) values then inr v else inl ZodError
      | _ => inl ZodError
      end
  | ZodArray element =>
      match v with
      | VArr items =>
          (fix each (l : list value) : exn + value :=
             match l with
             | [] => inr (VArr [])
             | x :: rest =>
                 match parse element x, each rest with
                 | inr x', inr (VArr rest') => inr (VArr (x' :: rest'))
                 | _, _ => inl ZodError
                 end
             end) items
      | _ => inl ZodError
      end
  | ZodObject shape =>
      match v with
      | VObj entries =>
          (fix fields (l : Shape) : exn + value :=
             match l with
             | [] => inr (VObj [])
             | (k, ft) :: rest =>
                 let present := lookup k entries in
                 match parse ft (match present with Some x => x | None => VUndefined end),
                       fields rest with
                 | inr x', inr (VObj rest') =>
                     match present, x' with
                     | None, VUndefined => inr (VObj rest')
                     | _, _ => inr (VObj ((k, x') :: rest'))
                     end
                 | _, _ => inl ZodError
                 end
             end) shape
      | _ => inl ZodError
      end
  | ZodOptional t' => match v with VUndefined => inr VUndefined | _ => parse t' v end
  | ZodNullable t' => match v with VNull => inr VNull | _ => parse t' v end
  | ZodOther _ _ parseWith => parseWith v
  end.

(** Four of the other kinds, as zod 3 validates them.  [schema.default(d)]
    parses [d] in place of [undefined]; [z.union] returns what the first
    option that accepts the value makes of it; [schema.refine(check)]
    parses and then tests; [z.record(valueType)] parses every value of a
    mapping. *)
Definition ZodDefault (inner : ZodType) (dflt : value) : ZodType :=
  ZodOther (str "ZodDefault") [inner]
    (fun v => parse inner (match v with VUndefined => dflt | _ => v end)).

Definition ZodUnion (options : list ZodType) : ZodType :=
  ZodOther (str "ZodUnion") options
    (fun v =>
       fold_right (fun option rest =>
                     match parse option v with
                     | inr x => inr x
                     | inl _ => rest
                     end) (inl ZodError) options).

Definition ZodEffects (inner : ZodType) (check : value -> bool) : ZodType :=
  ZodOther (str "ZodEffects") [inner]
    (fun v => match parse inner v with
              | inr x => if check x then inr x else inl ZodError
              | inl e => inl e
              end).

Definition ZodRecord (valueType : ZodType) : ZodType :=
  ZodOther (str "ZodRecord") [valueType]
    (fun v => match v with
              | VObj entries =>
                  fold_right (fun kv rest =>
                                match parse valueType (snd kv), rest with
                                | inr x, inr (VObj rest') => inr (VObj ((fst kv, x) :: rest'))
                                | _, _ => inl ZodError
                                end) (inr (VObj [])) entries
              | _ => inl ZodError
              end).

(** ** Property reads on decoded values *)

(** [v[key]] where [v] was decoded, [None] being [undefined]: an own
    entry of an object; the length and the elements of an array; the
    length and the characters of a string.  The methods that strings and
    arrays inherit, like the members objects inherit, are not modelled. *)
Definition getProp (v : value) (key : jsstring) : option value :=
  match v with
  | VObj entries => lookup key entries
  | VArr items =>
      if Js.eqb key (str "length") then Some (VNum (decimal (length items)))
      else match arrayIndex key with
           | Some i => nth_error items i
           | None => None
           end
  | VStr s =>
      if Js.eqb key (str "length") then Some (VNum (decimal (length s)))
      else match arrayIndex key with
           | Some i => option_map (fun c => VStr [c]) (nth_error s i)
           | None => None
           end
  | _ => None
  end.

(** [Number(numeral) === 0] for a numeral of digits and at most one dot. *)
Definition isZero (numeral : jsstring) : bool :=
  forallb (fun c => (c =? 48)%N || (c =? ch_dot)%N) numeral.

(** [!v] *)
Definition falsy (v : value) : bool :=
  match v with
  | VUndefined | VNull | VBool false | VStr [] => true
  | VNum n => isZero n
  | _ => false
  end.

(** [v || dflt] where a missing property is [undefined]. *)
Definition orElse (o : option value) (dflt : value) : value :=
  match o with
  | Some v => if falsy v then dflt else v
  | None => dflt
  end.

(** [obj?.[key]] on a possibly-missing object. *)
Definition optProp (o : option value) (key : jsstring) : option value :=
  match o with
  | None | Some VUndefined | Some VNull => None
  | Some v => getProp v key
  end.

(** [Array.isArray(names) ? names.includes(name) : names === name] *)
Definition nameSelected (names : value) (name : jsstring) : bool :=
  match names with
  | VArr items =>
      existsb (fun x => match x with VStr s => Js.eqb s name | _ => false end) items
  | VStr s => Js.eqb s name
  | _ => false
  end.

(** ** The selection steps

    What [selectRelevantServers] returns once [callLLM] has answered:
    [response] is [None] for null.  [decode] is the call in the [try]
    block, which may throw; the sources pass [xmlToObj]. *)
Definition selectServersWith (decode : jsstring -> exn + value)
    (configured : list MCPServer) (response : option jsstring) : list MCPServer :=
  match response with
  | None | Some [] => configured
  | Some text =>
      match decode text with
      | inl _ => configured
      | inr parsed =>
          let serverNames :=
            orElse (optProp (getProp parsed (str "relevant_servers")) (str "server_names"))
                   (VArr []) in
          filter (fun server => nameSelected serverNames (server_name server)) configured
      end
  end.

Definition selectToolsWith (decode : jsstring -> exn + value)
    (tools : list MCPTool) (response : option jsstring) : list MCPTool :=
  match response with
  | None | Some [] => firstn 1 tools
  | Some text =>
      match decode text with
      | inl _ => firstn 1 tools
      | inr parsed =>
          let toolNames :=
            orElse (optProp (getProp parsed (str "selected_tools")) (str "tool_names"))
                   (VArr []) in
          filter (fun tool => nameSelected toolNames (tool_name tool)) tools
      end
  end.

Definition parametersWith (decode : jsstring -> exn + value)
    (response : option jsstring) : value :=
  match response with
  | None | Some [] => VObj []
  | Some text =>
      match decode text with
      | inl _ => VObj []
      | inr parsed => orElse (getProp parsed (str "parameters")) (VObj [])
      end
  end.

Definition decodeXml (text : jsstring) : exn + value := inr (xmlToObj text).

(** ** Decode and reconcile *)

Definition isStructured (v : value) : bool :=
  match v with VArr _ | VObj _ => true | _ => false end.

(** [response.match(fieldRegex)[1]] for the pattern built from [key]:
    the literal [<key>], a lazy run of any characters, the literal
    [</key>].  [key] is spliced into the pattern as it is; it is read
    literally here, which is what the pattern means for keys of letters,
    digits and ['_']. *)
Definition matchField (key response : jsstring) : option jsstring :=
  match splitAt (openTag key) response with
  | Some (_, afterOpen) =>
      match splitAt (closeTag key) afterOpen with
      | Some (raw, _) => Some raw
      | None => None
      end
  | None => None
  end.

(** [sourceObject]: one root level is dropped when [parsed] has a single
    own key whose value is an object or an array. *)
Definition sourceObject (parsed : value) : value :=
  match parsed with
  | VObj [(rootKey, v)] => if nonEmpty rootKey && isStructured v then v else parsed
  | VArr [v] => if isStructured v then v else parsed
  | _ => parsed
  end.

(** The loop over the declared fields. *)
Fixpoint reconcileFields (shape : Shape) (source : value) (response : jsstring)
    (result : list (jsstring * value)) : list (jsstring * value) :=
  match shape with
  | [] => result
  | (key, schema) :: rest =>
      match getProp source key with
      | Some v0 =>
          let v :=
            match getSchemaTypeName schema with
            | TString =>
                if isStructured v0 then
                  match matchField key response with
                  | Some raw => VStr raw
                  | None => v0
                  end
                else v0
            | _ => v0
            end in
          reconcileFields rest source response (assign key v result)
      | None => reconcileFields rest source response result
      end
  end.

(** [generateResponse] from the point where [callLLM] has returned. *)
Definition reconcile (shape : Shape) (response : option jsstring) : value :=
  match response with
  | None | Some [] => VObj []
  | Some text =>
      let parsed := xmlToObj text in
      if falsy parsed then VObj []
      else VObj (reconcileFields shape (sourceObject parsed) text [])
  end.

(** ** The run *)

(** The requests put to the generation service, by the step that asks. *)
Inductive LLMCall : Type :=
| SelectServers (input : value)
| SelectTools (input : value) (server : MCPServer) (tools : list MCPTool)
| ToolParameters (input : value) (tool : MCPTool)
| FinalResponse (input : value) (toolResults : list (jsstring * value)).

(** The external collaborators of one run: the text the generation
    service answers with (or the failure of the exchange), the capability
    provider's two calls, and the resolution of the mcp-directed input
    fields, which leaves the input as it got and may have thrown.  The
    resolution is taken by its outcome: the calls it makes on the way, to
    the providers its field descriptions name and to the generation
    service, are modelled on their own in [Resolve]. *)
Record World : Type := mkWorld {
  llmReply : LLMCall -> exn + jsstring;
  discover : MCPServer -> exn + list MCPTool;
  invoke : MCPServer -> jsstring -> value -> exn + value;
  resolveInput : value -> value * option exn
}.

(** What a run writes: the providers its discovery loop asked for their
    tools, in order, [toolResults] and [toolInvocations].  The calls made
    while the mcp-directed input fields are resolved are the world's
    ([resolveInput]) and leave no trace here. *)
Record RunState : Type := mkRun {
  discovered : list MCPServer;
  toolResults : list (jsstring * value);
  toolInvocations : list (jsstring * jsstring * value * value)
}.

Definition emptyRun : RunState := mkRun [] [] [].

Definition R := Eff.M RunState.

Section Run.
Variable pol : MeasurePolicy.
Variable w : World.
Variable cfg : AgentConfig.
(** Whether the caller passed a progress callback. *)
Variable progressCallback : bool.

Definition flatten {A} (o : option (option A)) : option A :=
  match o with Some (Some a) => Some a | _ => None end.

(** [callLLM]: without a streaming callback an empty content is an error
    raised inside [measureFn]; with one, the fetched response is read and
    the accumulated text is returned whatever it is. *)
Definition callLLM (streaming : bool) (call : LLMCall) : R (option jsstring) :=
  if streaming then
    response <- Eff.measured pol (Eff.lift (llmReply w call)) ;;
    content <- Eff.deref response ;;
    Eff.ret (Some content)
  else
    Eff.measured pol
      (content <- Eff.lift (llmReply w call) ;;
       if nonEmpty content then Eff.ret content
       else Eff.throw (Error (str "LLM API call failed. Unexpected response format"))).

Definition discoverTools (server : MCPServer) : R (option (list MCPTool)) :=
  Eff.measured pol
    (_ <- Eff.modify (fun s => mkRun (discovered s ++ [server]) (toolResults s)
                                 (toolInvocations s)) ;;
     Eff.lift (discover w server)).

Definition invokeTool (server : MCPServer) (toolName : jsstring) (parameters : value)
  : R (option value) :=
  Eff.measured pol (Eff.lift (invoke w server toolName parameters)).

Definition selectRelevantServers (input : value) : R (option (list MCPServer)) :=
  match servers cfg with
  | None | Some [] => Eff.ret (Some [])
  | Some configured =>
      Eff.measured pol
        (response <- callLLM false (SelectServers input) ;;
         Eff.ret (selectServersWith decodeXml configured response))
  end.

Definition selectRelevantTools (input : value) (tools : list MCPTool) (server : MCPServer)
  : R (option (list MCPTool)) :=
  match tools with
  | [] => Eff.ret (Some [])
  | _ =>
      Eff.measured pol
        (response <- callLLM false (SelectTools input server tools) ;;
         Eff.ret (selectToolsWith decodeXml tools response))
  end.

Definition generateToolParameters (input : value) (tool : MCPTool) : R (option value) :=
  Eff.measured pol
    (response <- callLLM false (ToolParameters input tool) ;;
     Eff.ret (parametersWith decodeXml response)).

Definition nullable (o : option value) : value :=
  match o with Some v => v | None => VNull end.

(** The [for (const tool of relevantTools)] loop. *)
Fixpoint invokeAll (input : value) (server : MCPServer) (tools : list MCPTool) : R unit :=
  match tools with
  | [] => Eff.ret tt
  | tool :: rest =>
      parameters <- generateToolParameters input tool ;;
      result <- invokeTool server (tool_name tool) (nullable parameters) ;;
      _ <- Eff.modify (fun s =>
             mkRun (discovered s)
               (assign (server_name server ++ str "." ++ tool_name tool)
                       (nullable result) (toolResults s))
               (toolInvocations s ++
                  [(server_name server, tool_name tool, nullable parameters,
                    nullable result)])) ;;
      invokeAll input server rest
  end.

(** The [for (const server of relevantServers)] loop. *)
Fixpoint discoverAndInvoke (input : value) (relevant : list MCPServer) : R unit :=
  match relevant with
  | [] => Eff.ret tt
  | server :: rest =>
      found <- discoverTools server ;;
      tools <- Eff.deref found ;;
      _ <- (if nonEmpty tools then
              selected <- selectRelevantTools input tools server ;;
              relevantTools <- Eff.deref selected ;;
              invokeAll input server relevantTools
            else Eff.ret tt) ;;
      discoverAndInvoke input rest
  end.

(** [generateResponse] *)
Definition generateResponse (input : value) (results : list (jsstring * value)) : R value :=
  response <- Eff.measured pol (callLLM progressCallback (FinalResponse input results)) ;;
  Eff.ret (reconcile (outputFormat cfg) (flatten response)).

(** The selection of the providers in [run], up to the test of
    [relevantServers.length]. *)
Definition relevantServersOf (input : value) : R (list MCPServer) :=
  match servers cfg with
  | None | Some [] => Eff.ret []
  | Some _ =>
      selected <- Eff.measured pol (selectRelevantServers input) ;;
      Eff.deref (flatten selected)
  end.

(** The function [run] passes to its outer [measureFn]. *)
Definition runBody (input : value) : R value :=
  validatedInput <- Eff.measured pol (Eff.lift (parse (ZodObject (inputFormat cfg)) input)) ;;
  match validatedInput with
  | None =>
      Eff.throw (Error (str "Input validation failed. Please check the provided input against the agent's input format."))
  | Some checked =>
      _ <- Eff.measured pol
             (Eff.lift (match snd (resolveInput w checked) with
                        | Some e => inl e
                        | None => inr tt
                        end)) ;;
      let input' := fst (resolveInput w checked) in
      relevant <- relevantServersOf input' ;;
      _ <- (if nonEmpty relevant
            then Eff.measured pol (discoverAndInvoke input' relevant)
            else Eff.ret None) ;;
      results <- Eff.gets toolResults ;;
      response <- Eff.measured pol (generateResponse input' results) ;;
      validatedResponse <-
        Eff.measured pol
          (Eff.lift (parse (ZodObject (outputFormat cfg))
                       (match response with Some r => r | None => VObj [] end))) ;;
      Eff.ret (match validatedResponse with Some r => r | None => VObj [] end)
  end.

(** [run(input, progressCallback, measureFn)]: the value it resolves to
    ([None] for null) or the error it rejects with.  Sending the analytics
    cannot fail and is left out. *)
Definition run (input : value) : RunState * (exn + option value) :=
  Eff.measured pol (runBody input) emptyRun.

End Run.

End Agent.

(* ===================================================================== *)
(** * The payment retry loop (src/payments.ts) *)
(* ===================================================================== *)

Module Payments.

Record Response : Type := mkResponse { status : N; body : jsstring }.

(** [res.ok]: a status from 200 to 299. *)
Definition ok (res : Response) : bool := in_range 200 299 (status res).

Record Wallet : Type := mkWallet { privateKey : jsstring; rpcUrl : option jsstring }.

(** The network as one call sees it: what the n-th [fetch] yields
    (counted from 0); whether reading the payment request off the 402 body
    and building the transfer throws; what sending and confirming the
    transaction yield. *)
Record Net : Type := mkNet {
  fetch : nat -> exn + Response;
  prepare : Response -> exn + unit;
  sendTransaction : Response -> exn + jsstring;
  confirmTransaction : option jsstring -> exn + unit
}.

(** What a call does on the network: the calls of [fetch] and the calls
    of [connection.sendTransaction] it made, each counted by the call
    itself. *)
Record Trace : Type := mkTrace { attempts : nat; payments : nat }.

Definition P := Eff.M Trace.

Definition maxRetries : nat := 1.

Section Fetch.
Variable pol : MeasurePolicy.
Variable net : Net.
Variable solanaWallet : option Wallet.

(** [fetch(url, options)]: one more attempt, and what the network yields
    for it. *)
Definition request : P Response :=
  n <- Eff.gets attempts ;;
  _ <- Eff.modify (fun t => mkTrace (S (attempts t)) (payments t)) ;;
  Eff.lift (fetch net n).

(** [connection.sendTransaction(transaction, [fromKeypair])] for the
    transfer built from the 402 response: one more transaction handed to
    the network, and the signature it yields. *)
Definition send (res : Response) : P jsstring :=
  _ <- Eff.modify (fun t => mkTrace (attempts t) (S (payments t))) ;;
  Eff.lift (sendTransaction net res).

(** The [while (true)] loop from the value [retries] on; [fuel] bounds its
    rounds and [None] means they ran out. *)
Fixpoint loop (fuel : nat) (retries : nat) : P (option Response) :=
  match fuel with
  | O => Eff.ret None
  | S fuel' =>
      fetched <- Eff.measured pol request ;;
      res <- Eff.deref fetched ;;
      if ok res then Eff.ret (Some res)
      else if negb (status res =? 402)%N || (maxRetries <=? retries)
              || match solanaWallet with None => true | Some _ => false end
      then Eff.throw (RequestFailed (status res) (body res))
      else
        _ <- Eff.lift (prepare net res) ;;
        signature <- Eff.measured pol (send res) ;;
        _ <- Eff.measured pol (Eff.lift (confirmTransaction net signature)) ;;
        loop fuel' (S retries)
  end.

(** [fetchWithPayment(url, options, measure, description, progressCallback,
    solanaWallet)]: two rounds are all the loop can make
    ([fetchWithPayment_fuel]). *)
Definition fetchWithPayment : Trace * (exn + option Response) :=
  loop 2 0 (mkTrace 0 0).

End Fetch.

End Payments.

(* ===================================================================== *)
(** * Notions the statements use *)
(* ===================================================================== *)

Module Spec.

(** The accumulation loop of [parseElement], named. *)
Definition parseStep (fuel : nat) (acc : option (list (jsstring * value)))
    (m : jsstring * jsstring) : option (list (jsstring * value)) :=
  match acc with
  | None => None
  | Some result =>
      let (tagName, tagContent) := m in
      match (if includes ch_lt (trim tagContent)
             then parseElement fuel tagContent
             else Some (classify (trim tagContent))) with
      | Some c => Some (accumulate result tagName c)
      | None => None
      end
  end.

(** The child [parseElement] builds from one match, with [xmlToObj] for
    the recursive call, and the accumulation of all the children. *)
Definition decodeContent (tagContent : jsstring) : value :=
  if includes ch_lt (trim tagContent) then xmlToObj tagContent
  else classify (trim tagContent).

Definition parseChild (m : jsstring * jsstring) : jsstring * value :=
  (fst m, decodeContent (snd m)).

Definition accumulateAll (children : list (jsstring * value))
  : list (jsstring * value) :=
  fold_left (fun result c => accumulate result (fst c) (snd c)) children [].

(** The calls of [parseElement] that are on the stack at once while
    [content] is decoded: the call itself, and below it the deepest of
    the calls on the captured contents that hold a ['<'].  The fuel is
    that of [parseElement]; [nesting] gives it enough. *)
Fixpoint nestingFuel (fuel : nat) (content : jsstring) : nat :=
  match fuel with
  | O => 0
  | S fuel' =>
      let content := trim content in
      if negb (includes ch_lt content) then 1
      else S (list_max
                (List.map (fun m => if includes ch_lt (trim (snd m))
                                    then nestingFuel fuel' (snd m)
                                    else 0)
                          (allMatches content)))
  end.

Definition nesting (text : jsstring) : nat := nestingFuel (S (length text)) text.

(** A text nested [n] levels deep: each level has a tag name of its own,
    [t], [tx], [txx] and so on from the inside out. *)
Definition levelName (n : nat) : jsstring := str "t" ++ repeat 120%N n.

Fixpoint deep (n : nat) : jsstring :=
  match n with
  | O => str "x"
  | S n' => openTag (levelName n') ++ deep n' ++ closeTag (levelName n')
  end.

(** An output shape has an array where the construction check looks: as
    the type of a field, directly or under optional and nullable
    wrappers, in the shape or in a nested record at any depth. *)
Fixpoint hasArray (t : ZodType) : bool :=
  match t with
  | ZodArray _ => true
  | ZodObject shape =>
      (fix any (l : Shape) : bool :=
         match l with
         | [] => false
         | (_, ft) :: rest => hasArray ft || any rest
         end) shape
  | ZodOptional t' | ZodNullable t' => hasArray t'
  | _ => false
  end.

Definition shapeHasArray (shape : Shape) : bool :=
  existsb (fun kv => hasArray (snd kv)) shape.

(** A schema contains an array, anywhere: also as the element of an array
    and among the schemas a schema of another kind is built from. *)
Fixpoint containsArray (t : ZodType) : bool :=
  match t with
  | ZodArray _ => true
  | ZodObject shape =>
      (fix any (l : Shape) : bool :=
         match l with
         | [] => false
         | (_, ft) :: rest => containsArray ft || any rest
         end) shape
  | ZodOptional t' | ZodNullable t' => containsArray t'
  | ZodOther _ holds _ =>
      (fix any (l : list ZodType) : bool :=
         match l with
         | [] => false
         | ft :: rest => containsArray ft || any rest
         end) holds
  | _ => false
  end.

Definition shapeContainsArray (shape : Shape) : bool :=
  existsb (fun kv => containsArray (snd kv)) shape.

(** The declared schema of a key. *)
Fixpoint declared (key : jsstring) (shape : Shape) : option ZodType :=
  match shape with
  | [] => None
  | (k, t) :: rest => if Js.eqb k key then Some t else declared key rest
  end.

Definition isMapping (v : value) : bool :=
  match v with VObj _ => true | _ => false end.

(** A key the model reads as the code does: not the name of a member
    every object inherits. *)
Definition ownName (key : jsstring) : bool := negb (inherited key).

(** No mapping of a value, at any depth, has a key that names an
    inherited member.  For a decoded value this says that no tag of the
    text was named so, which is when the own entries are all the decoder
    of the sources saw. *)
Fixpoint ownKeys (v : value) : bool :=
  match v with
  | VArr items =>
      (fix all (l : list value) : bool :=
         match l with
         | [] => true
         | item :: rest => ownKeys item && all rest
         end) items
  | VObj entries =>
      (fix all (l : list (jsstring * value)) : bool :=
         match l with
         | [] => true
         | (k, item) :: rest => ownName k && ownKeys item && all rest
         end) entries
  | _ => true
  end.

(** A declared field whose name the reconciliation reads as it stands:
    it is made of letters, digits and ['_'], which are no metacharacters
    of the pattern the name is spliced into, and it names no inherited
    member. *)
Definition fieldName (key : jsstring) : bool :=
  nonEmpty key && forallb is_word key && ownName key.

(** The value the reconciliation gives a declared field: nothing when the
    source lacks it; for a plain-text field decoded as a mapping or a
    sequence, the raw text between the first literal [<key>] of the
    response and the first [</key>] after it when there is such a pair;
    the decoded value otherwise. *)
Definition reconciledField (source : value) (response key : jsstring) (schema : ZodType)
  : option value :=
  match Agent.getProp source key with
  | None => None
  | Some v =>
      match getSchemaTypeName schema, Agent.isStructured v, Agent.matchField key response with
      | TString, true, Some raw => Some (VStr raw)
      | _, _, _ => Some v
      end
  end.

(** [pat] occurs in [s] at offset [i]. *)
Definition occursAt (pat s : jsstring) (i : nat) : Prop :=
  startsWith pat (skipn i s) = true.

(** The generation service returned an empty text, or none at all. *)
Definition emptyReply (r : exn + jsstring) : Prop :=
  match r with
  | inr (_ :: _) => False
  | _ => True
  end.

(** The three ways a selection response is no decoded selection: the
    text is null, it is empty, or decoding it throws. *)
Definition undecoded (decode : jsstring -> exn + value) (response : option jsstring) : Prop :=
  response = None \/ response = Some [] \/
  exists text e, response = Some text /\ decode text = inl e.

End Spec.

Import Spec.

(* ===================================================================== *)
(** * Sample data *)
(* ===================================================================== *)

Module Sample.
Import Agent.

Definition one : value := VNum (str "1").
Definition two : value := VNum (str "2").
Definition three : value := VNum (str "3").

Definition nestedArrayConfig : AgentConfig :=
  mkConfig (str "gpt-4o-mini") []
    [(str "summary", ZodString);
     (str "details",
      ZodOptional (ZodObject [(str "title", ZodString);
                              (str "items", ZodNullable (ZodArray ZodString))]))]
    None.

Definition plainConfig : AgentConfig :=
  mkConfig (str "gpt-4o-mini") [] [(str "field", ZodString)] None.

(** Output shapes whose array lies under a schema of another kind: a
    defaulted array, and a union of a string and an array. *)
Definition defaultedArrayConfig : AgentConfig :=
  mkConfig (str "gpt-4o-mini") []
    [(str "tags", ZodDefault (ZodArray ZodString) (VArr []))] None.

Definition unionArrayConfig : AgentConfig :=
  mkConfig (str "gpt-4o-mini") []
    [(str "answer", ZodUnion [ZodString; ZodArray ZodString])] None.

Definition weatherServer : MCPServer :=
  mkServer (str "weather") (str "Weather data") (str "http://localhost:3001").
Definition newsServer : MCPServer :=
  mkServer (str "news") (str "Headlines") (str "http://localhost:3002").

Definition forecastTool : MCPTool :=
  mkTool (str "forecast") (str "24-hour forecast") (VObj []).
Definition alertTool : MCPTool :=
  mkTool (str "alerts") (str "Weather alerts") (VObj []).

(** An agent with two providers and one required output field. *)
Definition twoServerConfig : AgentConfig :=
  mkConfig (str "gpt-4o-mini") [] [(str "output", ZodString)]
    (Some [weatherServer; newsServer]).

(** The agent of the test 'Agent run basic flow mock' of agent.ts: no
    input field, one required output field, no provider. *)
Definition mockConfig : AgentConfig :=
  mkConfig (str "gpt-4o-mini") [] [(str "output", ZodString)] None.

(** An output shape with a defaulted field. *)
Definition defaultedConfig : AgentConfig :=
  mkConfig (str "gpt-4o-mini") []
    [(str "status", ZodDefault ZodString (VStr (str "unknown")))] None.

(** A generation service that never produces any content. *)
Definition silentWorld : World :=
  mkWorld (fun _ => inr [])
          (fun _ => inr [forecastTool; alertTool])
          (fun _ _ _ => inr (VStr (str "sunny")))
          (fun input => (input, None)).

(** A generation service that answers the provider selection in free
    text and everything else with nothing. *)
Definition chattyWorld : World :=
  mkWorld (fun call => match call with
                       | SelectServers _ => inr (str "none of them")
                       | _ => inr []
                       end)
          (fun _ => inr [forecastTool; alertTool])
          (fun _ _ _ => inr (VStr (str "sunny")))
          (fun input => (input, None)).

(** A generation service that answers every selection in free text. *)
Definition talkativeWorld : World :=
  mkWorld (fun call => match call with
                       | SelectServers _ | SelectTools _ _ _ => inr (str "none of them")
                       | _ => inr []
                       end)
          (fun _ => inr [forecastTool; alertTool])
          (fun _ _ _ => inr (VStr (str "sunny")))
          (fun input => (input, None)).

(** A response whose [answer] tag carries an attribute and holds markup. *)
Definition attributedResponse : jsstring :=
  str "<answer id=1><b>hi</b></answer><status>ok</status>".

Definition answerShape : Shape :=
  [(str "answer", ZodString); (str "status", ZodString)].

(** A response wrapped in one extra root tag, whose [answer] holds markup. *)
Definition wrappedResponse : jsstring :=
  str "<response><answer>Use <b>bold</b> text</answer><status>ok</status></response>".

(** A paywall answered with a payment, then an ok response. *)
Definition okResponse : Payments.Response := Payments.mkResponse 200 (str "ok").
Definition paywall : Payments.Response :=
  Payments.mkResponse 402 (str "{amount: 0.001, recipient: test}").
Definition demoWallet : Payments.Wallet := Payments.mkWallet (str "key") None.
Definition demoNet : Payments.Net :=
  Payments.mkNet (fun n => match n with 0 => inr paywall | _ => inr okResponse end)
        (fun _ => inr tt) (fun _ => inr (str "sig")) (fun _ => inr tt).

(** A paywall whose body is no payment request: reading it throws. *)
Definition garbledPaywall : Payments.Response :=
  Payments.mkResponse 402 (str "Payment Required").
Definition garbledNet : Payments.Net :=
  Payments.mkNet (fun n => match n with 0 => inr garbledPaywall | _ => inr okResponse end)
        (fun _ => inl (Error (str "JSON Parse error: Unexpected identifier")))
        (fun _ => inr (str "sig")) (fun _ => inr tt).

End Sample.

(* ===================================================================== *)
(** * Values that survive the round trip *)
(* ===================================================================== *)

Module RoundTrip.

(** A key that is a tag name as it stands: a letter, then letters, digits
    and ['_']. *)
Definition goodName (k : jsstring) : bool :=
  match k with
  | [] => false
  | c :: _ => is_alpha c && forallb is_word k
  end.

(** A key that is read back whole when it is written as it stands: it is
    not empty and has no ['>'], ['/'] or white space, which is what group
    1 of the tag pattern takes. *)
Definition rawName (k : jsstring) : bool := nonEmpty k && forallb nameChar k.

(** The key of an entry survives the encoding: the key of a mapping or of
    a sequence goes through [sanitizeTagName], which keeps a tag name as
    it is; the key of a scalar is written as it stands. *)
Definition keyOk (kv : jsstring * value) : bool :=
  if typeof_object (snd kv) then goodName (fst kv) else rawName (fst kv).

(** A string scalar of the round-trip contract: no ['<'], no ['>'], not a
    boolean or numeric literal; and no white space around it, which the
    decoder would trim. *)
Definition plainText (s : jsstring) : bool :=
  negb (includes ch_lt s) && negb (includes ch_gt s)
  && Js.eqb (trim s) s
  && negb (Js.eqb s (str "true")) && negb (Js.eqb s (str "false"))
  && negb (isNumeric s).

(** The scalars: such strings, booleans, and numbers printed as plain
    decimal numerals. *)
Definition leafOk (v : value) : bool :=
  match v with
  | VStr s => plainText s
  | VBool _ => true
  | VNum n => isNumeric n
  | _ => false
  end.

Definition mem (k : jsstring) (l : list jsstring) : bool := existsb (Js.eqb k) l.

Fixpoint distinct (l : list jsstring) : bool :=
  match l with
  | [] => true
  | k :: rest => negb (mem k rest) && distinct rest
  end.

(** The tag names that occur in the encoding of the content of [v]. *)
Fixpoint tagsOf (v : value) : list jsstring :=
  match v with
  | VArr items => str "item" :: concat (List.map tagsOf items)
  | VObj entries => concat (List.map (fun kv => fst kv :: tagsOf (snd kv)) entries)
  | _ => []
  end.

(** A mapping whose only key is [item]. *)
Definition loneItem (entries : list (jsstring * value)) : bool :=
  match entries with
  | [(k, _)] => Js.eqb k (str "item")
  | _ => false
  end.

(** The values in scope: mappings are non-empty, with distinct keys that
    are tag names, and are not a lone [item]; sequences are non-empty and
    hold scalars and mappings; no tag name occurs inside an element of
    the same name; scalars are as in [leafOk]. *)
Fixpoint valueOk (v : value) : bool :=
  match v with
  | VObj entries =>
      nonEmpty entries && distinct (List.map fst entries) && negb (loneItem entries)
      && forallb (fun kv => goodName (fst kv) && valueOk (snd kv)
                            && negb (mem (fst kv) (tagsOf (snd kv)))) entries
  | VArr items =>
      nonEmpty items
      && forallb (fun item => match item with
                              | VArr _ => false
                              | _ => valueOk item && negb (mem (str "item") (tagsOf item))
                              end) items
  | _ => leafOk v
  end.

(** The values that survive in the model: as [valueOk], but for the keys
    of scalars, which need not be tag names. *)
Fixpoint survives (v : value) : bool :=
  match v with
  | VObj entries =>
      nonEmpty entries && distinct (List.map fst entries) && negb (loneItem entries)
      && forallb (fun kv => keyOk kv && survives (snd kv)
                            && negb (mem (fst kv) (tagsOf (snd kv)))) entries
  | VArr items =>
      nonEmpty items
      && forallb (fun item => match item with
                              | VArr _ => false
                              | _ => survives item && negb (mem (str "item") (tagsOf item))
                              end) items
  | _ => leafOk v
  end.

(** The values of the round-trip contract, as amended: a mapping [v]
    such that [v] and every mapping in it is non-empty, is not a lone
    [item], and has keys that survive ([keyOk]) and name no inherited
    member; every sequence in it is non-empty and holds scalars and
    mappings; no key occurs inside the element of the same name; and the
    scalars are as in [leafOk]. *)
Definition roundTrips (v : value) : bool :=
  match v with
  | VObj _ => survives v && ownKeys v
  | _ => false
  end.

(** The text between the tags of the element that encodes [v]. *)
Definition innerXml (v : value) : jsstring :=
  match v with
  | VArr items => concat (List.map itemXml items)
  | VObj entries => concat (List.map entryXml entries)
  | _ => String_ v
  end.

(** Scanning for [pat] goes through [t] without finding it, whatever
    follows [t]. *)
Definition passes (pat t : jsstring) : Prop :=
  forall s, splitAt pat (t ++ s) =
            match splitAt pat s with
            | Some (before, after) => Some (t ++ before, after)
            | None => None
            end.

(** A run of elements, each given by its tag name and its content. *)
Definition renderElems (elems : list (jsstring * jsstring)) : jsstring :=
  concat (List.map (fun e => openTag (fst e) ++ snd e ++ closeTag (fst e)) elems).

(** An element the scanner reads back whole: a name it reads whole, and
    a content that does not hold its closing tag. *)
Definition elemOk (e : jsstring * jsstring) : Prop :=
  rawName (fst e) = true /\ passes (closeTag (fst e)) (snd e).

Definition notArray (v : value) : Prop :=
  match v with VArr _ => False | _ => True end.

End RoundTrip.

Module SampleValues.



(** A mapping whose key names a member every object inherits. *)
Definition inheritedKey : value := VObj [(str "constructor", VStr (str "x"))].


End SampleValues.

Import RoundTrip.

(* ===================================================================== *)
(** * Well-nested responses *)
(* ===================================================================== *)

Module Doc.
Import Stream.

(** A response as nested elements and the raw text between their tags. *)
Inductive node : Type :=
| Text (t : jsstring)
| Elem (name : jsstring) (children : list node).

Fixpoint render (n : node) : jsstring :=
  match n with
  | Text t => t
  | Elem name children =>
      openTag name ++ concat (List.map render children) ++ closeTag name
  end.

Definition renderDoc (doc : list node) : jsstring := concat (List.map render doc).

(** Tags without attributes whose names are letters, digits and ['_'],
    and text without ['<']. *)
Fixpoint wfNode (n : node) : bool :=
  match n with
  | Text t => negb (includes ch_lt t)
  | Elem name children => goodName name && forallb wfNode children
  end.

(** The raw text fragments that lie inside an element, each with the
    path of the element it lies directly in, in document order. *)
Fixpoint fragments (stack : list jsstring) (n : node) : list (jsstring * jsstring) :=
  match n with
  | Text t => if nonEmpty stack then [(fieldOf stack, t)] else []
  | Elem name children => concat (List.map (fragments (stack ++ [name])) children)
  end.

Definition fragmentsOf (doc : list node) : list (jsstring * jsstring) :=
  concat (List.map (fragments []) doc).

(** The raw text at one path: its fragments, concatenated. *)
Definition textAt (path : jsstring) (frags : list (jsstring * jsstring)) : jsstring :=
  concat (List.map snd (filter (fun p => Js.eqb (fst p) path) frags)).

(** A record of leaf fields: one element per field, holding its text. *)
Definition flatRecord (fields : list (jsstring * jsstring)) : list node :=
  List.map (fun kv => Elem (fst kv) [Text (snd kv)]) fields.

(** A leaf field: a good name and a text without ['<']. *)
Definition fieldOk (kv : jsstring * jsstring) : Prop :=
  goodName (fst kv) = true /\ includes ch_lt (snd kv) = false.

(** The stream state between two tags: no tag being read. *)
Definition between (full : jsstring) (stack : list jsstring) (pending : jsstring) : state :=
  mkState full stack [] pending false.

(** What a ['<'] flushes. *)
Definition flushed (stack : list jsstring) (pending : jsstring) : list StreamingUpdate :=
  if nonEmpty pending && nonEmpty stack then [mkUpdate (fieldOf stack) pending] else [].

(** The pending word, when it belongs to [path]. *)
Definition pendingAt (path : jsstring) (stack : list jsstring) (pending : jsstring) : jsstring :=
  if nonEmpty stack && Js.eqb (fieldOf stack) path then pending else [].

Definition withFull (full : jsstring) (st : state) : state :=
  mkState full (tagStack st) (currentTagName st) (wordBuffer st) (insideTag st).

(** What the extractor does on a well-nested piece of a response that
    starts between two tags: it ends between two tags, on the same stack,
    and the values it emitted for a path, with the word still pending,
    are the word that was pending and the text of the piece at that path. *)
Definition streamsAs (stack : list jsstring) (piece : jsstring)
    (frags : list (jsstring * jsstring)) : Prop :=
  forall full pending,
  exists pending' ups,
    steps (between full stack pending) piece = (between full stack pending', ups)
    /\ forall f, valuesFor f ups ++ pendingAt f stack pending'
                 = pendingAt f stack pending ++ textAt f frags.

End Doc.

Module SampleResponses.
Import Doc.

(** A leaf whose text holds a stray ['<']. *)
Definition strayResponse : jsstring := str "<a>1 < 2</a>".

(** A plain-text field whose text holds markup. *)
Definition markupResponse : jsstring := str "<answer>Use <b>bold</b> text</answer>".

(** The response shape of the streaming test: a nested record and two
    leaf fields. *)
Definition analysisDoc : list node :=
  [Elem (str "analysis")
     [Text (str " "); Elem (str "step1") [Text (str "sun and wind")];
      Text (str " "); Elem (str "step2") [Text (str "no fuel cost")]];
   Text [ch_nl];
   Elem (str "answer") [Text (str "cheap, clean power")];
   Elem (str "status") [Text (str "ok")]].

Definition answerFields : list (jsstring * jsstring) :=
  [(str "answer", str "cheap, clean power"); (str "status", str "ok")].

End SampleResponses.

(* ===================================================================== *)
(** * The capability provider's calls (src/mcp.ts) *)
(* ===================================================================== *)

Module Mcp.
Import Agent Payments.

(** What a call puts on the wire. *)
Record Request : Type := mkRequest {
  url : jsstring; method : jsstring; payload : option jsstring }.

Section Calls.
Variable pol : MeasurePolicy.
(** The network, by request. *)
Variable web : Request -> Net.
(** [JSON.stringify] of the call body and [response.json()], which may
    throw. *)
Variable stringify : jsstring -> value -> jsstring.
Variable toolsOf : Response -> exn + list MCPTool.
Variable resultOf : Response -> exn + value.

(** [fetchWithPayment(url, options, measure, description)] as a step: the
    retry loop from no retries, with no progress callback and no wallet,
    the two arguments the calls of mcp.ts leave out. *)
Definition fetchUnpaid (request : Request) : P Response :=
  response <- loop pol (web request) None 2 0 ;;
  Eff.deref response.

(** [discoverTools(server, measureFn)] *)
Definition discoverTools (server : MCPServer) : P (option (list MCPTool)) :=
  found <- Eff.measured pol
             (response <- fetchUnpaid
                            (mkRequest (server_url server ++ str "/tools") (str "GET") None) ;;
              tools <- Eff.lift (toolsOf response) ;;
              Eff.measured pol (Eff.ret tools)) ;;
  Eff.ret (flatten found).

(** [invokeTool(server, toolName, parameters, measureFn)] *)
Definition invokeTool (server : MCPServer) (toolName : jsstring) (parameters : value)
  : P (option value) :=
  let body := stringify toolName parameters in
  returned <- Eff.measured pol
                (response <- fetchUnpaid
                               (mkRequest (server_url server ++ str "/call") (str "POST")
                                  (Some body)) ;;
                 result <- Eff.lift (resultOf response) ;;
                 Eff.measured pol (Eff.ret result)) ;;
  Eff.ret (flatten returned).

End Calls.

End Mcp.

(* ===================================================================== *)
(** * The event-stream reader (src/inference.ts, [callLLM]) *)
(* ===================================================================== *)

Module Sse.
Import Stream.

(** [s.includes(pat)] *)
Definition includesStr (pat s : jsstring) : bool :=
  match splitAt pat s with Some _ => true | None => false end.

(** [s.split("\n")]: the pieces between the line feeds, at least one. *)
Fixpoint splitLines (s : jsstring) : list jsstring :=
  match s with
  | [] => [[]]
  | c :: s' =>
      if (c =? ch_nl)%N then [] :: splitLines s'
      else match splitLines s' with
           | l :: ls => (c :: l) :: ls
           | [] => [[c]]
           end
  end.

Section Reader.
(** The text a data payload carries: [JSON.parse] of the payload and the
    read of the provider's delta field ([delta.text] of a
    content_block_delta for the claude models, [choices[0].delta.content]
    for the others), the empty string when the parse throws or the field
    is missing or empty. *)
Variable delta : jsstring -> jsstring.

(** [parseSseLine(line)] *)
Definition parseSseLine (line : jsstring) : jsstring :=
  if negb (startsWith (str "data: ") line) || includesStr (str "[DONE]") line then []
  else delta (skipn 6 line).

(** The variables of the read loop: [buffer], and the extractor's
    variables with the updates handed out so far. *)
Definition reader : Type := jsstring * (state * list StreamingUpdate).

(** [const content = parseSseLine(line); if (content) processChunk(content)] *)
Definition feedLine (acc : state * list StreamingUpdate) (line : jsstring)
  : state * list StreamingUpdate :=
  let content := parseSseLine line in
  if nonEmpty content
  then let (st, ups) := processChunk (fst acc) content in (st, snd acc ++ ups)
  else acc.

(** One round of the [while (true)] loop, on the text the decoder made of
    the bytes read: the buffer grows, its complete lines are fed, its last
    piece is kept. *)
Definition onRead (r : reader) (chunk : jsstring) : reader :=
  let lines := splitLines (fst r ++ chunk) in
  (last lines [], fold_left feedLine (removelast lines) (snd r)).

(** The [finally] block: the kept piece is fed when it is not empty, and
    the pending word is flushed; [callLLM] returns [fullResponse]. *)
Definition finish (r : reader) : jsstring * list StreamingUpdate :=
  let acc := if nonEmpty (fst r) then feedLine (snd r) (fst r) else snd r in
  (fullResponse (fst acc), snd acc ++ flush (fst acc)).

(** The streaming branch of [callLLM] on the successive reads of the
    response body. *)
Definition readAll (reads : list jsstring) : jsstring * list StreamingUpdate :=
  finish (fold_left onRead reads ([], (initial, []))).

End Reader.

End Sse.

(* ===================================================================== *)
(** * The analytics store (src/analytics.ts) *)
(* ===================================================================== *)

Module Analytics.

Inductive Status : Type := success | error | pending.

Definition status_eqb (a b : Status) : bool :=
  match a, b with
  | success, success | error, error | pending, pending => true
  | _, _ => false
  end.

(** An [InferenceRequest].  [timestamp] and [duration] are numbers of
    milliseconds, kept as naturals. *)
Record InferenceRequest : Type := mkRequest {
  id : jsstring;
  agentName : jsstring;
  llm : jsstring;
  timestamp : N;
  duration : N;
  status : Status;
  input : value;
  output : value;
  rawPrompt : option jsstring;
  rawResponse : option jsstring;
  toolInvocations : option (list (jsstring * jsstring * value * value));
  error_ : option jsstring
}.

Record AnalyticsData : Type := mkData {
  requests : list InferenceRequest;
  version : N
}.

Record AgentStats : Type := mkStats {
  name : jsstring;
  totalRequests : nat;
  successfulRequests : nat;
  failedRequests : nat;
  avgDuration : N;
  lastUsed : N
}.

Definition emptyData : AnalyticsData := mkData [] 1.

(** [array.sort((a, b) => key(b) - key(a))].  The sort of an array is
    stable and this comparator is a consistent ordering, so the result is
    the one stable arrangement by descending key, whichever algorithm
    computes it; here, insertion from the right. *)
Fixpoint insertDesc (A : Type) (key : A -> N) (x : A) (l : list A) : list A :=
  match l with
  | [] => [x]
  | y :: l' => if (key y <=? key x)%N then x :: l else y :: insertDesc key x l'
  end.

Definition sortDesc (A : Type) (key : A -> N) (l : list A) : list A :=
  fold_right (insertDesc key) [] l.

(** [array.slice(-n)]: the last [n] elements. *)
Definition lastN (A : Type) (n : nat) (l : list A) : list A := skipn (length l - n) l.

(** The data directory and the data file: the directory is missing, or
    it is there and the file is missing or holds a text. *)
Inductive Disk (Text : Type) : Type :=
| NoDir
| Dir (file : option Text).
Arguments NoDir {Text}.

Section Store.
Variable Text : Type.
(** [JSON.stringify(data, null, 2)], and [JSON.parse] of a file's text,
    [None] when it throws; a text that parses is taken to hold data of
    the declared type. *)
Variable stringify : AnalyticsData -> Text.
Variable parse : Text -> option AnalyticsData.

(** [ensureDataDir()] *)
Definition ensureDataDir (disk : Disk Text) : Disk Text :=
  match disk with
  | NoDir => Dir None
  | Dir file => Dir file
  end.

(** [loadData()]: the disk it leaves and the data it returns. *)
Definition loadData (disk : Disk Text) : Disk Text * AnalyticsData :=
  let disk := ensureDataDir disk in
  (disk,
   match disk with
   | Dir (Some text) =>
       match parse text with
       | Some data => data
       | None => emptyData
       end
   | _ => emptyData
   end).

(** [saveData(data)] *)
Definition saveData (disk : Disk Text) (data : AnalyticsData) : Disk Text :=
  match ensureDataDir disk with
  | NoDir => NoDir   (* not reached: the directory was just made *)
  | Dir _ => Dir (Some (stringify data))
  end.

(** [getAllRequests()] *)
Definition getAllRequests (disk : Disk Text) : Disk Text * list InferenceRequest :=
  let (disk, data) := loadData disk in
  (disk, sortDesc timestamp (requests data)).

(** [addRequest(request)] *)
Definition addRequest (disk : Disk Text) (request : InferenceRequest) : Disk Text :=
  let (disk, data) := loadData disk in
  let pushed := requests data ++ [request] in
  let kept := if 1000 <? length pushed then lastN 1000 pushed else pushed in
  saveData disk (mkData kept (version data)).

(** [getRequestsByAgent(agentName)] *)
Definition getRequestsByAgent (disk : Disk Text) (agent : jsstring)
  : Disk Text * list InferenceRequest :=
  let (disk, all) := getAllRequests disk in
  (disk, filter (fun r => Js.eqb (agentName r) agent) all).

(** The [agentMap] loop: [existing = agentMap.get(name) || []], then
    [existing.push(request)] and [agentMap.set(name, existing)]; a map
    keeps its keys in insertion order. *)
Fixpoint pushTo (agent : jsstring) (request : InferenceRequest)
    (agentMap : list (jsstring * list InferenceRequest))
  : list (jsstring * list InferenceRequest) :=
  match agentMap with
  | [] => [(agent, [request])]
  | (k, existing) :: rest =>
      if Js.eqb k agent then (k, existing ++ [request]) :: rest
      else (k, existing) :: pushTo agent request rest
  end.

Definition groupByAgent (all : list InferenceRequest)
  : list (jsstring * list InferenceRequest) :=
  fold_left (fun agentMap request => pushTo (agentName request) request agentMap) all [].

(** [Math.round(totalDuration / agentRequests.length)] on naturals: the
    quotient rounded to the nearest integer, halves up.  The division of
    the sources is in floating point, which gives this for totals below
    2^52. *)
Definition roundDiv (total : N) (count : nat) : N :=
  ((2 * total + N.of_nat count) / (2 * N.of_nat count))%N.

(** One row of [getAgentStats]. *)
Definition statsOf (entry : jsstring * list InferenceRequest) : AgentStats :=
  let (agent, agentRequests) := entry in
  let successfulRequests :=
    length (filter (fun r => status_eqb (status r) success) agentRequests) in
  let failedRequests :=
    length (filter (fun r => status_eqb (status r) error) agentRequests) in
  let totalDuration := fold_left (fun acc r => (acc + duration r)%N) agentRequests 0%N in
  let avgDuration :=
    if 0 <? length agentRequests then roundDiv totalDuration (length agentRequests)
    else 0%N in
  (* Math.max(...timestamps), on a group that is never empty *)
  let lastUsed := fold_right N.max 0%N (List.map timestamp agentRequests) in
  mkStats agent (length agentRequests) successfulRequests failedRequests avgDuration lastUsed.

(** [getAgentStats()] *)
Definition getAgentStats (disk : Disk Text) : Disk Text * list AgentStats :=
  let (disk, all) := getAllRequests disk in
  (disk, sortDesc lastUsed (List.map statsOf (groupByAgent all))).

(** [clearAllData()] *)
Definition clearAllData (disk : Disk Text) : Disk Text := saveData disk emptyData.

End Store.

End Analytics.

(* ===================================================================== *)
(** * The prompt of the final call (src/agent.ts) *)
(* ===================================================================== *)

Module Describe.
Import Agent.

(** ** The output-format template *)

(** The value [getNestedDescription] and [getOutputFormatDescription]
    store under a key, for a field of schema [t]: the unwrapping loop is
    folded into the recursion, and the recursive call on a nested record
    is the local loop, which assigns key by key. *)
Fixpoint describeField (t : ZodType) {struct t} : value :=
  match t with
  | ZodOptional t' | ZodNullable t' => describeField t'
  | ZodObject shape =>
      VObj ((fix fields (l : Shape) (description : list (jsstring * value)) :=
               match l with
               | [] => description
               | (key, fieldSchema) :: rest =>
                   fields rest (assign key (describeField fieldSchema) description)
               end) shape [])
  | _ => VStr []
  end.

(** [getNestedDescription(schema)] *)
Definition getNestedDescription (shape : Shape) : value := describeField (ZodObject shape).

(** [getOutputFormatDescription()], which has its own copy of the loop. *)
Definition getOutputFormatDescription (outputFormat : Shape) : value :=
  VObj (fold_left
          (fun description kv =>
             assign (fst kv)
               (match unwrapAll (snd kv) with
                | ZodObject shape => getNestedDescription shape
                | _ => VStr []
                end) description)
          outputFormat []).

(** ** The field instructions *)

(** A schema with the description each of its nodes carries
    ([schema.description || '']: the empty string for none). *)
Inductive Schema : Type :=
| SString (description : jsstring)
| SNumber (description : jsstring)
| SBoolean (description : jsstring)
| SEnum (description : jsstring) (values : list jsstring)
| SArray (description : jsstring) (element : Schema)
| SObject (description : jsstring) (shape : list (jsstring * Schema))
| SOptional (description : jsstring) (inner : Schema)
| SNullable (description : jsstring) (inner : Schema).

Definition descriptionOf (s : Schema) : jsstring :=
  match s with
  | SString d | SNumber d | SBoolean d | SEnum d _ | SArray d _ | SObject d _
  | SOptional d _ | SNullable d _ => d
  end.

(** The schema without its descriptions. *)
Fixpoint erase (s : Schema) : ZodType :=
  match s with
  | SString _ => ZodString
  | SNumber _ => ZodNumber
  | SBoolean _ => ZodBoolean
  | SEnum _ values => ZodEnum values
  | SArray _ element => ZodArray (erase element)
  | SObject _ shape => ZodObject (List.map (fun kv => (fst kv, erase (snd kv))) shape)
  | SOptional _ inner => ZodOptional (erase inner)
  | SNullable _ inner => ZodNullable (erase inner)
  end.

Definition ch_quote : char := 34%N.   (* the double quote *)

Definition quoted (v : jsstring) : jsstring := [ch_quote] ++ v ++ [ch_quote].

(** [constraint]: [None] for null. *)
Definition constraintOf (s : Schema) : option jsstring :=
  match s with
  | SBoolean _ =>
      Some (str "either " ++ quoted (str "true") ++ str " or " ++ quoted (str "false"))
  | SEnum _ values =>
      Some (str "exactly one of these values: " ++ join (str ", ") (List.map quoted values))
  | _ => None
  end.

(** The description after the constraint was added. *)
Definition instruction (description : jsstring) (s : Schema) : jsstring :=
  match constraintOf s with
  | Some constraint =>
      if nonEmpty description then description ++ str ". Must be " ++ constraint
      else str "Must be " ++ constraint
  | None => description
  end.

(** [path ? `${path}_${key}` : key] *)
Definition fieldPath (path key : jsstring) : jsstring :=
  match path with
  | [] => key
  | _ => path ++ [ch_us] ++ key
  end.

Definition lineFor (currentPath text : jsstring) : jsstring :=
  str "- " ++ currentPath ++ str " SHOULD be " ++ text.

(** The body of the loop of [getFieldDescriptions] for one field: what it
    pushes.  [description] is the description found so far; the
    unwrapping loop is folded into the recursion, and the recursive call
    on a nested record is the local loop. *)
Fixpoint fieldLines (path key description : jsstring) (s : Schema) {struct s}
  : list jsstring :=
  match s with
  | SOptional _ inner | SNullable _ inner =>
      fieldLines path key
        (if nonEmpty description then description else descriptionOf inner) inner
  | _ =>
      let currentPath := fieldPath path key in
      let text := instruction description s in
      (if nonEmpty text then [lineFor currentPath text] else [])
      ++ match s with
         | SObject _ shape =>
             (fix each (l : list (jsstring * Schema)) : list jsstring :=
                match l with
                | [] => []
                | (k, fieldSchema) :: rest =>
                    fieldLines currentPath k (descriptionOf fieldSchema) fieldSchema
                    ++ each rest
                end) shape
         | _ => []
         end
  end.

(** [getFieldDescriptions(schema, path)] *)
Definition getFieldDescriptions (shape : list (jsstring * Schema)) (path : jsstring)
  : list jsstring :=
  concat (List.map (fun kv => fieldLines path (fst kv) (descriptionOf (snd kv)) (snd kv))
            shape).

(** [generateTaskDescription()] *)
Definition generateTaskDescription (outputFormat : list (jsstring * Schema)) : jsstring :=
  let fieldDescriptions := getFieldDescriptions outputFormat [] in
  let task :=
    str "Generate a response matching the output format exactly, using XML tags for each field" in
  if nonEmpty fieldDescriptions
  then task ++ [ch_nl] ++ str "accordingly to following instructions:" ++ [ch_nl; ch_nl]
       ++ join [ch_nl] fieldDescriptions
  else task.

End Describe.

(* ===================================================================== *)
(** * The request to the generation service (src/inference.ts, src/agent.ts) *)
(* ===================================================================== *)

Module Inference.
Import Agent.

(** [options] of [callLLM]: a number is its decimal numeral, [None] is
    [undefined]. *)
Record Options : Type := mkOptions {
  temperature : option jsstring;
  maxTokens : option jsstring
}.

(** The request [callLLM] hands to [fetchWithPayment]; a header whose
    value is [undefined] has [None]. *)
Record HttpRequest : Type := mkHttp {
  url : jsstring;
  headers : list (jsstring * option jsstring);
  body : value
}.

Section Request.
(** [process.env] *)
Variable env : jsstring -> option jsstring.

(** [`Bearer ${process.env[key]}`] *)
Definition bearer (key : jsstring) : jsstring :=
  str "Bearer " ++ match env key with Some v => v | None => str "undefined" end.

(** The head of [callLLM]: the defaults of the options, then the url,
    the headers and the body by the name of the model. *)
Definition requestFor (llm : jsstring) (messages : value) (options : Options)
    (streaming : bool) : HttpRequest :=
  let temperature := match temperature options with Some t => t | None => str "0.7" end in
  let maxTokens := match maxTokens options with Some m => m | None => str "4000" end in
  let contentType := (str "Content-Type", Some (str "application/json")) in
  if Sse.includesStr (str "claude") llm then
    mkHttp (str "https://api.anthropic.com/v1/messages")
      [contentType; (str "x-api-key", env (str "ANTHROPIC_API_KEY"));
       (str "anthropic-version", Some (str "2023-06-01"))]
      (VObj [(str "model", VStr llm); (str "max_tokens", VNum maxTokens);
             (str "messages", messages); (str "stream", VBool streaming)])
  else if Sse.includesStr (str "deepseek") llm then
    mkHttp (str "https://api.deepseek.com/v1/chat/completions")
      [contentType; (str "Authorization", Some (bearer (str "DEEPSEEK_API_KEY")))]
      (VObj [(str "model", VStr llm); (str "temperature", VNum temperature);
             (str "messages", messages); (str "max_tokens", VNum maxTokens);
             (str "stream", VBool streaming)])
  else
    mkHttp (str "https://api.openai.com/v1/chat/completions")
      [contentType; (str "Authorization", Some (bearer (str "OPENAI_API_KEY")))]
      (if Sse.includesStr (str "o4-") llm
       then VObj [(str "model", VStr llm); (str "temperature", VNum (str "1"));
                  (str "messages", messages);
                  (str "max_completion_tokens", VNum maxTokens);
                  (str "stream", VBool streaming)]
       else VObj [(str "model", VStr llm); (str "temperature", VNum temperature);
                  (str "messages", messages); (str "max_tokens", VNum maxTokens);
                  (str "stream", VBool streaming)]).

End Request.

End Inference.

Module Prompt.
Import Agent Describe.

(** The settings of [AgentConfig] the final call reads, with the output
    format and its descriptions. *)
Record Generation : Type := mkGeneration {
  systemPrompt : option jsstring;
  temperature : option jsstring;
  maxTokens : option jsstring;
  described : list (jsstring * Schema)
}.

(** [configured || dflt] for a number. *)
Definition numberOr (configured : option jsstring) (dflt : jsstring) : jsstring :=
  match configured with
  | Some n => if isZero n then dflt else n
  | None => dflt
  end.

(** The options [generateResponse] passes, and those of the selection
    and parameter steps, [{ temperature: 0.3 }]. *)
Definition finalOptions (g : Generation) : Inference.Options :=
  Inference.mkOptions (Some (numberOr (temperature g) (str "0.7")))
                      (Some (numberOr (maxTokens g) (str "4000"))).

Definition selectionOptions : Inference.Options :=
  Inference.mkOptions (Some (str "0.3")) None.

(** [JSON.stringify(result) === '{}']: a mapping none of whose entries
    has a value. *)
Definition stringifiesEmpty (result : value) : bool :=
  match result with
  | VObj entries =>
      forallb (fun kv => match snd kv with VUndefined => true | _ => false end) entries
  | _ => false
  end.

(** [result !== null && result !== undefined && result !== '' &&
    JSON.stringify(result) !== '{}'] *)
Definition worthShowing (result : value) : bool :=
  match result with
  | VNull | VUndefined | VStr [] => false
  | _ => negb (stringifiesEmpty result)
  end.

Definition hasToolResults (toolResults : list (jsstring * value)) : bool :=
  nonEmpty toolResults && existsb (fun kv => worthShowing (snd kv)) toolResults.

(** [obj] of [generateResponse] *)
Definition promptObject (g : Generation) (input : value)
    (toolResults : list (jsstring * value)) : value :=
  let outputFormat := List.map (fun kv => (fst kv, erase (snd kv))) (described g) in
  let obj := [(str "input", input);
              (str "output_format", getOutputFormatDescription outputFormat);
              (str "task", VStr (generateTaskDescription (described g)))] in
  VObj (if hasToolResults toolResults
        then obj ++ [(str "context", VObj [(str "tool_results", VObj toolResults)])]
        else obj).

Definition userPrompt (g : Generation) (input : value)
    (toolResults : list (jsstring * value)) : jsstring :=
  objToXml (promptObject g input toolResults) None.

(** [messages]: each a role and a content. *)
Definition messagesFor (g : Generation) (prompt : jsstring) : list (jsstring * jsstring) :=
  match systemPrompt g with
  | Some (c :: text) => [(str "system", c :: text)]
  | _ => []
  end
  ++ [(str "user", str "<request>" ++ prompt ++ str "</request>")].

Definition messagesValue (messages : list (jsstring * jsstring)) : value :=
  VArr (List.map (fun m => VObj [(str "role", VStr (fst m)); (str "content", VStr (snd m))])
          messages).

(** The request of the final call. *)
Definition finalRequest (env : jsstring -> option jsstring) (llm : jsstring)
    (g : Generation) (input : value) (toolResults : list (jsstring * value))
    (streaming : bool) : Inference.HttpRequest :=
  Inference.requestFor env llm
    (messagesValue (messagesFor g (userPrompt g input toolResults)))
    (finalOptions g) streaming.

End Prompt.

(* ===================================================================== *)
(** * The check of a provider's address (src/utils.ts) *)
(* ===================================================================== *)

Module Utils.

(** The members of a parsed [URL] that [validateUrl] reads. *)
Record URL : Type := mkURL {
  protocol : jsstring;
  hash : jsstring;
  username : jsstring;
  password : jsstring;
  href : jsstring
}.

Definition ch_cr : char := 13%N.

Section Validate.
(** [new URL(text)] and [decodeURIComponent(text)]: the result, or the
    message of the error they throw. *)
Variable parseUrl : jsstring -> jsstring + URL.
Variable decodeURIComponent : jsstring -> jsstring + jsstring.

(** The body of the [try] block: the [href], or the message of the error
    thrown. *)
Definition checkUrl (userUrl : jsstring) : jsstring + jsstring :=
  match parseUrl userUrl with
  | inl message => inl message
  | inr parsed =>
      if negb (Js.eqb (protocol parsed) (str "http:"))
         && negb (Js.eqb (protocol parsed) (str "https:"))
      then inl (str "Invalid scheme")
      else if nonEmpty (hash parsed) || nonEmpty (username parsed)
              || nonEmpty (password parsed)
      then inl (str "Forbidden URL components")
      else
        match decodeURIComponent userUrl with
        | inl message => inl message
        | inr decoded =>
            if includes ch_cr decoded || includes ch_nl decoded
            then inl (str "Suspicious encoding")
            else if 2048 <? length (href parsed) then inl (str "URL too long")
            else inr (href parsed)
        end
  end.

(** [validateUrl(userUrl)] *)
Definition validateUrl (userUrl : jsstring) : exn + jsstring :=
  match checkUrl userUrl with
  | inl message => inl (Error (str "Invalid URL: " ++ message))
  | inr checked => inr checked
  end.

End Validate.

End Utils.

(* ===================================================================== *)
(** * The resolution of the input fields (src/agent.ts) *)
(* ===================================================================== *)

Module Resolve.
Import Agent Describe.

(** [desc.match(...)[1]] for the pattern that reads: at the start,
    ["mcp:"], any white space, then the captured group, ["http"], an
    optional ['s'], ["://"] and one or more characters that are not white
    space, as many as there are. *)
Definition mcpUrl (desc : jsstring) : option jsstring :=
  if startsWith (str "mcp:") desc then
    let rest := dropWhile is_space (skipn 4 desc) in
    let scheme :=
      if startsWith (str "https://") rest then Some (str "https://")
      else if startsWith (str "http://") rest then Some (str "http://")
      else None in
    match scheme with
    | Some prefix =>
        match takeWhile (fun c => negb (is_space c)) (skipn (length prefix) rest) with
        | [] => None
        | host => Some (prefix ++ host)
        end
    | None => None
    end
  else None.

(** [tools.find((t) => t.name === selectedToolName)] *)
Definition findTool (tools : list MCPTool) (selected : value) : option MCPTool :=
  match selected with
  | VStr name_ => find (fun t => Js.eqb (tool_name t) name_) tools
  | _ => None
  end.

(** [input[key] = result] on the validated input, a mapping. *)
Definition setField (input : value) (key : jsstring) (result : value) : value :=
  match input with
  | VObj entries => VObj (assign key result entries)
  | _ => input
  end.

Section Fields.
Variable pol : MeasurePolicy.
Variable w : World.
Variable validateUrl : jsstring -> exn + jsstring.
(** The answer of the generation service to the selection of the tool
    that resolves a field, by the key, the input and the tools. *)
Variable resolveReply : jsstring -> value -> list MCPTool -> exn + jsstring.

(** [callLLM] without a streaming callback, on the exchange [reply]. *)
Definition askLLM (reply : exn + jsstring) : R (option jsstring) :=
  Eff.measured pol
    (content <- Eff.lift reply ;;
     if nonEmpty content then Eff.ret content
     else Eff.throw (Error (str "LLM API call failed. Unexpected response format"))).

(** The body of the loop of [resolveMCPInputFields] for one field: the
    input it leaves; [continue] returns the input as it is. *)
Definition resolveField (key : jsstring) (schema : Schema) (input : value) : R value :=
  let desc := descriptionOf schema in
  if negb (nonEmpty desc) || negb (startsWith (str "mcp:") desc) then Eff.ret input
  else
    match mcpUrl desc with
    | None => Eff.ret input
    | Some matched =>
        serverUrl <- Eff.lift (validateUrl matched) ;;
        let tempServer :=
          mkServer (str "resolver_" ++ key)
                   (str "Temporary server for resolving input field " ++ key) serverUrl in
        found <- discoverTools pol w tempServer ;;
        tools <- Eff.deref found ;;
        if negb (nonEmpty tools) then Eff.ret input
        else
          response <- askLLM (resolveReply key input tools) ;;
          match response with
          | None | Some [] => Eff.ret input
          | Some text =>
              let selectedToolName := getProp (xmlToObj text) (str "selected_tool") in
              match selectedToolName with
              | None => Eff.ret input
              | Some selected =>
                  if falsy selected then Eff.ret input
                  else
                    match findTool tools selected with
                    | None => Eff.ret input
                    | Some tool =>
                        parameters <- generateToolParameters pol w input tool ;;
                        result <- invokeTool pol w tempServer (tool_name tool)
                                    (nullable parameters) ;;
                        Eff.ret (setField input key (nullable result))
                    end
              end
          end
    end.

(** [resolveMCPInputFields(input, measureFn, progressCallback)]: the run's
    variables and the input as the loop leaves them, and the error it
    threw, if any; the input keeps what was stored in it before the
    error. *)
Fixpoint resolveMCPInputFields (shape : list (jsstring * Schema)) (input : value)
    (st : RunState) : RunState * (value * option exn) :=
  match shape with
  | [] => (st, (input, None))
  | (key, schema) :: rest =>
      match resolveField key schema input st with
      | (st', inr input') => resolveMCPInputFields rest input' st'
      | (st', inl e) => (st', (input, Some e))
      end
  end.

End Fields.

End Resolve.

(* ===================================================================== *)
(** * Notions the further statements use *)
(* ===================================================================== *)

Module Props.
Import Stream.

(** A character the extractor keeps in a word: not a space, not a line
    feed, not a ['<']. *)
Definition wordChar (c : char) : bool :=
  negb (c =? ch_space)%N && negb (c =? ch_nl)%N && negb (c =? ch_lt)%N.

(** An update names a path and carries a single space or line feed, or a
    word. *)
Definition updateOk (u : StreamingUpdate) : bool :=
  nonEmpty (field u)
  && (Js.eqb (value_ u) [ch_space] || Js.eqb (value_ u) [ch_nl]
      || (nonEmpty (value_ u) && forallb wordChar (value_ u))).

(** What the decoder builds: strings without white space around them,
    booleans, numerals, non-empty sequences, and non-empty mappings whose
    keys are distinct, non-empty and free of ['>'], ['/'] and white
    space; no [undefined] and no [null]. *)
Fixpoint wellDecoded (v : value) : bool :=
  match v with
  | VUndefined | VNull => false
  | VBool _ => true
  | VNum n => isNumeric n
  | VStr s => Js.eqb (trim s) s
  | VArr items => nonEmpty items && forallb wellDecoded items
  | VObj entries =>
      nonEmpty entries && distinct (List.map fst entries)
      && forallb (fun kv => nonEmpty (fst kv) && forallb nameChar (fst kv)
                            && wellDecoded (snd kv)) entries
  end.

(** The invariants of the extractor's variables: no empty name on the
    stack, and a pending word of word characters. *)
Definition stateOk (st : state) : Prop :=
  forallb nonEmpty (tagStack st) = true /\ forallb wordChar (wordBuffer st) = true.

(** A captured tag name, and an entry of a decoded mapping. *)
Definition nameOk (k : jsstring) : bool := nonEmpty k && forallb nameChar k.

Definition entryOk (kv : jsstring * value) : bool :=
  nonEmpty (fst kv) && forallb nameChar (fst kv) && wellDecoded (snd kv).

Definition entriesOk (result : list (jsstring * value)) : Prop :=
  distinct (List.map fst result) = true /\ forallb entryOk result = true.

(** A step of the run keeps a property of the run's variables; a step
    writes nothing. *)
Definition keeps (I : Agent.RunState -> Prop) {A : Type} (m : Agent.R A) : Prop :=
  forall st, I st -> I (fst (m st)).

Definition silent {A : Type} (m : Agent.R A) : Prop := forall st, fst (m st) = st.

(** What the discovery loop does with the tools of one provider. *)
Definition useTools pol w input server (tools : list Agent.MCPTool) : Agent.R unit :=
  if nonEmpty tools
  then Eff.bind (Agent.selectRelevantTools pol w input tools server)
         (fun selected => Eff.bind (Eff.deref selected)
            (fun relevantTools => Agent.invokeAll pol w input server relevantTools))
  else Eff.ret tt.

(** What a measured step yields when its body throws [e]: null when
    [measure] swallows the error, the error when it lets it through. *)
Definition failedWith (A : Type) (pol : MeasurePolicy) (e : exn) : exn + option A :=
  match pol with Swallow => inr None | Propagate => inl e end.

(** [s] is made of elements of [l], in the order they have in [l]. *)
Inductive subsequence {A : Type} : list A -> list A -> Prop :=
| sub_nil : forall l, subsequence [] l
| sub_take : forall x s l, subsequence s l -> subsequence (x :: s) (x :: l)
| sub_skip : forall x s l, subsequence s l -> subsequence s (x :: l).

(** An invocation of a tool that a configured provider listed. *)
Definition fromConfigured (w : Agent.World) (configured : list Agent.MCPServer)
    (invocation : jsstring * jsstring * value * value) : Prop :=
  exists server tool tools parameters result,
    In server configured /\ Agent.discover w server = inr tools /\ In tool tools
    /\ invocation = (Agent.server_name server, Agent.tool_name tool, parameters, result).

(** The providers of a configuration, none when it names none. *)
Definition configuredOf (cfg : Agent.AgentConfig) : list Agent.MCPServer :=
  match Agent.servers cfg with Some l => l | None => [] end.

(** [toolResults] as the run's invocations determine it: each invocation
    stores its result under ["server.tool"], a later one overwriting an
    earlier one of the same key. *)
Definition replay (invocations : list (jsstring * jsstring * value * value))
  : list (jsstring * value) :=
  fold_left (fun acc inv =>
               match inv with
               | (server, tool, _, result) => assign (server ++ str "." ++ tool) result acc
               end) invocations [].

Definition replayed (st : Agent.RunState) : Prop :=
  Agent.toolResults st = replay (Agent.toolInvocations st).

(** Newest first, by a key. *)
Definition descending (A : Type) (key : A -> N) (l : list A) : Prop :=
  StronglySorted (fun a b => (key b <= key a)%N) l.

(** The requests of one agent, and those of them with one status. *)
Definition requestsOf (agent : jsstring) (all : list Analytics.InferenceRequest)
  : list Analytics.InferenceRequest :=
  filter (fun r => Js.eqb (Analytics.agentName r) agent) all.

Definition withStatus (s : Analytics.Status) (all : list Analytics.InferenceRequest)
  : list Analytics.InferenceRequest :=
  filter (fun r => Analytics.status_eqb (Analytics.status r) s) all.

(** The group the map holds for an agent, empty when it holds none. *)
Fixpoint groupOf (agent : jsstring)
    (agentMap : list (jsstring * list Analytics.InferenceRequest))
  : list Analytics.InferenceRequest :=
  match agentMap with
  | [] => []
  | (k, l) :: rest => if Js.eqb k agent then l else groupOf agent rest
  end.

(** A store whose file is missing or does not parse. *)
Definition unreadable (Text : Type) (parse : Text -> option Analytics.AnalyticsData)
    (disk : Analytics.Disk Text) : Prop :=
  match disk with
  | Analytics.Dir (Some text) => parse text = None
  | _ => True
  end.

(** The nested empty elements of a field and, for a record, of its
    fields in their order. *)
Fixpoint skeleton (key : jsstring) (t : ZodType) {struct t} : jsstring :=
  match t with
  | ZodOptional t' | ZodNullable t' => skeleton key t'
  | ZodObject shape =>
      openTag key
      ++ (fix each (l : Shape) : jsstring :=
            match l with
            | [] => []
            | (k, fieldSchema) :: rest => skeleton k fieldSchema ++ each rest
            end) shape
      ++ closeTag key
  | _ => openTag key ++ closeTag key
  end.

(** The keys of every record of a schema are distinct tag names. *)
Fixpoint keysOk (t : ZodType) {struct t} : bool :=
  match t with
  | ZodOptional t' | ZodNullable t' => keysOk t'
  | ZodObject shape =>
      distinct (List.map fst shape)
      && forallb (fun kv => goodName (fst kv) && keysOk (snd kv)) shape
  | _ => true
  end.


Fixpoint found (s : Describe.Schema) (description : jsstring) : jsstring :=
  match s with
  | Describe.SOptional _ inner | Describe.SNullable _ inner =>
      found inner (if nonEmpty description then description
                   else Describe.descriptionOf inner)
  | _ => description
  end.









End Props.

Module Scenes.
Import Agent Sample.

(** A generation service that selects every provider and every tool by
    name, and a news provider that cannot be reached. *)
Definition eagerReply (call : LLMCall) : exn + jsstring :=
  match call with
  | SelectServers _ =>
      inr (str "<relevant_servers><server_names><item>news</item><item>weather</item></server_names></relevant_servers>")
  | SelectTools _ _ _ =>
      inr (str "<selected_tools><tool_names><item>forecast</item><item>alerts</item></tool_names></selected_tools>")
  | ToolParameters _ _ => inr (str "<parameters><city>Paris</city></parameters>")
  | FinalResponse _ _ => inr (str "<output>mild</output>")
  end.

Definition eagerWorld : World :=
  mkWorld eagerReply
          (fun _ => inr [forecastTool; alertTool])
          (fun _ tool _ => inr (VStr tool))
          (fun input => (input, None)).

Definition newsDownWorld : World :=
  mkWorld eagerReply
          (fun server => if Js.eqb (server_name server) (str "news")
                         then inl (RequestFailed 503 (str "down"))
                         else inr [forecastTool; alertTool])
          (fun _ tool _ => inr (VStr tool))
          (fun input => (input, None)).

(** An agent whose providers are listed news first. *)
Definition newsFirstConfig : AgentConfig :=
  mkConfig (str "gpt-4o-mini") [] [(str "output", ZodString)]
    (Some [newsServer; weatherServer]).

(** An agent that requires a [question]. *)
Definition askingConfig : AgentConfig :=
  mkConfig (str "gpt-4o-mini") [(str "question", ZodString)] [(str "output", ZodString)]
    (Some [weatherServer]).

(** A tool provider behind a paywall, and one that answers. *)
Definition paidWeb (request : Mcp.Request) : Payments.Net :=
  Payments.mkNet (fun _ => inr paywall) (fun _ => inr tt) (fun _ => inr (str "sig"))
    (fun _ => inr tt).

Definition openWeb (request : Mcp.Request) : Payments.Net :=
  Payments.mkNet (fun _ => inr okResponse) (fun _ => inr tt) (fun _ => inr (str "sig"))
    (fun _ => inr tt).

Definition twoTools (response : Payments.Response) : exn + list MCPTool :=
  inr [forecastTool; alertTool].

(** An event stream of two data lines and the end marker, and the text
    after ["data: "] taken as the delta. *)
Definition sseText : jsstring :=
  str "data: <a>hi " ++ [ch_nl] ++ [ch_nl] ++ str "data: there</a>" ++ [ch_nl]
  ++ str "data: [DONE]" ++ [ch_nl].

Definition rawDelta (payload : jsstring) : jsstring := payload.

(** A store that keeps the data as it is, and three recorded requests. *)
Definition plainStore (data : Analytics.AnalyticsData) : Analytics.AnalyticsData := data.
Definition readPlain (text : Analytics.AnalyticsData) : option Analytics.AnalyticsData :=
  Some text.

Definition recorded (agent : string) (time : N) (s : Analytics.Status)
  : Analytics.InferenceRequest :=
  Analytics.mkRequest (str "r") (str agent) (str "gpt-4o-mini") time 10 s
    (VObj []) (VObj []) None None None None.

Definition threeRequests : Analytics.Disk Analytics.AnalyticsData :=
  Analytics.Dir
    (Some (Analytics.mkData
             [recorded "WeatherBot" 5 Analytics.success;
              recorded "CodeAssistant" 9 Analytics.success;
              recorded "WeatherBot" 7 Analytics.error] 1)).

(** The output format of the streaming test. *)
Definition analysisFormat : Shape :=
  [(str "analysis",
    ZodObject [(str "step1", ZodString); (str "step2", ZodString);
               (str "step3", ZodString)]);
   (str "answer", ZodString);
   (str "status", ZodOptional ZodString)].

(** The output format of the streaming test, with its descriptions, and
    a flag. *)
Definition describedFormat : list (jsstring * Describe.Schema) :=
  [(str "analysis",
    Describe.SObject (str "step-by-step analysis of the question")
      [(str "step1", Describe.SString []);
       (str "done", Describe.SNullable [] (Describe.SBoolean (str "whether it is complete")))]);
   (str "answer", Describe.SString (str "the final short concise answer to the question"));
   (str "sure", Describe.SOptional [] (Describe.SBoolean []))].

(** An agent told to be deterministic, and tool results that say
    nothing. *)
Definition coldGeneration : Prompt.Generation :=
  Prompt.mkGeneration None (Some (str "0")) None describedFormat.

Definition noEnv (key : jsstring) : option jsstring := None.

Definition hollowResults : list (jsstring * value) :=
  [(str "weather.forecast", VObj []); (str "weather.alerts", VStr []);
   (str "news.headlines", VNull)].

(** An input format with one field to resolve, and the world around it:
    addresses under [example.com] are accepted, the tool is selected by
    name. *)
Definition cityFormat : list (jsstring * Describe.Schema) :=
  [(str "question", Describe.SString (str "what is asked"));
   (str "city", Describe.SString (str "mcp: https://example.com/geo the city of the user"))].

Definition acceptExample (matched : jsstring) : exn + jsstring :=
  if startsWith (str "https://example.com") matched then inr matched
  else inl (Error (str "Invalid URL: Invalid scheme")).

Definition pickForecast (key : jsstring) (input : value) (tools : list MCPTool)
  : exn + jsstring :=
  inr (str "<selected_tool>forecast</selected_tool>").

Definition askedInput : value := VObj [(str "question", VStr (str "Rain today?"))].

(** A parser of addresses that knows one address, and a decoder that
    changes nothing. *)
Definition knownUrl (text : jsstring) : jsstring + Utils.URL :=
  if Js.eqb text (str "https://example.com")
  then inr (Utils.mkURL (str "https:") [] [] [] (str "https://example.com/"))
  else if Js.eqb text (str "ftp://example.com")
  then inr (Utils.mkURL (str "ftp:") [] [] [] (str "ftp://example.com/"))
  else inl (str "Invalid URL").

Definition plainDecode (text : jsstring) : jsstring + jsstring := inr text.


(** A paywall whose payment cannot be sent. *)
Definition brokeNet : Payments.Net :=
  Payments.mkNet (fun n => match n with 0 => inr paywall | _ => inr okResponse end)
    (fun _ => inr tt) (fun _ => inl (Error (str "insufficient funds")))
    (fun _ => inr tt).

End Scenes.

(* ===================================================================== *)
(** * Facts about strings *)
(* ===================================================================== *)

Module JsFacts.

Lemma eqb_refl : forall a, Js.eqb a a = true.
Proof. induction a as [|x a IH]; simpl; [reflexivity|]. now rewrite N.eqb_refl. Qed.

Lemma eqb_eq : forall a b, Js.eqb a b = true <-> a = b.
Proof.
  induction a as [|x a IH]; destruct b as [|y b]; simpl; split; intro H;
    try reflexivity; try discriminate.
  - apply andb_true_iff in H as [H1 H2]. apply N.eqb_eq in H1. apply IH in H2.
    now subst.
  - inversion H; subst. now rewrite N.eqb_refl, eqb_refl.
Qed.

Lemma eqb_neq : forall a b, Js.eqb a b = false <-> a <> b.
Proof.
  intros a b. split; intro H.
  - intro E. apply eqb_eq in E. congruence.
  - destruct (Js.eqb a b) eqn:E; [apply eqb_eq in E; contradiction | reflexivity].
Qed.

Lemma startsWith_app : forall p s, startsWith p (p ++ s) = true.
Proof. induction p as [|x p IH]; simpl; intros; [reflexivity|]. rewrite N.eqb_refl. apply IH. Qed.

Lemma startsWith_inv : forall p s, startsWith p s = true -> s = p ++ skipn (length p) s.
Proof.
  induction p as [|x p IH]; intros s H; simpl in *; [reflexivity|].
  destruct s as [|y s]; [discriminate|].
  apply andb_true_iff in H as [H1 H2]. apply N.eqb_eq in H1. subst y.
  simpl. f_equal. now apply IH.
Qed.

(** [splitAt] cuts its input around an occurrence of the pattern. *)
Lemma splitAt_sound : forall pat s before after,
  splitAt pat s = Some (before, after) -> s = before ++ pat ++ after.
Proof.
  intros pat s. induction s as [|c s IH]; intros before after H.
  - simpl in H. destruct (startsWith pat []) eqn:E; [|discriminate].
    inversion H; subst. simpl. now apply startsWith_inv in E.
  - simpl in H. destruct (startsWith pat (c :: s)) eqn:E.
    + inversion H; subst. simpl. now apply startsWith_inv in E.
    + destruct (splitAt pat s) as [[b a]|] eqn:E2; [|discriminate].
      inversion H; subst. simpl. f_equal. now apply IH.
Qed.

Lemma splitAt_length : forall pat s before after,
  splitAt pat s = Some (before, after) ->
  length s = length before + length pat + length after.
Proof.
  intros pat s before after H. apply splitAt_sound in H. subst s.
  rewrite !length_app. lia.
Qed.

(** The occurrence [splitAt] finds is the first one: no occurrence
    starts inside the text before it. *)
Lemma splitAt_first : forall pat s before after,
  splitAt pat s = Some (before, after) ->
  forall i, i < length before -> startsWith pat (skipn i s) = false.
Proof.
  intros pat s. induction s as [|c s IH]; intros before after H i Hi.
  - simpl in H. destruct (startsWith pat []); [|discriminate].
    inversion H; subst. simpl in Hi. lia.
  - simpl in H. destruct (startsWith pat (c :: s)) eqn:E.
    + inversion H; subst. simpl in Hi. lia.
    + destruct (splitAt pat s) as [[b a]|] eqn:E2; [|discriminate].
      inversion H; subst. destruct i as [|i]; [exact E|].
      simpl. simpl in Hi. eapply IH; [reflexivity|lia].
Qed.

Lemma splitAt_none : forall pat s,
  splitAt pat s = None -> forall i, startsWith pat (skipn i s) = false.
Proof.
  intros pat s. induction s as [|c s IH]; intros H i.
  - simpl in H. destruct (startsWith pat []) eqn:E; [discriminate|].
    now destruct i.
  - simpl in H. destruct (startsWith pat (c :: s)) eqn:E; [discriminate|].
    destruct (splitAt pat s) as [[b a]|] eqn:E2; [discriminate|].
    destruct i as [|i]; [exact E|]. simpl. now apply IH.
Qed.

Lemma splitAt_here : forall pat s,
  startsWith pat s = true -> splitAt pat s = Some ([], skipn (length pat) s).
Proof. intros pat s H. destruct s; simpl; now rewrite H. Qed.

Lemma splitAt_later : forall pat c s,
  startsWith pat (c :: s) = false ->
  splitAt pat (c :: s) =
  match splitAt pat s with
  | Some (before, after) => Some (c :: before, after)
  | None => None
  end.
Proof. intros pat c s H. cbn [splitAt]. now rewrite H. Qed.

Lemma skipn_length_app : forall (a b : jsstring), skipn (length a) (a ++ b) = b.
Proof. induction a; simpl; auto. Qed.

Lemma splitAt_complete : forall pat pre rest,
  (forall i, i < length pre -> startsWith pat (skipn i (pre ++ pat ++ rest)) = false) ->
  splitAt pat (pre ++ pat ++ rest) = Some (pre, rest).
Proof.
  intros pat pre rest. induction pre as [|c pre IH]; intros H.
  - simpl. rewrite splitAt_here by apply startsWith_app. now rewrite skipn_length_app.
  - cbn [app]. rewrite splitAt_later by (apply (H 0); simpl; lia).
    rewrite IH; [reflexivity|]. intros i Hi. apply (H (S i)). simpl. lia.
Qed.

Lemma dropWhile_length : forall p s, length (dropWhile p s) <= length s.
Proof.
  induction s as [|c s IH]; simpl; [lia|]. destruct (p c); simpl; lia.
Qed.

Lemma takeWhile_length : forall p s, length (takeWhile p s) <= length s.
Proof.
  induction s as [|c s IH]; simpl; [lia|]. destruct (p c); simpl; lia.
Qed.

Lemma trim_length : forall s, length (trim s) <= length s.
Proof.
  intros s. unfold trim, trimEnd, trimStart.
  rewrite length_rev.
  etransitivity; [apply dropWhile_length|]. rewrite length_rev.
  apply dropWhile_length.
Qed.

Lemma includes_false_iff : forall c s, includes c s = false <-> ~ In c s.
Proof.
  intros c s. unfold includes. split.
  - intros H Hin. assert (existsb (N.eqb c) s = true) as E.
    { apply existsb_exists. exists c. split; [assumption|apply N.eqb_refl]. }
    congruence.
  - intro H. destruct (existsb (N.eqb c) s) eqn:E; [|reflexivity].
    apply existsb_exists in E as [x [Hx E]]. apply N.eqb_eq in E. subst. contradiction.
Qed.

Lemma includes_app : forall c a b, includes c (a ++ b) = includes c a || includes c b.
Proof. intros. unfold includes. apply existsb_app. Qed.

End JsFacts.

Import JsFacts.

(* ===================================================================== *)
(** * The decoder terminates *)
(* ===================================================================== *)

Module XmlTotal.

Lemma closeTag_length : forall n, length (closeTag n) = length n + 3.
Proof. intros. unfold closeTag. rewrite !length_app. simpl. lia. Qed.

Lemma openTag_length : forall n, length (openTag n) = length n + 2.
Proof. intros. unfold openTag. rewrite !length_app. simpl. lia. Qed.

Lemma tryNames_length : forall k afterLt body name content rest,
  tryNames k afterLt body = Some (name, content, rest) ->
  length content + length rest + 3 <= length body.
Proof.
  induction k as [|k IH]; intros afterLt body name content rest H.
  - discriminate.
  - cbn [tryNames] in H.
    destruct (splitAt (closeTag (firstn (S k) afterLt)) body) as [[c r]|] eqn:E.
    + inversion H; subst. apply splitAt_length in E.
      rewrite closeTag_length in E. lia.
    + eapply IH; eassumption.
Qed.

(** A match consumes input: the captured content and the text left after
    the match are both shorter than the text matched against. *)
Lemma matchAt_length : forall s name content rest,
  matchAt s = Some (name, content, rest) ->
  length content + length rest + 5 <= length s.
Proof.
  intros s name content rest H. destruct s as [|c afterLt]; simpl in H; [discriminate|].
  destruct (c =? ch_lt)%N; [|discriminate].
  destruct (splitAt [ch_gt] afterLt) as [[pre body]|] eqn:E; [|discriminate].
  apply tryNames_length in H. apply splitAt_length in E. simpl in *. lia.
Qed.

Lemma exec_length : forall s name content rest,
  exec s = Some (name, content, rest) ->
  length content + length rest + 5 <= length s.
Proof.
  induction s as [|c s IH]; intros name content rest H.
  - simpl in H. discriminate.
  - cbn [exec] in H. destruct (matchAt (c :: s)) as [[[n0 c0] r0]|] eqn:E.
    + inversion H; subst. now apply matchAt_length in E.
    + apply IH in H. simpl. lia.
Qed.

(** The fuel of [allMatches] is enough: any larger one gives the same. *)
Lemma allMatchesFuel_enough : forall fuel s,
  length s <= fuel -> allMatchesFuel fuel s = allMatches s.
Proof.
  unfold allMatches.
  induction fuel as [fuel IH] using lt_wf_ind. intros s Hs.
  destruct fuel as [|fuel].
  - assert (length s = 0) as -> by lia. reflexivity.
  - destruct (length s) as [|n] eqn:En.
    + destruct s; [|discriminate]. reflexivity.
    + simpl. destruct (exec s) as [[[name content] rest]|] eqn:E; [|reflexivity].
      f_equal. pose proof (exec_length _ E) as L.
      rewrite (IH fuel) by lia. rewrite (IH n) by lia. reflexivity.
Qed.

(** [allMatches] is the loop of the source: run [exec], and go on from
    the end of the match. *)
Lemma allMatches_unfold : forall s,
  allMatches s =
  match exec s with
  | Some (name, content, rest) => (name, content) :: allMatches rest
  | None => []
  end.
Proof.
  intros s. unfold allMatches at 1. destruct (length s) as [|n] eqn:En.
  - destruct s; [|discriminate]. reflexivity.
  - simpl. destruct (exec s) as [[[name content] rest]|] eqn:E; [|reflexivity].
    f_equal. apply allMatchesFuel_enough. apply exec_length in E. lia.
Qed.

Lemma allMatches_content_length : forall n s, length s <= n ->
  forall name content, In (name, content) (allMatches s) -> length content < length s.
Proof.
  induction n as [|n IH]; intros s Hs name content Hin.
  - destruct s; [|simpl in Hs; lia]. rewrite allMatches_unfold in Hin. simpl in Hin. contradiction.
  - rewrite allMatches_unfold in Hin.
    destruct (exec s) as [[[name0 content0] rest]|] eqn:E; [|contradiction].
    pose proof (exec_length _ E) as L. destruct Hin as [Hin|Hin].
    + inversion Hin; subst. lia.
    + apply IH in Hin; lia.
Qed.

Lemma parseElement_unfold : forall fuel content,
  parseElement (S fuel) content =
  if negb (includes ch_lt (trim content)) then Some (VStr (trim content))
  else match allMatches (trim content) with
       | [] => Some (VStr (trim content))
       | ms => match fold_left (parseStep fuel) ms (Some []) with
               | Some result => Some (unwrapItem result)
               | None => None
               end
       end.
Proof. reflexivity. Qed.

Lemma fold_parseStep_none : forall fuel ms, fold_left (parseStep fuel) ms None = None.
Proof. induction ms as [|m ms IH]; simpl; auto. Qed.

Lemma fold_parseStep_some : forall fuel ms acc,
  (forall name content, In (name, content) ms ->
      exists v, parseElement fuel content = Some v) ->
  exists result, fold_left (parseStep fuel) ms (Some acc) = Some result.
Proof.
  induction ms as [|[name content] ms IH]; intros acc H; simpl.
  - eauto.
  - destruct (includes ch_lt (trim content)).
    + destruct (H name content (or_introl eq_refl)) as [v Hv]. rewrite Hv.
      apply IH. intros; eapply H; right; eassumption.
    + apply IH. intros; eapply H; right; eassumption.
Qed.

(** With more fuel than characters, [parseElement] returns. *)
Lemma parseElement_some : forall fuel content,
  length content < fuel -> exists v, parseElement fuel content = Some v.
Proof.
  induction fuel as [|fuel IH]; intros content Hlen; [lia|].
  rewrite parseElement_unfold.
  destruct (negb (includes ch_lt (trim content))); [eauto|].
  destruct (allMatches (trim content)) as [|m ms] eqn:E; [eauto|].
  destruct (@fold_parseStep_some fuel (m :: ms) []) as [result Hr].
  - intros name c Hin. apply IH. rewrite <- E in Hin.
    apply (@allMatches_content_length (length (trim content))) in Hin; [|lia].
    pose proof (trim_length content). lia.
  - rewrite Hr. eauto.
Qed.

Lemma fold_parseStep_mono : forall fuel fuel' ms,
  (forall name content v, In (name, content) ms ->
      parseElement fuel content = Some v -> parseElement fuel' content = Some v) ->
  forall acc result,
  fold_left (parseStep fuel) ms acc = Some result ->
  fold_left (parseStep fuel') ms acc = Some result.
Proof.
  induction ms as [|[name content] ms IH]; intros H acc result Hf; simpl in *.
  - assumption.
  - destruct acc as [acc|]; [|now rewrite fold_parseStep_none in Hf].
    simpl in *. destruct (includes ch_lt (trim content)).
    + destruct (parseElement fuel content) as [v|] eqn:Ev;
        [|now rewrite fold_parseStep_none in Hf].
      rewrite (H name content v (or_introl eq_refl) Ev).
      apply IH; [|assumption]. intros; eapply H; [right|]; eassumption.
    + apply IH; [|assumption]. intros; eapply H; [right|]; eassumption.
Qed.

(** A result does not depend on the fuel that was enough for it. *)
Lemma parseElement_mono : forall fuel content v,
  parseElement fuel content = Some v ->
  forall fuel', fuel <= fuel' -> parseElement fuel' content = Some v.
Proof.
  induction fuel as [|fuel IH]; intros content v H fuel' Hle; [discriminate|].
  destruct fuel' as [|fuel']; [lia|].
  rewrite parseElement_unfold in *.
  destruct (negb (includes ch_lt (trim content))); [assumption|].
  destruct (allMatches (trim content)) as [|m ms]; [assumption|].
  destruct (fold_left (parseStep fuel) (m :: ms) (Some [])) as [result|] eqn:E;
    [|discriminate].
  rewrite (@fold_parseStep_mono fuel fuel' (m :: ms)) with (result := result);
    [assumption| |assumption].
  intros name c v0 _ Hv. eapply IH; [eassumption|lia].
Qed.

Lemma xmlToObj_parseElement : forall s fuel,
  length s < fuel -> parseElement fuel s = Some (xmlToObj s).
Proof.
  intros s fuel H. unfold xmlToObj.
  destruct (@parseElement_some (S (length s)) s) as [v Hv]; [lia|].
  rewrite Hv. eapply parseElement_mono; [eassumption|lia].
Qed.

Lemma fold_parseStep_children : forall fuel ms acc,
  (forall name content, In (name, content) ms -> length content < fuel) ->
  fold_left (parseStep fuel) ms (Some acc) =
  Some (fold_left (fun result c => accumulate result (fst c) (snd c))
          (List.map parseChild ms) acc).
Proof.
  induction ms as [|[name content] ms IH]; intros acc H; simpl; [reflexivity|].
  unfold parseChild at 1, decodeContent. simpl.
  destruct (includes ch_lt (trim content)).
  - rewrite xmlToObj_parseElement by (eapply H; left; reflexivity).
    apply IH. intros; eapply H; right; eassumption.
  - apply IH. intros; eapply H; right; eassumption.
Qed.

(** [xmlToObj] obeys the equation of [parseElement] in the source, with
    itself for the recursive call. *)
Lemma xmlToObj_unfold : forall s,
  xmlToObj s =
  if negb (includes ch_lt (trim s)) then VStr (trim s)
  else match allMatches (trim s) with
       | [] => VStr (trim s)
       | ms => unwrapItem (accumulateAll (List.map parseChild ms))
       end.
Proof.
  intros s. pose proof (@xmlToObj_parseElement s (S (length s)) (Nat.lt_succ_diag_r _)) as H.
  rewrite parseElement_unfold in H.
  destruct (negb (includes ch_lt (trim s))); [congruence|].
  destruct (allMatches (trim s)) as [|m ms] eqn:E; [congruence|].
  rewrite fold_parseStep_children in H.
  - unfold accumulateAll. congruence.
  - intros name content Hin. rewrite <- E in Hin.
    apply (@allMatches_content_length (length (trim s))) in Hin; [|lia].
    pose proof (trim_length s). lia.
Qed.

End XmlTotal.

Import XmlTotal Sample.

(* ===================================================================== *)
(** * Construction rejects arrays *)
(* ===================================================================== *)

Module AgentFacts.
Import Agent.

(** Induction on a schema that reaches the fields of nested records and
    the schemas a schema of another kind is built from. *)
Lemma ZodType_nested_ind (P : ZodType -> Prop) :
  P ZodString -> P ZodNumber -> P ZodBoolean ->
  (forall values, P (ZodEnum values)) ->
  (forall element, P element -> P (ZodArray element)) ->
  (forall shape, Forall (fun kv => P (snd kv)) shape -> P (ZodObject shape)) ->
  (forall inner, P inner -> P (ZodOptional inner)) ->
  (forall inner, P inner -> P (ZodNullable inner)) ->
  (forall name holds parseWith, Forall P holds -> P (ZodOther name holds parseWith)) ->
  forall t, P t.
Proof.
  intros HS HN HB HE HA HO HOp HNu HOt. fix IH 1.
  intros [| | |values|element|shape|inner|inner|name holds parseWith].
  - exact HS.
  - exact HN.
  - exact HB.
  - apply HE.
  - apply HA, IH.
  - apply HO. induction shape as [|[k ft] rest IHs]; constructor; [apply IH|exact IHs].
  - apply HOp, IH.
  - apply HNu, IH.
  - apply HOt. induction holds as [|ft rest IHs]; constructor; [apply IH|exact IHs].
Qed.

Lemma checkField_unwrapAll : forall t path key,
  checkField path key t = checkField path key (unwrapAll t).
Proof.
  induction t using ZodType_nested_ind; intros; try reflexivity; simpl; auto.
Qed.

Lemma checkField_object : forall shape path key,
  checkField path key (ZodObject shape) = validateNoArrays shape (currentPathOf path key).
Proof.
  intros shape path key. cbn [checkField].
  induction shape as [|[k ft] rest IH]; [reflexivity|].
  cbn [validateNoArrays]. destruct (checkField (currentPathOf path key) k ft); [reflexivity|].
  exact IH.
Qed.

Lemma checkField_hasArray : forall t path key,
  (hasArray t = false -> checkField path key t = None) /\
  (hasArray t = true -> exists p k, checkField path key t = Some (Error (arrayMessage p k))).
Proof.
  induction t as [| | |values|element IHe|shape IHs|inner IHi|inner IHi|name holds pw _]
    using ZodType_nested_ind; intros path key;
    try (split; [reflexivity|discriminate]).
  - split; [discriminate|]. intros _. simpl. eauto.
  - rewrite checkField_object. generalize (currentPathOf path key) as cur. intro cur.
    induction IHs as [|[k ft] rest Hft _ IHrest].
    + split; [reflexivity|discriminate].
    + simpl in Hft. destruct (Hft cur k) as [Hno Hyes]. destruct IHrest as [Rno Ryes].
      cbn [validateNoArrays].
      change (hasArray (ZodObject ((k, ft) :: rest)))
        with (hasArray ft || hasArray (ZodObject rest)).
      split; intro H.
      * apply orb_false_iff in H as [H1 H2]. rewrite (Hno H1). apply Rno, H2.
      * destruct (hasArray ft) eqn:E.
        -- destruct (Hyes eq_refl) as [p [k' ->]]. eauto.
        -- rewrite (Hno eq_refl). apply Ryes. exact H.
  - apply IHi.
  - apply IHi.
Qed.

(** An array the check sees is an array of the schema. *)
Lemma hasArray_containsArray : forall t, hasArray t = true -> containsArray t = true.
Proof.
  induction t as [| | |values|element IHe|shape IHs|inner IHi|inner IHi|name holds pw _]
    using ZodType_nested_ind; intro H; try discriminate; try reflexivity; auto.
  induction IHs as [|[k ft] rest Hft _ IHrest]; [discriminate|].
  change (hasArray ft || hasArray (ZodObject rest) = true) in H.
  change (containsArray ft || containsArray (ZodObject rest) = true).
  apply orb_true_iff in H as [H|H]; apply orb_true_iff; [left; now apply Hft|right; now apply IHrest].
Qed.

Lemma shapeHasArray_contains : forall shape,
  shapeContainsArray shape = false -> shapeHasArray shape = false.
Proof.
  induction shape as [|[k t] rest IH]; [reflexivity|].
  unfold shapeContainsArray, shapeHasArray in *. cbn [existsb snd]. intro H.
  apply orb_false_iff in H as [H1 H2]. apply orb_false_iff. split; [|now apply IH].
  destruct (hasArray t) eqn:E; [|reflexivity].
  apply hasArray_containsArray in E. congruence.
Qed.

Lemma validateNoArrays_hasArray : forall shape path,
  (shapeHasArray shape = false -> validateNoArrays shape path = None) /\
  (shapeHasArray shape = true ->
     exists p k, validateNoArrays shape path = Some (Error (arrayMessage p k))).
Proof.
  induction shape as [|[key t] rest IH]; intros path; simpl.
  - split; [reflexivity|discriminate].
  - destruct (checkField_hasArray t path key) as [Hno Hyes].
    destruct (IH path) as [Rno Ryes]. split; intro H.
    + apply orb_false_iff in H as [H1 H2]. rewrite (Hno H1). apply Rno, H2.
    + destruct (hasArray t) eqn:E.
      * destruct (Hyes eq_refl) as [p [k ->]]. eauto.
      * rewrite (Hno eq_refl). apply Ryes. exact H.
Qed.

(** C4, as amended.  Constructing an Agent whose output shape has an
    array as the type of a field, of the shape or of a nested record at
    any depth, directly or under optional and nullable wrappers, throws
    the error that names the array; every other shape constructs the
    Agent, a shape that holds no array at all among them. *)
Theorem newAgent_rejects_arrays : forall cfg,
  (shapeHasArray (outputFormat cfg) = true ->
     exists p k, newAgent cfg = inl (Error (arrayMessage p k))) /\
  (shapeHasArray (outputFormat cfg) = false -> newAgent cfg = inr (mkAgent cfg)) /\
  (shapeContainsArray (outputFormat cfg) = false -> newAgent cfg = inr (mkAgent cfg)).
Proof.
  intros cfg. unfold newAgent.
  destruct (validateNoArrays_hasArray (outputFormat cfg) []) as [Hno Hyes].
  split; [|split]; intro H.
  - destruct (Hyes H) as [p [k ->]]. eauto.
  - now rewrite (Hno H).
  - now rewrite (Hno (shapeHasArray_contains _ H)).
Qed.

Lemma newAgent_rejects_arrays_witness :
  (exists p k, newAgent nestedArrayConfig = inl (Error (arrayMessage p k)))
  /\ newAgent plainConfig = inr (mkAgent plainConfig).
Proof.
  split.
  - apply (proj1 (newAgent_rejects_arrays nestedArrayConfig)). reflexivity.
  - apply (proj2 (proj2 (newAgent_rejects_arrays plainConfig))). reflexivity.
Defined.

(** C4 as stated fails: the check unwraps optional and nullable wrappers
    only, so an array under a default, or among the options of a union, is
    passed over and the Agent is constructed. *)
Lemma newAgent_defaulted_array_counterexample :
  shapeContainsArray (outputFormat defaultedArrayConfig) = true
  /\ newAgent defaultedArrayConfig = inr (mkAgent defaultedArrayConfig)
  /\ shapeContainsArray (outputFormat unionArrayConfig) = true
  /\ newAgent unionArrayConfig = inr (mkAgent unionArrayConfig).
Proof. repeat split; reflexivity. Qed.

Example newAgent_nested_array_message :
  newAgent nestedArrayConfig
  = inl (Error (arrayMessage (str "details.items") (str "items"))).
Proof. vm_compute. reflexivity. Qed.

End AgentFacts.

Module PaymentFacts.
Import Payments.

Lemma status_402_not_ok : forall res, status res = 402%N -> ok res = false.
Proof. intros res H. unfold ok. rewrite H. reflexivity. Qed.

Ltac run_eff :=
  unfold request, send, Eff.bind, Eff.gets, Eff.modify, Eff.measured, Eff.lift,
    Eff.deref, Eff.ret, Eff.throw; simpl.

(** A round that has no retry left: it returns an ok response and throws
    on anything else. *)
Lemma loop_last : forall pol net wallet fuel retries t,
  maxRetries <= retries ->
  loop pol net wallet (S fuel) retries t =
  (mkTrace (S (attempts t)) (payments t),
   match fetch net (attempts t) with
   | inl e => inl (match pol with Swallow => TypeError | Propagate => e end)
   | inr res => if ok res then inr (Some res)
                else inl (RequestFailed (status res) (body res))
   end).
Proof.
  intros pol net wallet fuel retries t H.
  assert ((maxRetries <=? retries) = true) as L by now apply Nat.leb_le.
  cbn [loop]. rewrite L. run_eff.
  destruct (fetch net (attempts t)) as [e|res]; [destruct pol; reflexivity|].
  destruct (ok res); [reflexivity|].
  rewrite orb_true_r. reflexivity.
Qed.

(** The first round. *)
Lemma loop_first : forall pol net wallet fuel t,
  loop pol net wallet (S fuel) 0 t =
  let t1 := mkTrace (S (attempts t)) (payments t) in
  let t2 := mkTrace (S (attempts t)) (S (payments t)) in
  match fetch net (attempts t) with
  | inl e => (t1, inl (match pol with Swallow => TypeError | Propagate => e end))
  | inr res =>
      if ok res then (t1, inr (Some res))
      else if negb (status res =? 402)%N
              || match wallet with None => true | Some _ => false end
      then (t1, inl (RequestFailed (status res) (body res)))
      else
        match prepare net res with
        | inl e => (t1, inl e)
        | inr _ =>
            match pol, sendTransaction net res with
            | Propagate, inl e => (t2, inl e)
            | Propagate, inr sg =>
                match confirmTransaction net (Some sg) with
                | inl e => (t2, inl e)
                | inr _ => loop pol net wallet fuel 1 t2
                end
            | Swallow, _ => loop pol net wallet fuel 1 t2
            end
        end
  end.
Proof.
  intros pol net wallet fuel t. cbn [loop]. run_eff.
  destruct (fetch net (attempts t)) as [e|res]; [destruct pol; reflexivity|].
  destruct (ok res); [reflexivity|].
  destruct (negb (status res =? 402)%N); [reflexivity|].
  destruct wallet; [|reflexivity]. simpl.
  destruct (prepare net res) as [e|u]; [reflexivity|].
  destruct pol; destruct (sendTransaction net res) as [e|sg];
    try reflexivity;
    destruct (confirmTransaction net _) as [e'|u']; reflexivity.
Qed.

Ltac solve_case :=
  intros; subst;
  repeat match goal with
         | H : inr _ = inr _ |- _ => inversion H; clear H; subst
         | H : Some _ = Some _ |- _ => inversion H; clear H; subst
         | H : _ \/ _ |- _ => destruct H
         end;
  try lia; try discriminate; try congruence;
  try (match goal with
       | H : status _ = 402%N |- _ => apply status_402_not_ok in H
       end; congruence).

(** Two rounds are all the loop can make: more fuel changes nothing, and
    the fuel of [fetchWithPayment] does not run out. *)
Lemma fetchWithPayment_fuel : forall pol net wallet fuel,
  loop pol net wallet (2 + fuel) 0 (mkTrace 0 0) = fetchWithPayment pol net wallet
  /\ snd (fetchWithPayment pol net wallet) <> inr None.
Proof.
  intros pol net wallet fuel. unfold fetchWithPayment.
  change (2 + fuel) with (S (S fuel)). rewrite !loop_first. cbv zeta.
  rewrite !(@loop_last pol net wallet) by (unfold maxRetries; lia).
  simpl attempts. simpl payments.
  destruct (fetch net 0) as [e|res]; [split; [reflexivity|discriminate]|].
  destruct (ok res); [split; [reflexivity|discriminate]|].
  destruct (negb (status res =? 402)%N || _); [split; [reflexivity|discriminate]|].
  destruct (prepare net res) as [e|u]; [split; [reflexivity|discriminate]|].
  assert (forall A (x : exn + A),
    snd (mkTrace 2 1,
         match fetch net 1 with
         | inl e => inl (match pol with Swallow => TypeError | Propagate => e end)
         | inr res1 => if ok res1 then inr (Some res1)
                       else inl (RequestFailed (status res1) (body res1))
         end) <> inr None) as Last.
  { intros A x. simpl. destruct (fetch net 1) as [e|res1]; [discriminate|].
    destruct (ok res1); discriminate. }
  destruct pol; destruct (sendTransaction net res) as [e|sg];
    try (split; [reflexivity|discriminate]);
    try (split; [reflexivity|exact (Last unit (inr tt))]).
  destruct (confirmTransaction net (Some sg)) as [e|u'];
    [split; [reflexivity|discriminate]|split; [reflexivity|exact (Last unit (inr tt))]].
Qed.

(** What the retry, when it is made, ends the call with. *)
Lemma retry_outcome : forall pol net wallet fuel t,
  loop pol net wallet (S fuel) 1 t =
  (mkTrace (S (attempts t)) (payments t),
   match fetch net (attempts t) with
   | inl e => inl (match pol with Swallow => TypeError | Propagate => e end)
   | inr res => if ok res then inr (Some res)
                else inl (RequestFailed (status res) (body res))
   end).
Proof. intros. apply loop_last. unfold maxRetries. lia. Qed.

(** C10, as amended.  A call makes at most two attempts and hands at
    most one transaction to the network, and makes a second attempt only
    after that; it ends, two rounds of the loop being all it can make,
    and never returns a response that is not ok.  An ok first response is
    returned at once.  A first response that is not ok is thrown as an
    error when its status is not 402 or no wallet is configured.  On a
    402 with a wallet the call reads the payment request, sends one
    transaction and waits for its confirmation: when reading fails it
    throws at once, nothing sent; when sending or confirming fails under a
    [measure] that lets errors through it throws without a retry; in
    every other case it has sent exactly one transaction and makes
    exactly one retry, whose response is returned if ok and thrown
    otherwise, a second 402 included. *)
Theorem fetchWithPayment_at_most_one_retry : forall pol net wallet,
  let t := fst (fetchWithPayment pol net wallet) in
  let r := snd (fetchWithPayment pol net wallet) in
  let retry : exn + option Response :=
    match fetch net 1 with
    | inl e => inl (match pol with Swallow => TypeError | Propagate => e end)
    | inr res2 => if ok res2 then inr (Some res2)
                  else inl (RequestFailed (status res2) (body res2))
    end in
  attempts t <= 2 /\ payments t <= 1 /\ attempts t <= S (payments t) /\
  r <> inr None /\
  (forall res, r = inr (Some res) -> ok res = true) /\
  (forall res, fetch net 0 = inr res -> ok res = true ->
     r = inr (Some res) /\ t = mkTrace 1 0) /\
  (forall res, fetch net 0 = inr res -> ok res = false ->
     status res <> 402%N \/ wallet = None ->
     r = inl (RequestFailed (status res) (body res)) /\ t = mkTrace 1 0) /\
  (forall res wl, fetch net 0 = inr res -> status res = 402%N -> wallet = Some wl ->
     match prepare net res with
     | inl e => r = inl e /\ t = mkTrace 1 0
     | inr _ =>
         match pol, sendTransaction net res with
         | Propagate, inl e => r = inl e /\ t = mkTrace 1 1
         | Propagate, inr sg =>
             match confirmTransaction net (Some sg) with
             | inl e => r = inl e /\ t = mkTrace 1 1
             | inr _ => r = retry /\ t = mkTrace 2 1
             end
         | Swallow, _ => r = retry /\ t = mkTrace 2 1
         end
     end).
Proof.
  intros pol net wallet.
  assert (forall res wl, fetch net 0 = inr res -> status res = 402%N -> wallet = Some wl ->
     match prepare net res with
     | inl e => snd (fetchWithPayment pol net wallet) = inl e
                /\ fst (fetchWithPayment pol net wallet) = mkTrace 1 0
     | inr _ =>
         match pol, sendTransaction net res with
         | Propagate, inl e => snd (fetchWithPayment pol net wallet) = inl e
                               /\ fst (fetchWithPayment pol net wallet) = mkTrace 1 1
         | Propagate, inr sg =>
             match confirmTransaction net (Some sg) with
             | inl e => snd (fetchWithPayment pol net wallet) = inl e
                        /\ fst (fetchWithPayment pol net wallet) = mkTrace 1 1
             | inr _ =>
                 snd (fetchWithPayment pol net wallet)
                 = match fetch net 1 with
                   | inl e => inl (match pol with Swallow => TypeError | Propagate => e end)
                   | inr res2 => if ok res2 then inr (Some res2)
                                 else inl (RequestFailed (status res2) (body res2))
                   end
                 /\ fst (fetchWithPayment pol net wallet) = mkTrace 2 1
             end
         | Swallow, _ =>
             snd (fetchWithPayment pol net wallet)
             = match fetch net 1 with
               | inl e => inl (match pol with Swallow => TypeError | Propagate => e end)
               | inr res2 => if ok res2 then inr (Some res2)
                             else inl (RequestFailed (status res2) (body res2))
               end
             /\ fst (fetchWithPayment pol net wallet) = mkTrace 2 1
         end
     end) as Paid.
  { intros res wl Hf Hs ->. unfold fetchWithPayment. rewrite loop_first. cbv zeta.
    cbn [attempts payments]. rewrite Hf, (status_402_not_ok res Hs), Hs.
    cbn [negb orb N.eqb Pos.eqb].
    destruct (prepare net res) as [e|u]; [now split|].
    destruct pol; destruct (sendTransaction net res) as [e|sg];
      try (destruct (confirmTransaction net (Some sg)) as [e'|u']);
      rewrite ?retry_outcome; cbn [fst snd attempts payments]; now split. }
  pose proof (proj2 (fetchWithPayment_fuel pol net wallet 0)) as Hfuel.
  revert Paid Hfuel. unfold fetchWithPayment.
  rewrite loop_first. cbv zeta.
  rewrite !(@loop_last pol net wallet) by (unfold maxRetries; lia).
  simpl attempts. simpl payments.
  destruct (fetch net 0) as [e0|res0] eqn:F0.
  { simpl. intros Paid _. repeat split; try exact Paid; solve_case. }
  destruct (ok res0) eqn:Ok0.
  { simpl. intros Paid _. repeat split; try exact Paid; solve_case. }
  destruct (status res0 =? 402)%N eqn:S0; cbn [negb orb].
  2:{ apply N.eqb_neq in S0. simpl. intros Paid _. repeat split; try exact Paid; solve_case. }
  apply N.eqb_eq in S0.
  destruct wallet as [wl0|].
  2:{ simpl. intros Paid _. repeat split; try exact Paid; solve_case. }
  destruct (prepare net res0) as [e|[]] eqn:Pr.
  { simpl. intros Paid _. repeat split; try exact Paid; solve_case. }
  set (last := match fetch net 1 with
               | inl e => inl (match pol with Swallow => TypeError | Propagate => e end)
               | inr res1 => if ok res1 then inr (Some res1)
                             else inl (RequestFailed (status res1) (body res1))
               end).
  assert (forall res, last = inr (Some res) -> ok res = true) as LastOk.
  { intros res. unfold last. destruct (fetch net 1) as [e|res1]; [discriminate|].
    destruct (ok res1) eqn:Ok1; [|discriminate]. intro H. inversion H; subst. exact Ok1. }
  clearbody last.
  destruct pol; destruct (sendTransaction net res0) as [e|sg0] eqn:Sd;
    try (destruct (confirmTransaction net (Some sg0)) as [e'|[]] eqn:Cf);
    simpl; intros Paid Hfuel; repeat split; try exact Paid; solve_case; auto.
Qed.

Lemma fetchWithPayment_at_most_one_retry_witness :
  fetchWithPayment Propagate demoNet (Some demoWallet)
  = (mkTrace 2 1, inr (Some okResponse)).
Proof.
  destruct (fetchWithPayment_at_most_one_retry Propagate demoNet (Some demoWallet))
    as (_ & _ & _ & _ & _ & _ & _ & H).
  destruct (H paywall demoWallet eq_refl eq_refl eq_refl) as (Hr & Ht).
  destruct (fetchWithPayment Propagate demoNet (Some demoWallet)) as [t r].
  cbn [fst snd] in Hr, Ht. now rewrite Hr, Ht.
Defined.

(** C10 as stated fails: a 402 whose body is no payment request, with a
    wallet configured, ends the call with the error of reading it, after
    one attempt, with no payment and no retry. *)
Lemma fetchWithPayment_unreadable_counterexample :
  fetch garbledNet 0 = inr garbledPaywall
  /\ status garbledPaywall = 402%N
  /\ fetchWithPayment Propagate garbledNet (Some demoWallet)
     = (mkTrace 1 0, inl (Error (str "JSON Parse error: Unexpected identifier")))
  /\ fetchWithPayment Swallow garbledNet (Some demoWallet)
     = (mkTrace 1 0, inl (Error (str "JSON Parse error: Unexpected identifier")))
  /\ payments (fst (fetchWithPayment Propagate garbledNet (Some demoWallet))) <> 1
  /\ attempts (fst (fetchWithPayment Propagate garbledNet (Some demoWallet))) <> 2.
Proof. vm_compute. repeat split; try reflexivity; discriminate. Qed.

End PaymentFacts.

Module SelectionFacts.
Import Agent.

Ltac run_eff :=
  unfold Eff.bind, Eff.gets, Eff.modify, Eff.measured, Eff.lift, Eff.deref,
    Eff.ret, Eff.throw; simpl.

Lemma selectServersWith_undecoded : forall decode configured response,
  undecoded decode response -> selectServersWith decode configured response = configured.
Proof.
  intros decode configured response [->|[->|(text & e & -> & He)]]; try reflexivity.
  unfold selectServersWith. destruct text; [reflexivity|]. now rewrite He.
Qed.

Lemma selectToolsWith_undecoded : forall decode tools response,
  undecoded decode response -> selectToolsWith decode tools response = firstn 1 tools.
Proof.
  intros decode tools response [->|[->|(text & e & -> & He)]]; try reflexivity.
  unfold selectToolsWith. destruct text; [reflexivity|]. now rewrite He.
Qed.

(** Under the swallowing [measure], [callLLM] without streaming answers
    null when the exchange fails or the content is empty. *)
Lemma callLLM_swallow_empty : forall w call st,
  emptyReply (llmReply w call) ->
  callLLM Swallow w false call st = (st, inr None).
Proof.
  intros w call st H. unfold callLLM. run_eff.
  destruct (llmReply w call) as [e|[|c content]]; try reflexivity. contradiction.
Qed.

Lemma callLLM_swallow_text : forall w call st c content,
  llmReply w call = inr (c :: content) ->
  callLLM Swallow w false call st = (st, inr (Some (c :: content))).
Proof. intros w call st c content H. unfold callLLM. run_eff. now rewrite H. Qed.

(** The discovery loop asks every provider it is given, in order, when it
    runs to its end. *)
Lemma invokeAll_discovered : forall pol w input server tools st st' r,
  invokeAll pol w input server tools st = (st', r) -> discovered st' = discovered st.
Proof.
  induction tools as [|tool rest IH]; intros st st' r H.
  - inversion H; reflexivity.
  - cbn [invokeAll] in H. unfold generateToolParameters, invokeTool, callLLM in H.
    revert H. run_eff.
    destruct (llmReply w (ToolParameters input tool)) as [e|content].
    + destruct pol; simpl.
      * destruct (invoke w server (tool_name tool) _) as [e'|v]; simpl;
          intro H; apply IH in H; exact H.
      * intro H; inversion H; reflexivity.
    + destruct (nonEmpty content); simpl.
      * destruct (invoke w server (tool_name tool) _) as [e'|v]; simpl.
        -- destruct pol; intro H; [apply IH in H; exact H|inversion H; reflexivity].
        -- intro H; apply IH in H; exact H.
      * destruct pol; simpl.
        -- destruct (invoke w server (tool_name tool) _) as [e'|v]; simpl;
             intro H; apply IH in H; exact H.
        -- intro H; inversion H; reflexivity.
Qed.

Lemma selectRelevantTools_state : forall pol w input tools server st st' r,
  selectRelevantTools pol w input tools server st = (st', r) -> st' = st.
Proof.
  intros pol w input tools server st st' r. unfold selectRelevantTools.
  destruct tools as [|t0 rest]; [intro H; inversion H; reflexivity|].
  unfold callLLM. run_eff.
  destruct (llmReply w _) as [e|content]; [destruct pol|destruct (nonEmpty content); [|destruct pol]];
    simpl; intro H; inversion H; reflexivity.
Qed.

Lemma discoverAndInvoke_discovered : forall pol w input relevant st st',
  discoverAndInvoke pol w input relevant st = (st', inr tt) ->
  discovered st' = discovered st ++ relevant.
Proof.
  induction relevant as [|server rest IH]; intros st st' H.
  - inversion H. now rewrite app_nil_r.
  - cbn [discoverAndInvoke] in H. unfold discoverTools in H. revert H. run_eff.
    set (st1 := mkRun (discovered st ++ [server]) (toolResults st) (toolInvocations st)).
    destruct (discover w server) as [e|tools].
    { destruct pol; simpl; intro H; discriminate. }
    simpl. destruct (nonEmpty tools).
    + destruct (selectRelevantTools pol w input tools server st1) as [st2 [e|[sel|]]] eqn:Sel;
        simpl; try discriminate.
      apply selectRelevantTools_state in Sel. subst st2.
      destruct (invokeAll pol w input server sel st1) as [st3 [e|[]]] eqn:Inv;
        simpl; try discriminate.
      apply invokeAll_discovered in Inv. intro H. apply IH in H.
      rewrite H, Inv. unfold st1. simpl. now rewrite <- app_assoc.
    + intro H. apply IH in H. rewrite H. unfold st1. simpl. now rewrite <- app_assoc.
Qed.

(** C6, as amended.  In the tool-selection step, a response that is
    null or empty, or whose decoding throws, makes the step fall back to
    the first discovered capability alone, and with the swallowing
    [measure] an exchange with the generation service that fails or
    yields no content is such a response; a response that decodes but
    leaves [selected_tools.tool_names] unset selects no capability. *)
Theorem selectTools_falls_back_to_first : forall decode first others,
  (forall response, undecoded decode response ->
     selectToolsWith decode (first :: others) response = [first]) /\
  (forall c text,
     optProp (getProp (xmlToObj (c :: text)) (str "selected_tools")) (str "tool_names")
       = None ->
     selectToolsWith decodeXml (first :: others) (Some (c :: text)) = []) /\
  (forall w input server st,
     emptyReply (llmReply w (SelectTools input server (first :: others))) ->
     selectRelevantTools Swallow w input (first :: others) server st
     = (st, inr (Some [first]))).
Proof.
  intros decode first others. split; [|split].
  - intros response H. now rewrite selectToolsWith_undecoded.
  - intros c text H. unfold selectToolsWith, decodeXml. rewrite H. cbn [orElse].
    generalize (first :: others) as tools.
    induction tools as [|t rest IH]; [reflexivity|exact IH].
  - intros w input server st He. unfold selectRelevantTools.
    unfold Eff.measured, Eff.bind. now rewrite callLLM_swallow_empty.
Qed.

Lemma relevantServersOf_swallow : forall w cfg input st,
  exists relevant, relevantServersOf Swallow w cfg input st = (st, inr relevant).
Proof.
  intros w cfg input st. unfold relevantServersOf, selectRelevantServers.
  destruct (servers cfg) as [[|s0 rest]|]; try (eexists; reflexivity).
  unfold callLLM, Eff.bind, Eff.measured, Eff.lift, Eff.deref, Eff.ret, Eff.throw, flatten.
  destruct (llmReply w (SelectServers input)) as [e|[|c content]];
    eexists; reflexivity.
Qed.

Lemma relevantServersOf_fallback : forall w cfg input st first others,
  servers cfg = Some (first :: others) ->
  emptyReply (llmReply w (SelectServers input)) ->
  relevantServersOf Swallow w cfg input st = (st, inr (first :: others)).
Proof.
  intros w cfg input st first others Hs He.
  unfold relevantServersOf, selectRelevantServers. rewrite Hs.
  unfold Eff.measured, Eff.bind. rewrite callLLM_swallow_empty by assumption.
  reflexivity.
Qed.

(** C5, as amended.  In the provider-selection step, a response that is
    null or empty, or whose decoding throws, makes the step proceed with
    all the configured providers, and the discovery loop, when it runs to
    its end, asks each of them for its tools; a response that decodes
    but leaves [relevant_servers.server_names] unset selects no provider. *)
Theorem selectServers_fallback : forall decode configured,
  (forall response, undecoded decode response ->
     selectServersWith decode configured response = configured) /\
  (forall c text,
     optProp (getProp (xmlToObj (c :: text)) (str "relevant_servers")) (str "server_names")
       = None ->
     selectServersWith decodeXml configured (Some (c :: text)) = []) /\
  (forall w cfg input st first others,
     configured = first :: others -> servers cfg = Some configured ->
     emptyReply (llmReply w (SelectServers input)) ->
     relevantServersOf Swallow w cfg input st = (st, inr configured)) /\
  (forall pol w input st st',
     discoverAndInvoke pol w input configured st = (st', inr tt) ->
     discovered st' = discovered st ++ configured).
Proof.
  intros decode configured. repeat split.
  - intros response H. now apply selectServersWith_undecoded.
  - intros c text H. unfold selectServersWith, decodeXml. rewrite H. simpl.
    induction configured as [|s rest IH]; [reflexivity|exact IH].
  - intros w cfg input st first others -> Hs He. now apply relevantServersOf_fallback.
  - intros pol w input st st' H. now apply discoverAndInvoke_discovered in H.
Qed.

End SelectionFacts.

Import SelectionFacts.

Module RunFacts.
Import Agent.

Lemma selectServers_fallback_witness :
  selectServersWith decodeXml [weatherServer; newsServer] None = [weatherServer; newsServer]
  /\ relevantServersOf Swallow silentWorld twoServerConfig (VObj []) emptyRun
     = (emptyRun, inr [weatherServer; newsServer]).
Proof.
  destruct (selectServers_fallback decodeXml [weatherServer; newsServer])
    as (H1 & _ & H3 & _).
  split.
  - apply H1. left. reflexivity.
  - apply (H3 silentWorld twoServerConfig (VObj []) emptyRun weatherServer [newsServer]);
      [reflexivity|reflexivity|exact I].
Defined.

(** C5 as stated fails: a selection response in free text decodes, to a
    string, and leaves the selection unset; the step then selects no
    provider rather than all of them, and the run discovers none. *)
Lemma selectServers_unset_counterexample :
  xmlToObj (str "none of them") = VStr (str "none of them")
  /\ selectServersWith decodeXml [weatherServer; newsServer] (Some (str "none of them")) = []
  /\ selectServersWith decodeXml [weatherServer; newsServer] (Some (str "none of them"))
     <> [weatherServer; newsServer]
  /\ discovered (fst (run Swallow chattyWorld twoServerConfig false (VObj []))) = [].
Proof. vm_compute. repeat split; try reflexivity. discriminate. Qed.

Lemma selectTools_falls_back_to_first_witness :
  selectToolsWith decodeXml [forecastTool; alertTool] (Some []) = [forecastTool]
  /\ selectRelevantTools Swallow silentWorld (VObj []) [forecastTool; alertTool]
       weatherServer emptyRun = (emptyRun, inr (Some [forecastTool])).
Proof.
  destruct (selectTools_falls_back_to_first decodeXml forecastTool [alertTool])
    as (H1 & _ & H3).
  split.
  - apply H1. right; left; reflexivity.
  - apply H3. exact I.
Defined.

(** C6 as stated fails: a selection response in free text decodes, to a
    string, and leaves the selection unset; the step then selects no
    capability rather than the first one. *)
Lemma selectTools_unset_counterexample :
  xmlToObj (str "none of them") = VStr (str "none of them")
  /\ selectToolsWith decodeXml [forecastTool; alertTool] (Some (str "none of them")) = []
  /\ selectToolsWith decodeXml [forecastTool; alertTool] (Some (str "none of them"))
     <> [forecastTool]
  /\ selectRelevantTools Swallow talkativeWorld (VObj []) [forecastTool; alertTool]
       weatherServer emptyRun = (emptyRun, inr (Some [])).
Proof. vm_compute. repeat split; try reflexivity. discriminate. Qed.

Lemma generateResponse_empty : forall w cfg progress input results st,
  emptyReply (llmReply w (FinalResponse input results)) ->
  generateResponse Swallow w cfg progress input results st = (st, inr (VObj [])).
Proof.
  intros w cfg progress input results st H. unfold generateResponse, callLLM.
  destruct progress; run_eff;
    destruct (llmReply w (FinalResponse input results)) as [e|[|c content]];
    try reflexivity; contradiction.
Qed.

(** With the swallowing [measure] the run is given by default, a run on a
    valid input whose final generation call yields an empty text, or
    none, raises nothing: it returns what the output format makes of the
    empty record, and the empty record when the format rejects it. *)
Lemma run_swallow_empty_reply : forall w cfg progress input checked,
  parse (ZodObject (inputFormat cfg)) input = inr checked ->
  (forall i results, emptyReply (llmReply w (FinalResponse i results))) ->
  snd (run Swallow w cfg progress input)
  = inr (Some (match parse (ZodObject (outputFormat cfg)) (VObj []) with
               | inr v => v
               | inl _ => VObj []
               end)).
Proof.
  intros w cfg progress input checked Hin Hempty.
  unfold run, runBody. unfold Eff.measured at 1. unfold Eff.bind at 1.
  unfold Eff.measured at 1. unfold Eff.lift at 1. rewrite Hin.
  unfold Eff.bind at 1. unfold Eff.measured at 1. unfold Eff.lift at 1.
  set (input' := fst (resolveInput w checked)).
  assert (forall (x : exn + unit), exists o,
            match x with
            | inl _ => (emptyRun, @inr exn (option unit) None)
            | inr a => (emptyRun, inr (Some a))
            end = (emptyRun, inr o)) as Res
    by (intros [e|u]; eexists; reflexivity).
  destruct (Res (match snd (resolveInput w checked) with
                 | Some e => inl e | None => inr tt end)) as [o ->].
  unfold Eff.bind at 1.
  destruct (relevantServersOf_swallow w cfg input' emptyRun) as [relevant ->].
  unfold Eff.bind at 1.
  assert (exists st1 o1,
            (if nonEmpty relevant
             then Eff.measured Swallow (discoverAndInvoke Swallow w input' relevant)
             else Eff.ret None) emptyRun = (st1, inr o1)) as [st1 [o1 ->]].
  { destruct (nonEmpty relevant); [|eexists; eexists; reflexivity].
    unfold Eff.measured. destruct (discoverAndInvoke Swallow w input' relevant emptyRun)
      as [s' [e|a]]; eexists; eexists; reflexivity. }
  unfold Eff.bind at 1. unfold Eff.gets at 1.
  unfold Eff.bind at 1. unfold Eff.measured at 1.
  rewrite generateResponse_empty by apply Hempty.
  unfold Eff.bind at 1. unfold Eff.measured at 1. unfold Eff.lift at 1.
  destruct (parse (ZodObject (outputFormat cfg)) (VObj [])) as [e|v] eqn:Ep; reflexivity.
Qed.

Example run_swallow_empty_reply_two_servers :
  snd (run Swallow silentWorld twoServerConfig true (VObj [])) = inr (Some (VObj [])).
Proof.
  rewrite (@run_swallow_empty_reply silentWorld twoServerConfig true (VObj []) (VObj []));
    [reflexivity|reflexivity|intros i results; exact I].
Qed.

(** C9.  The run of the repository's test 'Agent run basic flow mock',
    which passes a [measure] that lets errors through and expects the
    empty record: when the generation service yields no content the run
    rejects.  Without a progress callback it rejects with the error
    [callLLM] raises on an empty content; with one, the empty text is
    reconciled to the empty record and the run rejects with the error of
    validating it against the required field.  Under the swallowing
    [measure] the same run returns the empty record. *)
Theorem run_rejects_on_empty_reply :
  snd (run Propagate silentWorld mockConfig false (VObj []))
  = inl (Error (str "LLM API call failed. Unexpected response format"))
  /\ snd (run Propagate silentWorld mockConfig true (VObj [])) = inl ZodError
  /\ snd (run Swallow silentWorld mockConfig false (VObj [])) = inr (Some (VObj [])).
Proof. vm_compute. repeat split; reflexivity. Qed.

End RunFacts.

Module ReconcileFacts.
Import Agent.

Lemma lookup_assign_eq : forall key v entries, lookup key (assign key v entries) = Some v.
Proof.
  induction entries as [|[k old] rest IH]; simpl.
  - now rewrite eqb_refl.
  - destruct (Js.eqb k key) eqn:E; simpl; rewrite E; [reflexivity|exact IH].
Qed.

Lemma lookup_assign_neq : forall key key' v entries,
  key <> key' -> lookup key' (assign key v entries) = lookup key' entries.
Proof.
  intros key key' v entries Hne. induction entries as [|[k old] rest IH]; simpl.
  - apply eqb_neq in Hne. now rewrite Hne.
  - destruct (Js.eqb k key) eqn:E; simpl.
    + apply eqb_eq in E. subst k. apply eqb_neq in Hne. now rewrite Hne.
    + destruct (Js.eqb k key'); [reflexivity|exact IH].
Qed.

Lemma declared_none : forall key shape,
  ~ In key (List.map fst shape) -> declared key shape = None.
Proof.
  induction shape as [|[k t] rest IH]; intros H; simpl; [reflexivity|].
  destruct (Js.eqb k key) eqn:E.
  - apply eqb_eq in E. subst. exfalso. apply H. now left.
  - apply IH. intro Hin. apply H. now right.
Qed.

Lemma declared_in : forall key schema shape,
  NoDup (List.map fst shape) -> In (key, schema) shape -> declared key shape = Some schema.
Proof.
  induction shape as [|[k t] rest IH]; intros Hnd Hin; [contradiction|].
  simpl in *. inversion Hnd as [|? ? Hk Hrest]; subst.
  destruct Hin as [Heq|Hin].
  - inversion Heq; subst. now rewrite eqb_refl.
  - destruct (Js.eqb k key) eqn:E; [|now apply IH].
    apply eqb_eq in E. subst k. exfalso. apply Hk.
    change key with (fst (key, schema)). now apply in_map.
Qed.

(** What the loop over the declared fields leaves under each key. *)
Lemma reconcileFields_lookup : forall shape source text result key,
  NoDup (List.map fst shape) ->
  lookup key (reconcileFields shape source text result) =
  match declared key shape with
  | Some schema =>
      match reconciledField source text key schema with
      | Some v => Some v
      | None => lookup key result
      end
  | None => lookup key result
  end.
Proof.
  induction shape as [|[k schema] rest IH]; intros source text result key Hnd;
    [reflexivity|].
  simpl in Hnd. inversion Hnd as [|? ? Hk Hrest]; subst.
  cbn [reconcileFields declared].
  destruct (Js.eqb k key) eqn:E.
  - apply eqb_eq in E. subst k. unfold reconciledField.
    destruct (getProp source key) as [v0|] eqn:G.
    + rewrite IH by assumption. rewrite (@declared_none key rest Hk). rewrite lookup_assign_eq.
      destruct (getSchemaTypeName schema), (isStructured v0), (matchField key text);
        reflexivity.
    + rewrite IH by assumption. now rewrite (@declared_none key rest Hk).
  - apply eqb_neq in E. destruct (getProp source k) as [v0|].
    + rewrite IH by assumption. now rewrite lookup_assign_neq.
    + now rewrite IH.
Qed.

(** [matchField] returns the text between the first literal [<key>] of
    the response and the first [</key>] after it. *)
Lemma matchField_spec : forall key text raw,
  matchField key text = Some raw <->
  exists pre post,
    text = pre ++ openTag key ++ raw ++ closeTag key ++ post
    /\ (forall i, i < length pre -> ~ occursAt (openTag key) text i)
    /\ (forall j, j < length raw ->
          ~ occursAt (closeTag key) (raw ++ closeTag key ++ post) j).
Proof.
  intros key text raw. unfold matchField, occursAt. split.
  - destruct (splitAt (openTag key) text) as [[pre afterOpen]|] eqn:E1; [|discriminate].
    destruct (splitAt (closeTag key) afterOpen) as [[raw' post]|] eqn:E2; [|discriminate].
    intro H. inversion H; subst raw'. exists pre, post.
    pose proof (splitAt_sound _ _ E1) as S1. pose proof (splitAt_sound _ _ E2) as S2.
    subst afterOpen. split; [exact S1|]. split.
    + intros i Hi. rewrite (splitAt_first _ _ E1 Hi). discriminate.
    + intros j Hj. rewrite (splitAt_first _ _ E2 Hj). discriminate.
  - intros (pre & post & -> & Hpre & Hraw).
    rewrite splitAt_complete.
    + rewrite splitAt_complete; [reflexivity|].
      intros j Hj. specialize (Hraw j Hj).
      destruct (startsWith _ _); [contradiction|reflexivity].
    + intros i Hi. specialize (Hpre i Hi).
      destruct (startsWith _ _); [contradiction|reflexivity].
Qed.

(** C7, as amended.  For a response none of whose tags, and declared
    fields none of which, is named like a member every object inherits,
    the field names being made of letters, digits and ['_'], and when the
    source, after the unwrapping, is a mapping: the decoded response
    loses one root level when it is a single-key mapping whose value is a
    mapping.  Each declared field the source has gets the decoded value,
    except that a plain-text field decoded as a mapping gets the raw text
    between the first literal [<field>] of the response and the first
    [</field>] after it when the response has such a pair, and keeps the
    decoded mapping when it has none; a declared field the source lacks,
    like any undeclared key, is absent from the result. *)
Theorem reconcile_fields : forall shape c text,
  NoDup (List.map fst shape) ->
  Forall (fun kv => fieldName (fst kv) = true) shape ->
  ownKeys (xmlToObj (c :: text)) = true ->
  let response := c :: text in
  let source := sourceObject (xmlToObj response) in
  isMapping source = true ->
  (forall k0 k inner, xmlToObj response = VObj [(k0 :: k, VObj inner)] ->
     source = VObj inner) /\
  exists result,
    reconcile shape (Some response) = VObj result /\
    (forall key schema, In (key, schema) shape ->
       lookup key result = reconciledField source response key schema) /\
    (forall key schema v, In (key, schema) shape ->
       getProp source key = Some v -> getSchemaTypeName schema = TString ->
       isStructured v = true ->
       lookup key result =
       match matchField key response with
       | Some raw => Some (VStr raw)
       | None => Some v
       end) /\
    (forall key schema, In (key, schema) shape ->
       getProp source key = None -> lookup key result = None) /\
    (forall key, declared key shape = None -> lookup key result = None).
Proof.
  intros shape c text Hnd _ _ response source Hmap.
  assert (falsy (xmlToObj response) = false) as Hf.
  { unfold source, sourceObject in Hmap.
    destruct (xmlToObj response) as [| |b|n|s|items|entries]; try discriminate; reflexivity. }
  split.
  - intros k0 k inner H. unfold source. rewrite H. reflexivity.
  - exists (reconcileFields shape source response []).
    assert (forall key schema, In (key, schema) shape ->
              lookup key (reconcileFields shape source response [])
              = reconciledField source response key schema) as Main.
    { intros key schema Hin. rewrite reconcileFields_lookup by assumption.
      rewrite (@declared_in key schema shape Hnd Hin).
      destruct (reconciledField source response key schema); reflexivity. }
    repeat split.
    + unfold reconcile, source, response. cbv beta match zeta.
      unfold response in Hf. rewrite Hf. reflexivity.
    + exact Main.
    + intros key schema v Hin Hg Ht Hs. rewrite (Main _ _ Hin).
      unfold reconciledField. rewrite Hg, Ht, Hs.
      destruct (matchField key response); reflexivity.
    + intros key schema Hin Hg. rewrite (Main _ _ Hin).
      unfold reconciledField. now rewrite Hg.
    + intros key Hd. rewrite reconcileFields_lookup by assumption. now rewrite Hd.
Qed.

Lemma reconcile_fields_witness :
  exists result,
    reconcile answerShape (Some wrappedResponse) = VObj result
    /\ lookup (str "answer") result = Some (VStr (str "Use <b>bold</b> text"))
    /\ lookup (str "status") result = Some (VStr (str "ok")).
Proof.
  assert (NoDup (List.map fst answerShape)) as Hnd.
  { repeat constructor; simpl; intuition discriminate. }
  assert (Forall (fun kv => fieldName (fst kv) = true) answerShape) as Hkeys.
  { repeat constructor. }
  destruct (@reconcile_fields answerShape 60%N (List.tl wrappedResponse) Hnd Hkeys
              eq_refl eq_refl)
    as [_ [result (Hr & Hmain & _)]].
  exists result. split; [exact Hr|]. split.
  - rewrite (Hmain (str "answer") ZodString) by (left; reflexivity).
    vm_compute. reflexivity.
  - rewrite (Hmain (str "status") ZodString) by (right; left; reflexivity).
    vm_compute. reflexivity.
Defined.

(** What the source's reads make of a response in free text: the text
    is its own source, and a declared field named [length] gets the
    length of the text. *)
Example reconcile_length_of_text :
  reconcile [(str "length", ZodNumber)] (Some (str "just words"))
  = VObj [(str "length", VNum (str "10"))].
Proof. vm_compute. reflexivity. Qed.

(** C7 as stated fails: the [answer] tag of this response carries an
    attribute, so the decoder reads a mapping for it while the response
    has no literal [<answer>]; the plain-text field keeps the mapping. *)
Lemma reconcile_attribute_counterexample :
  xmlToObj attributedResponse
  = VObj [(str "answer", VObj [(str "b", VStr (str "hi"))]); (str "status", VStr (str "ok"))]
  /\ matchField (str "answer") attributedResponse = None
  /\ reconcile answerShape (Some attributedResponse)
     = VObj [(str "answer", VObj [(str "b", VStr (str "hi"))]);
             (str "status", VStr (str "ok"))]
  /\ reconcile answerShape (Some attributedResponse)
     <> VObj [(str "answer", VStr (str "<b>hi</b>")); (str "status", VStr (str "ok"))].
Proof. vm_compute. repeat split; try reflexivity. discriminate. Qed.

End ReconcileFacts.

Module CodecFacts.

(** The literal scenario of the specification. *)
Example encode_literal :
  objToXml (VObj [(str "a", VObj [(str "b", VStr (str "x"));
                                  (str "c", VArr [one; two])])]) None
  = str "<a><b>x</b><c><item>1</item><item>2</item></c></a>".
Proof. vm_compute. reflexivity. Qed.

Example decode_literal :
  xmlToObj (str "<a><b>x</b><c><item>1</item><item>2</item></c></a>")
  = VObj [(str "a", VObj [(str "b", VStr (str "x")); (str "c", VArr [one; two])])].
Proof. vm_compute. reflexivity. Qed.

(** Group 1 backtracks: no [</ab>] follows, so the name is [a] and the
    [b] is read as the rest of the opening tag. *)
Example scanner_backtracks :
  xmlToObj (str "<ab>x</a>") = VObj [(str "a", VStr (str "x"))].
Proof. vm_compute. reflexivity. Qed.

(** A repeated tag turns its slot into a sequence. *)
Example repeated_tag :
  xmlToObj (str "<a>x</a><b>true</b><a>7</a>")
  = VObj [(str "a", VArr [VStr (str "x"); VNum (str "7")]); (str "b", VBool true)].
Proof. vm_compute. reflexivity. Qed.

End CodecFacts.

(* ===================================================================== *)
(** * The scanner on well-formed elements *)
(* ===================================================================== *)

Module ScanFacts.

Ltac char_facts :=
  unfold nameChar, is_word, is_alpha, is_digit, is_space, in_range,
    ch_lt, ch_gt, ch_slash, ch_us, ch_dot, ch_space, ch_nl in *;
  repeat rewrite ?orb_true_iff, ?andb_true_iff, ?negb_true_iff, ?orb_false_iff,
    ?andb_false_iff, ?negb_false_iff, ?N.leb_le, ?N.leb_gt, ?N.eqb_eq, ?N.eqb_neq in *.

Lemma word_nameChar : forall c, is_word c = true -> nameChar c = true.
Proof. intros c H. char_facts. lia. Qed.

Lemma word_not_lt : forall c, is_word c = true -> c <> ch_lt.
Proof. intros c H. char_facts. lia. Qed.

Lemma word_not_gt : forall c, is_word c = true -> c <> ch_gt.
Proof. intros c H. char_facts. lia. Qed.

Lemma alpha_not_slash : forall c, is_alpha c = true -> c <> ch_slash.
Proof. intros c H. char_facts. lia. Qed.

Lemma alpha_not_space : forall c, is_alpha c = true -> is_space c = false.
Proof.
  intros c H. destruct (is_space c) eqn:E; [|reflexivity]. exfalso. char_facts. lia.
Qed.

Lemma digit_not_space : forall c, is_digit c = true -> is_space c = false.
Proof.
  intros c H. destruct (is_space c) eqn:E; [|reflexivity]. exfalso. char_facts. lia.
Qed.

Lemma gt_not_space : is_space ch_gt = false.
Proof. reflexivity. Qed.

Lemma lt_not_space : is_space ch_lt = false.
Proof. reflexivity. Qed.

Lemma goodName_inv : forall k, goodName k = true ->
  exists c rest, k = c :: rest /\ is_alpha c = true /\ forallb is_word k = true.
Proof.
  intros [|c rest] H; [discriminate|]. unfold goodName in H.
  apply andb_true_iff in H as [H1 H2]. eauto.
Qed.

Lemma goodName_sanitize : forall k, goodName k = true -> sanitizeTagName k = k.
Proof.
  intros k H. destruct (goodName_inv _ H) as (c & rest & -> & Ha & Hw).
  unfold sanitizeTagName.
  assert (forall l, forallb is_word l = true ->
            List.map (fun c => if is_word c then c else ch_us) l = l) as M.
  { induction l as [|x l IH]; intro Hl; [reflexivity|]. simpl in *.
    apply andb_true_iff in Hl as [H1 H2]. rewrite H1. f_equal. now apply IH. }
  rewrite (M _ Hw). now rewrite Ha.
Qed.

Lemma wrapTag_good : forall k content,
  goodName k = true -> wrapTag k content = openTag k ++ content ++ closeTag k.
Proof. intros k content H. unfold wrapTag. now rewrite goodName_sanitize. Qed.

Lemma goodName_item : goodName (str "item") = true.
Proof. reflexivity. Qed.

(** A tag name is read back whole. *)
Lemma goodName_rawName : forall k, goodName k = true -> rawName k = true.
Proof.
  intros k H. destruct (goodName_inv _ H) as (c & rest & -> & Ha & Hw).
  unfold rawName. cbn [nonEmpty andb]. rewrite forallb_forall in *.
  intros x Hx. now apply word_nameChar, Hw.
Qed.

Lemma nameChar_inv : forall c, nameChar c = true -> c <> ch_gt /\ c <> ch_slash.
Proof.
  intros c Hn. unfold nameChar in Hn. apply andb_true_iff in Hn as [Hn Hs].
  apply andb_true_iff in Hn as [Hg _].
  apply negb_true_iff, N.eqb_neq in Hg. apply negb_true_iff, N.eqb_neq in Hs. auto.
Qed.

Lemma rawName_inv : forall k, rawName k = true ->
  exists c rest, k = c :: rest /\ forallb nameChar k = true
                 /\ ~ In ch_slash k /\ ~ In ch_gt k.
Proof.
  intros [|c rest] H; [discriminate|]. unfold rawName in H. cbn [nonEmpty andb] in H.
  exists c, rest. split; [reflexivity|]. split; [assumption|].
  assert (forall x, In x (c :: rest) -> nameChar x = true) as Hall
    by (now apply forallb_forall).
  split; intro Hin; apply Hall, nameChar_inv in Hin; intuition congruence.
Qed.

(** ** Scanning through text that cannot start the pattern *)

Lemma passes_nil : forall pat, passes pat [].
Proof. intros pat s. simpl. destruct (splitAt pat s) as [[b a]|]; reflexivity. Qed.

Lemma passes_app : forall pat t1 t2, passes pat t1 -> passes pat t2 -> passes pat (t1 ++ t2).
Proof.
  intros pat t1 t2 H1 H2 s. rewrite <- app_assoc. rewrite H1, H2.
  destruct (splitAt pat s) as [[b a]|]; [|reflexivity]. now rewrite app_assoc.
Qed.

Lemma passes_step : forall pat c,
  (forall s, startsWith pat (c :: s) = false) -> passes pat [c].
Proof.
  intros pat c H s. cbn [app]. rewrite splitAt_later by apply H.
  destruct (splitAt pat s) as [[b a]|]; reflexivity.
Qed.

Lemma passes_other_char : forall p0 pat c, c <> p0 -> passes (p0 :: pat) [c].
Proof.
  intros p0 pat c H. apply passes_step. intros s. cbn [startsWith].
  apply N.eqb_neq in H. rewrite (N.eqb_sym p0 c). now rewrite H.
Qed.

Lemma passes_text : forall p0 pat t, ~ In p0 t -> passes (p0 :: pat) t.
Proof.
  induction t as [|c t IH]; intros H; [apply passes_nil|].
  change (c :: t) with ([c] ++ t). apply passes_app.
  - apply passes_other_char. intro E. apply H. now left.
  - apply IH. intro Hin. apply H. now right.
Qed.

Lemma word_no_lt : forall k, forallb is_word k = true -> ~ In ch_lt k.
Proof.
  intros k H Hin. rewrite forallb_forall in H. apply H in Hin.
  now apply word_not_lt in Hin.
Qed.

Lemma word_no_gt : forall k, forallb is_word k = true -> ~ In ch_gt k.
Proof.
  intros k H Hin. rewrite forallb_forall in H. apply H in Hin.
  now apply word_not_gt in Hin.
Qed.

Lemma passes_cons : forall pat c t,
  (forall s, startsWith pat (c :: t ++ s) = false) -> passes pat t -> passes pat (c :: t).
Proof.
  intros pat c t H Ht s. cbn [app]. rewrite splitAt_later by apply H. rewrite Ht.
  destruct (splitAt pat s) as [[b a]|]; reflexivity.
Qed.

(** A text without ['/'] that does not end in ['<'] holds no [</]. *)
Lemma passes_no_close : forall rest t,
  ~ In ch_slash t -> (forall t0, t <> t0 ++ [ch_lt]) ->
  passes (ch_lt :: ch_slash :: rest) t.
Proof.
  intros rest. induction t as [|c t IH]; intros Hs Hl; [apply passes_nil|].
  apply passes_cons.
  - intros s. cbn [startsWith]. destruct (N.eqb_spec ch_lt c) as [E|E]; [|reflexivity].
    subst c. destruct t as [|d t]; [exfalso; now apply (Hl [])|].
    cbn [app startsWith andb]. destruct (N.eqb_spec ch_slash d) as [E|E]; [|reflexivity].
    exfalso. apply Hs. right. left. now symmetry.
  - apply IH.
    + intro Hin. apply Hs. now right.
    + intros t0 E. apply (Hl (c :: t0)). cbn [app]. now f_equal.
Qed.

(** An opening tag never starts a closing tag. *)
Lemma passes_openTag : forall k n,
  rawName n = true -> passes (closeTag k) (openTag n).
Proof.
  intros k n Hn. destruct (rawName_inv _ Hn) as (c & rest & E & _ & Hs & _).
  unfold closeTag. cbn [app]. apply passes_no_close.
  - unfold openTag. intro Hin. cbn [app] in Hin. destruct Hin as [F|Hin]; [discriminate|].
    apply in_app_or in Hin as [Hin|[F|[]]]; [now apply Hs|discriminate].
  - intros t0 F. unfold openTag in F. rewrite app_assoc in F.
    apply app_inj_tail in F as [_ F]. discriminate.
Qed.

Lemma startsWith_name_differs : forall k n s,
  ~ In ch_gt k -> ~ In ch_gt n -> k <> n ->
  startsWith (k ++ [ch_gt]) (n ++ [ch_gt] ++ s) = false.
Proof.
  induction k as [|x k IH]; intros n s Hk Hn Hne.
  - destruct n as [|y n]; [congruence|]. cbn [app startsWith].
    destruct (N.eqb_spec ch_gt y) as [E|E]; [|reflexivity].
    exfalso. apply Hn. now left.
  - destruct n as [|y n]; cbn [app startsWith].
    + destruct (N.eqb_spec x ch_gt) as [E|E]; [|reflexivity].
      exfalso. apply Hk. now left.
    + destruct (N.eqb_spec x y) as [E|E]; [|reflexivity]. subst y.
      cbn [andb]. apply IH.
      * intro H. apply Hk. now right.
      * intro H. apply Hn. now right.
      * congruence.
Qed.

(** A closing tag of another name does not start the closing tag sought. *)
Lemma passes_closeTag : forall k n,
  rawName k = true -> rawName n = true -> k <> n ->
  passes (closeTag k) (closeTag n).
Proof.
  intros k n Hk Hn Hne.
  destruct (rawName_inv _ Hk) as (ck & rk & Ek & _ & _ & Hgk).
  destruct (rawName_inv _ Hn) as (cn & rn & En & _ & Hsn & Hgn).
  unfold closeTag at 2. cbn [app]. apply passes_cons.
  - intros s. unfold closeTag. cbn [app startsWith]. rewrite !N.eqb_refl. cbn [andb].
    rewrite <- app_assoc.
    apply startsWith_name_differs; assumption.
  - change (ch_slash :: n ++ [ch_gt]) with ([ch_slash] ++ (n ++ [ch_gt])).
    apply passes_app.
    + unfold closeTag. cbn [app]. apply passes_other_char. discriminate.
    + unfold closeTag. cbn [app]. apply passes_no_close.
      * intro Hin. apply in_app_or in Hin as [Hin|[F|[]]]; [now apply Hsn|discriminate].
      * intros t0 F. apply app_inj_tail in F as [_ F]. discriminate.
Qed.

(** ** One element *)

Lemma splitAt_char : forall c k rest,
  ~ In c k -> splitAt [c] (k ++ c :: rest) = Some (k, rest).
Proof.
  intros c k rest H.
  change (k ++ c :: rest) with (k ++ [c] ++ rest).
  rewrite (@passes_text c [] k H ([c] ++ rest)).
  rewrite splitAt_here by (cbn [app startsWith]; now rewrite N.eqb_refl).
  cbn [length skipn app]. now rewrite app_nil_r.
Qed.

Lemma takeWhile_name : forall k rest,
  forallb nameChar k = true -> takeWhile nameChar (k ++ ch_gt :: rest) = k.
Proof.
  induction k as [|c k IH]; intros rest H; cbn [app takeWhile].
  - reflexivity.
  - cbn [forallb] in H. apply andb_true_iff in H as [H1 H2].
    rewrite H1. f_equal. now apply IH.
Qed.

Lemma firstn_length_app : forall (a b : jsstring), firstn (length a) (a ++ b) = a.
Proof. induction a; simpl; intros; [reflexivity|f_equal; auto]. Qed.

Lemma tryNames_longest : forall n afterLt body content rest,
  n <> 0 ->
  splitAt (closeTag (firstn n afterLt)) body = Some (content, rest) ->
  tryNames n afterLt body = Some (firstn n afterLt, content, rest).
Proof.
  intros [|n] afterLt body content rest Hn H; [congruence|].
  cbn [tryNames]. now rewrite H.
Qed.

(** The scanner, on an element whose name it reads whole and whose
    content does not hold its closing tag, captures the name and the
    content. *)
Lemma matchAt_element : forall k body rest,
  rawName k = true -> passes (closeTag k) body ->
  matchAt (openTag k ++ body ++ closeTag k ++ rest) = Some (k, body, rest).
Proof.
  intros k body rest Hk Hp.
  destruct (rawName_inv _ Hk) as (c & r & E & Hn & _ & Hg).
  unfold openTag. rewrite <- !app_assoc. cbn [app]. unfold matchAt.
  rewrite N.eqb_refl.
  rewrite splitAt_char by assumption.
  rewrite takeWhile_name by assumption.
  rewrite (@tryNames_longest (length k) _ _ body rest).
  - now rewrite firstn_length_app.
  - rewrite E. discriminate.
  - rewrite firstn_length_app. rewrite Hp.
    rewrite splitAt_here by apply startsWith_app.
    rewrite skipn_length_app. now rewrite app_nil_r.
Qed.

Lemma exec_of_matchAt : forall s m, matchAt s = Some m -> exec s = Some m.
Proof.
  intros s m H. destruct s as [|c s]; [discriminate|]. cbn [exec]. now rewrite H.
Qed.

Lemma allMatches_element : forall k body rest,
  rawName k = true -> passes (closeTag k) body ->
  allMatches (openTag k ++ body ++ closeTag k ++ rest) = (k, body) :: allMatches rest.
Proof.
  intros k body rest Hk Hp. rewrite allMatches_unfold.
  now rewrite (exec_of_matchAt _ (matchAt_element rest Hk Hp)).
Qed.

Lemma allMatches_nil : allMatches [] = [].
Proof. reflexivity. Qed.

End ScanFacts.

Import ScanFacts.
Unset Implicit Arguments.

(* ===================================================================== *)
(** * The round trip *)
(* ===================================================================== *)

Module RoundTripFacts.

(** ** The encoder, with [map] and [filter] as in the source *)

Lemma objToXml_array : forall items parentKey,
  objToXml (VArr items) parentKey
  = wrapTag (keyOr parentKey (str "array")) (concat (List.map itemXml items)).
Proof.
  intros items parentKey. cbn [objToXml]. f_equal.
  induction items as [|item rest IH]; [reflexivity|].
  cbn [List.map concat]. rewrite <- IH. reflexivity.
Qed.

Lemma objToXml_object : forall entries parentKey,
  objToXml (VObj entries) parentKey
  = if forallb (fun kv => negb (notNullish (snd kv))) entries
    then wrapTag (keyOr parentKey (str "empty")) []
    else
      let content :=
        concat (List.map entryXml (filter (fun kv => notNullish (snd kv)) entries)) in
      if keyTruthy parentKey then wrapTag (keyOr parentKey []) content else content.
Proof.
  intros entries parentKey. cbn [objToXml].
  destruct (forallb _ entries); [reflexivity|].
  assert (forall l : list (jsstring * value),
            (fix each (l : list (jsstring * value)) : jsstring :=
               match l with
               | [] => []
               | (key, v) :: rest =>
                   (if notNullish v
                    then if typeof_object v then objToXml v (Some key)
                         else openTag key ++ String_ v ++ closeTag key
                    else [])
                   ++ each rest
               end) l
            = concat (List.map entryXml (filter (fun kv => notNullish (snd kv)) l))) as E.
  { induction l as [|[key v] rest IH]; [reflexivity|].
    cbn [filter snd]. destruct (notNullish v).
    - cbn [List.map concat]. rewrite <- IH. reflexivity.
    - rewrite <- IH. reflexivity. }
  rewrite E. cbv zeta. destruct parentKey as [[|c k]|]; reflexivity.
Qed.

Lemma objToXml_scalar : forall v parentKey,
  typeof_object v = false ->
  objToXml v parentKey = wrapTag (keyOr parentKey (str "value")) (String_ v).
Proof. intros v parentKey H. destruct v; try reflexivity; discriminate. Qed.

(** ** Induction on values *)

Lemma value_nested_ind (P : value -> Prop) :
  P VUndefined -> P VNull -> (forall b, P (VBool b)) -> (forall n, P (VNum n)) ->
  (forall s, P (VStr s)) ->
  (forall items, Forall P items -> P (VArr items)) ->
  (forall entries, Forall (fun kv => P (snd kv)) entries -> P (VObj entries)) ->
  forall v, P v.
Proof.
  intros HU HN HB HNum HS HA HO. fix IH 1. intros [| |b|n|s|items|entries].
  - exact HU.
  - exact HN.
  - apply HB.
  - apply HNum.
  - apply HS.
  - apply HA. induction items as [|x rest IHl]; constructor; [apply IH|exact IHl].
  - apply HO. induction entries as [|[k x] rest IHl]; constructor; [apply IH|exact IHl].
Qed.

(** ** Membership *)

Lemma mem_false_iff : forall k l, mem k l = false <-> ~ In k l.
Proof.
  intros k l. unfold mem. split.
  - intros H Hin. assert (existsb (Js.eqb k) l = true) as E.
    { apply existsb_exists. exists k. split; [assumption|apply eqb_refl]. }
    congruence.
  - intro H. destruct (existsb (Js.eqb k) l) eqn:E; [|reflexivity].
    apply existsb_exists in E as [x [Hx E]]. apply eqb_eq in E. subst. contradiction.
Qed.

Lemma mem_app : forall k a b, mem k (a ++ b) = mem k a || mem k b.
Proof. intros. unfold mem. apply existsb_app. Qed.

Lemma mem_cons : forall k x l, mem k (x :: l) = Js.eqb k x || mem k l.
Proof. reflexivity. Qed.

(** ** Trimming *)

Lemma dropWhile_stop : forall p c s, p c = false -> dropWhile p (c :: s) = c :: s.
Proof. intros p c s H. cbn [dropWhile]. now rewrite H. Qed.

(** A text that neither starts nor ends with white space is its own trim. *)
Lemma trim_ends : forall a mid z,
  is_space a = false -> is_space z = false ->
  trim (a :: mid ++ [z]) = a :: mid ++ [z].
Proof.
  intros a mid z Ha Hz. unfold trim, trimStart, trimEnd.
  rewrite dropWhile_stop by assumption.
  change (a :: mid ++ [z]) with ((a :: mid) ++ [z]).
  rewrite rev_app_distr. cbn [rev app].
  rewrite dropWhile_stop by assumption.
  change (z :: rev mid ++ [a]) with ([z] ++ rev (a :: mid)).
  rewrite rev_app_distr, rev_involutive. reflexivity.
Qed.

Lemma trim_single : forall a, is_space a = false -> trim [a] = [a].
Proof.
  intros a Ha. unfold trim, trimStart, trimEnd.
  rewrite dropWhile_stop by assumption. cbn [rev app].
  now rewrite dropWhile_stop.
Qed.

Lemma trim_nonspace : forall s,
  (forall c s', s = c :: s' -> is_space c = false) ->
  (forall s' z, s = s' ++ [z] -> is_space z = false) ->
  trim s = s.
Proof.
  intros s Hfirst Hlast. destruct s as [|a s]; [reflexivity|].
  destruct (@exists_last _ (a :: s)) as (s' & z & E); [discriminate|].
  destruct s' as [|a' mid].
  - cbn [app] in E. inversion E; subst. apply trim_single. now apply (Hfirst z []).
  - cbn [app] in E. inversion E; subst. apply trim_ends.
    + now apply (Hfirst a' (mid ++ [z])).
    + now apply (Hlast (a' :: mid) z).
Qed.

(** ** Scalars *)

Lemma span_digits : forall s, s = takeWhile is_digit s ++ dropWhile is_digit s.
Proof.
  induction s as [|c s IH]; [reflexivity|]. cbn [takeWhile dropWhile].
  destruct (is_digit c); [cbn [app]; now f_equal|reflexivity].
Qed.

Lemma takeWhile_all : forall p s, forallb p (takeWhile p s) = true.
Proof.
  induction s as [|c s IH]; [reflexivity|]. cbn [takeWhile].
  destruct (p c) eqn:E; [|reflexivity]. cbn [forallb]. now rewrite E.
Qed.

Lemma last_of_app : forall (a b s' : jsstring) z,
  a ++ b = s' ++ [z] -> b <> [] -> In z b.
Proof.
  intros a b s' z E Hb. apply (f_equal (@rev char)) in E.
  rewrite !rev_app_distr in E. cbn [rev app] in E.
  destruct (rev b) as [|y rb] eqn:Er.
  - exfalso. apply Hb. apply (f_equal (@rev char)) in Er.
    rewrite rev_involutive in Er. exact Er.
  - cbn [app] in E. inversion E; subst y. apply in_rev. rewrite Er. now left.
Qed.

Lemma digit_not_lt : forall c, is_digit c = true -> c <> ch_lt.
Proof. intros c H. char_facts. lia. Qed.

(** The shape of a numeral the decoder reads as a number. *)
Lemma isNumeric_inv : forall n, isNumeric n = true ->
  (exists d rest, n = d :: rest /\ is_digit d = true) /\
  (forall c, In c n -> is_digit c = true \/ c = ch_dot) /\
  (forall s' z, n = s' ++ [z] -> is_digit z = true).
Proof.
  intros n H. unfold isNumeric in H.
  pose proof (span_digits n) as Sp. pose proof (takeWhile_all is_digit n) as Hip.
  destruct (takeWhile is_digit n) as [|d ip] eqn:Eip; [discriminate|].
  destruct (dropWhile is_digit n) as [|c fp] eqn:Erest.
  - rewrite app_nil_r in Sp. split; [|split].
    + exists d, ip. split; [exact Sp|]. cbn [forallb] in Hip.
      now apply andb_true_iff in Hip as [Hd _].
    + intros c Hin. left. rewrite Sp in Hin. rewrite forallb_forall in Hip. now apply Hip.
    + intros s' z E. rewrite forallb_forall in Hip. apply Hip.
      rewrite <- Sp, E. apply in_or_app. right. now left.
  - apply andb_true_iff in H as [H Hfp]. apply andb_true_iff in H as [Hc Hlen].
    apply N.eqb_eq in Hc. subst c. split; [|split].
    + exists d, (ip ++ ch_dot :: fp). split; [exact Sp|]. cbn [forallb] in Hip.
      now apply andb_true_iff in Hip as [Hd _].
    + intros c Hin. rewrite Sp in Hin. apply in_app_or in Hin as [Hin|[E|Hin]].
      * left. rewrite forallb_forall in Hip. now apply Hip.
      * right. now symmetry.
      * left. rewrite forallb_forall in Hfp. now apply Hfp.
    + intros s' z E. rewrite forallb_forall in Hfp. apply Hfp.
      destruct fp as [|f fp']; [discriminate|].
      replace ((d :: ip) ++ ch_dot :: f :: fp') with (((d :: ip) ++ [ch_dot]) ++ f :: fp') in Sp
        by (now rewrite <- app_assoc).
      rewrite E in Sp. symmetry in Sp. apply last_of_app in Sp; [exact Sp|discriminate].
Qed.

Lemma numeral_no_lt : forall n, isNumeric n = true -> includes ch_lt n = false.
Proof.
  intros n H. apply includes_false_iff. intro Hin.
  destruct (isNumeric_inv _ H) as (_ & Hc & _). destruct (Hc _ Hin) as [Hd|Hd].
  - now apply digit_not_lt in Hd.
  - discriminate.
Qed.

Lemma numeral_trim : forall n, isNumeric n = true -> trim n = n.
Proof.
  intros n H. destruct (isNumeric_inv _ H) as ((d & rest & E & Hd) & _ & Hlast).
  apply trim_nonspace.
  - intros c s' E'. rewrite E in E'. inversion E'; subst. now apply digit_not_space.
  - intros s' z E'. apply digit_not_space. now apply (Hlast s' z).
Qed.

Lemma numeral_classify : forall n, isNumeric n = true -> classify n = VNum n.
Proof.
  intros n H. destruct (isNumeric_inv _ H) as ((d & rest & E & Hd) & _ & _).
  unfold classify. rewrite H.
  assert (Js.eqb n (str "true") = false /\ Js.eqb n (str "false") = false) as [-> ->].
  { subst n. split; apply eqb_neq; intro E; inversion E; subst d; discriminate. }
  reflexivity.
Qed.

Lemma plainText_inv : forall s, plainText s = true ->
  includes ch_lt s = false /\ trim s = s /\ classify s = VStr s.
Proof.
  intros s H. unfold plainText in H.
  repeat (apply andb_true_iff in H as [H ?]).
  apply negb_true_iff in H. apply eqb_eq in H3.
  repeat match goal with X : negb _ = true |- _ => apply negb_true_iff in X end.
  split; [assumption|]. split; [assumption|].
  unfold classify. now rewrite H2, H1, H0.
Qed.

(** A scalar in scope is encoded without ['<'] and decoded to itself. *)
Lemma leaf_content : forall v,
  typeof_object v = false -> leafOk v = true ->
  includes ch_lt (String_ v) = false /\ decodeContent (String_ v) = v.
Proof.
  intros v Ht Hok. destruct v as [| |b|n|s|items|entries]; try discriminate.
  - destruct b; split; reflexivity.
  - cbn [leafOk String_] in *. split; [now apply numeral_no_lt|].
    unfold decodeContent. rewrite numeral_trim by assumption.
    rewrite numeral_no_lt by assumption. now apply numeral_classify.
  - cbn [leafOk String_] in *. destruct (plainText_inv _ Hok) as (H1 & H2 & H3).
    split; [assumption|]. unfold decodeContent. now rewrite H2, H1.
Qed.

(** ** Runs of elements *)

Ltac list_norm := repeat (rewrite <- ?app_assoc; cbn [app]); reflexivity.

Lemma renderElems_cons : forall e rest,
  renderElems (e :: rest) = openTag (fst e) ++ snd e ++ closeTag (fst e) ++ renderElems rest.
Proof. intros e rest. unfold renderElems. cbn [List.map concat]. now rewrite <- !app_assoc. Qed.

Lemma allMatches_elems : forall elems,
  Forall elemOk elems -> allMatches (renderElems elems) = elems.
Proof.
  induction elems as [|[k b] rest IH]; intros H; [reflexivity|].
  inversion H as [|? ? [Hk Hp] Hrest]; subst. rewrite renderElems_cons. cbn [fst snd] in *.
  rewrite allMatches_element by assumption. now rewrite IH.
Qed.

Lemma passes_elems : forall k0 elems,
  rawName k0 = true ->
  Forall (fun e => rawName (fst e) = true /\ fst e <> k0
                   /\ passes (closeTag k0) (snd e)) elems ->
  passes (closeTag k0) (renderElems elems).
Proof.
  intros k0 elems Hk0. induction elems as [|[k b] rest IH]; intros H.
  - apply passes_nil.
  - inversion H as [|? ? (Hk & Hne & Hp) Hrest]; subst. rewrite renderElems_cons.
    cbn [fst snd] in *.
    apply passes_app; [now apply passes_openTag|].
    apply passes_app; [assumption|].
    apply passes_app; [apply passes_closeTag; congruence|].
    now apply IH.
Qed.

Lemma renderElems_shape : forall e rest,
  exists mid, renderElems (e :: rest) = ch_lt :: mid ++ [ch_gt].
Proof.
  intros e rest. revert e. induction rest as [|e' rest IH]; intros e.
  - exists (fst e ++ [ch_gt] ++ snd e ++ [ch_lt; ch_slash] ++ fst e).
    rewrite renderElems_cons. unfold renderElems, openTag, closeTag. cbn [List.map concat app].
    rewrite app_nil_r. list_norm.
  - destruct (IH e') as [mid E]. rewrite renderElems_cons, E.
    exists (fst e ++ [ch_gt] ++ snd e ++ closeTag (fst e) ++ ch_lt :: mid).
    unfold openTag. list_norm.
Qed.

Lemma renderElems_trim : forall e rest, trim (renderElems (e :: rest)) = renderElems (e :: rest).
Proof.
  intros e rest. destruct (renderElems_shape e rest) as [mid ->].
  apply trim_ends; reflexivity.
Qed.

Lemma renderElems_includes : forall e rest, includes ch_lt (renderElems (e :: rest)) = true.
Proof. intros e rest. destruct (renderElems_shape e rest) as [mid ->]. reflexivity. Qed.

(** Decoding a run of elements: the accumulated children, unwrapped. *)
Lemma xmlToObj_elems : forall e rest,
  Forall elemOk (e :: rest) ->
  xmlToObj (renderElems (e :: rest))
  = unwrapItem (accumulateAll (List.map parseChild (e :: rest))).
Proof.
  intros e rest H. rewrite xmlToObj_unfold. rewrite renderElems_trim.
  rewrite renderElems_includes. cbn [negb]. now rewrite allMatches_elems.
Qed.

Lemma decodeContent_elems : forall e rest,
  Forall elemOk (e :: rest) ->
  decodeContent (renderElems (e :: rest))
  = unwrapItem (accumulateAll (List.map parseChild (e :: rest))).
Proof.
  intros e rest H. unfold decodeContent. rewrite renderElems_trim, renderElems_includes.
  now apply xmlToObj_elems.
Qed.

(** ** Accumulation *)

Lemma lookup_none : forall k entries, ~ In k (List.map fst entries) -> lookup k entries = None.
Proof.
  induction entries as [|[k' v] rest IH]; intros H; [reflexivity|]. cbn [lookup].
  destruct (Js.eqb k' k) eqn:E.
  - apply eqb_eq in E. subst. exfalso. apply H. now left.
  - apply IH. intro Hin. apply H. now right.
Qed.

Lemma assign_new : forall k v entries,
  ~ In k (List.map fst entries) -> assign k v entries = entries ++ [(k, v)].
Proof.
  induction entries as [|[k' old] rest IH]; intros H; [reflexivity|]. cbn [assign].
  destruct (Js.eqb k' k) eqn:E.
  - apply eqb_eq in E. subst. exfalso. apply H. now left.
  - cbn [app]. f_equal. apply IH. intro Hin. apply H. now right.
Qed.

Lemma distinct_inv : forall k rest,
  distinct (k :: rest) = true -> ~ In k rest /\ distinct rest = true.
Proof.
  intros k rest H. cbn [distinct] in H. apply andb_true_iff in H as [H1 H2].
  apply negb_true_iff in H1. now apply mem_false_iff in H1.
Qed.

Lemma accumulate_distinct : forall entries acc,
  distinct (List.map fst entries) = true ->
  (forall k, In k (List.map fst entries) -> ~ In k (List.map fst acc)) ->
  fold_left (fun result c => accumulate result (fst c) (snd c)) entries acc = acc ++ entries.
Proof.
  induction entries as [|[k v] rest IH]; intros acc Hd Hdis.
  - cbn [fold_left]. now rewrite app_nil_r.
  - cbn [List.map fst] in Hd. apply distinct_inv in Hd as [Hk Hd].
    cbn [fold_left fst snd]. unfold accumulate at 2.
    rewrite lookup_none by (apply Hdis; now left).
    rewrite assign_new by (apply Hdis; now left).
    rewrite IH; [now rewrite <- app_assoc|assumption|].
    intros k' Hin. rewrite map_app. intro Hin'. apply in_app_or in Hin' as [Hin'|Hin'].
    + apply (Hdis k'); [now right|assumption].
    + destruct Hin' as [E|[]]. cbn [fst] in E. subst k'. contradiction.
Qed.

Lemma accumulateAll_distinct : forall entries,
  distinct (List.map fst entries) = true -> accumulateAll entries = entries.
Proof.
  intros entries H. unfold accumulateAll. rewrite accumulate_distinct; auto.
Qed.

Lemma accumulate_items_more : forall more seen,
  fold_left (fun result c => accumulate result (fst c) (snd c))
    (List.map (fun item => (str "item", item)) more) [(str "item", VArr seen)]
  = [(str "item", VArr (seen ++ more))].
Proof.
  induction more as [|x more IH]; intros seen.
  - cbn [List.map fold_left]. now rewrite app_nil_r.
  - cbn [List.map fold_left fst snd]. unfold accumulate at 2.
    cbn [lookup]. rewrite eqb_refl. cbn [assign]. rewrite eqb_refl.
    rewrite IH. now rewrite <- app_assoc.
Qed.

(** The children of a run of [item] elements accumulate into one entry,
    and unwrap to the sequence of the children. *)
Lemma accumulateAll_items : forall first others,
  notArray first ->
  unwrapItem (accumulateAll (List.map (fun item => (str "item", item)) (first :: others)))
  = VArr (first :: others).
Proof.
  intros first others Hf. unfold accumulateAll. cbn [List.map fold_left fst snd].
  unfold accumulate at 2. cbn [lookup assign].
  destruct others as [|second others].
  - cbn [List.map fold_left]. unfold unwrapItem. rewrite eqb_refl.
    destruct first; try reflexivity. contradiction.
  - cbn [List.map fold_left fst snd]. unfold accumulate at 2.
    cbn [lookup]. rewrite eqb_refl.
    assert (assign (str "item")
              match first with
              | VArr items => VArr (items ++ [second])
              | _ => VArr [first; second]
              end [(str "item", first)]
            = [(str "item", VArr [first; second])]) as E.
    { cbn [assign]. rewrite eqb_refl. destruct first; try reflexivity. contradiction. }
    destruct first; try contradiction;
      (cbn [assign] in *; rewrite eqb_refl in *;
       rewrite accumulate_items_more; unfold unwrapItem; rewrite eqb_refl; reflexivity).
Qed.

(** ** Values in scope *)

Lemma survives_notNullish : forall v, survives v = true -> notNullish v = true.
Proof. intros [| |b|n|s|items|entries] H; try reflexivity; discriminate. Qed.

Lemma keyOk_rawName : forall kv, keyOk kv = true -> rawName (fst kv) = true.
Proof.
  intros [k v] H. unfold keyOk in H. cbn [fst snd] in *.
  destruct (typeof_object v); [now apply goodName_rawName|assumption].
Qed.

Lemma survives_object_inv : forall entries,
  survives (VObj entries) = true ->
  nonEmpty entries = true /\ distinct (List.map fst entries) = true
  /\ loneItem entries = false
  /\ Forall (fun kv => keyOk kv = true /\ survives (snd kv) = true
                       /\ mem (fst kv) (tagsOf (snd kv)) = false) entries.
Proof.
  intros entries H. cbn [survives] in H.
  apply andb_true_iff in H as [H Hall]. apply andb_true_iff in H as [H Hlone].
  apply andb_true_iff in H as [Hne Hdist].
  apply negb_true_iff in Hlone. repeat split; try assumption.
  apply Forall_forall. intros kv Hin. rewrite forallb_forall in Hall.
  specialize (Hall kv Hin). apply andb_true_iff in Hall as [Hall Hm].
  apply andb_true_iff in Hall as [Hk Hv].
  apply negb_true_iff in Hm. auto.
Qed.

Lemma survives_array_inv : forall items,
  survives (VArr items) = true ->
  nonEmpty items = true
  /\ Forall (fun item => notArray item /\ survives item = true
                         /\ mem (str "item") (tagsOf item) = false) items.
Proof.
  intros items H. cbn [survives] in H. apply andb_true_iff in H as [H H0].
  split; [assumption|]. apply Forall_forall. intros item Hin.
  rewrite forallb_forall in H0. specialize (H0 item Hin).
  destruct item; try discriminate;
    (apply andb_true_iff in H0 as [H1 H2]; apply negb_true_iff in H2;
     repeat split; assumption).
Qed.

(** The values of [valueOk], whose keys are all tag names, are among
    them. *)
Lemma valueOk_survives : forall v, valueOk v = true -> survives v = true.
Proof.
  induction v as [| |b|n|s|items IH|entries IH] using value_nested_ind; intros H;
    try exact H.
  - cbn [valueOk survives] in *. apply andb_true_iff in H as [Hne Hall].
    rewrite Hne. cbn [andb]. apply forallb_forall. intros item Hin.
    rewrite forallb_forall in Hall. specialize (Hall item Hin).
    rewrite Forall_forall in IH. specialize (IH item Hin).
    destruct item; try discriminate;
      (apply andb_true_iff in Hall as [H1 H2]; rewrite (IH H1); exact H2).
  - cbn [valueOk survives] in *. apply andb_true_iff in H as [H Hall].
    rewrite H. cbn [andb]. apply forallb_forall. intros kv Hin.
    rewrite forallb_forall in Hall. specialize (Hall kv Hin).
    rewrite Forall_forall in IH. specialize (IH kv Hin).
    apply andb_true_iff in Hall as [Hall Hm]. apply andb_true_iff in Hall as [Hk Hv].
    rewrite (IH Hv), Hm. unfold keyOk.
    destruct (typeof_object (snd kv)); [now rewrite Hk|].
    now rewrite (goodName_rawName _ Hk).
Qed.

Lemma filter_all : forall (A : Type) (p : A -> bool) l,
  Forall (fun x => p x = true) l -> filter p l = l.
Proof.
  intros A p l H. induction H as [|x l Hx _ IH]; [reflexivity|].
  cbn [filter]. rewrite Hx. now f_equal.
Qed.

(** The encoding of a mapping in scope, without a parent key, is the run
    of its entries. *)
Lemma objToXml_root : forall entries,
  survives (VObj entries) = true -> objToXml (VObj entries) None = innerXml (VObj entries).
Proof.
  intros entries H. destruct (survives_object_inv _ H) as (Hne & _ & _ & Hall).
  rewrite objToXml_object. cbn [keyTruthy innerXml].
  assert (Forall (fun kv => notNullish (snd kv) = true) entries) as Hnn.
  { eapply Forall_impl; [|exact Hall]. intros kv (_ & Hv & _). now apply survives_notNullish. }
  destruct entries as [|[k v] rest]; [discriminate|].
  inversion Hnn as [|? ? Hv _]; subst. cbn [forallb snd] in *. rewrite Hv. cbn [negb andb].
  cbv zeta. now rewrite filter_all.
Qed.

Lemma objToXml_keyed : forall entries k,
  survives (VObj entries) = true -> goodName k = true ->
  objToXml (VObj entries) (Some k) = openTag k ++ innerXml (VObj entries) ++ closeTag k.
Proof.
  intros entries k H Hk. destruct (survives_object_inv _ H) as (Hne & _ & _ & Hall).
  rewrite objToXml_object. cbn [innerXml].
  assert (Forall (fun kv => notNullish (snd kv) = true) entries) as Hnn.
  { eapply Forall_impl; [|exact Hall]. intros kv (_ & Hv & _). now apply survives_notNullish. }
  destruct (goodName_inv _ Hk) as (c & r & E & _ & _).
  destruct entries as [|[k' v] rest]; [discriminate|].
  inversion Hnn as [|? ? Hv _]; subst. cbn [forallb snd] in *. rewrite Hv. cbn [negb andb].
  cbv zeta. rewrite filter_all by assumption. cbn [keyTruthy keyOr].
  now apply wrapTag_good.
Qed.

(** The key of a scalar is written as it stands; the key of a mapping or
    of a sequence is a tag name, which [sanitizeTagName] keeps. *)
Lemma entryXml_ok : forall k v,
  keyOk (k, v) = true -> survives v = true ->
  entryXml (k, v) = openTag k ++ innerXml v ++ closeTag k.
Proof.
  intros k v Hk Hv. unfold entryXml, keyOk in *. cbn [fst snd] in *.
  destruct v as [| |b|n|s|items|entries]; try discriminate; try reflexivity.
  - cbn [typeof_object] in *. rewrite objToXml_array.
    destruct (goodName_inv _ Hk) as (c & r & -> & _ & _). cbn [keyOr innerXml].
    now apply wrapTag_good.
  - cbn [typeof_object] in *. now apply objToXml_keyed.
Qed.

Lemma itemXml_ok : forall item,
  notArray item -> survives item = true ->
  itemXml item = openTag (str "item") ++ innerXml item ++ closeTag (str "item").
Proof.
  intros item Hn Hv. unfold itemXml. rewrite wrapTag_good by reflexivity.
  destruct item as [| |b|n|s|items|entries]; try discriminate; try reflexivity;
    try contradiction.
  cbn [typeof_object]. now rewrite objToXml_root.
Qed.

Lemma innerXml_object : forall entries,
  Forall (fun kv => keyOk kv = true /\ survives (snd kv) = true
                    /\ mem (fst kv) (tagsOf (snd kv)) = false) entries ->
  innerXml (VObj entries)
  = renderElems (List.map (fun kv => (fst kv, innerXml (snd kv))) entries).
Proof.
  intros entries H. cbn [innerXml]. unfold renderElems. rewrite map_map. f_equal.
  induction H as [|[k v] rest (Hk & Hv & _) _ IH]; [reflexivity|].
  cbn [List.map fst snd]. rewrite IH. f_equal. now apply entryXml_ok.
Qed.

Lemma innerXml_array : forall items,
  Forall (fun item => notArray item /\ survives item = true
                      /\ mem (str "item") (tagsOf item) = false) items ->
  innerXml (VArr items)
  = renderElems (List.map (fun item => (str "item", innerXml item)) items).
Proof.
  intros items H. cbn [innerXml]. unfold renderElems. rewrite map_map. f_equal.
  induction H as [|item rest (Hn & Hv & _) _ IH]; [reflexivity|].
  cbn [List.map fst snd]. rewrite IH. f_equal. now apply itemXml_ok.
Qed.

Lemma unwrapItem_mapping : forall entries,
  loneItem entries = false -> unwrapItem entries = VObj entries.
Proof.
  intros [|[k v] [|e rest]] H; try reflexivity.
  unfold unwrapItem. cbn [loneItem] in H. now rewrite H.
Qed.

Lemma mem_tags_object : forall k entries,
  mem k (tagsOf (VObj entries)) = false ->
  Forall (fun kv => fst kv <> k /\ mem k (tagsOf (snd kv)) = false) entries.
Proof.
  intros k entries. induction entries as [|[k' v] rest IH]; intros H; constructor.
  - cbn [tagsOf List.map concat fst snd] in H. rewrite mem_app in H.
    apply orb_false_iff in H as [H _]. rewrite mem_cons in H.
    apply orb_false_iff in H as [H1 H2]. cbn [fst snd]. split; [|assumption].
    apply eqb_neq in H1. congruence.
  - apply IH. cbn [tagsOf List.map concat fst snd] in *. rewrite mem_app in H.
    now apply orb_false_iff in H as [_ H].
Qed.

Lemma mem_tags_array : forall k items,
  mem k (tagsOf (VArr items)) = false ->
  str "item" <> k /\ Forall (fun item => mem k (tagsOf item) = false) items.
Proof.
  intros k items H. cbn [tagsOf] in H. rewrite mem_cons in H.
  apply orb_false_iff in H as [H1 H2]. apply eqb_neq in H1. split; [congruence|].
  induction items as [|item rest IH]; constructor.
  - cbn [List.map concat] in H2. rewrite mem_app in H2.
    now apply orb_false_iff in H2 as [H2 _].
  - apply IH. cbn [List.map concat] in H2. rewrite mem_app in H2.
    now apply orb_false_iff in H2 as [_ H2].
Qed.

(** ** The content of a value in scope decodes to the value *)

Lemma content_roundtrip : forall v,
  survives v = true ->
  (forall k, rawName k = true -> mem k (tagsOf v) = false ->
     passes (closeTag k) (innerXml v))
  /\ decodeContent (innerXml v) = v.
Proof.
  induction v as [| |b|n|s|items IH|entries IH] using value_nested_ind; intros Hok;
    try discriminate.
  - destruct (leaf_content (VBool b) eq_refl Hok) as [Hlt Hdec]. split; [|exact Hdec].
    intros k _ _. apply passes_text. now apply includes_false_iff.
  - destruct (leaf_content (VNum n) eq_refl Hok) as [Hlt Hdec]. split; [|exact Hdec].
    intros k _ _. apply passes_text. now apply includes_false_iff.
  - destruct (leaf_content (VStr s) eq_refl Hok) as [Hlt Hdec]. split; [|exact Hdec].
    intros k _ _. apply passes_text. now apply includes_false_iff.
  - (* sequences *)
    destruct (survives_array_inv _ Hok) as (Hne & Hall).
    rewrite (innerXml_array _ Hall). split.
    + intros k Hk Hmem. destruct (mem_tags_array _ _ Hmem) as (Hitem & Htags).
      apply passes_elems; [assumption|]. rewrite Forall_map.
      rewrite Forall_forall in *. intros item Hin. cbn [fst snd].
      destruct (Hall item Hin) as (_ & Hv & _).
      split; [reflexivity|]. split; [assumption|].
      apply (proj1 (IH item Hin Hv)); [assumption|]. now apply Htags.
    + destruct items as [|first others]; [discriminate|].
      cbn [List.map]. rewrite decodeContent_elems.
      * change ((str "item", innerXml first)
                :: List.map (fun item => (str "item", innerXml item)) others)
          with (List.map (fun item => (str "item", innerXml item)) (first :: others)).
        rewrite map_map.
        rewrite (map_ext_in _ (fun item => (str "item", item))).
        -- apply accumulateAll_items. inversion Hall as [|? ? (Hn & _) _]; now subst.
        -- intros item Hin. unfold parseChild. cbn [fst snd]. f_equal.
           rewrite Forall_forall in *. destruct (Hall item Hin) as (_ & Hv & _).
           apply (proj2 (IH item Hin Hv)).
      * change ((str "item", innerXml first)
                :: List.map (fun item => (str "item", innerXml item)) others)
          with (List.map (fun item => (str "item", innerXml item)) (first :: others)).
        rewrite Forall_map. rewrite Forall_forall in *. intros item Hin.
        destruct (Hall item Hin) as (_ & Hv & Hm). split; [reflexivity|]. cbn [fst snd].
        now apply (proj1 (IH item Hin Hv)).
  - (* mappings *)
    destruct (survives_object_inv _ Hok) as (Hne & Hdist & Hlone & Hall).
    rewrite (innerXml_object _ Hall). split.
    + intros k Hk Hmem. pose proof (mem_tags_object _ _ Hmem) as Htags.
      apply passes_elems; [assumption|]. rewrite Forall_map.
      rewrite Forall_forall in *. intros kv Hin. cbn [fst snd].
      destruct (Hall kv Hin) as (Hgk & Hv & _). destruct (Htags kv Hin) as (Hne' & Hm).
      split; [now apply keyOk_rawName|]. split; [assumption|].
      now apply (proj1 (IH kv Hin Hv)).
    + destruct entries as [|e rest]; [discriminate|].
      cbn [List.map]. rewrite decodeContent_elems.
      * change ((fst e, innerXml (snd e))
                :: List.map (fun kv => (fst kv, innerXml (snd kv))) rest)
          with (List.map (fun kv => (fst kv, innerXml (snd kv))) (e :: rest)).
        rewrite map_map.
        rewrite (map_ext_in _ (fun kv => kv)).
        -- rewrite map_id. rewrite accumulateAll_distinct by assumption.
           now apply unwrapItem_mapping.
        -- intros kv Hin. unfold parseChild. cbn [fst snd].
           rewrite Forall_forall in *. destruct (Hall kv Hin) as (_ & Hv & _).
           rewrite (proj2 (IH kv Hin Hv)). now destruct kv.
      * change ((fst e, innerXml (snd e))
                :: List.map (fun kv => (fst kv, innerXml (snd kv))) rest)
          with (List.map (fun kv => (fst kv, innerXml (snd kv))) (e :: rest)).
        rewrite Forall_map. rewrite Forall_forall in *. intros kv Hin.
        destruct (Hall kv Hin) as (Hgk & Hv & Hm).
        split; [now apply (keyOk_rawName kv)|]. cbn [fst snd].
        apply (proj1 (IH kv Hin Hv)); [now apply (keyOk_rawName kv)|assumption].
Qed.



(** A key that names an inherited member puts a mapping out of scope. *)
Example inherited_key_out_of_scope :
  survives SampleValues.inheritedKey = true /\ roundTrips SampleValues.inheritedKey = false.
Proof. split; reflexivity. Qed.


End RoundTripFacts.

Import RoundTripFacts.

(* ===================================================================== *)
(** * The streaming extractor on well-nested responses *)
(* ===================================================================== *)

Module StreamFacts.
Import Stream Doc.

Lemma steps_app : forall a b st,
  steps st (a ++ b) =
  (fst (steps (fst (steps st a)) b), snd (steps st a) ++ snd (steps (fst (steps st a)) b)).
Proof.
  induction a as [|c a IH]; intros b st.
  - cbn [app steps fst snd]. now destruct (steps st b).
  - cbn [app steps]. destruct (step st c) as [st1 out1]. rewrite IH.
    destruct (steps st1 a) as [st2 out2]. cbn [fst snd].
    destruct (steps st2 b) as [st3 out3]. cbn [fst snd]. now rewrite app_assoc.
Qed.

(** The loop never reads [fullResponse]. *)
Lemma step_withFull : forall full st c,
  step (withFull full st) c = (withFull full (fst (step st c)), snd (step st c)).
Proof.
  intros full [fr stk cur buf ins] c. unfold step, withFull.
  cbn [tagStack currentTagName wordBuffer insideTag fullResponse].
  destruct (c =? ch_lt)%N; [reflexivity|].
  destruct ((c =? ch_gt)%N && ins); [reflexivity|].
  destruct ins; [reflexivity|].
  destruct (nonEmpty stk); [|reflexivity].
  destruct ((c =? ch_space)%N || (c =? ch_nl)%N); reflexivity.
Qed.

Lemma steps_withFull : forall full chars st,
  steps (withFull full st) chars
  = (withFull full (fst (steps st chars)), snd (steps st chars)).
Proof.
  intros full chars. induction chars as [|c chars IH]; intros st.
  - reflexivity.
  - cbn [steps]. rewrite step_withFull. destruct (step st c) as [st1 out1].
    cbn [fst snd]. rewrite IH. destruct (steps st1 chars) as [st2 out2]. reflexivity.
Qed.

Lemma withFull_withFull : forall a b st, withFull a (withFull b st) = withFull a st.
Proof. reflexivity. Qed.

Lemma processChunk_steps : forall st chunk,
  processChunk st chunk
  = (withFull (fullResponse st ++ chunk) (fst (steps st chunk)), snd (steps st chunk)).
Proof.
  intros st chunk. unfold processChunk.
  change (mkState (fullResponse st ++ chunk) (tagStack st) (currentTagName st)
            (wordBuffer st) (insideTag st)) with (withFull (fullResponse st ++ chunk) st).
  apply steps_withFull.
Qed.

Lemma steps_fullResponse : forall chars st,
  fullResponse (fst (steps st chars)) = fullResponse st.
Proof.
  induction chars as [|c chars IH]; intros st; [reflexivity|].
  cbn [steps]. destruct (step st c) as [st1 out1] eqn:E.
  specialize (IH st1). destruct (steps st1 chars) as [st2 out2]. cbn [fst] in *.
  rewrite IH. replace st1 with (fst (step st c)) by now rewrite E.
  clear. destruct st as [fr stk cur buf ins]. unfold step.
  cbn [tagStack currentTagName wordBuffer insideTag fullResponse].
  destruct (c =? ch_lt)%N; [reflexivity|].
  destruct ((c =? ch_gt)%N && ins); [reflexivity|].
  destruct ins; [reflexivity|].
  destruct (nonEmpty stk); [|reflexivity].
  destruct ((c =? ch_space)%N || (c =? ch_nl)%N); reflexivity.
Qed.

(** The chunking of the stream does not matter: the chunks are handled
    as their concatenation is. *)
Lemma processChunks_steps : forall chunks st,
  processChunks st chunks
  = (withFull (fullResponse st ++ concat chunks) (fst (steps st (concat chunks))),
     snd (steps st (concat chunks))).
Proof.
  induction chunks as [|chunk rest IH]; intros st.
  - cbn [processChunks concat steps fst snd]. rewrite app_nil_r. now destruct st.
  - cbn [processChunks concat]. rewrite processChunk_steps.
    rewrite IH. rewrite steps_app. cbn [fst snd].
    rewrite !steps_withFull. cbn [fst snd]. rewrite withFull_withFull.
    cbn [withFull fullResponse]. now rewrite <- app_assoc.
Qed.

Lemma concat_charByChar : forall text, concat (charByChar text) = text.
Proof.
  induction text as [|c text IH]; [reflexivity|]. unfold charByChar in *.
  cbn [List.map concat app]. now rewrite IH.
Qed.

Lemma stream_chunks : forall chunks,
  stream chunks
  = (concat chunks,
     snd (steps initial (concat chunks)) ++ flush (fst (steps initial (concat chunks)))).
Proof.
  intros chunks. unfold stream. rewrite processChunks_steps. reflexivity.
Qed.

(** ** Update values by path *)

Lemma valuesFor_app : forall f a b, valuesFor f (a ++ b) = valuesFor f a ++ valuesFor f b.
Proof.
  intros f a b. unfold valuesFor. now rewrite filter_app, map_app, concat_app.
Qed.

Lemma valuesFor_single : forall f g v,
  valuesFor f [mkUpdate g v] = if Js.eqb g f then v else [].
Proof.
  intros f g v. unfold valuesFor. cbn [filter field]. destruct (Js.eqb g f).
  - cbn [List.map concat value_]. apply app_nil_r.
  - reflexivity.
Qed.

Lemma pendingAt_nil : forall f stack, pendingAt f stack [] = [].
Proof. intros f stack. unfold pendingAt. now destruct (_ && _). Qed.

Lemma valuesFor_flushed : forall f stack pending,
  valuesFor f (flushed stack pending) = pendingAt f stack pending.
Proof.
  intros f stack pending. unfold flushed, pendingAt.
  destruct pending as [|c p]; cbn [nonEmpty andb].
  - now destruct (_ && _).
  - destruct (nonEmpty stack); cbn [andb]; [|reflexivity]. apply valuesFor_single.
Qed.

Lemma textAt_app : forall f a b, textAt f (a ++ b) = textAt f a ++ textAt f b.
Proof.
  intros f a b. unfold textAt. now rewrite filter_app, map_app, concat_app.
Qed.

Lemma textAt_single : forall f g t, textAt f [(g, t)] = if Js.eqb g f then t else [].
Proof.
  intros f g t. unfold textAt. cbn [filter fst]. destruct (Js.eqb g f).
  - cbn [List.map concat snd]. apply app_nil_r.
  - reflexivity.
Qed.

(** ** Text between tags *)

Lemma step_text_char : forall c full stack pending,
  c <> ch_lt ->
  exists pending' ups,
    step (between full stack pending) c = (between full stack pending', ups)
    /\ forall f, valuesFor f ups ++ pendingAt f stack pending'
                 = pendingAt f stack pending ++ pendingAt f stack [c].
Proof.
  intros c full stack pending Hc. unfold step, between.
  cbn [tagStack currentTagName wordBuffer insideTag fullResponse].
  apply N.eqb_neq in Hc. rewrite Hc. rewrite andb_false_r.
  destruct (nonEmpty stack) eqn:Es.
  - destruct ((c =? ch_space)%N || (c =? ch_nl)%N).
    + eexists. eexists. split; [reflexivity|]. intros f.
      rewrite valuesFor_app, valuesFor_single, pendingAt_nil, app_nil_r.
      unfold pendingAt. rewrite Es. cbn [andb].
      destruct pending as [|p0 p]; cbn [nonEmpty].
      * unfold valuesFor. cbn [filter List.map concat app]. now destruct (Js.eqb _ f).
      * rewrite valuesFor_single. now destruct (Js.eqb _ f).
    + eexists. eexists. split; [reflexivity|]. intros f.
      unfold valuesFor, pendingAt. rewrite Es. cbn [filter List.map concat app andb].
      now destruct (Js.eqb _ f).
  - exists pending, []. split; [reflexivity|]. intros f.
    unfold valuesFor, pendingAt. rewrite Es. reflexivity.
Qed.

Lemma pendingAt_app : forall f stack a b,
  pendingAt f stack (a ++ b) = pendingAt f stack a ++ pendingAt f stack b.
Proof. intros f stack a b. unfold pendingAt. now destruct (_ && _). Qed.

Lemma steps_text : forall t full stack pending,
  ~ In ch_lt t ->
  exists pending' ups,
    steps (between full stack pending) t = (between full stack pending', ups)
    /\ forall f, valuesFor f ups ++ pendingAt f stack pending'
                 = pendingAt f stack pending ++ pendingAt f stack t.
Proof.
  induction t as [|c t IH]; intros full stack pending Hlt.
  - exists pending, []. split; [reflexivity|]. intros f.
    now rewrite pendingAt_nil, app_nil_r.
  - destruct (step_text_char c full stack pending) as (p1 & u1 & E1 & V1).
    { intro E. apply Hlt. now left. }
    destruct (IH full stack p1) as (p2 & u2 & E2 & V2).
    { intro Hin. apply Hlt. now right. }
    exists p2, (u1 ++ u2). split.
    + cbn [steps]. rewrite E1, E2. reflexivity.
    + intros f. rewrite valuesFor_app, <- app_assoc, V2, app_assoc, V1.
      change (c :: t) with ([c] ++ t). now rewrite pendingAt_app, app_assoc.
Qed.

(** ** Tags *)

Lemma steps_name : forall chars full stack cur buf,
  (forall c, In c chars -> c <> ch_lt /\ c <> ch_gt) ->
  steps (mkState full stack cur buf true) chars
  = (mkState full stack (cur ++ chars) buf true, []).
Proof.
  induction chars as [|c chars IH]; intros full stack cur buf H.
  - cbn [steps]. now rewrite app_nil_r.
  - cbn [steps]. destruct (H c (or_introl eq_refl)) as [H1 H2].
    apply N.eqb_neq in H1, H2. unfold step at 1.
    cbn [tagStack currentTagName wordBuffer insideTag fullResponse].
    rewrite H1, H2. cbn [andb]. rewrite IH by (intros; apply H; now right).
    cbn [app]. now rewrite <- app_assoc.
Qed.

Lemma word_not_space : forall c, is_word c = true -> is_space c = false.
Proof.
  intros c H. destruct (is_space c) eqn:E; [|reflexivity]. exfalso. char_facts. lia.
Qed.

Lemma goodName_trim : forall k, goodName k = true -> trim k = k.
Proof.
  intros k H. destruct (goodName_inv _ H) as (c & r & E & Ha & Hw).
  rewrite forallb_forall in Hw. apply trim_nonspace.
  - intros c' s' E'. apply word_not_space, Hw. rewrite E'. now left.
  - intros s' z E'. apply word_not_space, Hw. rewrite E'. apply in_or_app. right. now left.
Qed.

Lemma goodName_chars : forall k, goodName k = true ->
  forall c, In c k -> c <> ch_lt /\ c <> ch_gt.
Proof.
  intros k H c Hin. destruct (goodName_inv _ H) as (c0 & r & E & Ha & Hw).
  rewrite forallb_forall in Hw. specialize (Hw c Hin).
  split; [now apply word_not_lt|now apply word_not_gt].
Qed.

Lemma steps_lt : forall full stack pending,
  steps (between full stack pending) [ch_lt]
  = (mkState full stack [] [] true, flushed stack pending).
Proof.
  intros full stack pending. cbn [steps]. unfold step, between, flushed.
  cbn [tagStack currentTagName wordBuffer insideTag fullResponse].
  rewrite N.eqb_refl. now rewrite app_nil_r.
Qed.

Lemma steps_gt : forall full stack cur buf,
  steps (mkState full stack cur buf true) [ch_gt]
  = (mkState full
       (if startsWith [ch_slash] cur then removelast stack
        else if nonEmpty (trim cur) then stack ++ [trim cur] else stack)
       [] [] false, []).
Proof.
  intros full stack cur buf. cbn [steps]. unfold step.
  cbn [tagStack currentTagName wordBuffer insideTag fullResponse].
  change (ch_gt =? ch_lt)%N with false. rewrite N.eqb_refl. reflexivity.
Qed.

(** An opening tag flushes the pending word and pushes its name. *)
Lemma steps_openTag : forall k full stack pending,
  goodName k = true ->
  steps (between full stack pending) (openTag k)
  = (between full (stack ++ [k]) [], flushed stack pending).
Proof.
  intros k full stack pending Hk. unfold openTag.
  rewrite steps_app, steps_lt. cbn [fst snd].
  rewrite steps_app, steps_name by now apply goodName_chars. cbn [fst snd app].
  rewrite steps_gt. cbn [fst snd].
  destruct (goodName_inv _ Hk) as (c & r & E & Ha & Hw).
  assert (startsWith [ch_slash] k = false) as Hs.
  { rewrite E. cbn [startsWith]. apply alpha_not_slash in Ha. apply N.eqb_neq in Ha.
    rewrite (N.eqb_sym ch_slash c), Ha. reflexivity. }
  rewrite Hs. rewrite goodName_trim by assumption. rewrite E at 1. cbn [nonEmpty].
  unfold between. now rewrite app_nil_r.
Qed.

(** A closing tag flushes the pending word and pops the stack. *)
Lemma steps_closeTag : forall k full stack pending,
  goodName k = true ->
  steps (between full stack pending) (closeTag k)
  = (between full (removelast stack) [], flushed stack pending).
Proof.
  intros k full stack pending Hk. unfold closeTag.
  change ([ch_lt; ch_slash] ++ k ++ [ch_gt]) with ([ch_lt] ++ (ch_slash :: k) ++ [ch_gt]).
  rewrite steps_app, steps_lt. cbn [fst snd].
  rewrite steps_app, steps_name.
  - cbn [fst snd app]. rewrite steps_gt. cbn [fst snd startsWith].
    rewrite N.eqb_refl. cbn [andb]. unfold between. now rewrite app_nil_r.
  - intros c [E|Hin]; [subst c; split; discriminate|]. now apply (goodName_chars k).
Qed.

(** ** Elements *)

Lemma node_nested_ind (P : node -> Prop) :
  (forall t, P (Text t)) ->
  (forall name children, Forall P children -> P (Elem name children)) ->
  forall n, P n.
Proof.
  intros HT HE. fix IH 1. intros [t|name children].
  - apply HT.
  - apply HE. induction children as [|c rest IHl]; constructor; [apply IH|exact IHl].
Qed.

Lemma streamsAs_nil : forall stack, streamsAs stack [] [].
Proof.
  intros stack full pending. exists pending, []. split; [reflexivity|].
  intros f. unfold textAt. cbn. now rewrite app_nil_r.
Qed.

Lemma streamsAs_app : forall stack p1 p2 f1 f2,
  streamsAs stack p1 f1 -> streamsAs stack p2 f2 -> streamsAs stack (p1 ++ p2) (f1 ++ f2).
Proof.
  intros stack p1 p2 f1 f2 H1 H2 full pending.
  destruct (H1 full pending) as (b1 & u1 & E1 & V1).
  destruct (H2 full b1) as (b2 & u2 & E2 & V2).
  exists b2, (u1 ++ u2). split.
  - rewrite steps_app, E1. cbn [fst snd]. now rewrite E2.
  - intros f. rewrite valuesFor_app, <- app_assoc, V2, app_assoc, V1.
    now rewrite textAt_app, app_assoc.
Qed.

Lemma streamsAs_text : forall stack t,
  ~ In ch_lt t -> streamsAs stack t (fragments stack (Text t)).
Proof.
  intros stack t Hlt full pending.
  destruct (steps_text t full stack pending Hlt) as (b' & ups & E & V).
  exists b', ups. split; [exact E|]. intros f. rewrite V. f_equal.
  cbn [fragments]. unfold pendingAt. destruct (nonEmpty stack); cbn [andb].
  - now rewrite textAt_single.
  - reflexivity.
Qed.

Lemma removelast_snoc : forall (stack : list jsstring) k, removelast (stack ++ [k]) = stack.
Proof. intros stack k. now rewrite removelast_last. Qed.

Lemma streamsAs_elem : forall stack k inner frags,
  goodName k = true ->
  streamsAs (stack ++ [k]) inner frags ->
  streamsAs stack (openTag k ++ inner ++ closeTag k) frags.
Proof.
  intros stack k inner frags Hk Hin full pending.
  destruct (Hin full []) as (b1 & u1 & E1 & V1).
  exists [], (flushed stack pending ++ u1 ++ flushed (stack ++ [k]) b1). split.
  - rewrite steps_app, steps_openTag by assumption. cbn [fst snd].
    rewrite steps_app, E1. cbn [fst snd].
    rewrite steps_closeTag by assumption. now rewrite removelast_snoc.
  - intros f. rewrite !valuesFor_app, !valuesFor_flushed, pendingAt_nil, app_nil_r.
    rewrite V1. now rewrite pendingAt_nil.
Qed.

Lemma node_streamsAs : forall n,
  wfNode n = true -> forall stack, streamsAs stack (render n) (fragments stack n).
Proof.
  induction n as [t|name children IH] using node_nested_ind; intros Hwf stack.
  - apply streamsAs_text. cbn [wfNode] in Hwf. apply negb_true_iff in Hwf.
    now apply includes_false_iff.
  - cbn [wfNode] in Hwf. apply andb_true_iff in Hwf as [Hk Hcs].
    cbn [render fragments]. apply streamsAs_elem; [assumption|].
    induction IH as [|c rest Hc _ IHrest]; [apply streamsAs_nil|].
    cbn [forallb] in Hcs. apply andb_true_iff in Hcs as [Hc0 Hrest].
    cbn [List.map concat]. apply streamsAs_app; [now apply Hc|now apply IHrest].
Qed.

Lemma doc_streamsAs : forall doc,
  forallb wfNode doc = true -> streamsAs [] (renderDoc doc) (fragmentsOf doc).
Proof.
  induction doc as [|n rest IH]; intros H; [apply streamsAs_nil|].
  cbn [forallb] in H. apply andb_true_iff in H as [Hn Hrest].
  unfold renderDoc, fragmentsOf. cbn [List.map concat].
  apply streamsAs_app; [now apply node_streamsAs|now apply IH].
Qed.

Lemma streamed_doc : forall doc path,
  forallb wfNode doc = true ->
  streamed path (renderDoc doc) = textAt path (fragmentsOf doc).
Proof.
  intros doc path H. unfold streamed. rewrite stream_chunks, concat_charByChar.
  cbn [snd]. destruct (doc_streamsAs doc H [] []) as (b' & ups & E & V).
  change (between [] [] []) with initial in E. rewrite E. cbn [fst snd].
  unfold flush, between. cbn [tagStack wordBuffer nonEmpty]. rewrite andb_false_r.
  rewrite app_nil_r. specialize (V path). unfold pendingAt in V. cbn [nonEmpty andb] in V.
  now rewrite app_nil_r in V.
Qed.

(** ** Records of leaf fields *)

Lemma passes_open_openTag : forall k n,
  goodName k = true -> goodName n = true -> k <> n -> passes (openTag k) (openTag n).
Proof.
  intros k n Hk Hn Hne.
  destruct (goodName_inv _ Hk) as (ck & rk & Ek & _ & Hwk).
  destruct (goodName_inv _ Hn) as (cn & rn & En & _ & Hwn).
  unfold openTag at 2. cbn [app]. apply passes_cons.
  - intros s. unfold openTag. cbn [app startsWith]. rewrite N.eqb_refl. cbn [andb].
    rewrite <- app_assoc.
    apply startsWith_name_differs; [now apply word_no_gt|now apply word_no_gt|assumption].
  - unfold openTag. apply passes_text. intro Hin. apply in_app_or in Hin as [Hin|Hin].
    + now apply (word_no_lt _ Hwn).
    + destruct Hin as [E|[]]. discriminate.
Qed.

Lemma passes_open_closeTag : forall k n,
  goodName k = true -> goodName n = true -> passes (openTag k) (closeTag n).
Proof.
  intros k n Hk Hn.
  destruct (goodName_inv _ Hk) as (ck & rk & Ek & Hak & Hwk).
  destruct (goodName_inv _ Hn) as (cn & rn & En & _ & Hwn).
  unfold closeTag. cbn [app]. apply passes_cons.
  - intros s. unfold openTag. rewrite Ek. cbn [app startsWith]. apply alpha_not_slash in Hak.
    apply N.eqb_neq in Hak. rewrite Hak. now rewrite andb_false_r.
  - unfold openTag. apply passes_text. intro Hin. destruct Hin as [E|Hin]; [discriminate|].
    apply in_app_or in Hin as [Hin|Hin].
    + now apply (word_no_lt _ Hwn).
    + destruct Hin as [E|[]]. discriminate.
Qed.

Lemma matchField_here : forall k t rest,
  includes ch_lt t = false ->
  Agent.matchField k (openTag k ++ t ++ closeTag k ++ rest) = Some t.
Proof.
  intros k t rest Ht. unfold Agent.matchField.
  rewrite splitAt_here by apply startsWith_app. rewrite skipn_length_app.
  assert (passes (closeTag k) t) as Hp.
  { unfold closeTag. apply passes_text. now apply includes_false_iff. }
  rewrite Hp. rewrite splitAt_here by apply startsWith_app. now rewrite app_nil_r.
Qed.

Lemma matchField_skip : forall k piece rest,
  passes (openTag k) piece ->
  Agent.matchField k (piece ++ rest) = Agent.matchField k rest.
Proof.
  intros k piece rest Hp. unfold Agent.matchField. rewrite Hp.
  destruct (splitAt (openTag k) rest) as [[b a]|]; reflexivity.
Qed.

Lemma distinct_in_head : forall (k : jsstring) (t t' : jsstring) rest,
  distinct (k :: List.map fst rest) = true -> In (k, t) rest -> False.
Proof.
  intros k t t' rest Hd Hin. apply distinct_inv in Hd as [Hk _]. apply Hk.
  change k with (fst (k, t)). now apply in_map.
Qed.

Lemma matchField_flat : forall fields k t,
  Forall fieldOk fields -> distinct (List.map fst fields) = true -> In (k, t) fields ->
  Agent.matchField k (renderElems fields) = Some t.
Proof.
  induction fields as [|[k' t'] rest IH]; intros k t Hok Hd Hin; [contradiction|].
  inversion Hok as [|? ? [Hk' Ht'] Hrest]; subst. cbn [fst snd] in *.
  rewrite renderElems_cons. cbn [fst snd].
  destruct Hin as [E|Hin].
  - inversion E; subst. now apply matchField_here.
  - assert (k' <> k) as Hne.
    { intro E. subst k'. cbn [List.map] in Hd. exact (distinct_in_head k t t' rest Hd Hin). }
    assert (goodName k = true) as Hk.
    { rewrite Forall_forall in Hrest. now destruct (Hrest (k, t) Hin). }
    rewrite !app_assoc. rewrite matchField_skip.
    + apply IH; [assumption| |assumption]. cbn [List.map] in Hd.
      now apply distinct_inv in Hd as [_ Hd].
    + rewrite <- app_assoc. apply passes_app; [apply passes_open_openTag; congruence|].
      apply passes_app; [|now apply passes_open_closeTag].
      unfold openTag. apply passes_text. now apply includes_false_iff.
Qed.

Lemma renderDoc_flat : forall fields, renderDoc (flatRecord fields) = renderElems fields.
Proof.
  intros fields. unfold renderDoc, flatRecord, renderElems. rewrite map_map. f_equal.
  apply map_ext. intros [k t]. cbn [render List.map concat fst snd]. now rewrite app_nil_r.
Qed.

Lemma fragmentsOf_flat : forall fields, fragmentsOf (flatRecord fields) = fields.
Proof.
  intros fields. unfold fragmentsOf, flatRecord. rewrite map_map.
  rewrite (map_ext _ (fun kv => [kv])).
  - induction fields as [|kv rest IH]; [reflexivity|]. cbn [List.map concat app].
    now rewrite IH.
  - intros [k t]. reflexivity.
Qed.

Lemma filter_distinct : forall (fields : list (jsstring * jsstring)) k t,
  distinct (List.map fst fields) = true -> In (k, t) fields ->
  filter (fun p => Js.eqb (fst p) k) fields = [(k, t)].
Proof.
  induction fields as [|[k' t'] rest IH]; intros k t Hd Hin; [contradiction|].
  cbn [List.map] in Hd. change (fst (k', t')) with k' in Hd.
  pose proof Hd as Hd0. apply distinct_inv in Hd as [Hk' Hd].
  cbn [filter]. change (fst (k', t')) with k'. destruct Hin as [E|Hin].
  - inversion E; subst. rewrite eqb_refl. f_equal.
    clear -Hk'. induction rest as [|[k2 t2] rest IH]; [reflexivity|].
    cbn [filter]. change (fst (k2, t2)) with k2. destruct (Js.eqb k2 k) eqn:E.
    + apply eqb_eq in E. subst. exfalso. apply Hk'. now left.
    + apply IH. intro H. apply Hk'. now right.
  - destruct (Js.eqb k' k) eqn:E.
    + apply eqb_eq in E. subst k'. exfalso. exact (distinct_in_head k t t' rest Hd0 Hin).
    + now apply IH.
Qed.

Lemma wfNode_flat : forall fields,
  forallb wfNode (flatRecord fields) = true -> Forall fieldOk fields.
Proof.
  induction fields as [|[k t] rest IH]; intros H; constructor;
    unfold flatRecord in H; cbn [List.map forallb wfNode fst snd] in H;
    apply andb_true_iff in H as [H1 Hrest].
  - apply andb_true_iff in H1 as [Hk Ht]. apply andb_true_iff in Ht as [Ht _].
    apply negb_true_iff in Ht. split; assumption.
  - now apply IH.
Qed.

(** C3, as amended.  For a response that is a well-nested run of
    elements, with tag names of letters, digits and ['_'], no attributes
    and no ['<'] in its text: the stream returns the response whole,
    however it is cut into chunks; the values emitted for a path,
    concatenated in emission order, are the raw text fragments that lie
    directly inside the elements of that path, concatenated in document
    order, so they are the raw inner text of a leaf when one fragment lies
    at its path; and in a record of leaf fields with distinct names, they
    are for each field the text that extracting the field's tag pair from
    the response yields. *)
Theorem streaming_reproduces_text : forall doc path,
  forallb wfNode doc = true ->
  fst (stream (charByChar (renderDoc doc))) = renderDoc doc
  /\ (forall chunks, concat chunks = renderDoc doc ->
        stream chunks = stream (charByChar (renderDoc doc)))
  /\ streamed path (renderDoc doc) = textAt path (fragmentsOf doc)
  /\ (forall t, filter (fun p => Js.eqb (fst p) path) (fragmentsOf doc) = [(path, t)] ->
        streamed path (renderDoc doc) = t)
  /\ (forall fields t,
        doc = flatRecord fields -> distinct (List.map fst fields) = true ->
        In (path, t) fields ->
        streamed path (renderDoc doc) = t
        /\ Agent.matchField path (renderDoc doc) = Some t).
Proof.
  intros doc path Hwf. split; [|split; [|split; [|split]]].
  - now rewrite stream_chunks, concat_charByChar.
  - intros chunks E. now rewrite !stream_chunks, concat_charByChar, E.
  - now apply streamed_doc.
  - intros t Ht. rewrite streamed_doc by assumption. unfold textAt. rewrite Ht.
    cbn [List.map concat snd]. apply app_nil_r.
  - intros fields t -> Hd Hin. split.
    + rewrite streamed_doc by assumption. rewrite fragmentsOf_flat. unfold textAt.
      rewrite (filter_distinct fields path t Hd Hin). cbn [List.map concat snd].
      apply app_nil_r.
    + rewrite renderDoc_flat. apply matchField_flat; [now apply wfNode_flat|assumption..].
Qed.

Lemma streaming_reproduces_text_witness :
  streamed (str "analysis_step1") (renderDoc SampleResponses.analysisDoc) = str "sun and wind"
  /\ streamed (str "answer") (renderDoc (flatRecord SampleResponses.answerFields))
     = str "cheap, clean power"
  /\ Agent.matchField (str "answer") (renderDoc (flatRecord SampleResponses.answerFields))
     = Some (str "cheap, clean power").
Proof.
  split.
  - destruct (streaming_reproduces_text SampleResponses.analysisDoc (str "analysis_step1") eq_refl)
      as (_ & _ & _ & H & _).
    apply H. reflexivity.
  - destruct (streaming_reproduces_text (flatRecord SampleResponses.answerFields) (str "answer")
                eq_refl) as (_ & _ & _ & _ & H).
    apply (H SampleResponses.answerFields); [reflexivity|reflexivity|].
    left. reflexivity.
Defined.

(** C3 as stated fails.  The text of the leaf [a] holds a ['<']: the
    extractor takes it for the start of a tag and drops what follows,
    while extracting the tag pair yields the whole inner text.  The text
    of the field [answer] holds markup: the extractor emits the marked-up
    words under another path. *)
Lemma streaming_counterexample :
  Agent.matchField (str "a") SampleResponses.strayResponse = Some (str "1 < 2")
  /\ streamed (str "a") SampleResponses.strayResponse = str "1 "
  /\ streamed (str "a") SampleResponses.strayResponse <> str "1 < 2"
  /\ Agent.matchField (str "answer") SampleResponses.markupResponse
     = Some (str "Use <b>bold</b> text")
  /\ streamed (str "answer") SampleResponses.markupResponse = str "Use  text".
Proof. vm_compute. repeat split; try reflexivity. discriminate. Qed.

End StreamFacts.

Module RootArrayFacts.

(** C2, as amended.  A root-level sequence in scope, [1,2,3] for one, is
    encoded inside an [array] tag, and its encoding decodes to the
    one-key mapping from [array] to the sequence; the bare sequence is
    what the run of [item] elements inside that tag decodes to. *)
Theorem root_array_decodes_under_array_key : forall items,
  valueOk (VArr items) = true ->
  mem (str "array") (tagsOf (VArr items)) = false ->
  objToXml (VArr items) None
  = openTag (str "array") ++ innerXml (VArr items) ++ closeTag (str "array")
  /\ xmlToObj (objToXml (VArr items) None) = VObj [(str "array", VArr items)]
  /\ xmlToObj (innerXml (VArr items)) = VArr items.
Proof.
  intros items Hok Hmem. apply valueOk_survives in Hok.
  destruct (content_roundtrip (VArr items) Hok) as [Hpass Hdec].
  assert (objToXml (VArr items) None
          = openTag (str "array") ++ innerXml (VArr items) ++ closeTag (str "array")) as E.
  { rewrite objToXml_array. cbn [keyOr innerXml]. now apply wrapTag_good. }
  split; [exact E|]. split.
  - rewrite E.
    replace (openTag (str "array") ++ innerXml (VArr items) ++ closeTag (str "array"))
      with (renderElems [(str "array", innerXml (VArr items))])
      by (rewrite renderElems_cons; unfold renderElems; cbn [List.map concat fst snd];
          now rewrite app_nil_r).
    rewrite xmlToObj_elems.
    + cbn [List.map]. unfold parseChild. cbn [fst snd]. rewrite Hdec. reflexivity.
    + constructor; [|constructor]. split; [reflexivity|]. cbn [fst snd].
      now apply Hpass.
  - destruct (survives_array_inv _ Hok) as (Hne & Hall).
    rewrite (innerXml_array _ Hall) in *.
    destruct items as [|first others]; [discriminate|].
    cbn [List.map] in *. unfold decodeContent in Hdec.
    now rewrite renderElems_trim, renderElems_includes in Hdec.
Qed.

Lemma root_array_decodes_under_array_key_witness :
  xmlToObj (objToXml (VArr [one; two; three]) None)
  = VObj [(str "array", VArr [one; two; three])]
  /\ xmlToObj (str "<item>1</item><item>2</item><item>3</item>") = VArr [one; two; three].
Proof.
  destruct (root_array_decodes_under_array_key [one; two; three] eq_refl eq_refl)
    as (_ & H2 & H3).
  split; [exact H2|exact H3].
Defined.

(** C2 as stated fails: the decoded encoding of [1,2,3] is a mapping. *)
Lemma root_array_counterexample :
  objToXml (VArr [one; two; three]) None
  = str "<array><item>1</item><item>2</item><item>3</item></array>"
  /\ xmlToObj (objToXml (VArr [one; two; three]) None) <> VArr [one; two; three].
Proof. vm_compute. split; [reflexivity|discriminate]. Qed.

End RootArrayFacts.

(* ===================================================================== *)
(** * The decoder and the call stack *)
(* ===================================================================== *)

Module StackFacts.

(** The accumulation loop gets through exactly when every recursive call
    it makes does. *)
Lemma fold_parseStep_returns : forall fuel ms acc,
  fold_left (parseStep fuel) ms (Some acc) <> None <->
  Forall (fun m => includes ch_lt (trim (snd m)) = true ->
                   parseElement fuel (snd m) <> None) ms.
Proof.
  induction ms as [|[name content] ms IH]; intros acc.
  - split; [constructor|discriminate].
  - cbn [fold_left]. unfold parseStep at 2. cbn [fst snd].
    destruct (includes ch_lt (trim content)) eqn:E.
    + destruct (parseElement fuel content) as [c|] eqn:Ec.
      * rewrite IH. split.
        -- intro H. constructor; [cbn [snd]; intros _; rewrite Ec; discriminate|exact H].
        -- intro H. now inversion H.
      * rewrite fold_parseStep_none. split; [congruence|].
        intro H. inversion H as [|? ? Hm _]; subst. cbn [snd] in Hm.
        exfalso. now apply (Hm E).
    + rewrite IH. split.
      * intro H. constructor; [cbn [snd]; congruence|exact H].
      * intro H. now inversion H.
Qed.

(** [parseElement] returns exactly when it is given room for the nesting
    of the text. *)
Lemma parseElement_nesting : forall fuel content,
  length content < fuel ->
  forall room, parseElement room content <> None <-> nestingFuel fuel content <= room.
Proof.
  induction fuel as [|fuel IH]; intros content Hlen room; [lia|].
  destruct room as [|room].
  - cbn [parseElement nestingFuel]. cbv zeta.
    split; [congruence|]. intro H. exfalso.
    destruct (negb (includes ch_lt (trim content))); inversion H.
  - rewrite parseElement_unfold. cbn [nestingFuel]. cbv zeta.
    destruct (negb (includes ch_lt (trim content))); [split; [lia|discriminate]|].
    destruct (allMatches (trim content)) as [|m ms] eqn:E.
    { cbn [List.map list_max fold_right]. split; [lia|discriminate]. }
    rewrite <- E.
    assert (fold_left (parseStep room) (allMatches (trim content)) (Some []) <> None
            <-> list_max (List.map (fun m => if includes ch_lt (trim (snd m))
                                             then nestingFuel fuel (snd m) else 0)
                                   (allMatches (trim content))) <= room) as Key.
    { rewrite fold_parseStep_returns, list_max_le, Forall_map.
      rewrite !Forall_forall. split; intros H [name c] Hin; specialize (H _ Hin);
        cbn [snd] in *.
      - destruct (includes ch_lt (trim c)); [|lia].
        apply IH; [|now apply H].
        apply (@allMatches_content_length (length (trim content))) in Hin; [|lia].
        pose proof (trim_length content). lia.
      - intros Hc. rewrite Hc in H. apply IH in H; [exact H|].
        apply (@allMatches_content_length (length (trim content))) in Hin; [|lia].
        pose proof (trim_length content). lia. }
    rewrite E in *.
    destruct (fold_left (parseStep room) (m :: ms) (Some [])) as [result|].
    + split; [intros _|discriminate].
      apply le_n_S. apply Key. discriminate.
    + split; [congruence|]. intro H. apply le_S_n in H. apply Key in H. congruence.
Qed.

Lemma nesting_bounds : forall s, 1 <= nesting s <= S (length s).
Proof.
  intros s. split.
  - unfold nesting. cbn [nestingFuel]. cbv zeta.
    destruct (negb (includes ch_lt (trim s))); lia.
  - apply (parseElement_nesting (S (length s)) s); [lia|].
    rewrite xmlToObj_parseElement by lia. discriminate.
Qed.

Lemma xmlToObjWithin_room : forall stack s,
  nesting s <= stack -> xmlToObjWithin stack s = inr (xmlToObj s).
Proof.
  intros stack s H. unfold xmlToObjWithin.
  apply (parseElement_nesting (S (length s)) s) in H; [|lia].
  destruct (parseElement stack s) as [v|] eqn:E; [|congruence].
  pose proof (@parseElement_mono stack s v E (Nat.max stack (S (length s)))
                (Nat.le_max_l _ _)) as H1.
  rewrite xmlToObj_parseElement in H1 by lia. congruence.
Qed.

Lemma xmlToObjWithin_overflow : forall stack s,
  stack < nesting s -> xmlToObjWithin stack s = inl RangeError.
Proof.
  intros stack s H. unfold xmlToObjWithin.
  destruct (parseElement stack s) as [v|] eqn:E; [|reflexivity].
  assert (parseElement stack s <> None) as Hn by congruence.
  apply (parseElement_nesting (S (length s)) s) in Hn; [|lia].
  unfold nesting in H. lia.
Qed.

(** ** Texts nested to any depth *)

Lemma levelName_raw : forall n, rawName (levelName n) = true.
Proof.
  intros n. unfold rawName, levelName. cbn [str app nonEmpty andb].
  change (forallb nameChar (str "t" ++ repeat 120%N n) = true).
  rewrite forallb_app. change (forallb nameChar (str "t")) with true.
  cbn [andb]. induction n as [|n IH]; [reflexivity|]. cbn [repeat forallb].
  now rewrite IH.
Qed.

Lemma levelName_differs : forall m n, m <> n -> levelName m <> levelName n.
Proof.
  intros m n Hne E. apply (f_equal (@length char)) in E.
  unfold levelName in E. rewrite !length_app, !repeat_length in E. lia.
Qed.

Lemma deep_unfold : forall n,
  deep (S n) = openTag (levelName n) ++ deep n ++ closeTag (levelName n).
Proof. reflexivity. Qed.

Lemma passes_deep : forall n m, n <= m -> passes (closeTag (levelName m)) (deep n).
Proof.
  induction n as [|n IH]; intros m Hle.
  - apply passes_text. vm_compute. intros [E|[]]. discriminate E.
  - rewrite deep_unfold.
    apply passes_app; [apply passes_openTag, levelName_raw|].
    apply passes_app; [apply IH; lia|].
    apply passes_closeTag; try apply levelName_raw. apply levelName_differs. lia.
Qed.

Lemma deep_shape : forall n, exists mid, deep (S n) = ch_lt :: mid ++ [ch_gt].
Proof.
  intros n. rewrite deep_unfold. unfold openTag, closeTag.
  exists (levelName n ++ [ch_gt] ++ deep n ++ [ch_lt; ch_slash] ++ levelName n).
  repeat (rewrite <- ?app_assoc; cbn [app]). reflexivity.
Qed.

Lemma deep_trim : forall n, trim (deep (S n)) = deep (S n)
                            /\ includes ch_lt (deep (S n)) = true.
Proof.
  intros n. destruct (deep_shape n) as [mid ->]. split; [|reflexivity].
  apply trim_ends; reflexivity.
Qed.

Lemma deep_matches : forall n, allMatches (deep (S n)) = [(levelName n, deep n)].
Proof.
  intros n. rewrite deep_unfold.
  replace (openTag (levelName n) ++ deep n ++ closeTag (levelName n))
    with (openTag (levelName n) ++ deep n ++ closeTag (levelName n) ++ [])
    by now rewrite app_nil_r.
  rewrite allMatches_element; [reflexivity|apply levelName_raw|].
  apply passes_deep. lia.
Qed.

(** A text nested one level deeper than the stack has room for. *)
Lemma deep_overflows : forall stack, parseElement stack (deep (S stack)) = None.
Proof.
  induction stack as [|stack IH]; [reflexivity|].
  rewrite parseElement_unfold. destruct (deep_trim (S stack)) as [-> ->].
  cbn [negb]. rewrite deep_matches. cbn [fold_left]. unfold parseStep.
  destruct (deep_trim stack) as [-> ->]. now rewrite IH.
Qed.

(** C8, as amended.  The decoder returns on every text whose nesting the
    call stack has room for, at most one call more than the text has
    characters, and what it returns does not depend on the room above
    that; on a text nested deeper it throws the RangeError of the
    engine, and there is such a text for every stack.  A text whose
    trimmed form has no ['<'] is returned trimmed, as a string, the empty
    string for a blank text; a text in which no tag pair matches is
    returned trimmed, as a string. *)
Theorem xmlToObj_returns_within_stack : forall stack s,
  (nesting s <= stack -> xmlToObjWithin stack s = inr (xmlToObj s)) /\
  (stack < nesting s -> xmlToObjWithin stack s = inl RangeError) /\
  1 <= nesting s <= S (length s) /\
  xmlToObjWithin stack (deep (S stack)) = inl RangeError /\
  (0 < stack -> includes ch_lt (trim s) = false ->
     xmlToObjWithin stack s = inr (VStr (trim s))) /\
  (0 < stack -> trim s = [] -> xmlToObjWithin stack s = inr (VStr [])) /\
  (0 < stack -> allMatches (trim s) = [] ->
     xmlToObjWithin stack s = inr (VStr (trim s))).
Proof.
  intros stack s. split; [apply xmlToObjWithin_room|].
  split; [apply xmlToObjWithin_overflow|]. split; [apply nesting_bounds|].
  split; [unfold xmlToObjWithin; now rewrite deep_overflows|].
  assert (forall room, 0 < room -> exists room', room = S room') as Pos
    by (intros [|r] H; [lia|eauto]).
  split; [|split]; intros Hs H; destruct (Pos _ Hs) as [room ->];
    unfold xmlToObjWithin; rewrite parseElement_unfold, H; try reflexivity.
  now destruct (negb (includes ch_lt (trim s))).
Qed.

Lemma xmlToObj_returns_within_stack_witness :
  xmlToObjWithin 3 (str "<a><b><c>x</c></b></a>")
  = inr (VObj [(str "a", VObj [(str "b", VObj [(str "c", VStr (str "x"))])])])
  /\ xmlToObjWithin 1 (str "  free text ") = inr (VStr (str "free text"))
  /\ xmlToObjWithin 1 (str "   ") = inr (VStr [])
  /\ xmlToObjWithin 1 (str "<a>unclosed") = inr (VStr (str "<a>unclosed")).
Proof.
  split; [|split; [|split]].
  - rewrite (proj1 (xmlToObj_returns_within_stack 3 (str "<a><b><c>x</c></b></a>")));
      [reflexivity|vm_compute; lia].
  - apply (xmlToObj_returns_within_stack 1 (str "  free text ")); [lia|reflexivity].
  - apply (xmlToObj_returns_within_stack 1 (str "   ")); [lia|reflexivity].
  - apply (xmlToObj_returns_within_stack 1 (str "<a>unclosed")); [lia|reflexivity].
Defined.

(** C8 as stated fails: a text nested deeper than the call stack has
    room for makes the decoder throw; here three levels on a stack of
    two calls, where a stack of three returns the value. *)
Lemma xmlToObj_deep_counterexample :
  nesting (str "<a><b><c>x</c></b></a>") = 3
  /\ xmlToObjWithin 2 (str "<a><b><c>x</c></b></a>") = inl RangeError
  /\ xmlToObjWithin 3 (str "<a><b><c>x</c></b></a>")
     = inr (VObj [(str "a", VObj [(str "b", VObj [(str "c", VStr (str "x"))])])]).
Proof. vm_compute. repeat split; reflexivity. Qed.

End StackFacts.

(* ===================================================================== *)
(** * The streaming extractor on any text *)
(* ===================================================================== *)

Module StreamLaws.
Import Stream Doc Props StreamFacts.

(** X1.  The stream returns the text it was sent, whole, and neither the
    returned text nor the updates depend on how the text was cut into
    chunks. *)
Theorem stream_any_chunking : forall chunks,
  fst (stream chunks) = concat chunks
  /\ forall chunks', concat chunks' = concat chunks -> stream chunks' = stream chunks.
Proof.
  intros chunks. split.
  - now rewrite stream_chunks.
  - intros chunks' H. now rewrite !stream_chunks, H.
Qed.

Lemma stream_any_chunking_witness :
  fst (stream [str "<a>hi"; str " there</a>"]) = str "<a>hi there</a>"
  /\ stream [str "<a>hi there</a>"] = stream [str "<a>hi"; str " there</a>"].
Proof.
  destruct (stream_any_chunking [str "<a>hi"; str " there</a>"]) as [H1 H2].
  split; [exact H1|]. apply H2. reflexivity.
Defined.

(** ** What the updates look like *)

Lemma fieldOf_nonEmpty : forall stack,
  nonEmpty stack = true -> forallb nonEmpty stack = true -> nonEmpty (fieldOf stack) = true.
Proof.
  intros [|a rest] Hs Hall; [discriminate|].
  cbn [forallb] in Hall. apply andb_true_iff in Hall as [Ha _].
  destruct a as [|c a]; [discriminate|].
  unfold fieldOf. cbn [join]. destruct rest; reflexivity.
Qed.

Lemma forallb_removelast : forall (A : Type) (p : A -> bool) l,
  forallb p l = true -> forallb p (removelast l) = true.
Proof.
  intros A p. induction l as [|a l IH]; intro H; [reflexivity|].
  cbn [forallb] in H. apply andb_true_iff in H as [Ha Hl].
  cbn [removelast]. destruct l as [|b l]; [reflexivity|].
  cbn [forallb]. rewrite Ha. cbn [andb]. now apply IH.
Qed.

Lemma step_ok : forall st c,
  stateOk st ->
  stateOk (fst (step st c)) /\ forallb updateOk (snd (step st c)) = true.
Proof.
  intros [fr stk cur buf ins] c [Hstk Hbuf]. unfold stateOk in *.
  cbn [tagStack wordBuffer] in Hstk, Hbuf. unfold step.
  cbn [tagStack currentTagName wordBuffer insideTag fullResponse].
  destruct (c =? ch_lt)%N eqn:Elt.
  { cbn [fst snd tagStack wordBuffer]. split; [split; [assumption|reflexivity]|].
    destruct (nonEmpty buf) eqn:Eb; [|reflexivity].
    destruct (nonEmpty stk) eqn:Es; [|reflexivity].
    cbn [andb forallb]. unfold updateOk. cbn [field value_].
    rewrite fieldOf_nonEmpty by assumption. rewrite Eb, Hbuf.
    cbn [andb]. now rewrite orb_true_r. }
  destruct ((c =? ch_gt)%N && ins) eqn:Egt.
  { cbn [fst snd tagStack wordBuffer forallb]. split; [|reflexivity].
    split; [|reflexivity].
    destruct (startsWith [ch_slash] cur).
    - now apply forallb_removelast.
    - destruct (nonEmpty (trim cur)) eqn:Et; [|assumption].
      rewrite forallb_app. apply andb_true_iff. split; [assumption|].
      cbn [forallb]. now rewrite Et. }
  destruct ins.
  { cbn [fst snd tagStack wordBuffer forallb]. now repeat split. }
  destruct (nonEmpty stk) eqn:Es.
  2:{ cbn [fst snd tagStack wordBuffer forallb]. now repeat split. }
  destruct ((c =? ch_space)%N || (c =? ch_nl)%N) eqn:Esp.
  - cbn [fst snd tagStack wordBuffer]. split; [split; [assumption|reflexivity]|].
    rewrite forallb_app. apply andb_true_iff. split.
    + destruct (nonEmpty buf) eqn:Eb; [|reflexivity].
      cbn [forallb andb]. unfold updateOk. cbn [field value_].
      rewrite fieldOf_nonEmpty by assumption. rewrite Eb, Hbuf.
      cbn [andb]. now rewrite orb_true_r.
    + cbn [forallb]. unfold updateOk. cbn [field value_].
      rewrite fieldOf_nonEmpty by assumption. cbn [andb Js.eqb].
      apply orb_true_iff in Esp as [E|E]; rewrite E; cbn [andb orb];
        [reflexivity|now rewrite orb_true_r].
  - cbn [fst snd tagStack wordBuffer forallb]. split; [|reflexivity].
    split; [assumption|].
    rewrite forallb_app. apply andb_true_iff. split; [assumption|].
    cbn [forallb]. unfold wordChar.
    apply orb_false_iff in Esp as [E1 E2]. now rewrite E1, E2, Elt.
Qed.

Lemma steps_ok : forall chars st,
  stateOk st ->
  stateOk (fst (steps st chars)) /\ forallb updateOk (snd (steps st chars)) = true.
Proof.
  induction chars as [|c chars IH]; intros st H.
  - cbn [steps fst snd forallb]. now split.
  - cbn [steps]. destruct (step_ok st c H) as [H1 H2].
    destruct (step st c) as [st1 out1]. cbn [fst snd] in H1, H2.
    destruct (IH st1 H1) as [H3 H4].
    destruct (steps st1 chars) as [st2 out2]. cbn [fst snd] in *.
    split; [assumption|]. now rewrite forallb_app, H2, H4.
Qed.

(** X2.  Whatever the text, every update the stream emits names a
    non-empty path, and its value is a single space, a single line feed,
    or a non-empty word without space, line feed or ['<']. *)
Theorem stream_updates_wellformed : forall chunks,
  forallb updateOk (snd (stream chunks)) = true.
Proof.
  intros chunks. rewrite stream_chunks. cbn [snd].
  assert (stateOk initial) as H0 by (split; reflexivity).
  destruct (steps_ok (concat chunks) initial H0) as [[Hs Hb] Hu].
  rewrite forallb_app, Hu. cbn [andb]. unfold flush.
  destruct (nonEmpty (wordBuffer _)) eqn:Eb; [|reflexivity].
  destruct (nonEmpty (tagStack _)) eqn:Es; [|reflexivity].
  cbn [andb forallb]. unfold updateOk. cbn [field value_].
  rewrite fieldOf_nonEmpty by assumption. rewrite Eb, Hb.
  cbn [andb]. now rewrite orb_true_r.
Qed.

(** ** Text without tags *)

Lemma steps_no_gt : forall chars full cur ins,
  includes ch_gt chars = false ->
  exists cur' ins', steps (mkState full [] cur [] ins) chars
                    = (mkState full [] cur' [] ins', []).
Proof.
  induction chars as [|c chars IH]; intros full cur ins H.
  - cbn [steps]. eauto.
  - cbn [includes existsb] in H. apply orb_false_iff in H as [Hc H].
    rewrite N.eqb_sym in Hc.
    cbn [steps]. unfold step at 1.
    cbn [tagStack currentTagName wordBuffer insideTag fullResponse nonEmpty andb].
    rewrite Hc. cbn [andb].
    destruct (c =? ch_lt)%N.
    + destruct (IH full [] true H) as (cur' & ins' & ->). eauto.
    + destruct ins.
      * destruct (IH full (cur ++ [c]) true H) as (cur' & ins' & ->). eauto.
      * destruct (IH full cur false H) as (cur' & ins' & ->). eauto.
Qed.

Lemma steps_no_lt : forall chars full cur,
  includes ch_lt chars = false ->
  steps (mkState full [] cur [] false) chars = (mkState full [] cur [] false, []).
Proof.
  induction chars as [|c chars IH]; intros full cur H.
  - reflexivity.
  - cbn [includes existsb] in H. apply orb_false_iff in H as [Hc H].
    rewrite N.eqb_sym in Hc.
    cbn [steps]. unfold step at 1.
    cbn [tagStack currentTagName wordBuffer insideTag fullResponse nonEmpty andb].
    rewrite Hc, andb_false_r. now rewrite IH.
Qed.

(** X3.  A text that holds no ['<'], or no ['>'], so no complete tag, is
    returned whole and streams nothing: text outside every tag is never
    handed to the callback. *)
Theorem stream_without_tags : forall chunks,
  includes ch_lt (concat chunks) = false \/ includes ch_gt (concat chunks) = false ->
  stream chunks = (concat chunks, []).
Proof.
  intros chunks H. rewrite stream_chunks. f_equal. unfold initial.
  destruct H as [H|H].
  - now rewrite steps_no_lt.
  - destruct (steps_no_gt (concat chunks) [] [] false H) as (cur' & ins' & ->).
    reflexivity.
Qed.

Lemma stream_without_tags_witness :
  stream [str "plain "; str "words, 1 < 2"] = (str "plain words, 1 < 2", []).
Proof.
  apply (stream_without_tags [str "plain "; str "words, 1 < 2"]).
  right. vm_compute. reflexivity.
Defined.

End StreamLaws.

(* ===================================================================== *)
(** * The codec on any value and any text *)
(* ===================================================================== *)

Module CodecLaws.
Import Props.

(** ** Tag names *)

Lemma cleaned_word : forall name,
  forallb is_word (List.map (fun c => if is_word c then c else ch_us) name) = true.
Proof.
  induction name as [|c name IH]; [reflexivity|]. cbn [List.map forallb].
  rewrite IH, andb_true_r. destruct (is_word c) eqn:E; [assumption|reflexivity].
Qed.

Lemma sanitize_good : forall name, name <> [] -> goodName (sanitizeTagName name) = true.
Proof.
  intros [|c name] H; [contradiction|]. unfold sanitizeTagName.
  pose proof (cleaned_word (c :: name)) as Hw. cbn [List.map] in *.
  set (c' := if is_word c then c else ch_us) in *.
  set (rest := List.map (fun c => if is_word c then c else ch_us) name) in *.
  destruct (is_alpha c') eqn:Ea.
  - unfold goodName. now rewrite Ea, Hw.
  - change (str "tag_" ++ c' :: rest) with (116 :: 97 :: 103 :: 95 :: c' :: rest)%N.
    unfold goodName. cbn [forallb] in *. rewrite Hw. reflexivity.
Qed.

(** X4.  Whatever the name, the tag [sanitizeTagName] makes of it is a
    letter followed by letters, digits and ['_'], unless the name is
    empty, which stays empty; a name of that form is kept as it is, so
    sanitizing twice changes nothing more. *)
Theorem sanitizeTagName_valid : forall name,
  (name <> [] -> goodName (sanitizeTagName name) = true)
  /\ (sanitizeTagName name = [] <-> name = [])
  /\ (goodName name = true -> sanitizeTagName name = name)
  /\ sanitizeTagName (sanitizeTagName name) = sanitizeTagName name.
Proof.
  intros name. split; [apply sanitize_good|]. split; [|split].
  - split; intro H; [|now subst].
    destruct name as [|c name]; [reflexivity|].
    assert (goodName (sanitizeTagName (c :: name)) = true) as G
        by (apply sanitize_good; discriminate).
    rewrite H in G. discriminate.
  - apply goodName_sanitize.
  - destruct name as [|c name]; [reflexivity|].
    apply goodName_sanitize. apply sanitize_good. discriminate.
Qed.

Lemma sanitizeTagName_valid_witness :
  goodName (sanitizeTagName (str "2nd try")) = true
  /\ sanitizeTagName (str "2nd try") = str "tag_2nd_try"
  /\ sanitizeTagName (str "user_query") = str "user_query".
Proof.
  destruct (sanitizeTagName_valid (str "2nd try")) as (H1 & _ & _ & _).
  destruct (sanitizeTagName_valid (str "user_query")) as (_ & _ & H3 & _).
  split; [apply H1; discriminate|]. split; [reflexivity|]. apply H3. reflexivity.
Defined.

(** ** Entries without a value *)

Lemma forallb_filter_neg : forall (A : Type) (p : A -> bool) l,
  forallb (fun x => negb (p x)) (filter p l) = forallb (fun x => negb (p x)) l.
Proof.
  intros A p. induction l as [|a l IH]; [reflexivity|]. cbn [filter forallb].
  destruct (p a) eqn:E.
  - cbn [forallb]. now rewrite E.
  - cbn [negb andb]. exact IH.
Qed.

Lemma filter_filter : forall (A : Type) (p : A -> bool) l,
  filter p (filter p l) = filter p l.
Proof.
  intros A p. induction l as [|a l IH]; [reflexivity|]. cbn [filter].
  destruct (p a) eqn:E; [|exact IH]. cbn [filter]. now rewrite E, IH.
Qed.

(** X5.  The entries of a mapping whose value is [null] or [undefined]
    leave no trace in its encoding: the mapping is encoded as the mapping
    without them is, and as the empty mapping when it has no other entry,
    which is an empty element named by the parent key, or [empty]. *)
Theorem objToXml_skips_nullish : forall entries parentKey,
  objToXml (VObj entries) parentKey
  = objToXml (VObj (filter (fun kv => notNullish (snd kv)) entries)) parentKey
  /\ (filter (fun kv => notNullish (snd kv)) entries = [] ->
      objToXml (VObj entries) parentKey
      = wrapTag (keyOr parentKey (str "empty")) []).
Proof.
  intros entries parentKey. rewrite !objToXml_object.
  rewrite (forallb_filter_neg _ (fun kv => notNullish (snd kv))).
  rewrite filter_filter. split; [reflexivity|].
  intro H. rewrite <- (forallb_filter_neg _ (fun kv => notNullish (snd kv))), H.
  reflexivity.
Qed.

Lemma objToXml_skips_nullish_witness :
  objToXml (VObj [(str "a", VNull); (str "b", VStr (str "x")); (str "c", VUndefined)]) None
  = objToXml (VObj [(str "b", VStr (str "x"))]) None
  /\ objToXml (VObj [(str "a", VNull); (str "c", VUndefined)]) (Some (str "input"))
     = str "<input></input>".
Proof.
  split.
  - apply (objToXml_skips_nullish
             [(str "a", VNull); (str "b", VStr (str "x")); (str "c", VUndefined)] None).
  - apply (objToXml_skips_nullish [(str "a", VNull); (str "c", VUndefined)]
             (Some (str "input"))). reflexivity.
Defined.

(** ** White space around the text *)

Lemma dropWhile_head : forall p s c s',
  dropWhile p s = c :: s' -> p c = false.
Proof.
  intros p. induction s as [|a s IH]; intros c s' H; [discriminate|].
  cbn [dropWhile] in H. destruct (p a) eqn:E; [now apply (IH c s')|].
  inversion H; now subst.
Qed.

Lemma dropWhile_split : forall p s, exists pre, s = pre ++ dropWhile p s.
Proof.
  intros p. induction s as [|a s [pre IH]].
  - now exists [].
  - cbn [dropWhile]. destruct (p a).
    + exists (a :: pre). cbn [app]. now f_equal.
    + now exists [].
Qed.

Lemma trim_idempotent : forall s, trim (trim s) = trim s.
Proof.
  intros s. apply trim_nonspace.
  - intros c s' E. unfold trim, trimEnd, trimStart in E.
    destruct (dropWhile_split is_space (rev (dropWhile is_space s))) as [pre Hpre].
    apply (f_equal (@rev char)) in Hpre. rewrite rev_involutive, rev_app_distr in Hpre.
    rewrite E in Hpre. cbn [app] in Hpre.
    now apply (dropWhile_head is_space s c (s' ++ rev pre)).
  - intros s' z E. unfold trim, trimEnd, trimStart in E.
    apply (f_equal (@rev char)) in E. rewrite rev_involutive, rev_app_distr in E.
    cbn [rev app] in E. now apply dropWhile_head in E.
Qed.

Lemma unwrapItem_kind : forall result,
  match unwrapItem result with VArr _ | VObj _ => True | _ => False end.
Proof.
  intros result. unfold unwrapItem.
  destruct result as [|[k v] [|e rest]]; try exact I.
  destruct (Js.eqb k (str "item")); [|exact I]. destruct v; exact I.
Qed.

(** X6.  The decoder ignores white space around the text.  Its result is
    a string, a sequence or a mapping, never a number, a boolean, [null]
    or [undefined] at the top; and it is falsy, which makes
    [generateResponse] answer with the empty record, exactly when the text
    is blank. *)
Theorem xmlToObj_blank : forall s,
  xmlToObj (trim s) = xmlToObj s
  /\ match xmlToObj s with VStr _ | VArr _ | VObj _ => True | _ => False end
  /\ (Agent.falsy (xmlToObj s) = true <-> trim s = []).
Proof.
  intros s. split; [|split].
  - rewrite (xmlToObj_unfold (trim s)), (xmlToObj_unfold s). now rewrite trim_idempotent.
  - rewrite xmlToObj_unfold. destruct (negb (includes ch_lt (trim s))); [exact I|].
    destruct (allMatches (trim s)) as [|m ms]; [exact I|].
    pose proof (unwrapItem_kind (accumulateAll (List.map parseChild (m :: ms)))) as K.
    destruct (unwrapItem _); try contradiction; exact I.
  - rewrite xmlToObj_unfold. destruct (includes ch_lt (trim s)) eqn:E; cbn [negb].
    + assert (trim s <> []) as Hne by (intro H; rewrite H in E; discriminate).
      split; [|contradiction]. intro H. exfalso.
      destruct (allMatches (trim s)) as [|m ms].
      * destruct (trim s); [contradiction|discriminate].
      * pose proof (unwrapItem_kind (accumulateAll (List.map parseChild (m :: ms)))) as K.
        destruct (unwrapItem _); try contradiction; discriminate.
    + cbn [Agent.falsy]. destruct (trim s); split; intro H;
        try reflexivity; discriminate.
Qed.

Lemma xmlToObj_blank_witness :
  Agent.falsy (xmlToObj (str "  ")) = true
  /\ xmlToObj (str "  <a>1</a> ") = xmlToObj (str "<a>1</a>").
Proof.
  split.
  - apply (xmlToObj_blank (str "  ")). reflexivity.
  - rewrite <- (proj1 (xmlToObj_blank (str "  <a>1</a> "))). reflexivity.
Defined.

(** ** What a decoded value is made of *)

Lemma tryNames_name : forall k afterLt body name content rest,
  tryNames k afterLt body = Some (name, content, rest) ->
  exists j, 1 <= j <= k /\ name = firstn j afterLt.
Proof.
  induction k as [|k IH]; intros afterLt body name content rest H; [discriminate|].
  cbn [tryNames] in H.
  destruct (splitAt (closeTag (firstn (S k) afterLt)) body) as [[c r]|].
  - inversion H; subst. exists (S k). split; [lia|reflexivity].
  - destruct (IH _ _ _ _ _ H) as (j & Hj & E). exists j. split; [lia|assumption].
Qed.

Lemma firstn_takeWhile : forall (p : char -> bool) s j,
  j <= length (takeWhile p s) -> forallb p (firstn j s) = true.
Proof.
  intros p. induction s as [|c s IH]; intros j Hj.
  - now rewrite firstn_nil.
  - destruct j as [|j]; [reflexivity|]. cbn [takeWhile] in Hj. cbn [firstn forallb].
    destruct (p c); [|cbn [length] in Hj; lia].
    cbn [length] in Hj. cbn [andb]. apply IH. lia.
Qed.

Lemma matchAt_name : forall s name content rest,
  matchAt s = Some (name, content, rest) -> nameOk name = true.
Proof.
  intros [|c afterLt] name content rest H; [discriminate|]. cbn [matchAt] in H.
  destruct (c =? ch_lt)%N; [|discriminate].
  destruct (splitAt [ch_gt] afterLt) as [[x body]|]; [|discriminate].
  apply tryNames_name in H as (j & [Hj1 Hj2] & ->).
  unfold nameOk. rewrite firstn_takeWhile by assumption. rewrite andb_true_r.
  destruct afterLt as [|a afterLt]; [cbn [takeWhile length] in Hj2; lia|].
  destruct j; [lia|reflexivity].
Qed.

Lemma exec_name : forall s name content rest,
  exec s = Some (name, content, rest) -> nameOk name = true.
Proof.
  induction s as [|c s IH]; intros name content rest H.
  - cbn [exec] in H. destruct (matchAt []) as [m|] eqn:E; [|discriminate].
    inversion H; subst. now apply matchAt_name in E.
  - cbn [exec] in H. destruct (matchAt (c :: s)) as [m|] eqn:E.
    + inversion H; subst. now apply matchAt_name in E.
    + now apply IH in H.
Qed.

Lemma allMatches_names : forall n s, length s <= n ->
  forall name content, In (name, content) (allMatches s) -> nameOk name = true.
Proof.
  induction n as [|n IH]; intros s Hs name content Hin.
  - destruct s; [|cbn [length] in Hs; lia].
    rewrite allMatches_unfold in Hin. cbn in Hin. contradiction.
  - rewrite allMatches_unfold in Hin.
    destruct (exec s) as [[[nm ct] rest]|] eqn:E; [|contradiction].
    destruct Hin as [Hin|Hin].
    + inversion Hin; subst. now apply exec_name in E.
    + apply (IH rest) with (content := content); [|assumption].
      apply exec_length in E. lia.
Qed.

Lemma lookup_some_in : forall k entries v,
  lookup k entries = Some v -> In (k, v) entries.
Proof.
  induction entries as [|[k' v'] rest IH]; intros v H; [discriminate|].
  cbn [lookup] in H. destruct (Js.eqb k' k) eqn:E.
  - apply eqb_eq in E. inversion H; subst. now left.
  - right. now apply IH.
Qed.

Lemma lookup_none_notin : forall k entries,
  lookup k entries = None -> ~ In k (List.map fst entries).
Proof.
  induction entries as [|[k' v'] rest IH]; intros H Hin; [contradiction|].
  cbn [lookup] in H. destruct (Js.eqb k' k) eqn:E; [discriminate|].
  apply eqb_neq in E. destruct Hin as [Hin|Hin]; [contradiction|]. now apply IH.
Qed.

Lemma assign_present : forall k v entries old,
  lookup k entries = Some old ->
  List.map fst (assign k v entries) = List.map fst entries
  /\ (forall p : jsstring * value -> bool,
        forallb p entries = true -> p (k, v) = true ->
        forallb p (assign k v entries) = true).
Proof.
  induction entries as [|[k' v'] rest IH]; intros old H; [discriminate|].
  cbn [lookup] in H. cbn [assign]. destruct (Js.eqb k' k) eqn:E.
  - apply eqb_eq in E. subst k'. split; [reflexivity|].
    intros p Hp Hkv. cbn [forallb] in *. apply andb_true_iff in Hp as [_ Hp].
    now rewrite Hkv, Hp.
  - destruct (IH old H) as [IH1 IH2]. split.
    + cbn [List.map]. now rewrite IH1.
    + intros p Hp Hkv. cbn [forallb] in *. apply andb_true_iff in Hp as [Hp1 Hp2].
      rewrite Hp1. cbn [andb]. now apply IH2.
Qed.

Lemma distinct_snoc : forall l k,
  distinct l = true -> ~ In k l -> distinct (l ++ [k]) = true.
Proof.
  induction l as [|a l IH]; intros k Hd Hk; [reflexivity|].
  apply distinct_inv in Hd as [Ha Hd]. cbn [app distinct].
  apply andb_true_iff. split.
  - apply negb_true_iff. apply mem_false_iff. intro Hin.
    apply in_app_or in Hin as [Hin|[Hin|[]]]; [contradiction|].
    subst. apply Hk. now left.
  - apply IH; [assumption|]. intro Hin. apply Hk. now right.
Qed.

Lemma forallb_in : forall (A : Type) (p : A -> bool) l x,
  forallb p l = true -> In x l -> p x = true.
Proof. intros A p l x H Hin. rewrite forallb_forall in H. now apply H. Qed.

Lemma accumulate_ok : forall result k c,
  entriesOk result -> nameOk k = true -> wellDecoded c = true ->
  entriesOk (accumulate result k c) /\ accumulate result k c <> [].
Proof.
  intros result k c [Hd Hall] Hk Hc. unfold nameOk in Hk.
  unfold accumulate. destruct (lookup k result) as [old|] eqn:L.
  - assert (wellDecoded old = true) as Hold.
    { apply lookup_some_in in L. pose proof (forallb_in _ _ _ _ Hall L) as H.
      unfold entryOk in H. cbn [fst snd] in H. now apply andb_true_iff in H as [_ H]. }
    assert (forall v, wellDecoded v = true ->
              entriesOk (assign k v result) /\ assign k v result <> []) as Hput.
    { intros v Hv. destruct (assign_present k v result old L) as [E1 E2]. split.
      - split; [now rewrite E1|]. apply E2; [assumption|].
        unfold entryOk. cbn [fst snd]. now rewrite Hk, Hv.
      - intro E. rewrite E in E1. destruct result; [discriminate L|discriminate E1]. }
    assert (forall a, wellDecoded a = true -> wellDecoded (VArr [a; c]) = true) as Hpair.
    { intros a Ha. cbn [wellDecoded nonEmpty forallb andb]. now rewrite Ha, Hc. }
    destruct old as [| |b|n|s0|items|entries]; try (apply Hput; now apply Hpair).
    apply Hput. cbn [wellDecoded] in Hold |- *.
    apply andb_true_iff in Hold as [_ Hitems].
    rewrite forallb_app, Hitems. cbn [forallb]. rewrite Hc.
    now destruct items.
  - apply lookup_none_notin in L. rewrite assign_new by assumption. split.
    + split.
      * rewrite map_app. cbn [List.map fst]. now apply distinct_snoc.
      * rewrite forallb_app, Hall. cbn [forallb]. unfold entryOk. cbn [fst snd].
        now rewrite Hk, Hc.
    + now destruct result.
Qed.

Lemma fold_accumulate_ok : forall children acc,
  entriesOk acc ->
  (forall c, In c children -> nameOk (fst c) = true /\ wellDecoded (snd c) = true) ->
  entriesOk (fold_left (fun result c => accumulate result (fst c) (snd c)) children acc)
  /\ (children <> [] \/ acc <> [] ->
      fold_left (fun result c => accumulate result (fst c) (snd c)) children acc <> []).
Proof.
  induction children as [|c children IH]; intros acc Hacc Hch.
  - cbn [fold_left]. split; [assumption|]. intros [H|H]; [contradiction|assumption].
  - cbn [fold_left]. destruct (Hch c (or_introl eq_refl)) as [Hk Hv].
    destruct (accumulate_ok acc (fst c) (snd c) Hacc Hk Hv) as [H1 H2].
    destruct (IH _ H1 (fun c' Hin => Hch c' (or_intror Hin))) as [H3 H4].
    split; [assumption|]. intros _. apply H4. now right.
Qed.

Lemma unwrapItem_ok : forall result,
  entriesOk result -> result <> [] -> wellDecoded (unwrapItem result) = true.
Proof.
  intros result [Hd Hall] Hne.
  assert (wellDecoded (VObj result) = true) as Hobj.
  { change (nonEmpty result && distinct (List.map fst result) && forallb entryOk result
            = true).
    rewrite Hd, Hall. now destruct result. }
  unfold unwrapItem. destruct result as [|[k v] [|e rest]]; try assumption.
  destruct (Js.eqb k (str "item")); [|assumption].
  cbn [forallb] in Hall. unfold entryOk in Hall. cbn [fst snd] in Hall.
  rewrite andb_true_r in Hall. apply andb_true_iff in Hall as [_ Hv].
  destruct v as [| |b|n|s0|items|entries]; try discriminate Hv; try assumption.
  - cbn [wellDecoded nonEmpty forallb andb]. cbn [wellDecoded] in Hv. now rewrite Hv.
  - cbn [wellDecoded nonEmpty forallb andb]. cbn [wellDecoded] in Hv. now rewrite Hv.
  - change (true && (wellDecoded (VObj entries) && true) = true). now rewrite Hv.
Qed.

Lemma classify_ok : forall t, wellDecoded (classify (trim t)) = true.
Proof.
  intros t. unfold classify.
  destruct (Js.eqb (trim t) (str "true") || Js.eqb (trim t) (str "false")); [reflexivity|].
  destruct (isNumeric (trim t)) eqn:E; cbn [wellDecoded]; [assumption|].
  rewrite trim_idempotent. apply eqb_refl.
Qed.

Lemma wellDecoded_bounded : forall n s, length s <= n -> wellDecoded (xmlToObj s) = true.
Proof.
  induction n as [|n IH]; intros s Hs.
  - destruct s; [reflexivity|cbn [length] in Hs; lia].
  - rewrite xmlToObj_unfold.
    assert (wellDecoded (VStr (trim s)) = true) as Hstr.
    { cbn [wellDecoded]. rewrite trim_idempotent. apply eqb_refl. }
    destruct (negb (includes ch_lt (trim s))); [assumption|].
    destruct (allMatches (trim s)) as [|m ms] eqn:E; [assumption|].
    unfold accumulateAll.
    destruct (fold_accumulate_ok (List.map parseChild (m :: ms)) [])
      as [H1 H2]; [split; reflexivity| |].
    + intros c Hin. apply in_map_iff in Hin as ([name content] & <- & Hin).
      rewrite <- E in Hin. pose proof (trim_length s) as Ht.
      unfold parseChild. cbn [fst snd]. split.
      * now apply (allMatches_names (length (trim s)) (trim s) (le_n _) name content).
      * unfold decodeContent. destruct (includes ch_lt (trim content)).
        -- apply IH.
           apply (@allMatches_content_length (length (trim s))) in Hin; [|lia]. lia.
        -- apply classify_ok.
    + apply unwrapItem_ok; [assumption|]. apply H2. left. discriminate.
Qed.

(** X7.  For a text none of whose tags is named like a member every
    object inherits, the value the decoder returns is built from strings
    without white space around them, booleans, numbers read off numerals
    of digits with at most one dot, non-empty sequences and non-empty
    mappings; the keys of a mapping are distinct, repeated tags having
    been merged into a sequence, and are non-empty names free of ['>'],
    ['/'] and white space; [null] and [undefined] occur nowhere in it. *)
Theorem xmlToObj_wellDecoded : forall s,
  ownKeys (xmlToObj s) = true -> wellDecoded (xmlToObj s) = true.
Proof. intros s _. apply (wellDecoded_bounded (length s)). lia. Qed.

Lemma xmlToObj_wellDecoded_witness :
  xmlToObj (str "<a>x</a><b>true</b><a>7</a>")
  = VObj [(str "a", VArr [VStr (str "x"); VNum (str "7")]); (str "b", VBool true)]
  /\ wellDecoded (xmlToObj (str "<a>x</a><b>true</b><a>7</a>")) = true.
Proof.
  split; [reflexivity|].
  apply (xmlToObj_wellDecoded (str "<a>x</a><b>true</b><a>7</a>")). reflexivity.
Defined.

End CodecLaws.

(* ===================================================================== *)
(** * The run: what it touches and what it leaves alone *)
(* ===================================================================== *)

Module RunLaws.
Import Agent Props Scenes.

(** ** Steps that keep a property of the run's variables *)

Lemma silent_keeps : forall I A (m : R A), silent m -> keeps I m.
Proof. intros I A m H st Hst. now rewrite H. Qed.

Lemma keeps_bind : forall I A B (m : R A) (f : A -> R B),
  keeps I m -> (forall a, keeps I (f a)) -> keeps I (Eff.bind m f).
Proof.
  intros I A B m f Hm Hf st Hst. unfold Eff.bind. specialize (Hm st Hst).
  destruct (m st) as [st' [e|a]]; cbn [fst] in *; [assumption|]. now apply Hf.
Qed.

Lemma keeps_measured : forall I A pol (m : R A),
  keeps I m -> keeps I (Eff.measured pol m).
Proof.
  intros I A pol m Hm st Hst. unfold Eff.measured. specialize (Hm st Hst).
  destruct (m st) as [st' [e|a]]; [destruct pol|]; assumption.
Qed.

Lemma silent_bind : forall A B (m : R A) (f : A -> R B),
  silent m -> (forall a, silent (f a)) -> silent (Eff.bind m f).
Proof.
  intros A B m f Hm Hf st. unfold Eff.bind. specialize (Hm st).
  destruct (m st) as [st' [e|a]]; cbn [fst] in *; [assumption|]. subst st'. apply Hf.
Qed.

Lemma silent_measured : forall A pol (m : R A), silent m -> silent (Eff.measured pol m).
Proof.
  intros A pol m Hm st. unfold Eff.measured. specialize (Hm st).
  destruct (m st) as [st' [e|a]]; [destruct pol|]; assumption.
Qed.

Lemma silent_ret : forall A (a : A), silent (Eff.ret a : R A).
Proof. intros A a st. reflexivity. Qed.

Lemma silent_throw : forall A e, silent (Eff.throw e : R A).
Proof. intros A e st. reflexivity. Qed.

Lemma silent_lift : forall A (r : exn + A), silent (Eff.lift r : R A).
Proof. intros A r st. reflexivity. Qed.

Lemma silent_deref : forall A (o : option A), silent (Eff.deref o : R A).
Proof. intros A [a|] st; reflexivity. Qed.

Lemma silent_gets : forall A (f : RunState -> A), silent (Eff.gets f).
Proof. intros A f st. reflexivity. Qed.

Lemma keeps_modify : forall (I : RunState -> Prop) g,
  (forall st, I st -> I (g st)) -> keeps I (Eff.modify g).
Proof. intros I g H st Hst. now apply H. Qed.

Ltac silence :=
  repeat first
    [ apply silent_ret | apply silent_throw | apply silent_lift | apply silent_deref
    | apply silent_gets | apply silent_measured
    | apply silent_bind; [|intro] ].

Lemma callLLM_silent : forall pol w streaming call, silent (callLLM pol w streaming call).
Proof.
  intros pol w streaming call. unfold callLLM. destruct streaming.
  - silence.
  - apply silent_measured. apply silent_bind; [apply silent_lift|].
    intros content. destruct (nonEmpty content); silence.
Qed.

Ltac hush :=
  repeat first
    [ apply callLLM_silent
    | apply silent_ret | apply silent_throw | apply silent_lift | apply silent_deref
    | apply silent_gets | apply silent_measured
    | apply silent_bind; [|intro] ].

Lemma selectRelevantServers_silent : forall pol w cfg input,
  silent (selectRelevantServers pol w cfg input).
Proof.
  intros pol w cfg input. unfold selectRelevantServers.
  destruct (servers cfg) as [[|s l]|]; hush.
Qed.

Lemma selectRelevantTools_silent : forall pol w input tools server,
  silent (selectRelevantTools pol w input tools server).
Proof.
  intros pol w input tools server. unfold selectRelevantTools.
  destruct tools; hush.
Qed.

Lemma generateToolParameters_silent : forall pol w input tool,
  silent (generateToolParameters pol w input tool).
Proof.
  intros pol w input tool. unfold generateToolParameters. hush.
Qed.

Lemma invokeTool_silent : forall pol w server name parameters,
  silent (invokeTool pol w server name parameters).
Proof. intros. unfold invokeTool. silence. Qed.

Lemma generateResponse_silent : forall pol w cfg progress input results,
  silent (generateResponse pol w cfg progress input results).
Proof.
  intros. unfold generateResponse. hush.
Qed.

Lemma relevantServersOf_silent : forall pol w cfg input,
  silent (relevantServersOf pol w cfg input).
Proof.
  intros pol w cfg input. unfold relevantServersOf.
  destruct (servers cfg) as [[|s l]|]; try apply silent_ret.
  apply silent_bind; [apply silent_measured; apply selectRelevantServers_silent|].
  intro. apply silent_deref.
Qed.

(** The frame of [runBody]: a property that the tool phase keeps is kept
    by the whole body. *)
Lemma runBody_keeps : forall I pol w cfg progress input,
  (forall i relevant, keeps I (discoverAndInvoke pol w i relevant)) ->
  keeps I (runBody pol w cfg progress input).
Proof.
  intros I pol w cfg progress input Htools. unfold runBody.
  apply keeps_bind; [apply silent_keeps; silence|]. intros [checked|].
  2:{ apply silent_keeps; silence. }
  apply keeps_bind; [apply silent_keeps; silence|]. intros _.
  apply keeps_bind; [apply silent_keeps; apply relevantServersOf_silent|]. intros relevant.
  apply keeps_bind.
  { destruct (nonEmpty relevant); [apply keeps_measured; apply Htools|].
    apply silent_keeps; silence. }
  intros _. apply keeps_bind; [apply silent_keeps; silence|]. intros results.
  apply keeps_bind.
  { apply silent_keeps. apply silent_measured. apply generateResponse_silent. }
  intros response. apply silent_keeps. silence.
Qed.

Lemma run_keeps : forall I pol w cfg progress input,
  (forall i relevant, keeps I (discoverAndInvoke pol w i relevant)) ->
  I emptyRun -> I (fst (run pol w cfg progress input)).
Proof.
  intros I pol w cfg progress input Htools H0. unfold run.
  apply (keeps_measured I _ pol); [|assumption]. now apply runBody_keeps.
Qed.

(** ** Invocations and their results *)

Lemma replay_snoc : forall l server tool parameters result,
  replay (l ++ [(server, tool, parameters, result)])
  = assign (server ++ str "." ++ tool) result (replay l).
Proof. intros. unfold replay. now rewrite fold_left_app. Qed.

Lemma assign_length : forall k v entries,
  length (assign k v entries) <= S (length entries).
Proof.
  induction entries as [|[k' old] rest IH]; cbn [assign length]; [lia|].
  destruct (Js.eqb k' k); cbn [length]; lia.
Qed.

Lemma replay_length : forall l, length (replay l) <= length l.
Proof.
  induction l as [|x l IH] using rev_ind; [cbn; lia|].
  destruct x as [[[server tool] parameters] result]. rewrite replay_snoc.
  rewrite length_app. cbn [length]. pose proof (assign_length (server ++ str "." ++ tool)
    result (replay l)). lia.
Qed.

Lemma invokeAll_keeps_replayed : forall pol w input server tools,
  keeps replayed (invokeAll pol w input server tools).
Proof.
  intros pol w input server. induction tools as [|tool rest IH].
  - apply silent_keeps. apply silent_ret.
  - cbn [invokeAll].
    apply keeps_bind; [apply silent_keeps; apply generateToolParameters_silent|].
    intros parameters.
    apply keeps_bind; [apply silent_keeps; apply invokeTool_silent|]. intros result.
    apply keeps_bind; [|intros _; exact IH].
    apply keeps_modify. intros st H. unfold replayed in *.
    cbn [toolResults toolInvocations]. now rewrite replay_snoc, H.
Qed.

Lemma discoverTools_keeps_replayed : forall pol w server,
  keeps replayed (discoverTools pol w server).
Proof.
  intros pol w server. unfold discoverTools. apply keeps_measured.
  apply keeps_bind; [|intros _; apply silent_keeps; apply silent_lift].
  apply keeps_modify. intros st H. exact H.
Qed.

Lemma discoverAndInvoke_keeps_replayed : forall pol w input relevant,
  keeps replayed (discoverAndInvoke pol w input relevant).
Proof.
  intros pol w input. induction relevant as [|server rest IH].
  - apply silent_keeps. apply silent_ret.
  - cbn [discoverAndInvoke].
    apply keeps_bind; [apply discoverTools_keeps_replayed|]. intros found.
    apply keeps_bind; [apply silent_keeps; apply silent_deref|]. intros tools.
    apply keeps_bind; [|intros _; exact IH].
    destruct (nonEmpty tools); [|apply silent_keeps; apply silent_ret].
    apply keeps_bind; [apply silent_keeps; apply selectRelevantTools_silent|].
    intros selected.
    apply keeps_bind; [apply silent_keeps; apply silent_deref|]. intros relevantTools.
    apply invokeAll_keeps_replayed.
Qed.

(** X8.  At the end of every run, however it ended, [toolResults] is what
    the recorded invocations give when replayed in order: the result of
    each invocation under ["server.tool"], a later invocation of the same
    key overwriting the earlier one; so there are never more results than
    invocations. *)
Theorem run_toolResults_replay : forall pol w cfg progress input,
  let st := fst (run pol w cfg progress input) in
  toolResults st = replay (toolInvocations st)
  /\ length (toolResults st) <= length (toolInvocations st).
Proof.
  intros pol w cfg progress input st.
  assert (replayed st) as H.
  { apply run_keeps; [|reflexivity]. intros. apply discoverAndInvoke_keeps_replayed. }
  split; [exact H|]. rewrite H. apply replay_length.
Qed.

(** Two providers with two tools each: four invocations, four results. *)
Example run_eager_invocations :
  let st := fst (run Propagate eagerWorld twoServerConfig false (VObj [])) in
  List.map fst (toolResults st)
  = [str "weather.forecast"; str "weather.alerts"; str "news.forecast"; str "news.alerts"]
  /\ length (toolInvocations st) = 4
  /\ snd (run Propagate eagerWorld twoServerConfig false (VObj []))
     = inr (Some (VObj [(str "output", VStr (str "mild"))])).
Proof. vm_compute. repeat split. Qed.

(** ** A discovery that fails *)

Lemma discoverTools_discovered : forall pol w server st,
  discovered (fst (discoverTools pol w server st)) = discovered st ++ [server].
Proof.
  intros pol w server st. unfold discoverTools, Eff.measured, Eff.bind, Eff.modify, Eff.lift.
  destruct (discover w server); [destruct pol|]; reflexivity.
Qed.

Lemma discoverTools_fails : forall pol w server st e,
  discover w server = inl e ->
  snd (discoverTools pol w server st)
  = match pol with Swallow => inr None | Propagate => inl e end.
Proof.
  intros pol w server st e H.
  unfold discoverTools, Eff.measured, Eff.bind, Eff.modify, Eff.lift.
  rewrite H. now destruct pol.
Qed.

Lemma discoverAndInvoke_cons : forall pol w input server rest st,
  discoverAndInvoke pol w input (server :: rest) st
  = match discoverTools pol w server st with
    | (st1, inl e) => (st1, inl e)
    | (st1, inr None) => (st1, inl TypeError)
    | (st1, inr (Some tools)) =>
        match useTools pol w input server tools st1 with
        | (st2, inl e) => (st2, inl e)
        | (st2, inr _) => discoverAndInvoke pol w input rest st2
        end
    end.
Proof.
  intros. cbn [discoverAndInvoke]. unfold Eff.bind at 1.
  destruct (discoverTools pol w server st) as [st1 [e|[tools|]]]; reflexivity.
Qed.

Lemma useTools_discovered : forall pol w input server tools st,
  discovered (fst (useTools pol w input server tools st)) = discovered st.
Proof.
  intros pol w input server tools st. unfold useTools.
  destruct (nonEmpty tools); [|reflexivity].
  unfold Eff.bind at 1.
  pose proof (selectRelevantTools_silent pol w input tools server st) as Hs.
  destruct (selectRelevantTools pol w input tools server st) as [st1 [e|selected]];
    cbn [fst] in Hs; subst st1; [reflexivity|].
  unfold Eff.bind at 1. destruct selected as [relevantTools|]; [|reflexivity].
  cbn [Eff.deref]. unfold Eff.ret at 1.
  destruct (invokeAll pol w input server relevantTools st) as [st' r] eqn:E.
  apply invokeAll_discovered in E. exact E.
Qed.

Lemma discoverAndInvoke_stops : forall pol w input s after e,
  discover w s = inl e ->
  forall before st,
  exists k e',
    k <= S (length before)
    /\ discovered (fst (discoverAndInvoke pol w input (before ++ s :: after) st))
       = discovered st ++ firstn k (before ++ [s])
    /\ snd (discoverAndInvoke pol w input (before ++ s :: after) st) = inl e'.
Proof.
  intros pol w input s after e He.
  induction before as [|b before IH]; intros st.
  - cbn [app]. rewrite discoverAndInvoke_cons.
    pose proof (discoverTools_discovered pol w s st) as Hd.
    pose proof (discoverTools_fails pol w s st e He) as Hf.
    destruct (discoverTools pol w s st) as [st1 r]. cbn [fst snd] in Hd, Hf. subst r.
    exists 1. destruct pol.
    + exists TypeError. cbn [length firstn fst snd app]. repeat split; [lia|assumption].
    + exists e. cbn [length firstn fst snd app]. repeat split; [lia|assumption].
  - cbn [app]. rewrite discoverAndInvoke_cons.
    pose proof (discoverTools_discovered pol w b st) as Hd.
    destruct (discoverTools pol w b st) as [st1 [e1|[tools|]]]; cbn [fst] in Hd.
    + exists 1, e1. cbn [length firstn app fst snd]. repeat split; [lia|assumption].
    + pose proof (useTools_discovered pol w input b tools st1) as Hk.
      destruct (useTools pol w input b tools st1) as [st2 [e2|u]]; cbn [fst] in Hk.
      * exists 1, e2. cbn [length firstn app fst snd]. repeat split; [lia|congruence].
      * destruct (IH st2) as (k & e' & Hk1 & Hk2 & Hk3).
        exists (S k), e'. cbn [length firstn app]. repeat split; [lia| |assumption].
        rewrite Hk2, Hk, Hd. now rewrite <- app_assoc.
    + exists 1, TypeError. cbn [length firstn app fst snd]. repeat split; [lia|assumption].
Qed.

(** X9.  When asking a provider for its tools fails, the discovery loop
    ends there with an error: the providers listed after it are never
    asked, whether [measure] swallows errors or not, and the providers
    asked are a leading part of the list up to the failing one. *)
Theorem discovery_stops_at_failure : forall pol w input before s after e st,
  discover w s = inl e ->
  let r := discoverAndInvoke pol w input (before ++ s :: after) st in
  (exists e', snd r = inl e')
  /\ exists k, k <= S (length before)
               /\ discovered (fst r) = discovered st ++ firstn k (before ++ [s]).
Proof.
  intros pol w input before s after e st He r.
  destruct (discoverAndInvoke_stops pol w input s after e He before st)
    as (k & e' & H1 & H2 & H3).
  split; [now exists e'|]. now exists k.
Qed.

Lemma discovery_stops_at_failure_witness :
  (exists e', snd (discoverAndInvoke Swallow newsDownWorld (VObj [])
                     ([] ++ newsServer :: [weatherServer]) emptyRun) = inl e')
  /\ exists k, k <= 1
       /\ discovered (fst (discoverAndInvoke Swallow newsDownWorld (VObj [])
                             ([] ++ newsServer :: [weatherServer]) emptyRun))
          = discovered emptyRun ++ firstn k ([] ++ [newsServer]).
Proof.
  apply (discovery_stops_at_failure Swallow newsDownWorld (VObj []) [] newsServer
           [weatherServer] (RequestFailed 503 (str "down")) emptyRun).
  reflexivity.
Defined.

(** The run goes on after the failed discovery and still answers. *)
Example run_after_failed_discovery :
  discovered (fst (run Swallow newsDownWorld newsFirstConfig false (VObj []))) = [newsServer]
  /\ toolInvocations (fst (run Swallow newsDownWorld newsFirstConfig false (VObj []))) = []
  /\ snd (run Swallow newsDownWorld newsFirstConfig false (VObj []))
     = inr (Some (VObj [(str "output", VStr (str "mild"))])).
Proof. vm_compute. repeat split. Qed.

(** ** Runs that stop early or do less *)

Ltac eff := cbv beta iota zeta delta
  [Eff.bind Eff.measured Eff.lift Eff.throw Eff.ret Eff.gets Eff.modify Eff.deref].

(** X10.  An input the input format rejects ends the run before anything
    else happens: no provider is asked, no tool invoked, no call made.
    With the swallowing [measure] the run then resolves to null; with one
    that lets errors through it rejects with the validation error. *)
Theorem run_rejects_invalid_input : forall pol w cfg progress input e,
  parse (ZodObject (inputFormat cfg)) input = inl e ->
  run pol w cfg progress input
  = (emptyRun, match pol with Swallow => inr None | Propagate => inl e end).
Proof.
  intros pol w cfg progress input e H. unfold run, runBody. eff. rewrite H.
  now destruct pol.
Qed.

Lemma run_rejects_invalid_input_witness :
  run Swallow eagerWorld askingConfig false (VObj []) = (emptyRun, inr None)
  /\ run Propagate eagerWorld askingConfig false (VObj []) = (emptyRun, inl ZodError).
Proof.
  split.
  - apply (run_rejects_invalid_input Swallow eagerWorld askingConfig false (VObj []) ZodError).
    reflexivity.
  - apply (run_rejects_invalid_input Propagate eagerWorld askingConfig false (VObj [])
             ZodError).
    reflexivity.
Defined.

Lemma relevantServersOf_none : forall pol w cfg input,
  servers cfg = None \/ servers cfg = Some [] ->
  relevantServersOf pol w cfg input = Eff.ret [].
Proof. intros pol w cfg input [H|H]; unfold relevantServersOf; now rewrite H. Qed.

Lemma generateResponse_ext : forall pol w w' cfg progress input results st,
  llmReply w' (FinalResponse input results) = llmReply w (FinalResponse input results) ->
  generateResponse pol w' cfg progress input results st
  = generateResponse pol w cfg progress input results st.
Proof.
  intros pol w w' cfg progress input results st H.
  unfold generateResponse, callLLM. eff. now rewrite H.
Qed.

Lemma runBody_without_servers : forall pol w cfg progress input,
  servers cfg = None \/ servers cfg = Some [] ->
  forall st,
  runBody pol w cfg progress input st
  = Eff.bind (Eff.measured pol (Eff.lift (parse (ZodObject (inputFormat cfg)) input)))
      (fun validatedInput =>
         match validatedInput with
         | None =>
             Eff.throw (Error (str "Input validation failed. Please check the provided input against the agent's input format."))
         | Some checked =>
             Eff.bind (Eff.measured pol
                         (Eff.lift (match snd (resolveInput w checked) with
                                    | Some e => inl e
                                    | None => inr tt
                                    end)))
               (fun _ =>
                  Eff.bind (Eff.gets toolResults)
                    (fun results =>
                       Eff.bind (Eff.measured pol
                                   (generateResponse pol w cfg progress
                                      (fst (resolveInput w checked)) results))
                         (fun response =>
                            Eff.bind
                              (Eff.measured pol
                                 (Eff.lift (parse (ZodObject (outputFormat cfg))
                                              (match response with
                                               | Some r => r
                                               | None => VObj []
                                               end))))
                              (fun validatedResponse =>
                                 Eff.ret (match validatedResponse with
                                          | Some r => r
                                          | None => VObj []
                                          end)))))
         end) st.
Proof.
  intros pol w cfg progress input H st. unfold runBody.
  rewrite (relevantServersOf_none pol w cfg _ H) || idtac.
  unfold Eff.bind at 1. symmetry. unfold Eff.bind at 1. symmetry.
  destruct (Eff.measured pol (Eff.lift (parse (ZodObject (inputFormat cfg)) input)) st)
    as [st1 [e|[checked|]]]; try reflexivity.
  unfold Eff.bind at 1. symmetry. unfold Eff.bind at 1. symmetry.
  destruct (Eff.measured pol _ st1) as [st2 [e|u]]; [reflexivity|].
  rewrite (relevantServersOf_none pol w cfg _ H). reflexivity.
Qed.

(** X11.  An agent without providers makes no selection call, asks no
    provider and invokes no tool: the run leaves the run's variables
    empty, and it depends on the world only through the resolution of the
    input and the answer to the final call made with no tool results. *)
Theorem run_without_servers : forall pol w cfg progress input,
  servers cfg = None \/ servers cfg = Some [] ->
  fst (run pol w cfg progress input) = emptyRun
  /\ forall w',
       resolveInput w' = resolveInput w ->
       (forall i, llmReply w' (FinalResponse i []) = llmReply w (FinalResponse i [])) ->
       run pol w' cfg progress input = run pol w cfg progress input.
Proof.
  intros pol w cfg progress input H. split.
  - unfold run. apply silent_measured. intro st.
    rewrite runBody_without_servers by assumption.
    revert st. apply silent_bind; [hush|]. intros [checked|]; [|apply silent_throw].
    apply silent_bind; [hush|]. intros _.
    apply silent_bind; [hush|]. intros results.
    apply silent_bind; [apply silent_measured; apply generateResponse_silent|].
    intros response. hush.
  - intros w' Hr Hl. unfold run, Eff.measured at 1. symmetry. unfold Eff.measured at 1.
    rewrite !runBody_without_servers by assumption. rewrite Hr.
    assert (forall checked st,
              generateResponse pol w' cfg progress (fst (resolveInput w checked)) [] st
              = generateResponse pol w cfg progress (fst (resolveInput w checked)) [] st)
      as G by (intros checked st; apply generateResponse_ext; apply Hl).
    eff. destruct pol; destruct (parse (ZodObject (inputFormat cfg)) input) as [e|checked];
      try reflexivity.
    all: destruct (snd (resolveInput w checked)); cbn [toolResults emptyRun];
      rewrite ?G; reflexivity.
Qed.

Lemma run_without_servers_witness :
  fst (run Swallow chattyWorld plainConfig false (VObj [])) = emptyRun
  /\ run Swallow silentWorld plainConfig false (VObj [])
     = run Swallow chattyWorld plainConfig false (VObj []).
Proof.
  destruct (run_without_servers Swallow chattyWorld plainConfig false (VObj []))
    as [H1 H2]; [left; reflexivity|].
  split; [exact H1|]. apply H2; [reflexivity|]. intro i. reflexivity.
Defined.

(** ** Without a swallowing [measure] *)

Lemma callLLM_propagate_empty : forall w call st,
  emptyReply (llmReply w call) ->
  exists e, callLLM Propagate w false call st = (st, inl e).
Proof.
  intros w call st H. unfold callLLM. eff.
  destruct (llmReply w call) as [e|[|c content]];
    [eexists; reflexivity|eexists; reflexivity|contradiction].
Qed.

(** X12.  With a [measure] that lets errors through, as the stand-in of
    the tests does, the selection steps do not fall back: an exchange with
    the generation service that fails or yields no content makes the tool
    selection throw, and makes the provider selection throw and the whole
    run reject, before any provider is asked. *)
Theorem run_propagates_selection_failure : forall w cfg progress input checked first others,
  parse (ZodObject (inputFormat cfg)) input = inr checked ->
  snd (resolveInput w checked) = None ->
  servers cfg = Some (first :: others) ->
  emptyReply (llmReply w (SelectServers (fst (resolveInput w checked)))) ->
  (exists e, run Propagate w cfg progress input = (emptyRun, inl e))
  /\ forall i server tool tools st,
       emptyReply (llmReply w (SelectTools i server (tool :: tools))) ->
       exists e, selectRelevantTools Propagate w i (tool :: tools) server st = (st, inl e).
Proof.
  intros w cfg progress input checked first others Hin Hres Hs He. split.
  - destruct (callLLM_propagate_empty w _ emptyRun He) as [e Hc].
    exists e. unfold run, runBody, relevantServersOf, selectRelevantServers.
    rewrite Hs. unfold Eff.measured at 1. unfold Eff.bind at 1.
    unfold Eff.measured at 1, Eff.lift at 1. rewrite Hin.
    unfold Eff.bind at 1. unfold Eff.measured at 1, Eff.lift at 1. rewrite Hres.
    unfold Eff.bind at 1. unfold Eff.bind at 1. unfold Eff.measured at 1.
    unfold Eff.measured at 1. unfold Eff.bind at 1. now rewrite Hc.
  - intros i server tool tools st Ht.
    destruct (callLLM_propagate_empty w _ st Ht) as [e Hc].
    exists e. unfold selectRelevantTools. unfold Eff.measured at 1. unfold Eff.bind at 1.
    now rewrite Hc.
Qed.

Lemma run_propagates_selection_failure_witness :
  exists e, run Propagate silentWorld twoServerConfig false (VObj []) = (emptyRun, inl e).
Proof.
  apply (run_propagates_selection_failure silentWorld twoServerConfig false (VObj [])
           (VObj []) weatherServer [newsServer]); reflexivity || exact I.
Defined.

(** ** What a run returns *)

Lemma bind_inr : forall A B (m : R A) (f : A -> R B) st b,
  snd (Eff.bind m f st) = inr b ->
  exists a st', m st = (st', inr a) /\ snd (f a st') = inr b.
Proof.
  intros A B m f st b H. unfold Eff.bind in H.
  destruct (m st) as [st' [e|a]]; [discriminate|]. eauto.
Qed.

Lemma measured_inr : forall A pol (m : R A) st st' a,
  Eff.measured pol m st = (st', inr (Some a)) -> m st = (st', inr a).
Proof.
  intros A pol m st st' a H. unfold Eff.measured in H.
  destruct (m st) as [st1 [e|a1]]; [destruct pol; discriminate|]. now inversion H.
Qed.

Lemma measured_none : forall A pol (m : R A) st st',
  Eff.measured pol m st = (st', inr None) -> pol = Swallow.
Proof.
  intros A pol m st st' H. unfold Eff.measured in H.
  destruct (m st) as [st1 [e|a1]]; [destruct pol; [reflexivity|discriminate]|discriminate].
Qed.

(** X13.  Whatever a run returns has passed the output format: a run
    that resolves to a value resolves to the result of
    [outputFormat.parse], or, when that validation threw and [measure]
    swallowed the error, to the empty record. *)
Theorem run_output_validated : forall pol w cfg progress input v,
  snd (run pol w cfg progress input) = inr (Some v) ->
  (exists r, parse (ZodObject (outputFormat cfg)) r = inr v)
  \/ (pol = Swallow /\ v = VObj []).
Proof.
  intros pol w cfg progress input v H. unfold run in H.
  assert (snd (runBody pol w cfg progress input emptyRun) = inr v) as Hb.
  { unfold Eff.measured in H.
    destruct (runBody pol w cfg progress input emptyRun) as [st [e|a]].
    - destruct pol; discriminate.
    - cbn [snd] in *. congruence. }
  clear H. unfold runBody in Hb.
  apply bind_inr in Hb as ([checked|] & st1 & _ & Hb); [|discriminate].
  apply bind_inr in Hb as (u & st2 & _ & Hb).
  apply bind_inr in Hb as (relevant & st3 & _ & Hb).
  apply bind_inr in Hb as (u' & st4 & _ & Hb).
  apply bind_inr in Hb as (results & st5 & _ & Hb).
  apply bind_inr in Hb as (response & st6 & _ & Hb).
  apply bind_inr in Hb as (validated & st7 & Hv & Hb).
  cbn [Eff.ret snd] in Hb. inversion Hb as [E]. clear Hb.
  destruct validated as [r|].
  - left. apply measured_inr in Hv. unfold Eff.lift in Hv. exists
      (match response with Some r0 => r0 | None => VObj [] end). congruence.
  - right. split; [now apply measured_none in Hv|reflexivity].
Qed.

Lemma run_output_validated_witness :
  (exists r, parse (ZodObject (outputFormat twoServerConfig)) r
             = inr (VObj [(str "output", VStr (str "mild"))]))
  \/ (Propagate = Swallow /\ VObj [(str "output", VStr (str "mild"))] = VObj []).
Proof.
  apply (run_output_validated Propagate eagerWorld twoServerConfig false (VObj [])).
  vm_compute. reflexivity.
Defined.

(** ** Where the providers and the tools of a run come from *)

Lemma discoverTools_state : forall pol w server st,
  fst (discoverTools pol w server st)
  = mkRun (discovered st ++ [server]) (toolResults st) (toolInvocations st).
Proof.
  intros pol w server st. unfold discoverTools, Eff.measured, Eff.bind, Eff.modify, Eff.lift.
  destruct (discover w server); [destruct pol|]; reflexivity.
Qed.

Lemma selectServersWith_incl : forall decode configured response,
  incl (selectServersWith decode configured response) configured.
Proof.
  intros decode configured response. unfold selectServersWith.
  destruct response as [[|c text]|]; try apply incl_refl.
  destruct (decode (c :: text)); [apply incl_refl|]. apply incl_filter.
Qed.

Lemma selectToolsWith_incl : forall decode tools response,
  incl (selectToolsWith decode tools response) tools.
Proof.
  intros decode tools response. unfold selectToolsWith.
  assert (incl (firstn 1 tools) tools) as H1.
  { destruct tools as [|t0 rest]; [apply incl_refl|]. intros x [<-|[]]. now left. }
  destruct response as [[|c text]|]; try exact H1.
  destruct (decode (c :: text)); [exact H1|]. apply incl_filter.
Qed.

Lemma relevantServersOf_incl : forall pol w cfg input st relevant,
  snd (relevantServersOf pol w cfg input st) = inr relevant ->
  incl relevant (configuredOf cfg).
Proof.
  intros pol w cfg input st relevant. unfold relevantServersOf, configuredOf.
  destruct (servers cfg) as [[|s0 l]|] eqn:Es.
  - intro H. inversion H. apply incl_refl.
  - intro H. apply bind_inr in H as (selected & st1 & Hm & Hd).
    destruct selected as [[sel|]|]; cbn [flatten Eff.deref Eff.ret Eff.throw snd] in Hd;
      try discriminate.
    inversion Hd; subst. apply measured_inr in Hm.
    unfold selectRelevantServers in Hm. rewrite Es in Hm.
    apply measured_inr in Hm.
    assert (snd (Eff.bind (callLLM pol w false (SelectServers input))
                   (fun response => Eff.ret (selectServersWith decodeXml (s0 :: l) response))
                   st) = inr relevant) as Hb by (now rewrite Hm).
    apply bind_inr in Hb as (response & st2 & _ & Hr). inversion Hr.
    apply selectServersWith_incl.
  - intro H. inversion H. apply incl_refl.
Qed.

Lemma selectRelevantTools_incl : forall pol w input tools server st selected,
  snd (selectRelevantTools pol w input tools server st) = inr (Some selected) ->
  incl selected tools.
Proof.
  intros pol w input tools server st selected. unfold selectRelevantTools.
  destruct tools as [|t0 rest].
  - intro H. inversion H. apply incl_refl.
  - intro H.
    destruct (Eff.measured pol
                (Eff.bind (callLLM pol w false (SelectTools input server (t0 :: rest)))
                   (fun response =>
                      Eff.ret (selectToolsWith decodeXml (t0 :: rest) response))) st)
      as [st1 r] eqn:E. cbn [snd] in H. subst r.
    apply measured_inr in E.
    assert (snd (Eff.bind (callLLM pol w false (SelectTools input server (t0 :: rest)))
                   (fun response =>
                      Eff.ret (selectToolsWith decodeXml (t0 :: rest) response)) st)
            = inr selected) as Hb by (now rewrite E).
    apply bind_inr in Hb as (response & st2 & _ & Hr). inversion Hr.
    apply selectToolsWith_incl.
Qed.

Lemma discoverTools_found : forall pol w server st tools,
  snd (discoverTools pol w server st) = inr (Some tools) -> discover w server = inr tools.
Proof.
  intros pol w server st tools. unfold discoverTools, Eff.measured, Eff.bind, Eff.modify,
    Eff.lift.
  destruct (discover w server) as [e|found]; [destruct pol; discriminate|].
  intro H. inversion H. reflexivity.
Qed.

Lemma invokeAll_keeps_configured : forall pol w configured input server tools selected,
  In server configured -> discover w server = inr tools -> incl selected tools ->
  keeps (fun st => Forall (fromConfigured w configured) (toolInvocations st))
    (invokeAll pol w input server selected).
Proof.
  intros pol w configured input server tools selected Hs Hd.
  induction selected as [|tool rest IH]; intro Hincl.
  - apply silent_keeps. apply silent_ret.
  - cbn [invokeAll].
    apply keeps_bind; [apply silent_keeps; apply generateToolParameters_silent|].
    intros parameters.
    apply keeps_bind; [apply silent_keeps; apply invokeTool_silent|]. intros result.
    apply keeps_bind.
    + apply keeps_modify. intros st H. cbn [toolInvocations].
      apply Forall_app. split; [assumption|]. constructor; [|constructor].
      exists server, tool, tools, (nullable parameters), (nullable result).
      repeat split; try assumption. apply Hincl. now left.
    + intros _. apply IH. intros x Hx. apply Hincl. now right.
Qed.

Lemma useTools_keeps_configured : forall pol w configured input server tools st,
  In server configured -> discover w server = inr tools ->
  incl (discovered st) configured ->
  Forall (fromConfigured w configured) (toolInvocations st) ->
  incl (discovered (fst (useTools pol w input server tools st))) configured
  /\ Forall (fromConfigured w configured)
       (toolInvocations (fst (useTools pol w input server tools st))).
Proof.
  intros pol w configured input server tools st Hs Hd H1 H2.
  split; [now rewrite useTools_discovered|].
  unfold useTools. destruct (nonEmpty tools); [|exact H2].
  unfold Eff.bind at 1.
  pose proof (selectRelevantTools_silent pol w input tools server st) as Hsil.
  pose proof (selectRelevantTools_incl pol w input tools server st) as Hincl.
  destruct (selectRelevantTools pol w input tools server st) as [st1 [e|selected]];
    cbn [fst snd] in *; subst st1; [exact H2|].
  unfold Eff.bind at 1. destruct selected as [sel|]; cbn [Eff.deref]; [|exact H2].
  unfold Eff.ret at 1.
  apply (invokeAll_keeps_configured pol w configured input server tools sel Hs Hd
           (Hincl sel eq_refl) st H2).
Qed.

Lemma discoverAndInvoke_keeps_configured : forall pol w configured input relevant,
  incl relevant configured ->
  keeps (fun st => incl (discovered st) configured
                   /\ Forall (fromConfigured w configured) (toolInvocations st))
    (discoverAndInvoke pol w input relevant).
Proof.
  intros pol w configured input. induction relevant as [|server rest IH];
    intros Hincl st [H1 H2].
  - cbn [discoverAndInvoke Eff.ret fst]. now split.
  - rewrite discoverAndInvoke_cons.
    assert (In server configured) as Hs by (apply Hincl; now left).
    pose proof (discoverTools_state pol w server st) as Hst.
    pose proof (discoverTools_found pol w server st) as Hfound.
    destruct (discoverTools pol w server st) as [st1 [e|[tools|]]]; cbn [fst snd] in *.
    + subst st1. cbn [discovered toolInvocations]. split; [|assumption].
      apply incl_app; [assumption|]. intros x [<-|[]]. assumption.
    + assert (incl (discovered st1) configured
              /\ Forall (fromConfigured w configured) (toolInvocations st1)) as [G1 G2].
      { subst st1. cbn [discovered toolInvocations]. split; [|assumption].
        apply incl_app; [assumption|]. intros x [<-|[]]. assumption. }
      destruct (useTools_keeps_configured pol w configured input server tools st1 Hs
                  (Hfound tools eq_refl) G1 G2) as [U1 U2].
      destruct (useTools pol w input server tools st1) as [st2 [e|u]]; cbn [fst] in *.
      * now split.
      * apply IH; [|now split]. intros x Hx. apply Hincl. now right.
    + subst st1. cbn [discovered toolInvocations]. split; [|assumption].
      apply incl_app; [assumption|]. intros x [<-|[]]. assumption.
Qed.

Lemma keeps_bind_with : forall I A B (Q : A -> Prop) (m : R A) (f : A -> R B),
  (forall st, I st -> I (fst (m st)) /\ forall a, snd (m st) = inr a -> Q a) ->
  (forall a, Q a -> keeps I (f a)) ->
  keeps I (Eff.bind m f).
Proof.
  intros I A B Q m f Hm Hf st Hst. unfold Eff.bind. destruct (Hm st Hst) as [H1 H2].
  destruct (m st) as [st' [e|a]]; cbn [fst snd] in *; [assumption|].
  apply Hf; [now apply H2|assumption].
Qed.

(** ** Order *)

Lemma subsequence_refl : forall (A : Type) (l : list A), subsequence l l.
Proof. induction l; constructor; assumption. Qed.

Lemma subsequence_filter : forall (A : Type) (keep : A -> bool) l,
  subsequence (filter keep l) l.
Proof.
  induction l as [|x l IH]; [constructor|]. cbn [filter].
  destruct (keep x); constructor; assumption.
Qed.

Lemma subsequence_firstn : forall (A : Type) (s l : list A) k,
  subsequence s l -> subsequence (firstn k s) l.
Proof.
  intros A s l k H. revert k. induction H as [l|x s l H IH|x s l H IH]; intros k.
  - rewrite firstn_nil. constructor.
  - destruct k; cbn [firstn]; constructor. apply IH.
  - constructor. apply IH.
Qed.

Lemma selectServersWith_sub : forall decode configured response,
  subsequence (selectServersWith decode configured response) configured.
Proof.
  intros decode configured response. unfold selectServersWith.
  destruct response as [[|c text]|]; try apply subsequence_refl.
  destruct (decode (c :: text)); [apply subsequence_refl|apply subsequence_filter].
Qed.

Lemma selectToolsWith_sub : forall decode tools response,
  subsequence (selectToolsWith decode tools response) tools.
Proof.
  intros decode tools response. unfold selectToolsWith.
  destruct response as [[|c text]|];
    try (apply subsequence_firstn, subsequence_refl).
  destruct (decode (c :: text));
    [apply subsequence_firstn, subsequence_refl|apply subsequence_filter].
Qed.

Lemma relevantServersOf_sub : forall pol w cfg input st relevant,
  snd (relevantServersOf pol w cfg input st) = inr relevant ->
  subsequence relevant (configuredOf cfg).
Proof.
  intros pol w cfg input st relevant. unfold relevantServersOf, configuredOf.
  destruct (servers cfg) as [[|s0 l]|] eqn:Es.
  - intro H. inversion H. constructor.
  - intro H. apply bind_inr in H as (selected & st1 & Hm & Hd).
    destruct selected as [[sel|]|]; cbn [flatten Eff.deref] in Hd; try discriminate.
    inversion Hd; subst sel. apply measured_inr in Hm.
    unfold selectRelevantServers in Hm. rewrite Es in Hm.
    apply measured_inr in Hm.
    assert (snd (Eff.bind (callLLM pol w false (SelectServers input))
                   (fun response => Eff.ret (selectServersWith decodeXml (s0 :: l) response))
                   st) = inr relevant) as Hb by (now rewrite Hm).
    apply bind_inr in Hb as (response & st2 & _ & Hr). inversion Hr.
    apply selectServersWith_sub.
  - intro H. inversion H. constructor.
Qed.

(** The discovery loop asks a leading part of the providers it is
    given. *)
Lemma discoverAndInvoke_prefix : forall pol w input relevant st,
  exists k, discovered (fst (discoverAndInvoke pol w input relevant st))
            = discovered st ++ firstn k relevant.
Proof.
  intros pol w input. induction relevant as [|server rest IH]; intros st.
  - exists 0. cbn [discoverAndInvoke Eff.ret fst firstn]. now rewrite app_nil_r.
  - rewrite discoverAndInvoke_cons.
    pose proof (discoverTools_discovered pol w server st) as Hd.
    destruct (discoverTools pol w server st) as [st1 [e|[tools|]]]; cbn [fst] in Hd.
    + exists 1. cbn [fst firstn]. exact Hd.
    + pose proof (useTools_discovered pol w input server tools st1) as Hk.
      destruct (useTools pol w input server tools st1) as [st2 [e|u]]; cbn [fst] in Hk.
      * exists 1. cbn [fst firstn]. congruence.
      * destruct (IH st2) as [k Hk2]. exists (S k). cbn [firstn].
        rewrite Hk2, Hk, Hd. now rewrite <- app_assoc.
    + exists 1. cbn [fst firstn]. exact Hd.
Qed.

(** The providers a run's discovery loop asks are configured ones, in
    the order of the configuration. *)
Lemma run_discovered_sub : forall pol w cfg progress input,
  subsequence (discovered (fst (run pol w cfg progress input))) (configuredOf cfg).
Proof.
  intros pol w cfg progress input.
  set (K := fun st : RunState => discovered st = []).
  set (J := fun st : RunState => subsequence (discovered st) (configuredOf cfg)).
  assert (forall st, K st -> J st) as KJ.
  { intros st H. unfold J. rewrite H. constructor. }
  assert (forall A B (m : R A) (f : A -> R B),
            silent m -> (forall a st, K st -> J (fst (f a st))) ->
            forall st, K st -> J (fst (Eff.bind m f st))) as Left.
  { intros A B m f Hm Hf st Hst. unfold Eff.bind. specialize (Hm st).
    destruct (m st) as [st' [e|a]]; cbn [fst] in *; subst st'; [now apply KJ|].
    now apply Hf. }
  assert (forall A B (m : R A) (f : A -> R B),
            (forall st, K st -> J (fst (m st))) -> (forall a, silent (f a)) ->
            forall st, K st -> J (fst (Eff.bind m f st))) as Right.
  { intros A B m f Hm Hf st Hst. unfold Eff.bind. specialize (Hm st Hst).
    destruct (m st) as [st' [e|a]]; cbn [fst] in *; [assumption|].
    now rewrite Hf. }
  assert (J (fst (runBody pol w cfg progress input emptyRun))) as H.
  { unfold runBody.
    apply Left; [silence| |reflexivity]. intros [checked|] st0 H0.
    2:{ rewrite silent_throw. now apply KJ. }
    revert st0 H0. apply Left; [silence|]. intros _ st1 H1.
    unfold Eff.bind at 1.
    pose proof (relevantServersOf_silent pol w cfg (fst (resolveInput w checked)) st1) as Hs.
    pose proof (relevantServersOf_sub pol w cfg (fst (resolveInput w checked)) st1) as Hr.
    destruct (relevantServersOf pol w cfg (fst (resolveInput w checked)) st1)
      as [st2 [e|relevant]]; cbn [fst snd] in *; subst st2; [now apply KJ|].
    specialize (Hr relevant eq_refl).
    revert st1 H1. apply Right.
    - intros st1 H1. destruct (nonEmpty relevant); [|now apply KJ].
      unfold Eff.measured.
      destruct (discoverAndInvoke_prefix pol w (fst (resolveInput w checked)) relevant st1)
        as [k Hk].
      destruct (discoverAndInvoke pol w (fst (resolveInput w checked)) relevant st1)
        as [st3 [e|u]]; [destruct pol|]; cbn [fst] in *; unfold J;
        rewrite Hk, H1; cbn [app]; now apply subsequence_firstn.
    - intros _. apply silent_bind; [apply silent_gets|]. intros results.
      apply silent_bind; [apply silent_measured, generateResponse_silent|].
      intros response. silence. }
  unfold run, Eff.measured.
  destruct (runBody pol w cfg progress input emptyRun) as [st [e|v]];
    [destruct pol|]; exact H.
Qed.

(** X28.  However the generation service answers, the selection steps
    return providers among the configured ones and tools among those the
    provider listed, in their order; so the providers the discovery loop
    of a run asks for their tools are configured ones, in the order of
    the configuration, and every invocation a run records is of a tool
    that a configured provider listed.  (The calls made while the input
    fields are resolved are not the loop's, and go to the addresses the
    field descriptions name.) *)
Theorem run_asks_configured : forall pol w cfg progress input,
  (forall decode response,
     subsequence (selectServersWith decode (configuredOf cfg) response) (configuredOf cfg))
  /\ (forall decode tools response,
        subsequence (selectToolsWith decode tools response) tools)
  /\ subsequence (discovered (fst (run pol w cfg progress input))) (configuredOf cfg)
  /\ Forall (fromConfigured w (configuredOf cfg))
       (toolInvocations (fst (run pol w cfg progress input))).
Proof.
  intros pol w cfg progress input.
  split; [intros; apply selectServersWith_sub|].
  split; [intros; apply selectToolsWith_sub|].
  split; [apply run_discovered_sub|].
  set (I := fun st => incl (discovered st) (configuredOf cfg)
                      /\ Forall (fromConfigured w (configuredOf cfg)) (toolInvocations st)).
  assert (I (fst (run pol w cfg progress input))) as H; [|exact (proj2 H)].
  unfold run. apply (keeps_measured I _ pol); [|split; [intros x []|constructor]].
  unfold runBody.
  apply keeps_bind; [apply silent_keeps; silence|]. intros [checked|].
  2:{ apply silent_keeps; silence. }
  apply keeps_bind; [apply silent_keeps; silence|]. intros _.
  apply (keeps_bind_with I _ _ (fun relevant => incl relevant (configuredOf cfg))).
  { intros st Hst. split.
    - now rewrite relevantServersOf_silent.
    - intros relevant. apply relevantServersOf_incl. }
  intros relevant Hrel.
  apply keeps_bind.
  { destruct (nonEmpty relevant); [|apply silent_keeps; silence].
    apply keeps_measured. now apply discoverAndInvoke_keeps_configured. }
  intros _. apply keeps_bind; [apply silent_keeps; silence|]. intros results.
  apply keeps_bind.
  { apply silent_keeps. apply silent_measured. apply generateResponse_silent. }
  intros response. apply silent_keeps. silence.
Qed.

(** The selections of the eager world, which names a provider that is
    not configured and names the configured ones in another order. *)
Example run_asks_configured_eager :
  discovered (fst (run Propagate eagerWorld askingConfig false
                     (VObj [(str "question", VStr (str "Rain?"))])))
  = [weatherServer].
Proof. vm_compute. reflexivity. Qed.

End RunLaws.

Import PaymentFacts.

(* ===================================================================== *)
(** * The provider's calls and the payment loop *)
(* ===================================================================== *)

Module McpLaws.
Import Agent Payments Mcp Props Scenes.

Lemma loop_unpaid : forall pol net fuel t,
  loop pol net None (S fuel) 0 t
  = (mkTrace (S (attempts t)) (payments t),
     match fetch net (attempts t) with
     | inl e => inl (match pol with Swallow => TypeError | Propagate => e end)
     | inr res => if ok res then inr (Some res)
                  else inl (RequestFailed (status res) (body res))
     end).
Proof.
  intros pol net fuel t. rewrite loop_first. cbv zeta.
  destruct (fetch net (attempts t)) as [e|res]; [reflexivity|].
  destruct (ok res); [reflexivity|]. now rewrite orb_true_r.
Qed.

Lemma fetchUnpaid_once : forall pol web request t,
  fetchUnpaid pol web request t
  = (mkTrace (S (attempts t)) (payments t),
     match fetch (web request) (attempts t) with
     | inl e => inl (match pol with Swallow => TypeError | Propagate => e end)
     | inr res => if ok res then inr res
                  else inl (RequestFailed (status res) (body res))
     end).
Proof.
  intros pol web request t. unfold fetchUnpaid, Eff.bind.
  change 2 with (S 1). rewrite loop_unpaid.
  destruct (fetch (web request) (attempts t)) as [e|res]; [reflexivity|].
  destruct (ok res); reflexivity.
Qed.

(** What a measured call makes of a request that is fetched once and
    then decoded. *)
Lemma measured_fetch : forall (A : Type) pol web request (decode : Response -> exn + A) t,
  Eff.bind (Eff.measured pol
              (Eff.bind (fetchUnpaid pol web request)
                 (fun response => Eff.bind (Eff.lift (decode response))
                    (fun a => Eff.measured pol (Eff.ret a)))))
           (fun found => Eff.ret (flatten found)) t
  = (mkTrace (S (attempts t)) (payments t),
     match fetch (web request) (attempts t) with
     | inl e => match pol with Swallow => inr None | Propagate => inl e end
     | inr res =>
         if ok res
         then match decode res with
              | inl e => match pol with Swallow => inr None | Propagate => inl e end
              | inr a => inr (Some a)
              end
         else match pol with
              | Swallow => inr None
              | Propagate => inl (RequestFailed (status res) (body res))
              end
     end).
Proof.
  intros A pol web request decode t.
  unfold Eff.bind at 1. unfold Eff.measured at 1. unfold Eff.bind at 1.
  rewrite fetchUnpaid_once.
  destruct (fetch (web request) (attempts t)) as [e|res]; [now destruct pol|].
  destruct (ok res); [|now destruct pol].
  unfold Eff.bind, Eff.lift, Eff.measured, Eff.ret.
  destruct (decode res) as [e|a]; [now destruct pol|reflexivity].
Qed.

(** X14.  Asking a provider for its tools and invoking a tool each make
    exactly one request and never a payment, since they call the payment
    loop without a wallet: a response that is not ok, a 402 included,
    fails the call ([measure] turning the failure into null or letting it
    through), and an ok response is decoded and returned. *)
Theorem mcp_calls_never_pay :
  forall pol web stringify toolsOf resultOf server toolName parameters t,
  let d := discoverTools pol web toolsOf server t in
  let i := invokeTool pol web stringify resultOf server toolName parameters t in
  payments (fst d) = payments t /\ attempts (fst d) = S (attempts t)
  /\ payments (fst i) = payments t /\ attempts (fst i) = S (attempts t)
  /\ (forall res,
        fetch (web (mkRequest (server_url server ++ str "/tools") (str "GET") None))
          (attempts t) = inr res ->
        snd d = if ok res
                then match toolsOf res with
                     | inl e => failedWith _ pol e
                     | inr tools => inr (Some tools)
                     end
                else failedWith _ pol (RequestFailed (status res) (body res)))
  /\ (forall res,
        fetch (web (mkRequest (server_url server ++ str "/call") (str "POST")
                      (Some (stringify toolName parameters))))
          (attempts t) = inr res ->
        snd i = if ok res
                then match resultOf res with
                     | inl e => failedWith _ pol e
                     | inr result => inr (Some result)
                     end
                else failedWith _ pol (RequestFailed (status res) (body res))).
Proof.
  intros pol web stringify toolsOf resultOf server toolName parameters t d i.
  subst d i. unfold discoverTools, invokeTool, failedWith. cbv zeta.
  rewrite !measured_fetch. cbn [fst snd attempts payments].
  repeat split; intros res H; rewrite H; reflexivity.
Qed.

Lemma mcp_calls_never_pay_witness :
  discoverTools Propagate paidWeb twoTools weatherServer (mkTrace 0 0)
  = (mkTrace 1 0, inl (RequestFailed 402 (body paywall)))
  /\ snd (discoverTools Swallow openWeb twoTools weatherServer (mkTrace 0 0))
     = inr (Some [forecastTool; alertTool]).
Proof.
  pose proof (mcp_calls_never_pay Propagate paidWeb (fun _ _ => []) twoTools
                (fun _ => inr VNull) weatherServer [] VNull (mkTrace 0 0)) as H1.
  pose proof (mcp_calls_never_pay Swallow openWeb (fun _ _ => []) twoTools
                (fun _ => inr VNull) weatherServer [] VNull (mkTrace 0 0)) as H2.
  cbv zeta in H1, H2.
  destruct H1 as (Hp & Ha & _ & _ & Hd & _). destruct H2 as (_ & _ & _ & _ & Hd2 & _).
  split.
  - specialize (Hd paywall eq_refl).
    destruct (discoverTools Propagate paidWeb twoTools weatherServer (mkTrace 0 0))
      as [[a p] r]. cbn [fst snd attempts payments] in *. now subst.
  - exact (Hd2 okResponse eq_refl).
Defined.

End McpLaws.

Module PaymentLaws.
Import Payments Props Scenes.

Lemma wallet_402 : forall res (wl : Wallet),
  status res = 402%N ->
  ok res = false
  /\ negb (status res =? 402)%N || match Some wl with None => true | Some _ => false end
     = false.
Proof.
  intros res wl H. split; [now apply status_402_not_ok|]. now rewrite H.
Qed.

(** X27.  What a payment that fails does to the call, on a 402 with a
    wallet.  When the payment request cannot be read off the response,
    the call rejects with that error, after one attempt and no payment.
    When sending or confirming the transaction fails, a [measure] that
    lets errors through makes the call reject with that error without
    trying again, while the swallowing [measure] lets the call go on: the
    request is made a second time all the same, and the second response
    decides. *)
Theorem failed_payment : forall net wl res,
  fetch net 0 = inr res -> status res = 402%N ->
  (forall pol e, prepare net res = inl e ->
     fetchWithPayment pol net (Some wl) = (mkTrace 1 0, inl e))
  /\ (forall e, prepare net res = inr tt -> sendTransaction net res = inl e ->
        fetchWithPayment Propagate net (Some wl) = (mkTrace 1 1, inl e))
  /\ (forall sg e, prepare net res = inr tt -> sendTransaction net res = inr sg ->
        confirmTransaction net (Some sg) = inl e ->
        fetchWithPayment Propagate net (Some wl) = (mkTrace 1 1, inl e))
  /\ (prepare net res = inr tt ->
      fetchWithPayment Swallow net (Some wl)
      = (mkTrace 2 1,
         match fetch net 1 with
         | inl _ => inl TypeError
         | inr res2 => if ok res2 then inr (Some res2)
                       else inl (RequestFailed (status res2) (body res2))
         end)).
Proof.
  intros net wl res Hf Hs. destruct (wallet_402 res wl Hs) as [Hok Hw].
  unfold fetchWithPayment. split; [|split; [|split]].
  - intros pol e Hp. rewrite loop_first. cbv zeta. cbn [attempts payments].
    rewrite Hf, Hok, Hw, Hp. reflexivity.
  - intros e Hp Hsend. rewrite loop_first. cbv zeta. cbn [attempts payments].
    rewrite Hf, Hok, Hw, Hp, Hsend. reflexivity.
  - intros sg e Hp Hsend Hc. rewrite loop_first. cbv zeta. cbn [attempts payments].
    rewrite Hf, Hok, Hw, Hp, Hsend, Hc. reflexivity.
  - intros Hp. rewrite loop_first. cbv zeta. cbn [attempts payments].
    rewrite Hf, Hok, Hw, Hp.
    rewrite (@loop_last Swallow net (Some wl)) by (unfold maxRetries; lia).
    reflexivity.
Qed.

Lemma failed_payment_witness :
  fetchWithPayment Propagate brokeNet (Some demoWallet)
  = (mkTrace 1 1, inl (Error (str "insufficient funds")))
  /\ fetchWithPayment Swallow brokeNet (Some demoWallet)
     = (mkTrace 2 1, inr (Some okResponse)).
Proof.
  destruct (failed_payment brokeNet demoWallet paywall eq_refl eq_refl)
    as (_ & H2 & _ & H4).
  split.
  - apply H2; reflexivity.
  - rewrite H4; reflexivity.
Defined.

End PaymentLaws.

(* ===================================================================== *)
(** * The event-stream reader *)
(* ===================================================================== *)

Module SseLaws.
Import Stream Doc Sse Props Scenes StreamFacts.

(** ** Lines *)

Lemma splitLines_cons : forall s, exists l ls, splitLines s = l :: ls.
Proof.
  induction s as [|c s (l & ls & IH)]; [now exists [], []|].
  cbn [splitLines]. destruct (c =? ch_nl)%N; [eauto|]. rewrite IH. eauto.
Qed.

Lemma removelast_cons : forall (A : Type) (a b : A) l,
  removelast (a :: b :: l) = a :: removelast (b :: l).
Proof. reflexivity. Qed.

Lemma last_cons : forall (A : Type) (a b : A) l d, last (a :: b :: l) d = last (b :: l) d.
Proof. reflexivity. Qed.

(** Splitting a text that continues: the complete lines of the first
    part, then the lines of its last piece followed by the rest. *)
Lemma splitLines_app : forall x y,
  splitLines (x ++ y)
  = removelast (splitLines x) ++ splitLines (last (splitLines x) [] ++ y).
Proof.
  induction x as [|c x IH]; intros y; [reflexivity|].
  cbn [app splitLines]. destruct (c =? ch_nl)%N eqn:E.
  - rewrite IH. destruct (splitLines_cons x) as (l & ls & ->).
    rewrite removelast_cons, last_cons. reflexivity.
  - rewrite IH. destruct (splitLines_cons x) as (l & ls & ->).
    destruct ls as [|l2 ls].
    + cbn [removelast last app splitLines]. rewrite E.
      destruct (splitLines_cons (l ++ y)) as (l' & ls' & ->). reflexivity.
    + rewrite !removelast_cons, !last_cons. reflexivity.
Qed.

Lemma splitLines_one : forall b, includes ch_nl b = false -> splitLines b = [b].
Proof.
  induction b as [|c b IH]; intro H; [reflexivity|].
  cbn [includes existsb] in H. apply orb_false_iff in H as [Hc H].
  rewrite N.eqb_sym in Hc. cbn [splitLines]. rewrite Hc. now rewrite IH.
Qed.

Lemma last_line_whole : forall x, includes ch_nl (last (splitLines x) []) = false.
Proof.
  induction x as [|c x IH]; [reflexivity|]. cbn [splitLines].
  destruct (c =? ch_nl)%N eqn:E.
  - destruct (splitLines_cons x) as (l & ls & Hx). rewrite Hx in *. now rewrite last_cons.
  - destruct (splitLines_cons x) as (l & ls & Hx). rewrite Hx in *.
    destruct ls as [|l2 ls].
    + cbn [last] in *. cbn [includes existsb]. rewrite N.eqb_sym, E. exact IH.
    + now rewrite last_cons in *.
Qed.

Lemma split_last : forall (A : Type) (l : list A) d,
  l <> [] -> l = removelast l ++ [last l d].
Proof. intros A l d H. now apply app_removelast_last. Qed.

(** ** The read loop *)

Lemma fold_onRead : forall delta reads b acc,
  includes ch_nl b = false ->
  fold_left (onRead delta) reads (b, acc)
  = (last (splitLines (b ++ concat reads)) [],
     fold_left (feedLine delta) (removelast (splitLines (b ++ concat reads))) acc).
Proof.
  intros delta. induction reads as [|r reads IH]; intros b acc Hb.
  - cbn [fold_left concat]. rewrite app_nil_r, splitLines_one by assumption. reflexivity.
  - cbn [fold_left concat]. unfold onRead at 2. cbn [fst snd].
    rewrite IH by apply last_line_whole.
    rewrite app_assoc. rewrite (splitLines_app (b ++ r) (concat reads)).
    destruct (splitLines_cons (last (splitLines (b ++ r)) [] ++ concat reads))
      as (l & ls & E). rewrite E.
    assert (forall (A : Type) (p q : list A) d, q <> [] -> last (p ++ q) d = last q d) as Hl.
    { intros A p q d Hq. induction p as [|a p IHp]; [reflexivity|].
      cbn [app]. destruct (p ++ q) eqn:Epq; [|exact IHp].
      apply app_eq_nil in Epq as [_ ->]. contradiction. }
    rewrite Hl by discriminate.
    assert (forall (A : Type) (p q : list A), q <> [] ->
              removelast (p ++ q) = p ++ removelast q) as Hr.
    { intros A p q Hq. now apply removelast_app. }
    rewrite Hr by discriminate. now rewrite fold_left_app.
Qed.

Lemma processChunk_nil : forall st, processChunk st [] = (st, []).
Proof.
  intros [fr stk cur buf ins]. unfold processChunk. cbn [steps fullResponse tagStack
    currentTagName wordBuffer insideTag]. now rewrite app_nil_r.
Qed.

Lemma feedLine_chunk : forall delta acc line,
  feedLine delta acc line
  = (fst (processChunk (fst acc) (parseSseLine delta line)),
     snd acc ++ snd (processChunk (fst acc) (parseSseLine delta line))).
Proof.
  intros delta [st ups] line. unfold feedLine. cbn [fst snd].
  destruct (parseSseLine delta line) as [|c content] eqn:E; cbn [nonEmpty].
  - rewrite processChunk_nil. cbn [fst snd]. now rewrite app_nil_r.
  - now destruct (processChunk st (c :: content)).
Qed.

Lemma fold_feedLine : forall delta lines st ups,
  fold_left (feedLine delta) lines (st, ups)
  = (fst (processChunks st (List.map (parseSseLine delta) lines)),
     ups ++ snd (processChunks st (List.map (parseSseLine delta) lines))).
Proof.
  intros delta. induction lines as [|line lines IH]; intros st ups.
  - cbn [fold_left List.map processChunks fst snd]. now rewrite app_nil_r.
  - cbn [fold_left List.map processChunks]. rewrite feedLine_chunk. cbn [fst snd].
    rewrite IH. destruct (processChunk st (parseSseLine delta line)) as [st1 out1].
    cbn [fst snd].
    destruct (processChunks st1 (List.map (parseSseLine delta) lines)) as [st2 out2].
    cbn [fst snd]. now rewrite app_assoc.
Qed.

Lemma parseSseLine_nil : forall delta, parseSseLine delta [] = [].
Proof. reflexivity. Qed.

Lemma readAll_lines : forall delta reads,
  readAll delta reads
  = stream (List.map (parseSseLine delta) (splitLines (concat reads))).
Proof.
  intros delta reads. unfold readAll. rewrite fold_onRead by reflexivity.
  cbn [app]. set (L := splitLines (concat reads)).
  assert (L <> []) as HL by (subst L; destruct (splitLines_cons (concat reads))
                               as (l & ls & ->); discriminate).
  unfold finish. cbn [fst snd].
  assert ((if nonEmpty (last L [])
           then feedLine delta (fold_left (feedLine delta) (removelast L) (initial, []))
                  (last L [])
           else fold_left (feedLine delta) (removelast L) (initial, []))
          = fold_left (feedLine delta) L (initial, [])) as E.
  { rewrite (split_last _ L [] HL) at 5. rewrite fold_left_app. cbn [fold_left].
    destruct (last L []) as [|c rest] eqn:El; cbn [nonEmpty]; [|reflexivity].
    rewrite feedLine_chunk, parseSseLine_nil, processChunk_nil. cbn [fst snd].
    rewrite app_nil_r. now destruct (fold_left _ _ _). }
  rewrite E, fold_feedLine. cbn [fst snd app]. unfold stream.
  now destruct (processChunks initial (List.map (parseSseLine delta) L)).
Qed.

(** X15.  The streaming branch of [callLLM] reassembles the lines of the
    event stream across reads: what it returns and what it streams do not
    depend on where the response body was cut into reads, and are what the
    extractor makes of the payload texts of the lines of the whole body,
    a line that does not start with ["data: "] or that holds ["[DONE]"]
    counting for nothing. *)
Theorem readAll_any_reads : forall delta reads,
  readAll delta reads = stream (List.map (parseSseLine delta) (splitLines (concat reads)))
  /\ forall reads', concat reads' = concat reads -> readAll delta reads' = readAll delta reads.
Proof.
  intros delta reads. split; [apply readAll_lines|].
  intros reads' H. now rewrite !readAll_lines, H.
Qed.

Lemma readAll_any_reads_witness :
  readAll rawDelta [firstn 9 sseText; firstn 20 (skipn 9 sseText); skipn 29 sseText]
  = readAll rawDelta [sseText]
  /\ fst (readAll rawDelta [sseText]) = str "<a>hi there</a>".
Proof.
  split.
  - apply (readAll_any_reads rawDelta [sseText]). reflexivity.
  - rewrite (proj1 (readAll_any_reads rawDelta [sseText])). reflexivity.
Defined.

End SseLaws.

(* ===================================================================== *)
(** * The analytics store *)
(* ===================================================================== *)

Module AnalyticsLaws.
Import Analytics Props Scenes.

(** ** The sort *)

Lemma insertDesc_perm : forall (A : Type) (key : A -> N) x l,
  Permutation (insertDesc key x l) (x :: l).
Proof.
  intros A key x. induction l as [|y l IH]; [reflexivity|]. cbn [insertDesc].
  destruct (key y <=? key x)%N; [reflexivity|].
  rewrite IH. apply perm_swap.
Qed.

Lemma sortDesc_perm : forall (A : Type) (key : A -> N) l, Permutation (sortDesc key l) l.
Proof.
  intros A key. induction l as [|x l IH]; [reflexivity|].
  unfold sortDesc in *. cbn [fold_right]. rewrite insertDesc_perm. now constructor.
Qed.

Lemma insertDesc_sorted : forall (A : Type) (key : A -> N) x l,
  Sorted (fun a b => (key b <= key a)%N) l ->
  Sorted (fun a b => (key b <= key a)%N) (insertDesc key x l).
Proof.
  intros A key x. induction l as [|y l IH]; intro H.
  - repeat constructor.
  - cbn [insertDesc]. destruct (key y <=? key x)%N eqn:E.
    + apply N.leb_le in E. constructor; [assumption|]. now constructor.
    + apply N.leb_gt in E. inversion H as [|? ? Hs Hh]; subst.
      constructor; [now apply IH|].
      destruct l as [|z l]; cbn [insertDesc].
      * constructor. lia.
      * destruct (key z <=? key x)%N; constructor; [lia|]. now inversion Hh.
Qed.

Lemma sortDesc_descending : forall (A : Type) (key : A -> N) l,
  descending key (sortDesc key l).
Proof.
  intros A key l. unfold descending. apply Sorted_StronglySorted.
  - intros a b c Hab Hbc. lia.
  - induction l as [|x l IH]; [constructor|].
    unfold sortDesc in *. cbn [fold_right]. now apply insertDesc_sorted.
Qed.

(** The sort is stable: elements of equal key keep their order. *)
Lemma insertDesc_stable : forall (A : Type) (key : A -> N) k x l,
  filter (fun a => (key a =? k)%N) (insertDesc key x l)
  = filter (fun a => (key a =? k)%N) (x :: l).
Proof.
  intros A key k x. induction l as [|y l IH]; [reflexivity|]. cbn [insertDesc].
  destruct (key y <=? key x)%N eqn:E; [reflexivity|]. apply N.leb_gt in E.
  cbn [filter] in *. rewrite IH.
  destruct (key x =? k)%N eqn:Ex; destruct (key y =? k)%N eqn:Ey; try reflexivity.
  apply N.eqb_eq in Ex, Ey. lia.
Qed.

Lemma sortDesc_stable : forall (A : Type) (key : A -> N) k l,
  filter (fun a => (key a =? k)%N) (sortDesc key l) = filter (fun a => (key a =? k)%N) l.
Proof.
  intros A key k. induction l as [|x l IH]; [reflexivity|].
  unfold sortDesc in *. cbn [fold_right]. rewrite insertDesc_stable.
  cbn [filter]. now rewrite IH.
Qed.

(** ** Reading *)

(** X16.  [getAllRequests] returns the stored requests, all of them and
    no other, newest first, requests of equal time in the order they were
    stored; and [getRequestsByAgent] returns those of them that bear the
    agent's name, in that order. *)
Theorem getAllRequests_newest_first :
  forall (Text : Type) (parse : Text -> option AnalyticsData) disk,
  let stored := requests (snd (loadData parse disk)) in
  let all := snd (getAllRequests parse disk) in
  Permutation all stored
  /\ descending timestamp all
  /\ (forall t, filter (fun r => (timestamp r =? t)%N) all
                = filter (fun r => (timestamp r =? t)%N) stored)
  /\ forall agent,
       snd (getRequestsByAgent parse disk agent) = requestsOf agent all
       /\ descending timestamp (requestsOf agent all).
Proof.
  intros Text parse disk stored all. subst stored all.
  unfold getRequestsByAgent, getAllRequests.
  destruct (loadData parse disk) as [disk' data]. cbn [snd].
  split; [apply sortDesc_perm|]. split; [apply sortDesc_descending|].
  split; [intro t; apply sortDesc_stable|].
  intros agent. split; [reflexivity|].
  unfold requestsOf, descending.
  pose proof (sortDesc_descending _ timestamp (requests data)) as H.
  unfold descending in H. induction H as [|a l Hs IH Hf]; [constructor|].
  cbn [filter]. destruct (Js.eqb (agentName a) agent); [|assumption].
  constructor; [assumption|].
  rewrite Forall_forall in *. intros x Hx. apply filter_In in Hx as [Hx _]. now apply Hf.
Qed.

Example getAllRequests_three :
  List.map timestamp (snd (getAllRequests readPlain threeRequests)) = [9; 7; 5]%N
  /\ List.map timestamp (snd (getRequestsByAgent readPlain threeRequests (str "WeatherBot")))
     = [7; 5]%N.
Proof. vm_compute. split; reflexivity. Qed.

(** ** Recording *)

Lemma loadData_saveData : forall (Text : Type) (stringify : AnalyticsData -> Text)
    (parse : Text -> option AnalyticsData) disk data,
  (forall d, parse (stringify d) = Some d) ->
  snd (loadData parse (saveData stringify (fst (loadData parse disk)) data)) = data.
Proof.
  intros Text stringify parse disk data H. unfold loadData, saveData. cbn [fst snd].
  destruct disk as [|file]; cbn [ensureDataDir]; now rewrite H.
Qed.

Lemma lastN_suffix : forall (A : Type) n (l : list A),
  firstn (length l - n) l ++ lastN n l = l.
Proof. intros A n l. unfold lastN. apply firstn_skipn. Qed.

Lemma lastN_length : forall (A : Type) n (l : list A), n <= length l -> length (lastN n l) = n.
Proof. intros A n l H. unfold lastN. rewrite length_skipn. lia. Qed.

Lemma lastN_snoc : forall (A : Type) n (l : list A) x,
  0 < n -> exists front, lastN n (l ++ [x]) = front ++ [x].
Proof.
  intros A n l x Hn. unfold lastN. rewrite length_app. cbn [length].
  rewrite skipn_app.
  replace (length l + 1 - n - length l) with 0 by lia. cbn [skipn]. eauto.
Qed.

(** X17.  When what is written to the file reads back as it was,
    [addRequest] leaves a store that holds at most 1000 requests, the new
    request last: the stored requests are the old ones followed by the
    new one when there were fewer than 1000, and otherwise the last 1000
    of them, the oldest being dropped; the version is kept. *)
Theorem addRequest_keeps_newest :
  forall (Text : Type) (stringify : AnalyticsData -> Text)
         (parse : Text -> option AnalyticsData) disk request,
  (forall d, parse (stringify d) = Some d) ->
  let before := snd (loadData parse disk) in
  let after := snd (loadData parse (addRequest stringify parse disk request)) in
  length (requests after) <= 1000
  /\ (exists front, requests after = front ++ [request])
  /\ (exists dropped, requests before ++ [request] = dropped ++ requests after)
  /\ (length (requests before) < 1000 -> requests after = requests before ++ [request])
  /\ version after = version before.
Proof.
  intros Text stringify parse disk request H before after. subst before after.
  unfold addRequest.
  pose proof (loadData_saveData Text stringify parse disk) as L.
  destruct (loadData parse disk) as [disk' data] eqn:E. cbn [fst snd] in *.
  rewrite L by assumption. cbn [requests version].
  set (pushed := requests data ++ [request]).
  assert (length pushed = S (length (requests data))) as Hlen
      by (subst pushed; rewrite length_app; cbn [length]; lia).
  destruct (1000 <? length pushed) eqn:C.
  - apply Nat.ltb_lt in C. repeat split.
    + rewrite lastN_length; lia.
    + subst pushed. apply lastN_snoc. lia.
    + exists (firstn (length pushed - 1000) pushed). symmetry. apply lastN_suffix.
    + intro Hlt. lia.
  - apply Nat.ltb_ge in C. repeat split.
    + assumption.
    + now exists (requests data).
    + now exists [].
Qed.

Lemma addRequest_keeps_newest_witness :
  requests (snd (loadData readPlain
                   (addRequest plainStore readPlain threeRequests
                      (recorded "WeatherBot" 11 success))))
  = requests (snd (loadData readPlain threeRequests)) ++ [recorded "WeatherBot" 11 success].
Proof.
  apply (addRequest_keeps_newest _ plainStore readPlain threeRequests
           (recorded "WeatherBot" 11 success)).
  - reflexivity.
  - cbn. lia.
Defined.

(** ** A store that cannot be read *)

(** X18.  A store whose directory or file is missing, or whose file does
    not parse, reads as empty, without an error: it lists no request and
    no agent, the directory is made, and the next [addRequest] writes a
    file that holds the new request alone, whatever the file held; and,
    when what is written reads back as it was, the store is empty after
    [clearAllData]. *)
Theorem unreadable_store_reads_empty :
  forall (Text : Type) (stringify : AnalyticsData -> Text)
         (parse : Text -> option AnalyticsData) disk,
  (unreadable parse disk ->
     loadData parse disk = (ensureDataDir disk, emptyData)
     /\ ensureDataDir disk <> NoDir
     /\ snd (getAllRequests parse disk) = []
     /\ snd (getAgentStats parse disk) = []
     /\ forall request,
          addRequest stringify parse disk request
          = Dir (Some (stringify (mkData [request] 1))))
  /\ ((forall d, parse (stringify d) = Some d) ->
      snd (getAllRequests parse (clearAllData stringify disk)) = []).
Proof.
  intros Text stringify parse disk. split.
  - intro H. unfold getAgentStats, getAllRequests, addRequest, saveData, loadData.
    destruct disk as [|[text|]]; cbn [unreadable ensureDataDir] in *; rewrite ?H;
      repeat split; discriminate.
  - intro H. unfold getAllRequests, clearAllData, saveData, loadData.
    destruct disk as [|file]; cbn [ensureDataDir]; now rewrite H.
Qed.

Lemma unreadable_store_reads_empty_witness :
  snd (getAllRequests (fun _ : jsstring => None) (Dir (Some (str "{not json")))) = []
  /\ snd (getAllRequests readPlain (clearAllData plainStore threeRequests)) = [].
Proof.
  destruct (unreadable_store_reads_empty jsstring (fun _ => []) (fun _ => None)
              (Dir (Some (str "{not json")))) as [H1 _].
  destruct (unreadable_store_reads_empty _ plainStore readPlain threeRequests) as [_ H2].
  split.
  - apply H1. reflexivity.
  - apply H2. reflexivity.
Defined.

(** ** The rows of the agents *)

Lemma requestsOf_app : forall agent a b,
  requestsOf agent (a ++ b) = requestsOf agent a ++ requestsOf agent b.
Proof. intros. unfold requestsOf. apply filter_app. Qed.

Lemma groupOf_pushTo : forall k agent request agentMap,
  groupOf k (pushTo agent request agentMap)
  = groupOf k agentMap ++ (if Js.eqb agent k then [request] else []).
Proof.
  intros k agent request. induction agentMap as [|[k' l] rest IH].
  - cbn [pushTo groupOf]. now destruct (Js.eqb agent k).
  - cbn [pushTo groupOf]. destruct (Js.eqb k' agent) eqn:E.
    + apply eqb_eq in E. subst k'. cbn [groupOf].
      destruct (Js.eqb agent k); [reflexivity|now rewrite app_nil_r].
    + cbn [groupOf]. destruct (Js.eqb k' k) eqn:E2; [|exact IH].
      apply eqb_eq in E2. subst k'. apply eqb_neq in E.
      destruct (Js.eqb agent k) eqn:E3; [|now rewrite app_nil_r].
      apply eqb_eq in E3. now subst.
Qed.

Lemma pushTo_keys : forall agent request agentMap,
  NoDup (List.map fst agentMap) ->
  NoDup (List.map fst (pushTo agent request agentMap))
  /\ forall k, In k (List.map fst (pushTo agent request agentMap))
               <-> k = agent \/ In k (List.map fst agentMap).
Proof.
  intros agent request. induction agentMap as [|[k' l] rest IH]; intro H.
  - cbn [pushTo List.map fst]. split; [repeat constructor; intros []|].
    intro k. cbn [In]. intuition.
  - cbn [pushTo]. inversion H as [|? ? Hn Hd]; subst.
    destruct (Js.eqb k' agent) eqn:E.
    + apply eqb_eq in E. subst k'. cbn [List.map fst]. split; [assumption|].
      intro k. cbn [In]. intuition.
    + apply eqb_neq in E. destruct (IH Hd) as [IH1 IH2]. cbn [List.map fst]. split.
      * constructor; [|assumption]. intro Hin. apply IH2 in Hin as [Hin|Hin];
          [now subst|contradiction].
      * intro k. cbn [In]. rewrite IH2. intuition.
Qed.

Lemma pushTo_nonempty : forall agent request agentMap,
  Forall (fun e => snd e <> []) agentMap ->
  Forall (fun e => snd e <> []) (pushTo agent request agentMap).
Proof.
  intros agent request. induction agentMap as [|[k' l] rest IH]; intro H.
  - cbn [pushTo]. repeat constructor. discriminate.
  - cbn [pushTo]. inversion H as [|? ? Hl Hr]; subst.
    destruct (Js.eqb k' agent).
    + constructor; [|assumption]. cbn [snd]. now destruct l.
    + constructor; [assumption|now apply IH].
Qed.

Lemma fold_pushTo : forall all agentMap,
  NoDup (List.map fst agentMap) ->
  Forall (fun e => snd e <> []) agentMap ->
  let grouped := fold_left (fun m request => pushTo (agentName request) request m)
                   all agentMap in
  NoDup (List.map fst grouped)
  /\ Forall (fun e => snd e <> []) grouped
  /\ forall k, groupOf k grouped = groupOf k agentMap ++ requestsOf k all.
Proof.
  induction all as [|r all IH]; intros agentMap Hd Hn.
  - cbn [fold_left]. repeat split; try assumption. intro k. now rewrite app_nil_r.
  - cbn [fold_left]. destruct (pushTo_keys (agentName r) r agentMap Hd) as [Hd' _].
    destruct (IH _ Hd' (pushTo_nonempty _ r _ Hn)) as (H1 & H2 & H3).
    repeat split; try assumption.
    intro k. rewrite H3, groupOf_pushTo, <- app_assoc. f_equal.
    unfold requestsOf. cbn [filter]. now destruct (Js.eqb (agentName r) k).
Qed.

Lemma groupOf_in : forall k l agentMap,
  NoDup (List.map fst agentMap) -> In (k, l) agentMap -> groupOf k agentMap = l.
Proof.
  induction agentMap as [|[k' l'] rest IH]; intros Hd Hin; [contradiction|].
  inversion Hd as [|? ? Hn Hd']; subst. cbn [groupOf]. destruct Hin as [Hin|Hin].
  - inversion Hin; subst. now rewrite eqb_refl.
  - destruct (Js.eqb k' k) eqn:E; [|now apply IH].
    apply eqb_eq in E. subst k'. exfalso. apply Hn.
    change k with (fst (k, l)). now apply in_map.
Qed.

Lemma groupOf_absent : forall k agentMap,
  ~ In k (List.map fst agentMap) -> groupOf k agentMap = [].
Proof.
  induction agentMap as [|[k' l'] rest IH]; intro H; [reflexivity|].
  cbn [groupOf]. destruct (Js.eqb k' k) eqn:E.
  - apply eqb_eq in E. subst. exfalso. apply H. now left.
  - apply IH. intro Hin. apply H. now right.
Qed.

Lemma max_of : forall l : list N,
  (forall x, In x l -> (x <= fold_right N.max 0 l)%N)
  /\ (l <> [] -> In (fold_right N.max 0%N l) l).
Proof.
  induction l as [|a l [IH1 IH2]]; [split; [intros x []|intro H; contradiction]|].
  cbn [fold_right]. split.
  - intros x [->|Hin]; [lia|]. specialize (IH1 x Hin). lia.
  - intros _. destruct l as [|b l].
    + cbn [fold_right]. left. lia.
    + destruct (N.max_spec a (fold_right N.max 0%N (b :: l))) as [[_ ->]|[_ ->]].
      * right. apply IH2. discriminate.
      * now left.
Qed.

Lemma filters_disjoint : forall (A : Type) (p q : A -> bool) l,
  (forall a, p a = true -> q a = false) ->
  length (filter p l) + length (filter q l) <= length l.
Proof.
  intros A p q l H. induction l as [|a l IH]; [cbn; lia|]. cbn [filter].
  destruct (p a) eqn:Ep; [rewrite (H a Ep)|destruct (q a)]; cbn [length]; lia.
Qed.

(** X19.  [getAgentStats] returns one row for each agent that has a
    request, and no other; the row counts the agent's requests, those of
    them that succeeded and those that failed, which together are no more
    than all of them; its [lastUsed] is the time of the agent's newest
    request; and the rows come with the most recently used agent first. *)
Theorem getAgentStats_rows :
  forall (Text : Type) (parse : Text -> option AnalyticsData) disk,
  let all := snd (getAllRequests parse disk) in
  let stats := snd (getAgentStats parse disk) in
  NoDup (List.map name stats)
  /\ (forall r, In r all -> exists s, In s stats /\ name s = agentName r)
  /\ (forall s, In s stats ->
        let mine := requestsOf (name s) all in
        mine <> []
        /\ totalRequests s = length mine
        /\ successfulRequests s = length (withStatus success mine)
        /\ failedRequests s = length (withStatus error mine)
        /\ successfulRequests s + failedRequests s <= totalRequests s
        /\ (exists r, In r mine /\ timestamp r = lastUsed s)
        /\ forall r, In r mine -> (timestamp r <= lastUsed s)%N)
  /\ descending lastUsed stats.
Proof.
  intros Text parse disk all stats. subst all stats. unfold getAgentStats.
  destruct (getAllRequests parse disk) as [disk' all]. cbn [snd].
  destruct (fold_pushTo all [] (NoDup_nil _) (Forall_nil _)) as (Hd & Hn & Hg).
  fold (groupByAgent all) in Hd, Hn, Hg. cbn [groupOf app] in Hg.
  set (rows := List.map statsOf (groupByAgent all)).
  assert (List.map name rows = List.map fst (groupByAgent all)) as Hnames.
  { subst rows. rewrite map_map. apply map_ext. now intros [k l]. }
  pose proof (sortDesc_perm _ lastUsed rows) as Hperm.
  split; [|split; [|split]].
  - apply (Permutation_NoDup (l := List.map name rows)).
    + apply Permutation_map. now symmetry.
    + now rewrite Hnames.
  - intros r Hr.
    assert (In (agentName r) (List.map name rows)) as Hin.
    { rewrite Hnames. destruct (in_dec (list_eq_dec N.eq_dec) (agentName r)
                                  (List.map fst (groupByAgent all))) as [Hin|Hout];
        [assumption|].
      apply groupOf_absent in Hout. rewrite Hg in Hout.
      assert (In r (requestsOf (agentName r) all)) as Hmine.
      { unfold requestsOf. apply filter_In. split; [assumption|apply eqb_refl]. }
      rewrite Hout in Hmine. contradiction. }
    apply in_map_iff in Hin as (s & Hs1 & Hs2). exists s. split; [|assumption].
    now apply (Permutation_in s (Permutation_sym Hperm)).
  - intros s Hs. apply (Permutation_in s Hperm) in Hs. subst rows.
    apply in_map_iff in Hs as ([k l] & <- & Hin).
    pose proof (groupOf_in k l _ Hd Hin) as El. rewrite Hg in El.
    rewrite Forall_forall in Hn. specialize (Hn _ Hin). cbn [snd] in Hn.
    cbn [statsOf name totalRequests successfulRequests failedRequests lastUsed].
    rewrite El. repeat split; try assumption; try reflexivity.
    + apply filters_disjoint. intros a Ha. destruct (status a); now try discriminate.
    + destruct (max_of (List.map timestamp l)) as [_ Hmax].
      assert (List.map timestamp l <> []) as Hne by (destruct l; [contradiction|discriminate]).
      apply Hmax in Hne. apply in_map_iff in Hne as (r & Hr1 & Hr2). now exists r.
    + intros r Hr. destruct (max_of (List.map timestamp l)) as [Hmax _].
      apply Hmax. now apply in_map.
  - apply sortDesc_descending.
Qed.

Example getAgentStats_three :
  List.map (fun s => (name s, totalRequests s, failedRequests s, lastUsed s))
    (snd (getAgentStats readPlain threeRequests))
  = [(str "CodeAssistant", 1, 0, 9%N); (str "WeatherBot", 2, 1, 7%N)].
Proof. vm_compute. reflexivity. Qed.

End AnalyticsLaws.

Import AgentFacts.

(* ===================================================================== *)
(** * The prompt of the final call *)
(* ===================================================================== *)

Module DescribeLaws.
Import Agent Describe Props Scenes StreamLaws.

(** ** The output-format template *)

Lemma describeField_unwrapAll : forall t, describeField t = describeField (unwrapAll t).
Proof. induction t using ZodType_nested_ind; try reflexivity; cbn; assumption. Qed.

Lemma describeField_leaf : forall t,
  match unwrapAll t with ZodObject _ => False | _ => True end ->
  describeField t = VStr [].
Proof.
  intros t H. rewrite describeField_unwrapAll.
  destruct (unwrapAll t) eqn:E; try reflexivity; try contradiction.
  - exfalso. clear H. induction t; cbn in E; try discriminate; auto.
  - exfalso. clear H. induction t; cbn in E; try discriminate; auto.
Qed.

(** The local loop of [describeField], as a fold. *)
Lemma describeField_object : forall shape,
  describeField (ZodObject shape)
  = VObj (fold_left (fun description kv => assign (fst kv) (describeField (snd kv)) description)
            shape []).
Proof.
  intros shape. cbn [describeField]. f_equal. generalize (@nil (jsstring * value)).
  induction shape as [|[k ft] rest IH]; intros acc; [reflexivity|].
  cbn [fold_left fst snd]. apply IH.
Qed.

Lemma getOutputFormatDescription_nested : forall shape,
  getOutputFormatDescription shape = getNestedDescription shape.
Proof.
  intros shape. unfold getOutputFormatDescription, getNestedDescription.
  rewrite describeField_object. f_equal. generalize (@nil (jsstring * value)).
  induction shape as [|[k ft] rest IH]; intros acc; [reflexivity|].
  cbn [fold_left fst snd]. rewrite <- IH. f_equal. f_equal.
  rewrite (describeField_unwrapAll ft). unfold getNestedDescription.
  destruct (unwrapAll ft) eqn:E; try reflexivity.
  - exfalso. clear -E. induction ft; cbn in E; try discriminate; auto.
  - exfalso. clear -E. induction ft; cbn in E; try discriminate; auto.
Qed.

Lemma fold_assign_distinct : forall (A : Type) (f : A -> value) (l : list (jsstring * A)) acc,
  distinct (List.map fst l) = true ->
  (forall k, In k (List.map fst l) -> ~ In k (List.map fst acc)) ->
  fold_left (fun description kv => assign (fst kv) (f (snd kv)) description) l acc
  = acc ++ List.map (fun kv => (fst kv, f (snd kv))) l.
Proof.
  intros A f. induction l as [|[k a] rest IH]; intros acc Hd Hdis.
  - cbn [fold_left List.map]. now rewrite app_nil_r.
  - cbn [List.map fst] in Hd. apply distinct_inv in Hd as [Hk Hd].
    cbn [fold_left fst snd List.map].
    rewrite assign_new by (apply Hdis; now left).
    rewrite IH; [now rewrite <- app_assoc|assumption|].
    intros k' Hin. rewrite map_app. intro Hin'. apply in_app_or in Hin' as [Hin'|Hin'].
    + apply (Hdis k'); [now right|assumption].
    + destruct Hin' as [E|[]]. cbn [fst] in E. subst k'. contradiction.
Qed.

Lemma describeField_notNullish : forall t, notNullish (describeField t) = true.
Proof. induction t using ZodType_nested_ind; try reflexivity; cbn; assumption. Qed.

Lemma filter_all_true : forall (A : Type) (p : A -> bool) l,
  (forall x, In x l -> p x = true) -> filter p l = l.
Proof.
  intros A p. induction l as [|a l IH]; intro H; [reflexivity|]. cbn [filter].
  rewrite (H a (or_introl eq_refl)). f_equal. apply IH. intros x Hx. apply H. now right.
Qed.

Lemma skeleton_object : forall key shape,
  skeleton key (ZodObject shape)
  = openTag key ++ concat (List.map (fun kv => skeleton (fst kv) (snd kv)) shape)
    ++ closeTag key.
Proof.
  intros key shape. cbn [skeleton]. f_equal. f_equal.
  induction shape as [|[k ft] rest IH]; [reflexivity|].
  cbn [List.map concat fst snd]. now rewrite IH.
Qed.

Lemma entryXml_skeleton : forall t key,
  goodName key = true -> keysOk t = true ->
  entryXml (key, describeField t) = skeleton key t.
Proof.
  induction t as [| | |values|element IHe|shape IHs|inner IHi|inner IHi|name holds pw _]
    using ZodType_nested_ind; intros key Hk Hok; try reflexivity.
  - cbn [keysOk] in Hok. apply andb_true_iff in Hok as [Hd Hall].
    rewrite describeField_object, skeleton_object.
    rewrite fold_assign_distinct by (assumption || (intros k _ [])). cbn [app].
    unfold entryXml. cbn [fst snd typeof_object]. rewrite objToXml_object.
    set (entries := List.map (fun kv => (fst kv, describeField (snd kv))) shape).
    assert (filter (fun kv => notNullish (snd kv)) entries = entries) as Hf.
    { apply filter_all_true. intros [k v] Hin. subst entries.
      apply in_map_iff in Hin as ([k' ft] & E & _). inversion E; subst.
      apply describeField_notNullish. }
    rewrite Hf. cbv zeta. cbn [keyTruthy keyOr].
    assert (concat (List.map entryXml entries)
            = concat (List.map (fun kv => skeleton (fst kv) (snd kv)) shape)) as Hc.
    { subst entries. rewrite map_map. f_equal. clear Hf Hd.
      induction IHs as [|[k ft] rest Hft _ IHrest]; [reflexivity|].
      cbn [forallb fst snd] in Hall. apply andb_true_iff in Hall as [H1 H2].
      apply andb_true_iff in H1 as [Hgk Hokft].
      cbn [List.map fst snd]. f_equal; [|now apply IHrest].
      now apply Hft. }
    destruct (forallb (fun kv => negb (notNullish (snd kv))) entries) eqn:Eall.
    + assert (entries = []) as En.
      { subst entries. destruct shape as [|[k ft] rest]; [reflexivity|].
        cbn [List.map forallb fst snd] in Eall.
        rewrite describeField_notNullish in Eall. discriminate. }
      rewrite <- Hc, En. cbn [List.map concat].
      destruct key as [|c key]; [discriminate|]. cbn [keyOr]. now apply wrapTag_good.
    + destruct key as [|c key]; [discriminate|]. cbn [keyTruthy keyOr].
      rewrite Hc. now apply wrapTag_good.
  - cbn [keysOk describeField skeleton] in *. now apply IHi.
  - cbn [keysOk describeField skeleton] in *. now apply IHi.
Qed.

(** X20.  The two copies of the template loop agree:
    [getOutputFormatDescription] builds what [getNestedDescription] builds
    for the output format.  When the keys of the format and of its nested
    records are distinct tag names, the [output_format] entry of the prompt
    is encoded as the nested empty elements of the declared fields, in
    declaration order, optional and nullable fields included: the template
    shows the names and the nesting, and nothing of the types. *)
Theorem output_template_skeleton : forall outputFormat,
  getOutputFormatDescription outputFormat = getNestedDescription outputFormat
  /\ (keysOk (ZodObject outputFormat) = true ->
      objToXml (getOutputFormatDescription outputFormat) (Some (str "output_format"))
      = skeleton (str "output_format") (ZodObject outputFormat)).
Proof.
  intros outputFormat. split; [apply getOutputFormatDescription_nested|].
  intro H. rewrite getOutputFormatDescription_nested. unfold getNestedDescription.
  rewrite <- (entryXml_skeleton (ZodObject outputFormat) (str "output_format"));
    [|reflexivity|assumption].
  unfold entryXml. cbn [fst snd]. rewrite describeField_object. reflexivity.
Qed.

Lemma output_template_skeleton_witness :
  objToXml (getOutputFormatDescription analysisFormat) (Some (str "output_format"))
  = str "<output_format><analysis><step1></step1><step2></step2><step3></step3></analysis><answer></answer><status></status></output_format>".
Proof.
  rewrite (proj2 (output_template_skeleton analysisFormat)); reflexivity.
Defined.

(** ** The field instructions *)










End DescribeLaws.

(* ===================================================================== *)
(** * The request of the final call *)
(* ===================================================================== *)

Module PromptLaws.
Import Agent Describe Inference Prompt Props Scenes.

Lemma numberOr_not_zero : forall configured dflt,
  isZero dflt = false -> isZero (numberOr configured dflt) = false.
Proof.
  intros [n|] dflt H; cbn [numberOr]; [|assumption].
  destruct (isZero n) eqn:E; assumption.
Qed.

(** X22.  The final call never asks for temperature 0: a configured
    temperature of 0, like none, is replaced by 0.7, and the request then
    carries that temperature, or 1 for a model whose name holds ["o4-"],
    or no temperature at all for a model whose name holds ["claude"]. *)
Theorem final_temperature_never_zero : forall env llm g input toolResults streaming,
  let request := finalRequest env llm g input toolResults streaming in
  let asked := numberOr (Prompt.temperature g) (str "0.7") in
  isZero asked = false
  /\ (forall n, Prompt.temperature g = Some n -> isZero n = true -> asked = str "0.7")
  /\ getProp (body request) (str "temperature")
     = (if Sse.includesStr (str "claude") llm then None
        else if Sse.includesStr (str "deepseek") llm then Some (VNum asked)
        else if Sse.includesStr (str "o4-") llm then Some (VNum (str "1"))
        else Some (VNum asked))
  /\ forall t, getProp (body request) (str "temperature") = Some (VNum t) ->
               isZero t = false.
Proof.
  intros env llm g input toolResults streaming request asked.
  assert (isZero asked = false) as Hz by (now apply numberOr_not_zero).
  assert (getProp (body request) (str "temperature")
          = (if Sse.includesStr (str "claude") llm then None
             else if Sse.includesStr (str "deepseek") llm then Some (VNum asked)
             else if Sse.includesStr (str "o4-") llm then Some (VNum (str "1"))
             else Some (VNum asked))) as Hb.
  { subst request. unfold finalRequest, requestFor, finalOptions.
    cbn [Inference.temperature Inference.maxTokens]. fold asked.
    generalize (messagesValue (messagesFor g (userPrompt g input toolResults))) as m.
    generalize (numberOr (Prompt.maxTokens g) (str "4000")) as mt. intros mt m.
    destruct (Sse.includesStr (str "claude") llm); [reflexivity|].
    destruct (Sse.includesStr (str "deepseek") llm); [reflexivity|].
    destruct (Sse.includesStr (str "o4-") llm); reflexivity. }
  split; [assumption|]. split.
  - intros n Hn Hzero. subst asked. rewrite Hn. cbn [numberOr]. now rewrite Hzero.
  - split; [assumption|]. intros t Ht. rewrite Hb in Ht.
    destruct (Sse.includesStr (str "claude") llm); [discriminate|].
    destruct (Sse.includesStr (str "deepseek") llm); [now inversion Ht; subst|].
    destruct (Sse.includesStr (str "o4-") llm); inversion Ht; subst; [reflexivity|assumption].
Qed.

Lemma final_temperature_never_zero_witness :
  getProp (body (finalRequest noEnv (str "gpt-4o-mini") coldGeneration (VObj []) [] false))
    (str "temperature")
  = Some (VNum (str "0.7")).
Proof.
  destruct (final_temperature_never_zero noEnv (str "gpt-4o-mini") coldGeneration
              (VObj []) [] false) as (_ & H2 & H3 & _).
  rewrite H3. rewrite (H2 (str "0") eq_refl eq_refl). reflexivity.
Defined.

(** ** Tool results in the prompt *)

Lemma objToXml_root_entries : forall entries,
  existsb (fun kv => notNullish (snd kv)) entries = true ->
  objToXml (VObj entries) None
  = concat (List.map entryXml (filter (fun kv => notNullish (snd kv)) entries)).
Proof.
  intros entries H. rewrite objToXml_object.
  destruct (forallb (fun kv => negb (notNullish (snd kv))) entries) eqn:E; [|reflexivity].
  exfalso. apply existsb_exists in H as (kv & Hin & Hv).
  rewrite forallb_forall in E. specialize (E kv Hin). rewrite Hv in E. discriminate.
Qed.

(** X23.  The prompt of the final call carries a [context] only when some
    tool result says something: when there is no result, or every result
    is [null], [undefined], the empty string or a mapping without values,
    the prompt is the prompt of a run without tools; otherwise it is that
    prompt followed by a [context] element that holds all the results, the
    empty ones with the others. *)
Theorem context_only_when_useful : forall g input toolResults,
  (hasToolResults toolResults = false
   <-> forall kv, In kv toolResults -> worthShowing (snd kv) = false)
  /\ (hasToolResults toolResults = false ->
      userPrompt g input toolResults = userPrompt g input [])
  /\ (hasToolResults toolResults = true ->
      userPrompt g input toolResults
      = userPrompt g input []
        ++ objToXml (VObj [(str "tool_results", VObj toolResults)]) (Some (str "context"))).
Proof.
  intros g input toolResults. split; [|split].
  - unfold hasToolResults. destruct toolResults as [|kv0 rest]; cbn [nonEmpty andb].
    + split; [intros _ kv []|reflexivity].
    + split; intro H.
      * intros kv Hin. destruct (worthShowing (snd kv)) eqn:E; [|reflexivity].
        assert (existsb (fun kv => worthShowing (snd kv)) (kv0 :: rest) = true) as Hex
            by (apply existsb_exists; eauto).
        rewrite Hex in H. discriminate.
      * destruct (existsb _ (kv0 :: rest)) eqn:E; [|reflexivity].
        apply existsb_exists in E as (kv & Hin & Hv). rewrite (H kv Hin) in Hv.
        discriminate.
  - intro H. unfold userPrompt, promptObject. now rewrite H.
  - intro H. unfold userPrompt, promptObject. rewrite H. cbn [hasToolResults nonEmpty andb].
    set (outputFormat := getOutputFormatDescription _).
    set (task := VStr _).
    rewrite !objToXml_root_entries.
    + rewrite filter_app, map_app, concat_app. f_equal.
      cbn [filter snd notNullish List.map concat]. unfold entryXml at 1.
      cbn [fst snd typeof_object]. apply app_nil_r.
    + cbn [existsb snd]. subst task. cbn [notNullish]. now rewrite !orb_true_r.
    + rewrite existsb_app. cbn [existsb snd notNullish]. now rewrite orb_true_r.
Qed.

Lemma context_only_when_useful_witness :
  userPrompt coldGeneration (VObj []) hollowResults = userPrompt coldGeneration (VObj []) [].
Proof.
  apply (context_only_when_useful coldGeneration (VObj []) hollowResults). reflexivity.
Defined.

End PromptLaws.

(* ===================================================================== *)
(** * The array the construction reports *)
(* ===================================================================== *)

Module SchemaLaws.
Import Agent Props Scenes DescribeLaws.









End SchemaLaws.

(* ===================================================================== *)
(** * The resolution of the input fields *)
(* ===================================================================== *)

Module ResolveLaws.
Import Agent Describe Utils Resolve Props Scenes RunLaws.

(** ** The address check *)

(** X25.  [validateUrl] returns the [href] of the parsed address, and
    only when the address is http or https, has no fragment, user name or
    password, decodes to a text without carriage return or line feed, and
    has an [href] of at most 2048 characters; in every other case,
    failures of the parser and of the decoder included, it throws an
    error whose message starts with ["Invalid URL: "]. *)
Theorem validateUrl_accepts : forall parseUrl decodeURIComponent userUrl,
  (forall checked,
     validateUrl parseUrl decodeURIComponent userUrl = inr checked ->
     exists parsed decoded,
       parseUrl userUrl = inr parsed /\ decodeURIComponent userUrl = inr decoded
       /\ checked = href parsed
       /\ (protocol parsed = str "http:" \/ protocol parsed = str "https:")
       /\ hash parsed = [] /\ username parsed = [] /\ password parsed = []
       /\ includes ch_cr decoded = false /\ includes ch_nl decoded = false
       /\ length (href parsed) <= 2048)
  /\ (forall e,
        validateUrl parseUrl decodeURIComponent userUrl = inl e ->
        exists message, e = Error (str "Invalid URL: " ++ message)).
Proof.
  intros parseUrl decodeURIComponent userUrl. unfold validateUrl, checkUrl. split.
  - intros checked H.
    destruct (parseUrl userUrl) as [m|parsed]; [discriminate|].
    destruct (negb (Js.eqb (protocol parsed) (str "http:"))
              && negb (Js.eqb (protocol parsed) (str "https:"))) eqn:Ep; [discriminate|].
    destruct (nonEmpty (hash parsed) || nonEmpty (username parsed)
              || nonEmpty (password parsed)) eqn:Eh; [discriminate|].
    destruct (decodeURIComponent userUrl) as [m|decoded]; [discriminate|].
    destruct (includes ch_cr decoded || includes ch_nl decoded) eqn:Ec; [discriminate|].
    destruct (2048 <? length (href parsed)) eqn:El; [discriminate|].
    inversion H; subst. exists parsed, decoded.
    apply orb_false_iff in Eh as [Eh Hp]. apply orb_false_iff in Eh as [Hh Hu].
    apply orb_false_iff in Ec as [Hcr Hnl]. apply Nat.ltb_ge in El.
    repeat split; try assumption; try reflexivity.
    + apply andb_false_iff in Ep as [E|E]; apply negb_false_iff in E;
        apply eqb_eq in E; auto.
    + now destruct (hash parsed).
    + now destruct (username parsed).
    + now destruct (password parsed).
  - intros e H. destruct (match parseUrl userUrl with inl m => _ | inr p => _ end)
      as [message|checked]; [|discriminate].
    exists message. congruence.
Qed.

Lemma validateUrl_accepts_witness :
  validateUrl knownUrl plainDecode (str "https://example.com")
  = inr (str "https://example.com/")
  /\ exists message,
       validateUrl knownUrl plainDecode (str "ftp://example.com")
       = inl (Error (str "Invalid URL: " ++ message)).
Proof.
  split; [reflexivity|].
  destruct (validateUrl_accepts knownUrl plainDecode (str "ftp://example.com")) as [_ H].
  destruct (H (Error (str "Invalid URL: Invalid scheme")) eq_refl) as [message E].
  exists message. now rewrite <- E.
Defined.

(** ** The loop over the fields *)

Lemma askLLM_silent : forall pol reply, silent (askLLM pol reply).
Proof.
  intros pol reply. unfold askLLM. apply silent_measured.
  apply silent_bind; [apply silent_lift|]. intros content.
  destruct (nonEmpty content); [apply silent_ret|apply silent_throw].
Qed.

Lemma lookup_assign_other : forall k key v entries,
  k <> key -> lookup key (assign k v entries) = lookup key entries.
Proof.
  intros k key v. induction entries as [|[k' old] rest IH]; intro H.
  - cbn [assign lookup]. apply eqb_neq in H. now rewrite H.
  - cbn [assign]. destruct (Js.eqb k' k) eqn:E.
    + apply eqb_eq in E. subst k'. cbn [lookup]. apply eqb_neq in H. now rewrite H.
    + cbn [lookup]. destruct (Js.eqb k' key); [reflexivity|now apply IH].
Qed.

Lemma getProp_setField_other : forall input k key result,
  k <> key -> getProp (setField input k result) key = getProp input key.
Proof.
  intros input k key result H. destruct input; try reflexivity.
  cbn [setField getProp]. now apply lookup_assign_other.
Qed.

(** After the address was accepted: the provider at it is asked, and the
    input is left as it is or gets the field. *)
Lemma resolveField_asked : forall pol w resolveReply key input tempServer st,
  exists out,
    Eff.bind (discoverTools pol w tempServer)
      (fun found => Eff.bind (Eff.deref found)
         (fun tools =>
            if negb (nonEmpty tools) then Eff.ret input
            else
              Eff.bind (askLLM pol (resolveReply key input tools))
                (fun response =>
                   match response with
                   | None | Some [] => Eff.ret input
                   | Some text =>
                       match getProp (xmlToObj text) (str "selected_tool") with
                       | None => Eff.ret input
                       | Some selected =>
                           if falsy selected then Eff.ret input
                           else
                             match findTool tools selected with
                             | None => Eff.ret input
                             | Some tool =>
                                 Eff.bind (generateToolParameters pol w input tool)
                                   (fun parameters =>
                                      Eff.bind (invokeTool pol w tempServer (tool_name tool)
                                                  (nullable parameters))
                                        (fun result =>
                                           Eff.ret (setField input key (nullable result))))
                             end
                       end
                   end))) st
    = (mkRun (discovered st ++ [tempServer]) (toolResults st) (toolInvocations st), out)
    /\ forall input', out = inr input' ->
                      input' = input \/ exists result, input' = setField input key result.
Proof.
  intros pol w resolveReply key input tempServer st.
  assert (forall st' : RunState,
            exists out : exn + value,
              (st', @inr exn value input) = (st', out)
              /\ forall input', out = inr input' ->
                   input' = input \/ exists result, input' = setField input key result)
    as Hsame.
  { intro st'. eexists. split; [reflexivity|]. intros input' H. inversion H. now left. }
  assert (forall (st' : RunState) (e : exn),
            exists out : exn + value,
              (st', @inl exn value e) = (st', out)
              /\ forall input', out = inr input' ->
                   input' = input \/ exists result, input' = setField input key result)
    as Hfail.
  { intros st' e. eexists. split; [reflexivity|]. intros input' H. discriminate H. }
  unfold Eff.bind at 1. pose proof (discoverTools_state pol w tempServer st) as Hd.
  destruct (discoverTools pol w tempServer st) as [st1 [e|found]]; cbn [fst] in Hd;
    rewrite <- Hd; [apply Hfail|].
  unfold Eff.bind at 1. destruct found as [tools|]; cbn [Eff.deref];
    [|apply Hfail].
  unfold Eff.ret at 1. destruct (negb (nonEmpty tools)); [apply Hsame|].
  unfold Eff.bind at 1. pose proof (askLLM_silent pol (resolveReply key input tools) st1) as Ha.
  destruct (askLLM pol (resolveReply key input tools) st1) as [st2 [e|response]];
    cbn [fst] in Ha; subst st2; [apply Hfail|].
  destruct response as [[|c text]|]; try apply Hsame.
  destruct (getProp (xmlToObj (c :: text)) (str "selected_tool")) as [selected|];
    try apply Hsame.
  destruct (falsy selected); try apply Hsame.
  destruct (findTool tools selected) as [tool|]; try apply Hsame.
  unfold Eff.bind at 1.
  pose proof (generateToolParameters_silent pol w input tool st1) as Hg.
  destruct (generateToolParameters pol w input tool st1) as [st2 [e|parameters]];
    cbn [fst] in Hg; subst st2; [apply Hfail|].
  unfold Eff.bind at 1.
  pose proof (invokeTool_silent pol w tempServer (tool_name tool) (nullable parameters) st1)
    as Hi.
  destruct (invokeTool pol w tempServer (tool_name tool) (nullable parameters) st1)
    as [st2 [e|result]]; cbn [fst] in Hi; subst st2; [apply Hfail|].
  eexists. split; [reflexivity|]. intros input' H. inversion H. right. eauto.
Qed.

Lemma resolveField_spec : forall pol w validateUrl resolveReply key schema input st,
  exists st' out,
    resolveField pol w validateUrl resolveReply key schema input st = (st', out)
    /\ (mcpUrl (descriptionOf schema) = None -> st' = st /\ out = inr input)
    /\ toolResults st' = toolResults st
    /\ toolInvocations st' = toolInvocations st
    /\ (discovered st' = discovered st
        \/ exists matched server,
             validateUrl matched = inr (server_url server)
             /\ discovered st' = discovered st ++ [server])
    /\ forall input', out = inr input' ->
                      input' = input \/ exists result, input' = setField input key result.
Proof.
  intros pol w validateUrl resolveReply key schema input st.
  unfold resolveField.
  assert (exists (st' : RunState) (out : exn + value),
            (st, @inr exn value input) = (st', out)
            /\ (mcpUrl (descriptionOf schema) = None -> st' = st /\ out = inr input)
            /\ toolResults st' = toolResults st
            /\ toolInvocations st' = toolInvocations st
            /\ (discovered st' = discovered st
                \/ exists matched server,
                     validateUrl matched = inr (server_url server)
                     /\ discovered st' = discovered st ++ [server])
            /\ forall input', out = inr input' ->
                 input' = input \/ exists result, input' = setField input key result)
    as Hsame.
  { exists st, (inr input). split; [reflexivity|]. split; [now split|].
    split; [reflexivity|]. split; [reflexivity|]. split; [now left|].
    intros input' H. inversion H. now left. }
  destruct (negb (nonEmpty (descriptionOf schema))
            || negb (startsWith (str "mcp:") (descriptionOf schema))); [exact Hsame|].
  destruct (mcpUrl (descriptionOf schema)) as [matched|] eqn:Em; [|exact Hsame].
  clear Hsame. unfold Eff.bind at 1. unfold Eff.lift at 1.
  destruct (validateUrl matched) as [e|serverUrl] eqn:Ev.
  { exists st, (inl e). split; [reflexivity|]. split; [discriminate|].
    split; [reflexivity|]. split; [reflexivity|]. split; [now left|].
    intros input' H. discriminate H. }
  match goal with
  | |- context [mkServer ?n ?d serverUrl] => set (tempServer := mkServer n d serverUrl)
  end.
  destruct (resolveField_asked pol w resolveReply key input tempServer st)
    as (out & H1 & H2).
  eexists. exists out. split; [exact H1|].
  cbn [toolResults toolInvocations discovered].
  split; [discriminate|]. split; [reflexivity|]. split; [reflexivity|].
  split; [|exact H2].
  right. exists matched, tempServer. split; [exact Ev|reflexivity].
Qed.

(** X26.  The resolution of the input fields leaves alone every field
    whose description does not announce a provider (["mcp:"] followed by
    an http or https address): a format without such a field is resolved
    without any call, the input and the run's variables staying as they
    were, and in any format the value of such a field, like that of an
    undeclared key, is what it was.  The providers the resolution asks
    are at addresses [validateUrl] accepted, and the tools it invokes are
    not recorded among the run's invocations and results. *)
Theorem resolution_leaves_unmarked :
  forall pol w validateUrl resolveReply shape input st,
  let r := resolveMCPInputFields pol w validateUrl resolveReply shape input st in
  ((forall key schema, In (key, schema) shape -> mcpUrl (descriptionOf schema) = None) ->
   r = (st, (input, None)))
  /\ (forall key,
        (forall schema, In (key, schema) shape -> mcpUrl (descriptionOf schema) = None) ->
        getProp (fst (snd r)) key = getProp input key)
  /\ toolResults (fst r) = toolResults st
  /\ toolInvocations (fst r) = toolInvocations st
  /\ exists asked,
       discovered (fst r) = discovered st ++ asked
       /\ Forall (fun server =>
                    exists matched, validateUrl matched = inr (server_url server)) asked.
Proof.
  intros pol w validateUrl resolveReply shape. induction shape as [|[k s] rest IH];
    intros input st r; subst r.
  - cbn [resolveMCPInputFields fst snd]. repeat split.
    exists []. split; [now rewrite app_nil_r|constructor].
  - cbn [resolveMCPInputFields].
    destruct (resolveField_spec pol w validateUrl resolveReply k s input st)
      as (st1 & out & Hrun & Hnone & Hres & Hinv & Hdis & Hout).
    rewrite Hrun. destruct out as [e|input1]; cbn [fst snd].
    + split; [intro H; destruct (Hnone (H k s (or_introl eq_refl))); discriminate|].
      repeat split; try assumption.
      destruct Hdis as [Hdis|(matched & server & Hv & Hdis)].
      * exists []. split; [now rewrite app_nil_r|constructor].
      * exists [server]. split; [assumption|]. constructor; [eauto|constructor].
    + destruct (IH input1 st1) as (I1 & I2 & I3 & I4 & asked & I5 & I6).
      cbv zeta in I1, I2, I3, I4, I5, I6.
      split; [|split; [|split; [|split]]].
      * intro H. destruct (Hnone (H k s (or_introl eq_refl))) as [-> E].
        inversion E; subst.
        apply I1. intros key schema Hin. apply (H key schema). now right.
      * intros key H. rewrite I2 by (intros schema Hin; apply H; now right).
        destruct (Hout input1 eq_refl) as [->|[result ->]]; [reflexivity|].
        destruct (list_eq_dec N.eq_dec k key) as [->|Hne].
        -- destruct (Hnone (H s (or_introl eq_refl))) as [_ E]. congruence.
        -- now apply getProp_setField_other.
      * congruence.
      * congruence.
      * destruct Hdis as [Hdis|(matched & server & Hv & Hdis)].
        -- exists asked. split; [congruence|assumption].
        -- exists (server :: asked). split.
           ++ rewrite I5, Hdis, <- app_assoc. reflexivity.
           ++ constructor; [eauto|assumption].
Qed.

Lemma resolution_leaves_unmarked_witness :
  getProp (fst (snd (resolveMCPInputFields Propagate eagerWorld acceptExample pickForecast
                       cityFormat askedInput emptyRun))) (str "question")
  = Some (VStr (str "Rain today?"))
  /\ resolveMCPInputFields Propagate eagerWorld acceptExample pickForecast
       [(str "question", SString (str "what is asked"))] askedInput emptyRun
     = (emptyRun, (askedInput, None)).
Proof.
  destruct (resolution_leaves_unmarked Propagate eagerWorld acceptExample pickForecast
              cityFormat askedInput emptyRun) as (_ & H2 & _).
  destruct (resolution_leaves_unmarked Propagate eagerWorld acceptExample pickForecast
              [(str "question", SString (str "what is asked"))] askedInput emptyRun)
    as (H1 & _).
  split.
  - rewrite (H2 (str "question")); [reflexivity|].
    intros schema [H|[H|[]]]; inversion H; subst; reflexivity.
  - apply H1. intros key schema [H|[]]. inversion H; subst. reflexivity.
Defined.

(** The marked field is resolved with the result of the selected tool. *)
Example resolution_fills_city :
  resolveMCPInputFields Propagate eagerWorld acceptExample pickForecast
    cityFormat askedInput emptyRun
  = (mkRun [mkServer (str "resolver_city")
              (str "Temporary server for resolving input field city")
              (str "https://example.com/geo")] [] [],
     (VObj [(str "question", VStr (str "Rain today?"));
            (str "city", VStr (str "forecast"))], None)).
Proof. vm_compute. reflexivity. Qed.

End ResolveLaws.
